(** * Instant Meshes: the multi-resolution hierarchy (src/hierarchy.cpp)

    A shallow embedding of [downsample_graph], of the two graph colorings,
    and of the [MultiResolutionHierarchy] methods [build], [clearConstraints],
    [propagateSolution] and [propagateConstraints], followed by the
    properties of the specification that are stated about them.

    Conventions of the embedding.
    - [uint32_t] and [uint8_t] values are binary naturals ([N]); [int] is [Z].
      Vertex and link counts are lengths of arrays and are kept as [nat]:
      the arrays of the program hold fewer than 2^32 elements, so the
      counters of the program never wrap.  The [uint8_t] color counter
      does wrap in the model (see [uint8_incr]).
    - [Float] is modelled by the rationals [Q]: exact arithmetic, no
      rounding.  Statements about floating-point values are therefore
      statements in exact arithmetic.  The quotient of two areas in
      [downsample_graph] is the one division that the program does not
      guard; there a division by zero gives an infinity or NaN, as it
      does for a [float] (see [float_div]).
    - Eigen vectors and matrices and [std::vector] are lists; a matrix is
      the list of its columns.  A read [a[i]] is the total lookup
      [a !!! i], a write [a[i] = x] is [<[i:=x]> a].  Out of range, the
      program has undefined behaviour; the model reads a default value and
      writes nothing, and every theorem states the bounds it relies on.
    - A [tbb::parallel_for] whose iterations write disjoint slots is the
      sequential loop over its range. *)

From Stdlib Require Import ZArith NArith QArith Lia Lqa String.
From stdpp Require Import sorting.
From stdpp Require Import base list numbers.

Open Scope nat_scope.

(** ** Machine types and arrays *)

#[global] Instance Q_inhabited : Inhabited Q := populate 0%Q.

(** [a[i]] for an index of type [uint32_t]. *)
Definition at32 {A} `{Inhabited A} (a : list A) (i : N) : A := a !!! N.to_nat i.
(** [a[i] = x] for an index of type [uint32_t]. *)
Definition set32 {A} (a : list A) (i : N) (x : A) : list A := <[N.to_nat i := x]> a.

(** The counter of a [for (uint32_t i = 0; i < n; ++i)] loop. *)
Definition range (n : nat) : list nat := seq 0 n.

(** [++] on a [uint8_t]. *)
Definition uint8_incr (c : N) : N := ((c + 1) mod 256)%N.

(** ** Exceptions

    Every [throw] of the file raises a [std::runtime_error]; the text
    tells what happened. *)

Inductive exn := runtime_error (what : string).

Definition ColoringExhausted : exn :=
  runtime_error "Ran out of colors during graph coloring! The input mesh is very likely corrupt.".
Definition UnsupportedSymmetry : exn :=
  runtime_error "Unsupported symmetry!".

(** ** Adjacency matrices

    [AdjacencyMatrix] is [Link **]: [adj[i]] points to the first link of
    vertex [i] inside one contiguous array, and [adj[i+1]] one past its
    last link.  The model keeps the contiguous array and, for every [i],
    the offset of [adj[i]] inside it. *)

(** Modelled from the spec: the declaration of [Link] is in a header that
    is not part of the sources; the specification describes a link as a
    neighbor id with a scalar weight, ordered by neighbor id. *)
Record Link := mkLink { id : N; weight : Q }.

#[global] Instance Link_inhabited : Inhabited Link := populate (mkLink 0 0%Q).

Record AdjacencyMatrix := mkAdj {
  adj_ptr : list nat;      (* adj[i], as an offset into the link array *)
  adj_links : list Link    (* the contiguous link array *)
}.

#[global] Instance AdjacencyMatrix_inhabited : Inhabited AdjacencyMatrix :=
  populate (mkAdj [] []).

(** The links [adj[i] .. adj[i+1]) of vertex [i]. *)
Definition adj_row (adj : AdjacencyMatrix) (i : nat) : list Link :=
  take (adj_ptr adj !!! (i + 1) - adj_ptr adj !!! i)
       (drop (adj_ptr adj !!! i) (adj_links adj)).

(** ** Graph coloring, deterministic variant
    ([generate_graph_coloring_deterministic], lines 210-267) *)

Module Deterministic.

Record state := mkState {
  color : list Z;                (* std::vector<int> color *)
  possible_colors : list N;      (* std::vector<uint8_t> possible_colors *)
  size_per_color : list Z;       (* std::vector<int> size_per_color *)
  ncolors : Z                    (* int ncolors *)
}.

Definition init (size : nat) : state :=
  {| color := replicate size (-1)%Z;
     possible_colors := [];
     size_per_color := [];
     ncolors := 0 |}.

(** Lines 236-240: clear the flag of every color a neighbor has. *)
Definition forbid (color : list Z) (pc : list N) (link : Link) : list N :=
  let c := at32 color (id link) in
  if (0 <=? c)%Z then <[Z.to_nat c := 0%N]> pc else pc.

(** Lines 242-248: the first index [j0 + k] whose flag is set, or [-1]. *)
Fixpoint first_possible (pc : list N) (j : nat) : Z :=
  match pc with
  | [] => (-1)%Z
  | b :: pc' => if negb (b =? 0)%N then Z.of_nat j else first_possible pc' (S j)
  end.

(** The body of the loop of lines 230-258 for the vertex [ip = perm[i]]. *)
Definition step (adj : AdjacencyMatrix) (st : state) (ip : N) : state :=
  let pc := (λ _, 1%N) <$> possible_colors st in
  let pc := foldl (forbid (color st)) pc (adj_row adj (N.to_nat ip)) in
  let chosen_color := first_possible pc 0 in
  if (chosen_color <? 0)%Z then
    let chosen_color := ncolors st in
    let ncolors' := (ncolors st + 1)%Z in
    let pc := resize (Z.to_nat ncolors') 0%N pc in
    let spc := size_per_color st ++ [0%Z] in
    {| color := set32 (color st) ip chosen_color;
       possible_colors := pc;
       size_per_color :=
         <[Z.to_nat chosen_color := (spc !!! Z.to_nat chosen_color + 1)%Z]> spc;
       ncolors := ncolors' |}
  else
    {| color := set32 (color st) ip chosen_color;
       possible_colors := pc;
       size_per_color :=
         <[Z.to_nat chosen_color :=
             (size_per_color st !!! Z.to_nat chosen_color + 1)%Z]> (size_per_color st);
       ncolors := ncolors st |}.

(** Lines 230-258. *)
Definition color_loop (adj : AdjacencyMatrix) (size : nat) (perm : list N) : state :=
  foldl (λ st i, step adj st (perm !!! i)) (init size) (range size).

(** Lines 259-263: [phases[color[i]].push_back(i)] for every vertex. *)
Definition push_phase (color : list Z) (phases : list (list N)) (i : nat)
  : list (list N) :=
  let c := Z.to_nat (color !!! i) in
  <[c := phases !!! c ++ [N.of_nat i]]> phases.

Definition build_phases (color : list Z) (ncolors : Z) (size : nat)
  : list (list N) :=
  foldl (push_phase color) (replicate (Z.to_nat ncolors) []) (range size).

End Deterministic.

(** [perm] is the array [perm] after [rng.shuffle] (line 223); the
    generator is not part of the sources.  The function has no [throw]:
    it always returns its phases. *)
Definition generate_graph_coloring_deterministic
    (adj : AdjacencyMatrix) (size : nat) (perm : list N) : list (list N) :=
  let st := Deterministic.color_loop adj size perm in
  Deterministic.build_phases (Deterministic.color st) (Deterministic.ncolors st) size.

(** ** Graph coloring, parallel variant
    ([generate_graph_coloring], lines 269-389)

    The per-vertex spin locks (lines 326-328 and 362-363) make the
    treatment of one vertex, from the first read of a neighbor's color to
    the write of its own color, atomic with respect to the treatment of
    every vertex that it lists or that lists it.  An execution of the
    [tbb::parallel_reduce] is therefore modelled as a sequence of such
    atomic steps, the _schedule_: each step names the body of the
    reduction (the worker's running [ColorData]) that performs it and the
    position in [perm] that it treats.  The locks themselves have no
    other effect and are not represented. *)

Module Parallel.

(** [const uint8_t INVALID_COLOR = 0xFF] (line 278). *)
Definition INVALID_COLOR : N := 255.

(** [struct ColorData] (lines 272-276).  The constructor leaves [nNodes]
    uninitialised; the model fills it with zeros, and the program reads
    an entry only after writing it. *)
Record ColorData := mkColorData {
  nColors : N;          (* uint8_t nColors *)
  nNodes : list N       (* uint32_t nNodes[256] *)
}.

Definition ColorData_ctor : ColorData :=
  {| nColors := 0; nNodes := replicate 256 0%N |}.

(** Lines 335-339: [while (c >= colorData.nColors) { ... }].  The loop
    runs at most 256 times for a [uint8_t] counter that reaches [c + 1];
    [fuel] bounds the recursion (see [grow_spec]). *)
Fixpoint grow (fuel : nat) (c : N) (cd : ColorData) (pc : list bool)
  : ColorData * list bool :=
  match fuel with
  | O => (cd, pc)
  | S fuel' =>
      if (nColors cd <=? c)%N then
        grow fuel' c
          {| nColors := uint8_incr (nColors cd);
             nNodes := set32 (nNodes cd) (nColors cd) 0%N |}
          (set32 pc (nColors cd) true)
      else (cd, pc)
  end.

(** Lines 332-342, for one link. *)
Definition see_neighbor (color : list N) (st : ColorData * list bool) (link : Link)
  : ColorData * list bool :=
  let c := at32 color (id link) in
  if negb (c =? INVALID_COLOR)%N then
    let '(cd, pc) := grow 256 c (st.1) (st.2) in
    (cd, set32 pc c false)
  else st.

(** Lines 344-350: the first [j < nColors] with [possible_colors[j]],
    or [INVALID_COLOR]. *)
Fixpoint first_possible (pc : list bool) (j : N) : N :=
  match pc with
  | [] => INVALID_COLOR
  | b :: pc' => if b then j else first_possible pc' (j + 1)%N
  end.

(** The body of the loop of lines 319-364 for the vertex [i = perm[pidx]],
    between [lock] and [unlock].  [pc] is the array [possible_colors]. *)
Definition step (adj : AdjacencyMatrix) (color : list N) (cd : ColorData)
    (pc : list bool) (i : N) : exn + (list N * ColorData * list bool) :=
  (* std::fill(possible_colors, possible_colors + colorData.nColors, true) *)
  let n := N.to_nat (nColors cd) in
  let pc := replicate n true ++ drop n pc in
  let '(cd, pc) := foldl (see_neighbor color) (cd, pc) (adj_row adj (N.to_nat i)) in
  let chosen_color := first_possible (take (N.to_nat (nColors cd)) pc) 0 in
  if (chosen_color =? INVALID_COLOR)%N then
    if (nColors cd =? INVALID_COLOR - 1)%N then inl ColoringExhausted
    else
      inr (set32 color i (nColors cd),
           {| nColors := uint8_incr (nColors cd);
              nNodes := set32 (nNodes cd) (nColors cd) 1%N |},
           pc)
  else
    inr (set32 color i chosen_color,
         {| nColors := nColors cd;
            nNodes := set32 (nNodes cd) chosen_color
                        (at32 (nNodes cd) chosen_color + 1)%N |},
         pc).

(** A body of the reduction: its running [ColorData], and the array
    [possible_colors] of its lambda (line 317).  The array is declared
    uninitialised on every call of the lambda; the model keeps one per
    body, initially all [false], since every entry is written (lines 330
    and 336) before it is read. *)
Record body := mkBody { colorData : ColorData; possible_colors : list bool }.

#[global] Instance body_inhabited : Inhabited body :=
  populate (mkBody ColorData_ctor (replicate 256 false)).

Record state := mkState {
  color : list N;         (* std::vector<uint8_t> color *)
  bodies : list body
}.

Definition init (size nbodies : nat) : state :=
  {| color := replicate size INVALID_COLOR;
     bodies := replicate nbodies (mkBody ColorData_ctor (replicate 256 false)) |}.

(** One atomic step of the schedule: body [ev.1] treats [perm[ev.2]]. *)
Definition run_step (adj : AdjacencyMatrix) (perm : list N)
    (st : exn + state) (ev : nat * nat) : exn + state :=
  match st with
  | inl e => inl e
  | inr st =>
      let b := bodies st !!! ev.1 in
      match step adj (color st) (colorData b) (possible_colors b) (perm !!! ev.2) with
      | inl e => inl e
      | inr (color', cd', pc') =>
          inr {| color := color'; bodies := <[ev.1 := mkBody cd' pc']> (bodies st) |}
      end
  end.

(** Lines 368-377: the join of two bodies. *)
Definition add_nodes (c : ColorData) (acc : list N) : list N :=
  foldl (λ acc i, <[i := (acc !!! i + nNodes c !!! i)%N]> acc) acc
        (range (N.to_nat (nColors c))).

Definition join (c1 c2 : ColorData) : ColorData :=
  let n := N.max (nColors c1) (nColors c2) in
  let zeroed := replicate (N.to_nat n) 0%N ++ drop (N.to_nat n) (replicate 256 0%N) in
  {| nColors := n; nNodes := add_nodes c2 (add_nodes c1 zeroed) |}.

(** Lines 380-385. *)
Definition push_phase (color : list N) (phases : list (list N)) (i : nat)
  : list (list N) :=
  let c := N.to_nat (color !!! i) in
  <[c := phases !!! c ++ [N.of_nat i]]> phases.

Definition build_phases (color : list N) (nColors : N) (size : nat)
  : list (list N) :=
  foldl (push_phase color) (replicate (N.to_nat nColors) []) (range size).

(** The schedule in which one body treats the whole range
    [[0, size)] in order (what [tbb::parallel_reduce] does for a range
    that it does not split). *)
Definition serial (size : nat) : list (nat * nat) := (λ pidx, (0, pidx)) <$> range size.

End Parallel.

(** [perm] is the array [perm] after the parallel shuffle (lines 292-309),
    [nbodies] the number of bodies of the reduction and [sched] the
    schedule of the coloring steps.  The result is the exception thrown
    (line 353) or the phases. *)
Definition generate_graph_coloring
    (adj : AdjacencyMatrix) (size : nat) (perm : list N)
    (nbodies : nat) (sched : list (nat * nat)) : exn + list (list N) :=
  match foldl (Parallel.run_step adj perm) (inr (Parallel.init size nbodies)) sched with
  | inl e => inl e
  | inr st =>
      let colorData :=
        foldl Parallel.join Parallel.ColorData_ctor
              (Parallel.colorData <$> Parallel.bodies st) in
      inr (Parallel.build_phases (Parallel.color st) (Parallel.nColors colorData) size)
  end.

(** ** Vectors ([Eigen::Vector3f]) *)

Record Vector3f := mkVec { vx : Q; vy : Q; vz : Q }.

#[global] Instance Vector3f_inhabited : Inhabited Vector3f := populate (mkVec 0%Q 0%Q 0%Q).

Definition Vector3f_Zero : Vector3f := mkVec 0%Q 0%Q 0%Q.
Definition Vector3f_UnitX : Vector3f := mkVec 1%Q 0%Q 0%Q.

Definition vadd (a b : Vector3f) : Vector3f :=
  mkVec (vx a + vx b)%Q (vy a + vy b)%Q (vz a + vz b)%Q.
Definition vsub (a b : Vector3f) : Vector3f :=
  mkVec (vx a - vx b)%Q (vy a - vy b)%Q (vz a - vz b)%Q.
Definition vscale (a : Vector3f) (s : Q) : Vector3f :=
  mkVec (vx a * s)%Q (vy a * s)%Q (vz a * s)%Q.
Definition vdiv (a : Vector3f) (s : Q) : Vector3f :=
  mkVec (vx a / s)%Q (vy a / s)%Q (vz a / s)%Q.
Definition dot (a b : Vector3f) : Q :=
  (vx a * vx b + vy a * vy b + vz a * vz b)%Q.
Definition squaredNorm (a : Vector3f) : Q := dot a a.

(** [a != b] on vectors: some coefficient differs. *)
Definition vneqb (a b : Vector3f) : bool :=
  negb (Qeq_bool (vx a) (vx b) && Qeq_bool (vy a) (vy b) && Qeq_bool (vz a) (vz b)).

(** [a > b] and [a != b] on [Float]. *)
Definition Qgtb (a b : Q) : bool := negb (Qle_bool a b).
Definition Qneqb (a b : Q) : bool := negb (Qeq_bool a b).

(** The sum of the coefficients of a [VectorXf]. *)
Definition Qsum (l : list Q) : Q := foldr Qplus 0%Q l.

(** ** Sorting

    Modelled from the spec: [pss::parallel_stable_sort] is a library
    header that is not part of the sources; the specification calls it a
    stable sort.  [stable_sort ltb] is the stable sort for the strict
    order [ltb] (an insertion sort: equal elements keep their order). *)

Fixpoint sort_insert {A} (ltb : A → A → bool) (x : A) (l : list A) : list A :=
  match l with
  | [] => [x]
  | y :: l' => if ltb y x then y :: sort_insert ltb x l' else x :: y :: l'
  end.

Definition stable_sort {A} (ltb : A → A → bool) (l : list A) : list A :=
  foldr (sort_insert ltb) [] l.

(** [Link::operator<]: by neighbor id. *)
Definition Link_ltb (a b : Link) : bool := (id a <? id b)%N.

(** The order in which a sort by [Link::operator<] leaves two links. *)
Definition Link_le (a b : Link) : Prop := (id a <= id b)%N.

#[global] Instance Link_le_dec : RelDecision Link_le :=
  λ a b, decide (id a <= id b)%N.

(** ** Downsampling ([downsample_graph], lines 24-208) *)

(** The quotient of line 52 is the one division of the sources that no
    test guards, and an area may be zero.  A [float] division by zero
    gives an infinity or NaN, so the value of [order] is a number, an
    infinity or NaN.  The zero of [Q] stands for the positive zero. *)
Inductive float := finite (q : Q) | infinity | neg_infinity | NaN.

(** [a / b] on numbers. *)
Definition float_div (a b : Q) : float :=
  if Qeq_bool b 0 then
    if Qgtb a 0 then infinity else if Qgtb 0 a then neg_infinity else NaN
  else finite (a / b).

(** [a * b], the left factor being a number. *)
Definition float_mul (a : Q) (b : float) : float :=
  match b with
  | finite q => finite (a * q)
  | infinity =>
      if Qgtb a 0 then infinity else if Qgtb 0 a then neg_infinity else NaN
  | neg_infinity =>
      if Qgtb a 0 then neg_infinity else if Qgtb 0 a then infinity else NaN
  | NaN => NaN
  end.

(** [a > b]: false whenever one side is NaN. *)
Definition float_gtb (a b : float) : bool :=
  match a, b with
  | NaN, _ | _, NaN => false
  | finite x, finite y => Qgtb x y
  | _, infinity => false
  | infinity, _ => true
  | neg_infinity, _ => false
  | finite _, neg_infinity => true
  end.

(** [struct Entry] (lines 30-36). *)
Record Entry := mkEntry { e_i : N; e_j : N; order : float }.

#[global] Instance Entry_inhabited : Inhabited Entry :=
  populate (mkEntry 0 0 (finite 0)).

(** [Entry::operator<] (line 35): [order > e.order].  NaN is neither
    above nor below any number; with NaN and two different numbers among
    the orders this is not a strict weak order, and the library sorts
    then promise no arrangement. *)
Definition Entry_ltb (a b : Entry) : bool := float_gtb (order a) (order b).

(** The output parameters of [downsample_graph]. *)
Record Coarse := mkCoarse {
  V_p : list Vector3f;
  N_p : list Vector3f;
  A_p : list Q;
  to_upper : list (N * N);      (* MatrixXu, one column (row 0, row 1) per vertex *)
  to_lower : list N
}.

(** The state of the greedy scan of lines 68-77. *)
Record Matching := mkMatching {
  entries : list Entry;
  mergeFlag : list bool;
  nCollapsed : nat
}.

Section Hierarchy.

(** *** Constants and collaborators that the sources do not define *)

(** [INVALID]: the sentinel of [to_upper] for "no second parent". *)
Variable INVALID : N.
(** [RCPOVERFLOW]: the threshold that guards divisions. *)
Variable RCPOVERFLOW : Q.
(** [MAX_DEPTH]: the maximal number of coarsening steps. *)
Variable MAX_DEPTH : nat.
(** The square root behind [norm()] and [normalize()]. *)
Variable sqrtf : Q → Q.
(** [tbb::parallel_sort] on entries and [std::sort] on links: which sorted
    arrangement they return is not specified. *)
Variable parallel_sort : list Entry → list Entry.
Variable std_sort : list Link → list Link.
(** The order in which the tasks of the parallel [copy_uncollapsed]
    (line 131) draw their indices from the atomic counter, for a level
    of the given size. *)
Variable copy_order : nat → list nat.

Definition norm (a : Vector3f) : Q := sqrtf (squaredNorm a).
(** [normalize()]: division by the norm. *)
Definition normalize (a : Vector3f) : Vector3f := vdiv a (norm a).

(** Lines 50-53: the entry of the [j]-th link of vertex [i]. *)
Definition make_entry (adj : AdjacencyMatrix) (N : list Vector3f) (A : list Q)
    (i j : nat) : Entry :=
  let k := id (adj_links adj !!! (adj_ptr adj !!! i + j)) in
  let dp := dot (N !!! i) (at32 N k) in
  let ratio := if Qgtb (A !!! i) (at32 A k) then float_div (A !!! i) (at32 A k)
               else float_div (at32 A k) (A !!! i) in
  mkEntry (N.of_nat i) k (float_mul dp ratio).

(** Lines 43-58. *)
Definition fill_entries (adj : AdjacencyMatrix) (V N : list Vector3f) (A : list Q)
    (entries0 : list Entry) : list Entry :=
  foldl (λ entries i,
           let nNeighbors := adj_ptr adj !!! (i + 1) - adj_ptr adj !!! i in
           let base := adj_ptr adj !!! i - adj_ptr adj !!! 0 in
           foldl (λ entries j, <[base + j := make_entry adj N A i j]> entries)
                 entries (range nNeighbors))
        entries0 (range (length V)).

(** Lines 71-77, one iteration. *)
Definition match_step (m : Matching) (i : nat) : Matching :=
  let e := entries m !!! i in
  if at32 (mergeFlag m) (e_i e) || at32 (mergeFlag m) (e_j e) then m
  else
    {| entries := <[nCollapsed m := e]> (entries m);
       mergeFlag := set32 (set32 (mergeFlag m) (e_j e) true) (e_i e) true;
       nCollapsed := nCollapsed m + 1 |}.

(** Lines 68-77. *)
Definition greedy_matching (sorted : list Entry) (nLinks ncols : nat) : Matching :=
  foldl match_step
        {| entries := sorted; mergeFlag := replicate ncols false; nCollapsed := 0 |}
        (range nLinks).

(** Lines 90-104, one iteration. *)
Definition collapse_step (V N : list Vector3f) (A : list Q) (entries : list Entry)
    (c : Coarse) (i : nat) : Coarse :=
  let e := entries !!! i in
  let area1 := at32 A (e_i e) in
  let area2 := at32 A (e_j e) in
  let surfaceArea := (area1 + area2)%Q in
  let v :=
    if Qgtb surfaceArea RCPOVERFLOW then
      vdiv (vadd (vscale (at32 V (e_i e)) area1) (vscale (at32 V (e_j e)) area2))
           surfaceArea
    else vscale (vadd (at32 V (e_i e)) (at32 V (e_j e))) (1 # 2)%Q in
  let normal := vadd (vscale (at32 N (e_i e)) area1) (vscale (at32 N (e_j e)) area2) in
  let norm := norm normal in
  {| V_p := <[i := v]> (V_p c);
     N_p := <[i := if Qgtb norm RCPOVERFLOW then vdiv normal norm else Vector3f_UnitX]>
              (N_p c);
     A_p := <[i := surfaceArea]> (A_p c);
     to_upper := <[i := (e_i e, e_j e)]> (to_upper c);
     to_lower := set32 (set32 (to_lower c) (e_i e) (N.of_nat i)) (e_j e) (N.of_nat i) |}.

(** Lines 115-124, one iteration; [offset] is the atomic counter. *)
Definition copy_step (V N : list Vector3f) (A : list Q) (mergeFlag : list bool)
    (st : Coarse * nat) (i : nat) : Coarse * nat :=
  if negb (mergeFlag !!! i) then
    let idx := st.2 in
    ({| V_p := <[idx := V !!! i]> (V_p st.1);
        N_p := <[idx := N !!! i]> (N_p st.1);
        A_p := <[idx := A !!! i]> (A_p st.1);
        to_upper := <[idx := (N.of_nat i, INVALID)]> (to_upper st.1);
        to_lower := <[i := N.of_nat idx]> (to_lower st.1) |},
     idx + 1)
  else st.

(** Lines 142-148 and 181-187: the links of the parents of the coarse
    vertex [i], renamed through [to_lower]. *)
Definition gather (adj : AdjacencyMatrix) (c : Coarse) (i : nat) : list Link :=
  foldl (λ scratch (upper : N),
           if (upper =? INVALID)%N then scratch
           else scratch ++
                  ((λ link, mkLink (at32 (to_lower c) (id link)) (weight link))
                     <$> adj_row adj (N.to_nat upper)))
        [] [(to_upper c !!! i).1; (to_upper c !!! i).2].

(** Lines 151-157: the number of links the coarse vertex [i] will have. *)
Definition count_links (i : nat) (scratch : list Link) : nat :=
  (foldl (λ (st : N * nat) link,
            if negb (st.1 =? id link)%N && negb (id link =? N.of_nat i)%N
            then (id link, st.2 + 1) else st)
         (INVALID, 0) scratch).2.

(** Lines 189-200: write the links of the coarse vertex [i] from [dest]
    on.  The state is the link array, [dest] and [id]. *)
Definition emit_step (i : nat) (st : list Link * nat * N) (link : Link)
  : list Link * nat * N :=
  let '(links, dest, id0) := st in
  if negb (id link =? N.of_nat i)%N then
    if negb (id0 =? id link)%N then (<[dest := link]> links, dest + 1, id link)
    else
      (<[dest - 1 := mkLink (id (links !!! (dest - 1)))
                            (weight (links !!! (dest - 1)%nat) + weight link)%Q]> links,
       dest, id0)
  else st.

Definition emit_links (i : nat) (scratch : list Link) (links : list Link) (dest : nat)
  : list Link :=
  (foldl (emit_step i) (links, dest, INVALID) scratch).1.1.

(** Lines 164-166: the running sums of the neighborhood sizes. *)
Definition prefix_sums (neighborhoodSize : list nat) : list nat :=
  foldl (λ ns i, <[i + 1 := ns !!! (i + 1) + ns !!! i]> ns)
        (<[0 := 0]> neighborhoodSize) (range (length neighborhoodSize - 1)).

(** Lines 133-204: the coarse adjacency matrix. *)
Definition coarse_adjacency (adj : AdjacencyMatrix) (c : Coarse) : AdjacencyMatrix :=
  let ncols_p := length (V_p c) in
  let neighborhoodSize :=
    foldl (λ ns i, <[i + 1 := count_links i (std_sort (gather adj c i))]> ns)
          (replicate (ncols_p + 1) 0) (range ncols_p) in
  let neighborhoodSize := prefix_sums neighborhoodSize in
  let nLinks_p := neighborhoodSize !!! (length neighborhoodSize - 1) in
  (* new Link*[V_p.size() + 1]: V_p.size() is the number of coefficients *)
  let adj_p :=
    foldl (λ adj_p i, <[i := neighborhoodSize !!! i]> adj_p)
          (replicate (3 * ncols_p + 1) 0) (range (length neighborhoodSize)) in
  let links :=
    foldl (λ links i, emit_links i (std_sort (gather adj c i)) links (adj_p !!! i))
          (replicate nLinks_p inhabitant) (range ncols_p) in
  {| adj_ptr := adj_p; adj_links := links |}.

(** [downsample_graph] (lines 24-208).  The result is the returned
    adjacency matrix with the output parameters. *)
Definition downsample_graph (adj : AdjacencyMatrix) (V N : list Vector3f) (A : list Q)
    (deterministic : bool) : AdjacencyMatrix * Coarse :=
  let nLinks := adj_ptr adj !!! (length V) - adj_ptr adj !!! 0 in
  let filled := fill_entries adj V N A (replicate nLinks inhabitant) in
  let sorted :=
    if deterministic then stable_sort Entry_ltb filled else parallel_sort filled in
  let m := greedy_matching sorted nLinks (length V) in
  let vertexCount := length V - nCollapsed m in
  let c := {| V_p := replicate vertexCount inhabitant;
              N_p := replicate vertexCount inhabitant;
              A_p := replicate vertexCount inhabitant;
              to_upper := replicate vertexCount inhabitant;
              to_lower := replicate (length V) inhabitant |} in
  let c := foldl (collapse_step V N A (entries m)) c (range (nCollapsed m)) in
  let c :=
    (foldl (copy_step V N A (mergeFlag m)) (c, nCollapsed m)
           (if deterministic then range (length V) else copy_order (length V))).1 in
  (coarse_adjacency adj c, c).

(** ** The hierarchy ([class MultiResolutionHierarchy]) *)

(** The members that the methods below read or write. *)
Record MultiResolutionHierarchy := mkMRH {
  mAdj : list AdjacencyMatrix;
  mV : list (list Vector3f);
  mN : list (list Vector3f);
  mA : list (list Q);
  mQ : list (list Vector3f);
  mO : list (list Vector3f);
  mCQ : list (list Vector3f);
  mCO : list (list Vector3f);
  mCQw : list (list Q);
  mCOw : list (list Q);
  mToUpper : list (list (N * N));
  mToLower : list (list N);
  mPhases : list (list (list N));
  mTotalSize : N;
  mScale : Q;
  mIterationsQ : Z;
  mIterationsO : Z;
  mFrozenQ : bool;
  mFrozenO : bool
}.

(** Modelled from the spec: the accessors [levels()], [size(l)] and
    [toUpper(l)] are declared in a header that is not part of the sources.
    The specification indexes the per-level arrays by [l] in [[0, L)],
    gives [V[l]] the length [n_l], and names [toUpper[l]] the map from the
    vertices of level [l+1] to their parents. *)
Definition levels (h : MultiResolutionHierarchy) : nat := length (mV h).
Definition size (h : MultiResolutionHierarchy) (level : nat) : nat :=
  length (mV h !!! level).
Definition toUpper (h : MultiResolutionHierarchy) (level : nat) : list (N * N) :=
  mToUpper h !!! level.

(** What a method leaves behind: it returns, or it throws; in both cases
    the object is in the state [h]. *)
Inductive outcome :=
  | Returns (h : MultiResolutionHierarchy)
  | Throws (e : exn) (h : MultiResolutionHierarchy).

(** *** [build] (lines 412-463) *)

(** [rng.shuffle] of the deterministic coloring, for a graph of the given
    size (the generator has a fixed seed). *)
Variable shuffle : nat → list N.
(** The shuffled permutation, the number of bodies and the schedule of
    the parallel coloring of a level. *)
Variable parallel_perm : nat → list N.
Variable parallel_bodies : nat → nat.
Variable parallel_schedule : nat → list (nat * nat).

(** Lines 415-418 and 440-443. *)
Definition color_level (deterministic : bool) (level : nat)
    (adj : AdjacencyMatrix) (n : nat) : exn + list (list N) :=
  if deterministic then inr (generate_graph_coloring_deterministic adj n (shuffle n))
  else generate_graph_coloring adj n (parallel_perm level) (parallel_bodies level)
                               (parallel_schedule level).

(** Lines 445-456. *)
Definition push_level (h : MultiResolutionHierarchy) (adj_p : AdjacencyMatrix)
    (c : Coarse) (phases_p : list (list N)) : MultiResolutionHierarchy :=
  {| mTotalSize := ((mTotalSize h + N.of_nat (length (V_p c))) mod 2 ^ 32)%N;
     mPhases := mPhases h ++ [phases_p];
     mAdj := mAdj h ++ [adj_p];
     mV := mV h ++ [V_p c];
     mN := mN h ++ [N_p c];
     mA := mA h ++ [A_p c];
     mToUpper := mToUpper h ++ [to_upper c];
     mToLower := mToLower h ++ [to_lower c];
     mCO := mCO h ++ [[]];
     mCOw := mCOw h ++ [[]];
     mCQ := mCQ h ++ [[]];
     mCQw := mCQw h ++ [[]];
     mQ := mQ h; mO := mO h; mScale := mScale h;
     mIterationsQ := mIterationsQ h; mIterationsO := mIterationsO h;
     mFrozenQ := mFrozenQ h; mFrozenO := mFrozenO h |}.

(** The loop of lines 429-459; [fuel] counts the iterations that remain
    of the [MAX_DEPTH] ones, [i] is the loop counter. *)
Fixpoint build_loop (fuel : nat) (i : nat) (deterministic : bool)
    (h : MultiResolutionHierarchy) : outcome :=
  match fuel with
  | O => Returns h
  | S fuel' =>
      let '(adj_p, c) :=
        downsample_graph (mAdj h !!! i) (mV h !!! i) (mN h !!! i) (mA h !!! i)
                         deterministic in
      match color_level deterministic (i + 1) adj_p (length (V_p c)) with
      | inl e => Throws e h
      | inr phases_p =>
          let h' := push_level h adj_p c phases_p in
          if length (mV h' !!! (length (mV h') - 1)) =? 1 then Returns h'
          else build_loop fuel' (i + 1) deterministic h'
      end
  end.

Definition build (deterministic : bool) (h : MultiResolutionHierarchy) : outcome :=
  match color_level deterministic 0 (mAdj h !!! 0) (length (mV h !!! 0)) with
  | inl e => Throws e h
  | inr phases =>
      let h1 :=
        {| mPhases := mPhases h ++ [phases];
           mTotalSize := (N.of_nat (length (mV h !!! 0%nat)) mod 2 ^ 32)%N;
           mCO := mCO h ++ [[]];
           mCOw := mCOw h ++ [[]];
           mCQ := mCQ h ++ [[]];
           mCQw := mCQw h ++ [[]];
           mAdj := mAdj h; mV := mV h; mN := mN h; mA := mA h;
           mQ := mQ h; mO := mO h;
           mToUpper := mToUpper h; mToLower := mToLower h; mScale := mScale h;
           mIterationsQ := mIterationsQ h; mIterationsO := mIterationsO h;
           mFrozenQ := mFrozenQ h; mFrozenO := mFrozenO h |} in
      match build_loop MAX_DEPTH 0 deterministic h1 with
      | Throws e h' => Throws e h'
      | Returns h' =>
          Returns
            {| mIterationsQ := -1; mIterationsO := -1;
               mFrozenQ := false; mFrozenO := false;
               mAdj := mAdj h'; mV := mV h'; mN := mN h'; mA := mA h';
               mQ := mQ h'; mO := mO h';
               mCQ := mCQ h'; mCO := mCO h'; mCQw := mCQw h'; mCOw := mCOw h';
               mToUpper := mToUpper h'; mToLower := mToLower h';
               mPhases := mPhases h'; mTotalSize := mTotalSize h';
               mScale := mScale h' |}
      end
  end.

(** *** [clearConstraints] (lines 529-542) *)

(** Eigen's [resize]: the coefficients are kept when the size does not
    change, and are unspecified (here: default values) when it does. *)
Definition eigen_resize {A} `{Inhabited A} (n : nat) (a : list A) : list A :=
  if length a =? n then a else replicate n inhabitant.

(** The hierarchy with new constraint arrays. *)
Definition set_constraints (h : MultiResolutionHierarchy)
    (mCQ' mCO' : list (list Vector3f)) (mCQw' mCOw' : list (list Q))
  : MultiResolutionHierarchy :=
  {| mCQ := mCQ'; mCO := mCO'; mCQw := mCQw'; mCOw := mCOw';
     mAdj := mAdj h; mV := mV h; mN := mN h; mA := mA h; mQ := mQ h; mO := mO h;
     mToUpper := mToUpper h; mToLower := mToLower h; mPhases := mPhases h;
     mTotalSize := mTotalSize h; mScale := mScale h;
     mIterationsQ := mIterationsQ h; mIterationsO := mIterationsO h;
     mFrozenQ := mFrozenQ h; mFrozenO := mFrozenO h |}.

(** Lines 535-540. *)
Definition clear_level (h : MultiResolutionHierarchy) (i : nat)
  : MultiResolutionHierarchy :=
  set_constraints h
    (<[i := eigen_resize (size h i) (mCQ h !!! i)]> (mCQ h))
    (<[i := eigen_resize (size h i) (mCO h !!! i)]> (mCO h))
    (<[i := replicate (size h i) 0%Q]> (mCQw h))
    (<[i := replicate (size h i) 0%Q]> (mCOw h)).

Definition clearConstraints (h : MultiResolutionHierarchy) : outcome :=
  if levels h =? 0 then Returns h
  else Returns (foldl clear_level h (range (levels h))).

(** *** [propagateSolution] (lines 544-592) *)

(** The orientation and position compatibility operators. *)
Definition compat_orientation :=
  Vector3f → Vector3f → Vector3f → Vector3f → Vector3f * Vector3f.
Definition compat_position :=
  Vector3f → Vector3f → Vector3f → Vector3f →
  Vector3f → Vector3f → Vector3f → Vector3f → Q → Q → Vector3f * Vector3f.

Variable compat_orientation_extrinsic_2 : compat_orientation.
Variable compat_orientation_extrinsic_4 : compat_orientation.
Variable compat_orientation_extrinsic_6 : compat_orientation.
Variable compat_position_extrinsic_3 : compat_position.
Variable compat_position_extrinsic_4 : compat_position.

(** Lines 545-553 and 600-608: [None] stands for the [throw]. *)
Definition select_compat_orient (rosy : Z) : option compat_orientation :=
  if (rosy =? 2)%Z then Some compat_orientation_extrinsic_2
  else if (rosy =? 4)%Z then Some compat_orientation_extrinsic_4
  else if (rosy =? 6)%Z then Some compat_orientation_extrinsic_6
  else None.

(** Lines 610-616. *)
Definition select_compat_pos (posy : Z) : option compat_position :=
  if (posy =? 4)%Z then Some compat_position_extrinsic_4
  else if (posy =? 3)%Z then Some compat_position_extrinsic_3
  else None.

(** Lines 581-584 and 659-662: remove the component along [n], then
    normalize if the result is long enough. *)
Definition project_normalize (n q : Vector3f) : Vector3f :=
  let q := vsub q (vscale n (dot n q)) in
  if Qgtb (squaredNorm q) RCPOVERFLOW then normalize q else q.

(** Lines 568-586: the tangent of the vertex [i] of level [l + 1]. *)
Definition coarse_tangent (compat_orient : compat_orientation)
    (h : MultiResolutionHierarchy) (l i : nat) : Vector3f :=
  let upper := toUpper h l !!! i in
  let q0 := at32 (mQ h !!! l) upper.1 in
  let n0 := at32 (mN h !!! l) upper.1 in
  let q :=
    if negb (upper.2 =? INVALID)%N then
      let q1 := at32 (mQ h !!! l) upper.2 in
      let n1 := at32 (mN h !!! l) upper.2 in
      let result := compat_orient q0 n0 q1 n1 in
      vadd result.1 result.2
    else q0 in
  project_normalize ((mN h !!! (l + 1)) !!! i) q.

Definition set_mQ (h : MultiResolutionHierarchy) (mQ' : list (list Vector3f))
  : MultiResolutionHierarchy :=
  {| mQ := mQ';
     mAdj := mAdj h; mV := mV h; mN := mN h; mA := mA h; mO := mO h;
     mCQ := mCQ h; mCO := mCO h; mCQw := mCQw h; mCOw := mCOw h;
     mToUpper := mToUpper h; mToLower := mToLower h; mPhases := mPhases h;
     mTotalSize := mTotalSize h; mScale := mScale h;
     mIterationsQ := mIterationsQ h; mIterationsO := mIterationsO h;
     mFrozenQ := mFrozenQ h; mFrozenO := mFrozenO h |}.

(** Line 586: [Q_next.col(i) = q], where [Q_next] is [mQ[l+1]]. *)
Definition propagate_vertex (compat_orient : compat_orientation) (l : nat)
    (h : MultiResolutionHierarchy) (i : nat) : MultiResolutionHierarchy :=
  set_mQ h (<[l + 1 := <[i := coarse_tangent compat_orient h l i]> (mQ h !!! (l + 1))]>
              (mQ h)).

(** Lines 558-590, one level. *)
Definition propagate_level (compat_orient : compat_orientation)
    (h : MultiResolutionHierarchy) (l : nat) : MultiResolutionHierarchy :=
  foldl (propagate_vertex compat_orient l) h (range (size h (l + 1))).

Definition propagateSolution (rosy : Z) (h : MultiResolutionHierarchy) : outcome :=
  match select_compat_orient rosy with
  | None => Throws UnsupportedSymmetry h
  | Some compat_orient =>
      Returns (foldl (propagate_level compat_orient) h (range (levels h - 1)))
  end.

(** *** [propagateConstraints] (lines 594-703) *)

(** What lines 638-697 store for the vertex [i] of level [l + 1]. *)
Record Constraint := mkConstraint {
  c_cq : Vector3f; c_cqw : Q; c_co : Vector3f; c_cow : Q
}.

Definition coarse_constraint (compat_orient : compat_orientation)
    (compat_pos : compat_position) (h : MultiResolutionHierarchy) (l i : nat)
  : Constraint :=
  let scale := mScale h in
  let inv_scale := (1 / mScale h)%Q in
  let N := mN h !!! l in
  let N_next := mN h !!! (l + 1) in
  let V := mV h !!! l in
  let V_next := mV h !!! (l + 1) in
  let CQ := mCQ h !!! l in
  let CQw := mCQw h !!! l in
  let CO := mCO h !!! l in
  let COw := mCOw h !!! l in
  let upper := toUpper h l !!! i in
  let has_cq0 := Qneqb (at32 CQw upper.1) 0 in
  let has_cq1 := negb (upper.2 =? INVALID)%N && Qneqb (at32 CQw upper.2) 0 in
  let has_co0 := Qneqb (at32 COw upper.1) 0 in
  let has_co1 := negb (upper.2 =? INVALID)%N && Qneqb (at32 COw upper.2) 0 in
  let '(cq, cqw) :=
    if has_cq0 && negb has_cq1 then (at32 CQ upper.1, at32 CQw upper.1)
    else if has_cq1 && negb has_cq0 then (at32 CQ upper.2, at32 CQw upper.2)
    else if has_cq1 && has_cq0 then
      let result := compat_orient (at32 CQ upper.1) (at32 N upper.1)
                                  (at32 CQ upper.2) (at32 N upper.2) in
      (vadd (vscale result.1 (at32 CQw upper.1)) (vscale result.2 (at32 CQw upper.2)),
       (at32 CQw upper.1 + at32 CQw upper.2)%Q)
    else (Vector3f_Zero, 0%Q) in
  let cq :=
    if vneqb cq Vector3f_Zero then project_normalize (N_next !!! i) cq else cq in
  let '(co, cow) :=
    if has_co0 && negb has_co1 then (at32 CO upper.1, at32 COw upper.1)
    else if has_co1 && negb has_co0 then (at32 CO upper.2, at32 COw upper.2)
    else if has_co1 && has_co0 then
      let result :=
        compat_pos (at32 V upper.1) (at32 N upper.1) (at32 CQ upper.1) (at32 CO upper.1)
                   (at32 V upper.2) (at32 N upper.2) (at32 CQ upper.2) (at32 CO upper.2)
                   scale inv_scale in
      let cow := (at32 COw upper.1 + at32 COw upper.2)%Q in
      (vdiv (vadd (vscale result.1 (at32 COw upper.1))
                  (vscale result.2 (at32 COw upper.2))) cow,
       cow)
    else (Vector3f_Zero, 0%Q) in
  let co :=
    if vneqb co Vector3f_Zero then
      let n := N_next !!! i in
      let v := V_next !!! i in
      vsub co (vscale n (dot n (vsub cq v)))
    else co in
  let cqw := if Qgtb cqw 0 then 1%Q else cqw in
  let cow := if Qgtb cow 0 then 1%Q else cow in
  {| c_cq := cq; c_cqw := cqw; c_co := co; c_cow := cow |}.

(** Lines 694-697. *)
Definition constrain_vertex (compat_orient : compat_orientation)
    (compat_pos : compat_position) (l : nat)
    (h : MultiResolutionHierarchy) (i : nat) : MultiResolutionHierarchy :=
  let r := coarse_constraint compat_orient compat_pos h l i in
  set_constraints h
    (<[l + 1 := <[i := c_cq r]> (mCQ h !!! (l + 1))]> (mCQ h))
    (<[l + 1 := <[i := c_co r]> (mCO h !!! (l + 1))]> (mCO h))
    (<[l + 1 := <[i := c_cqw r]> (mCQw h !!! (l + 1))]> (mCQw h))
    (<[l + 1 := <[i := c_cow r]> (mCOw h !!! (l + 1))]> (mCOw h)).

(** Lines 620-701, one level. *)
Definition constrain_level (compat_orient : compat_orientation)
    (compat_pos : compat_position)
    (h : MultiResolutionHierarchy) (l : nat) : MultiResolutionHierarchy :=
  foldl (constrain_vertex compat_orient compat_pos l) h (range (size h (l + 1))).

Definition propagateConstraints (rosy posy : Z) (h : MultiResolutionHierarchy)
  : outcome :=
  if levels h =? 0 then Returns h
  else
    match select_compat_orient rosy with
    | None => Throws UnsupportedSymmetry h
    | Some compat_orient =>
        match select_compat_pos posy with
        | None => Throws UnsupportedSymmetry h
        | Some compat_pos =>
            Returns (foldl (constrain_level compat_orient compat_pos) h
                           (range (levels h - 1)))
        end
    end.


(** ** Well-formed inputs *)

(** The per-level arrays of a hierarchy have the sizes of their levels,
    and [toUpper] names parents that exist. *)
Record wf_hierarchy (h : MultiResolutionHierarchy) : Prop := {
  wf_mN : length (mN h) = levels h;
  wf_mN_size : ∀ l, l < levels h → length (mN h !!! l) = size h l;
  wf_mToUpper : length (mToUpper h) = levels h - 1;
  wf_toUpper_size : ∀ l, l + 1 < levels h → length (toUpper h l) = size h (l + 1);
  wf_parents : ∀ l c, l + 1 < levels h → c < size h (l + 1) →
    N.to_nat (toUpper h l !!! c).1 < size h l ∧
    ((toUpper h l !!! c).2 = INVALID ∨ N.to_nat (toUpper h l !!! c).2 < size h l)
}.

(** [mQ] holds one tangent per vertex of every level. *)
Definition solution_allocated (h : MultiResolutionHierarchy) : Prop :=
  length (mQ h) = levels h ∧ ∀ l, l < levels h → length (mQ h !!! l) = size h l.

(** The constraint arrays hold one entry per vertex of every level (as
    [clearConstraints] leaves them). *)
Record constraints_allocated (h : MultiResolutionHierarchy) : Prop := {
  alloc_mCQ : length (mCQ h) = levels h;
  alloc_mCO : length (mCO h) = levels h;
  alloc_mCQw : length (mCQw h) = levels h;
  alloc_mCOw : length (mCOw h) = levels h;
  alloc_mCQ_size : ∀ l, l < levels h → length (mCQ h !!! l) = size h l;
  alloc_mCO_size : ∀ l, l < levels h → length (mCO h !!! l) = size h l;
  alloc_mCQw_size : ∀ l, l < levels h → length (mCQw h !!! l) = size h l;
  alloc_mCOw_size : ∀ l, l < levels h → length (mCOw h !!! l) = size h l
}.


(** ** Graphs and colorings *)

(** The neighbor ids that vertex [u] lists. *)
Definition neighbors (adj : AdjacencyMatrix) (u : N) : list N :=
  id <$> adj_row adj (N.to_nat u).

(** [u] lists [v] as a neighbor. *)
Definition edge (adj : AdjacencyMatrix) (u v : N) : Prop := v ∈ neighbors adj u.

(** A well-formed adjacency matrix of [n] vertices: the row pointers
    [adj[0] .. adj[n]] exist, do not decrease and stay inside the link
    array, and the rows name vertices of the graph. *)
Record wf_adjacency (adj : AdjacencyMatrix) (n : nat) : Prop := {
  wf_ptr_length : n + 1 ≤ length (adj_ptr adj);
  wf_ptr_mono : ∀ i, i < n → adj_ptr adj !!! i ≤ adj_ptr adj !!! (i + 1);
  wf_ptr_bound : adj_ptr adj !!! n ≤ length (adj_links adj);
  wf_ids : ∀ u v, (u < N.of_nat n)%N → edge adj u v → (v < N.of_nat n)%N
}.

Definition symmetric (adj : AdjacencyMatrix) (n : nat) : Prop :=
  ∀ u v, (u < N.of_nat n)%N → (v < N.of_nat n)%N → edge adj u v → edge adj v u.

Definition no_self_loops (adj : AdjacencyMatrix) (n : nat) : Prop :=
  ∀ u, (u < N.of_nat n)%N → ¬ edge adj u u.

(** [perm] holds every vertex of [0 .. n-1] once. *)
Definition is_permutation (perm : list N) (n : nat) : Prop :=
  perm ≡ₚ (N.of_nat <$> range n).

(** The phases are disjoint color classes that cover [0 .. n-1], and no
    class holds both ends of an edge. *)
Record valid_phases (adj : AdjacencyMatrix) (n : nat) (phases : list (list N))
  : Prop := {
  phases_cover : ∀ v, v ∈ concat phases ↔ (v < N.of_nat n)%N;
  phases_disjoint : NoDup (concat phases);
  phases_proper : ∀ phase u v,
    phase ∈ phases → u ∈ phase → v ∈ phase → ¬ edge adj u v
}.

(** A schedule of the parallel coloring of [n] vertices by [nbodies]
    bodies: every position of [perm] is treated once, by one of the bodies. *)
Definition is_schedule (sched : list (nat * nat)) (n nbodies : nat) : Prop :=
  sched.*2 ≡ₚ range n ∧ Forall (λ ev, ev.1 < nbodies) sched.

(** The greedy choice both colorings make for a vertex whose colored
    neighbors have the colors [used], when [k] colors exist so far: the
    color counter first grows to cover the colors in [used]; the vertex
    takes the least color below the counter that is not in [used], or
    else a new color.  The result is the color and the new counter. *)
Definition greedy_choice (used : list nat) (k : nat) : nat * nat :=
  let k' := foldl (λ k c, k `max` S c) k used in
  match list_find (λ j, j ∉ used) (seq 0 k') with
  | Some (j, _) => (j, k')
  | None => (k', S k')
  end.

(** The color of a vertex, read from the [color] array of the
    deterministic coloring ([-1]: none) and of the parallel coloring
    ([INVALID_COLOR]: none). *)
Definition det_color_of (color : list Z) (v : N) : option nat :=
  let c := at32 color v in if (0 <=? c)%Z then Some (Z.to_nat c) else None.

Definition par_color_of (color : list N) (v : N) : option nat :=
  let c := at32 color v in
  if (c =? Parallel.INVALID_COLOR)%N then None else Some (N.to_nat c).

(** The colors of the colored vertices that a row lists. *)
Definition used_colors (g : N → option nat) (row : list Link) : list nat :=
  omap (λ link, g (id link)) row.

(** The invariant of the loop of the deterministic coloring of [n]
    vertices: every vertex has no color or one of the [ncolors] colors,
    and there is one flag per color. *)
Record det_inv (n : nat) (st : Deterministic.state) : Prop := {
  det_color_length : length (Deterministic.color st) = n;
  det_ncolors_nonneg : (0 <= Deterministic.ncolors st)%Z;
  det_pc_length :
    length (Deterministic.possible_colors st) = Z.to_nat (Deterministic.ncolors st);
  det_color_range :
    Forall (λ c, (-1 <= c < Deterministic.ncolors st)%Z) (Deterministic.color st)
}.

(** No edge joins two vertices of the same color. *)
Definition proper_coloring (adj : AdjacencyMatrix) (n : nat) (g : N → option nat)
  : Prop :=
  ∀ u v c, (u < N.of_nat n)%N → edge adj u v → g u = Some c → g v ≠ Some c.

(** The vertices of [0 .. n-1] whose color is [c], in ascending order. *)
Definition phase_of (f : nat → nat) (n c : nat) : list N :=
  N.of_nat <$> filter (λ i, f i = c) (range n).

(** The colors of the array of the parallel coloring: none, or one of
    the 254 colors [0 .. 253]. *)
Definition par_colors_ok (color : list N) : Prop :=
  Forall (λ c, (c <= 253)%N ∨ c = Parallel.INVALID_COLOR) color.

(** The invariant of the parallel coloring of [n] vertices: the colors
    are among the 254 colors, no body counts more than 254 colors, every
    color in use is below the counter of some body, and the coloring is
    proper. *)
Record par_inv (adj : AdjacencyMatrix) (n : nat) (st : Parallel.state) : Prop := {
  par_color_length : length (Parallel.color st) = n;
  par_color_ok : par_colors_ok (Parallel.color st);
  par_bodies_ok :
    Forall (λ b, (Parallel.nColors (Parallel.colorData b) <= 254)%N ∧
                 length (Parallel.possible_colors b) = 256) (Parallel.bodies st);
  par_color_counted : ∀ v c,
    (v < N.of_nat n)%N → par_color_of (Parallel.color st) v = Some c →
    ∃ b, b ∈ Parallel.bodies st ∧ c < N.to_nat (Parallel.nColors (Parallel.colorData b));
  par_proper : proper_coloring adj n (par_color_of (Parallel.color st))
}.

(** The states of the two colorings agree: the same vertices have the
    same colors, as many colors exist, and the parallel coloring runs
    with one body. *)
Record colorings_agree (n : nat) (st_d : Deterministic.state) (st_p : Parallel.state)
  : Prop := {
  agree_length : length (Parallel.color st_p) = n;
  agree_colors_ok : par_colors_ok (Parallel.color st_p);
  agree_bodies : length (Parallel.bodies st_p) = 1;
  agree_counter_ok :
    (Parallel.nColors (Parallel.colorData (Parallel.bodies st_p !!! 0%nat)) <= 254)%N;
  agree_flags : length (Parallel.possible_colors (Parallel.bodies st_p !!! 0)) = 256;
  agree_counter :
    N.to_nat (Parallel.nColors (Parallel.colorData (Parallel.bodies st_p !!! 0)))
    = Z.to_nat (Deterministic.ncolors st_d);
  agree_colors : ∀ v, (v < N.of_nat n)%N →
    par_color_of (Parallel.color st_p) v = det_color_of (Deterministic.color st_d) v
}.

(** Every two distinct vertices are adjacent. *)
Definition complete (adj : AdjacencyMatrix) (n : nat) : Prop :=
  ∀ u v, (u < N.of_nat n)%N → (v < N.of_nat n)%N → u ≠ v → edge adj u v.

(** ** Downsampling *)

(** The entries of the links of vertex [i], in the order of its row. *)
Definition row_entries (adj : AdjacencyMatrix) (N : list Vector3f) (A : list Q)
    (i : nat) : list Entry :=
  make_entry adj N A i <$> range (adj_ptr adj !!! (i + 1) - adj_ptr adj !!! i).

(** An entry of the graph: a vertex with one of the neighbors it lists. *)
Definition valid_entry (adj : AdjacencyMatrix) (n : nat) (e : Entry) : Prop :=
  (e_i e < N.of_nat n)%N ∧ edge adj (e_i e) (e_j e).

(** The greedy scan of lines 68-77 as a function on lists: an entry is
    accepted when none of its ends is flagged; its ends are then flagged. *)
Definition accept (st : list bool * list Entry) (e : Entry) : list bool * list Entry :=
  if at32 st.1 (e_i e) || at32 st.1 (e_j e) then st
  else (set32 (set32 st.1 (e_j e) true) (e_i e) true, st.2 ++ [e]).

Definition matching (sorted : list Entry) (n : nat) : list bool * list Entry :=
  foldl accept (replicate n false, []) sorted.

(** The ends of a list of entries. *)
Definition endpoints (es : list Entry) : list N := es ≫= λ e, [e_i e; e_j e].

(** The invariant of the greedy scan on a graph of [n] vertices: the
    accepted entries are entries of the graph, no vertex is an end of two
    of them, and the flagged vertices are their ends. *)
Record matching_inv (adj : AdjacencyMatrix) (n : nat) (st : list bool * list Entry)
  : Prop := {
  mi_length : length st.1 = n;
  mi_valid : Forall (valid_entry adj n) st.2;
  mi_nodup : NoDup (endpoints st.2);
  mi_flags : ∀ v, (v < N.of_nat n)%N → (at32 st.1 v = true ↔ v ∈ endpoints st.2)
}.

(** The area of a collapsed pair. *)
Definition pair_area (A : list Q) (e : Entry) : Q :=
  (at32 A (e_i e) + at32 A (e_j e))%Q.

(** The vertices that the scan left unflagged, in the order in which
    [copy_uncollapsed] meets them. *)
Definition unmatched (flags : list bool) (order : list nat) : list nat :=
  filter (λ i, flags !!! i = false) order.

(** The sorted entries of a level, and the order in which the unmatched
    vertices are copied, on the deterministic and on the fast path. *)
Definition sorted_entries (adj : AdjacencyMatrix) (V N : list Vector3f) (A : list Q)
    (deterministic : bool) : list Entry :=
  let filled := concat (row_entries adj N A <$> range (length V)) in
  if deterministic then stable_sort Entry_ltb filled else parallel_sort filled.

Definition copy_sequence (n : nat) (deterministic : bool) : list nat :=
  if deterministic then range n else copy_order n.


(** No link of the level has NaN for its order.  NaN arises at line 53
    from two areas that are both zero, and from one zero area with
    orthogonal normals.  Without NaN, [Entry::operator<] is a strict weak
    order, as the sorts of lines 63-66 require. *)
Definition orders_defined (adj : AdjacencyMatrix) (N : list Vector3f) (A : list Q)
    (n : nat) : Prop :=
  ∀ i j, i < n → j < adj_ptr adj !!! (i + 1) - adj_ptr adj !!! i →
    order (make_entry adj N A i j) ≠ NaN.

(** The links of the parents of the coarse vertex [i], renamed through
    [to_lower]: what the specification calls the fine adjacency of the
    members projected through [to_lower]. *)
Definition projected_links (adj : AdjacencyMatrix) (c : Coarse) (i : nat) : list Link :=
  let '(p, q) := to_upper c !!! i in
  (λ link, mkLink (at32 (to_lower c) (id link)) (weight link))
    <$> (adj_row adj (N.to_nat p)
         ++ if decide (q = INVALID) then [] else adj_row adj (N.to_nat q)).

(** The loop of lines 189-200 on lists, the last link written first: a
    link to the vertex itself is dropped, a link to the neighbor written
    last is merged into it, any other link is written. *)
Definition merge_step (i : nat) (out : list Link) (link : Link) : list Link :=
  if (id link =? N.of_nat i)%N then out
  else match out with
       | prev :: out' =>
           if (id prev =? id link)%N
           then mkLink (id prev) (weight prev + weight link)%Q :: out'
           else link :: out
       | [] => [link]
       end.

Definition merge_links (i : nat) (scratch : list Link) : list Link :=
  reverse (foldl (merge_step i) [] scratch).

(** The variable [id] of the loops of lines 151-157 and 189-200. *)
Definition last_id (out : list Link) : N :=
  match out with prev :: _ => id prev | [] => INVALID end.

(** The total weight of the links of [links] to the neighbor [k]. *)
Definition weight_to (k : N) (links : list Link) : Q :=
  Qsum (weight <$> filter (λ link, id link = k) links).

(** The invariant of the loop of lines 189-200 on the links [seen] so
    far: the links written have decreasing ids from the last one back,
    they are the neighbors seen other than the vertex itself, and each
    carries the total weight of the links seen to its neighbor. *)
Record merge_inv (i : nat) (seen out : list Link) : Prop := {
  merge_sorted : StronglySorted (λ a b, (id b < id a)%N) out;
  merge_ids : ∀ k, k ∈ id <$> out ↔ k ≠ N.of_nat i ∧ k ∈ id <$> seen;
  merge_weights : ∀ x, x ∈ out → (weight x == weight_to (id x) seen)%Q
}.

(** The number of links of the rows below [k], in an array that holds
    the rows one after the other. *)
Definition links_before {A} (rows : nat → list A) (k : nat) : nat :=
  length (concat (rows <$> range k)).

(** The area of a coarse vertex from the areas of the finer level: the
    area of its only parent, or the sum of the areas of its two parents. *)
Definition parent_area (A : list Q) (parents : N * N) : Q :=
  if decide (parents.2 = INVALID) then at32 A parents.1
  else (at32 A parents.1 + at32 A parents.2)%Q.

(** A level that [downsample_graph] can coarsen: a well-formed adjacency
    matrix without self-loops, vertex numbers below [INVALID], and one
    area per vertex. *)
Record level_ok (adj : AdjacencyMatrix) (V : list Vector3f) (A : list Q) : Prop := {
  level_wf : wf_adjacency adj (length V);
  level_no_self_loops : no_self_loops adj (length V);
  level_bound : (N.of_nat (length V) <= INVALID)%N;
  level_areas : length A = length V
}.

(** The invariant of the loop of [build] when it has pushed level [i]:
    the levels [0 .. i] exist, level [0] has the areas [A0], level [i]
    can be coarsened, every level has the total area of [A0], and the
    areas of a level come from those of its parents. *)
Record build_inv (A0 : list Q) (h : MultiResolutionHierarchy) (i : nat) : Prop := {
  bi_mAdj : length (mAdj h) = i + 1;
  bi_mV : length (mV h) = i + 1;
  bi_mN : length (mN h) = i + 1;
  bi_mA : length (mA h) = i + 1;
  bi_mToUpper : length (mToUpper h) = i;
  bi_first : mA h !!! 0 = A0;
  bi_level : level_ok (mAdj h !!! i) (mV h !!! i) (mA h !!! i);
  bi_total : ∀ l, l ≤ i → (Qsum (mA h !!! l) == Qsum A0)%Q;
  bi_areas : ∀ l k, l < i → k < length (mV h !!! (l + 1)) →
    (mA h !!! (l + 1)) !!! k = parent_area (mA h !!! l) ((mToUpper h !!! l) !!! k)
}.

(** ** What is assumed of the collaborators

    The sorts and the parallel copy that the sources do not define
    permute their input, and [std::sort] leaves the links in the order of
    [Link::operator<].  [tbb::parallel_sort] leaves no entry before one
    that [Entry::operator<] puts first, provided that the operator is a
    strict weak order on the array, which it is when no order is NaN. *)
Hypothesis parallel_sort_perm : ∀ l, parallel_sort l ≡ₚ l.
Hypothesis parallel_sort_sorted : ∀ l,
  Forall (λ e, order e ≠ NaN) l →
  StronglySorted (λ a b, Entry_ltb b a = false) (parallel_sort l).
Hypothesis copy_order_perm : ∀ n, copy_order n ≡ₚ range n.
Hypothesis std_sort_perm : ∀ l, std_sort l ≡ₚ l.
Hypothesis std_sort_sorted : ∀ l, StronglySorted Link_le (std_sort l).


(** ** Checks that compute

    Boolean versions of the conditions on adjacency matrices, for
    concrete graphs. *)

Definition wf_adjacencyb (adj : AdjacencyMatrix) (n : nat) : bool :=
  (n + 1 <=? length (adj_ptr adj))
  && forallb (λ i, adj_ptr adj !!! i <=? adj_ptr adj !!! (i + 1)) (range n)
  && (adj_ptr adj !!! n <=? length (adj_links adj))
  && forallb (λ u, forallb (λ link, (id link <? N.of_nat n)%N) (adj_row adj u))
             (range n).

Definition no_self_loopsb (adj : AdjacencyMatrix) (n : nat) : bool :=
  forallb (λ u, forallb (λ link, negb (id link =? N.of_nat u)%N) (adj_row adj u))
          (range n).

Definition symmetricb (adj : AdjacencyMatrix) (n : nat) : bool :=
  forallb (λ u, forallb (λ link,
                   existsb (λ back, (id back =? N.of_nat u)%N)
                           (adj_row adj (N.to_nat (id link))))
                        (adj_row adj u))
          (range n).


(** ** Concrete graphs, levels and hierarchies *)

(** The vertices [0 .. n-1] in ascending order. *)
Definition identity_perm (n : nat) : list N := N.of_nat <$> range n.

(** The complete graph on [n] vertices, every link of weight 1. *)
Definition clique (n : nat) : AdjacencyMatrix :=
  {| adj_ptr := (λ i, i * (n - 1)) <$> range (n + 1);
     adj_links :=
       concat ((λ i, (λ j, mkLink (N.of_nat j) 1%Q) <$> filter (λ j, j ≠ i) (range n))
                 <$> range n) |}.

(** Two vertices and no link. *)
Definition isolated_pair : AdjacencyMatrix := {| adj_ptr := [0; 0; 0]; adj_links := [] |}.


(** Unit areas, the normal [(1, 0, 0)] everywhere, and the vertices on a
    line. *)
Definition unit_areas (n : nat) : list Q := replicate n 1%Q.
Definition flat_normals (n : nat) : list Vector3f := replicate n Vector3f_UnitX.
Definition line_positions (n : nat) : list Vector3f :=
  (λ i, mkVec 0%Q (inject_Z (Z.of_nat i)) 0%Q) <$> range n.

(** Sample values of the constants, and collaborators that compute.  The
    sentinel is the largest [uint32_t], the threshold a tiny positive
    number; the square root is exact on the squares of rationals. *)
Definition sample_INVALID : N := 4294967295.
Definition sample_RCPOVERFLOW : Q :=
  293873587705571876 # 100000000000000000000000000000000000000000000000000000000.
Definition sample_sqrtf (q : Q) : Q := Z.sqrt (Qnum q * Z.pos (Qden q)) # Qden q.
Definition sample_parallel_sort : list Entry → list Entry := stable_sort Entry_ltb.
Definition sample_std_sort : list Link → list Link :=
  merge_sort Link_le.
Definition sample_compat_orientation : compat_orientation :=
  λ q0 n0 q1 n1, (q0, q1).
Definition sample_compat_position : compat_position :=
  λ p0 n0 q0 o0 p1 n1 q1 o1 scale inv_scale, (o0, o1).

(** A hierarchy without levels, and one with the level [0] only. *)
Definition empty_hierarchy : MultiResolutionHierarchy :=
  mkMRH [] [] [] [] [] [] [] [] [] [] [] [] [] 0%N 0%Q (-1)%Z (-1)%Z false false.

Definition single_level (adj : AdjacencyMatrix) (n : nat) : MultiResolutionHierarchy :=
  mkMRH [adj] [line_positions n] [flat_normals n] [unit_areas n]
        [] [] [] [] [] [] [] [] [] 0%N 0%Q (-1)%Z (-1)%Z false false.

(** Two levels: two vertices with tangents and constraints, collapsed
    into one. *)
Definition two_levels : MultiResolutionHierarchy :=
  let up := mkVec 0%Q 0%Q 1%Q in
  mkMRH [clique 2; clique 1]
        [line_positions 2; line_positions 1]
        [[up; up]; [up]]
        [unit_areas 2; [2%Q]]
        [[Vector3f_UnitX; mkVec 0%Q 1%Q 0%Q]; [Vector3f_Zero]]
        [line_positions 2; line_positions 1]
        [[Vector3f_UnitX; Vector3f_Zero]; [Vector3f_Zero]]
        [[Vector3f_Zero; Vector3f_Zero]; [Vector3f_Zero]]
        [[1%Q; 0%Q]; [0%Q]]
        [[0%Q; 0%Q]; [0%Q]]
        [[(0%N, 1%N)]] [[0%N; 0%N]] [] 3%N 0%Q (-1)%Z (-1)%Z false false.

(** Two levels: two vertices with the same tangent, collapsed into one. *)
Definition aligned_levels : MultiResolutionHierarchy :=
  let up := mkVec 0%Q 0%Q 1%Q in
  mkMRH [clique 2; clique 1]
        [line_positions 2; line_positions 1]
        [[up; up]; [up]]
        [unit_areas 2; [2%Q]]
        [[Vector3f_UnitX; Vector3f_UnitX]; [Vector3f_Zero]]
        [line_positions 2; line_positions 1]
        [] [] [] []
        [[(0%N, 1%N)]] [[0%N; 0%N]] [] 3%N 0%Q (-1)%Z (-1)%Z false false.

(** Two levels, one vertex each: the coarse vertex has one parent, whose
    tangent is much shorter than the threshold allows to normalize. *)
Definition short_tangent : Vector3f :=
  mkVec (1 # 1000000000000000000000000000000) 0%Q 0%Q.

Definition promoted_vertex : MultiResolutionHierarchy :=
  let up := mkVec 0%Q 0%Q 1%Q in
  mkMRH [clique 1; clique 1]
        [line_positions 1; line_positions 1]
        [[up]; [up]]
        [unit_areas 1; unit_areas 1]
        [[short_tangent]; [Vector3f_UnitX]]
        [line_positions 1; line_positions 1]
        [] [] [] []
        [[(0%N, sample_INVALID)]] [[0%N]] [] 2%N 0%Q (-1)%Z (-1)%Z false false.


(** ** Further conditions and invariants *)

(** No vertex lists more than [d] links. *)
Definition max_degree (adj : AdjacencyMatrix) (n d : nat) : Prop :=
  ∀ u, u < n → length (adj_row adj u) ≤ d.

Definition max_degreeb (adj : AdjacencyMatrix) (n d : nat) : bool :=
  forallb (λ u, length (adj_row adj u) <=? d) (range n).

(** The vertices of a phase are listed in ascending order. *)
Definition ascending (phase : list N) : Prop := StronglySorted N.lt phase.

(** The position and the normal of the coarse vertex of the pair
    [(p, q)] (lines 91-100): the area-weighted mean of the positions, or
    their midpoint when the areas are too small; the normalized
    area-weighted sum of the normals, or [(1, 0, 0)] when it is too
    short. *)
Definition pair_position (V : list Vector3f) (A : list Q) (p q : N) : Vector3f :=
  if Qgtb (at32 A p + at32 A q) RCPOVERFLOW then
    vdiv (vadd (vscale (at32 V p) (at32 A p)) (vscale (at32 V q) (at32 A q)))
         (at32 A p + at32 A q)
  else vscale (vadd (at32 V p) (at32 V q)) (1 # 2)%Q.

Definition pair_normal_sum (N : list Vector3f) (A : list Q) (p q : BinNums.N) : Vector3f :=
  vadd (vscale (at32 N p) (at32 A p)) (vscale (at32 N q) (at32 A q)).

Definition pair_normal (N : list Vector3f) (A : list Q) (p q : BinNums.N) : Vector3f :=
  if Qgtb (norm (pair_normal_sum N A p q)) RCPOVERFLOW
  then vdiv (pair_normal_sum N A p q) (norm (pair_normal_sum N A p q))
  else Vector3f_UnitX.

(** Level [l + 1] of the hierarchy is what [downsample_graph] makes of
    level [l] (lines 437-451). *)
Definition coarsened (deterministic : bool) (h : MultiResolutionHierarchy) (l : nat)
  : Prop :=
  let d := downsample_graph (mAdj h !!! l) (mV h !!! l) (mN h !!! l) (mA h !!! l)
                            deterministic in
  mAdj h !!! (l + 1) = d.1 ∧ mV h !!! (l + 1) = V_p d.2 ∧
  mN h !!! (l + 1) = N_p d.2 ∧ mA h !!! (l + 1) = A_p d.2 ∧
  mToUpper h !!! l = to_upper d.2 ∧ mToLower h !!! l = to_lower d.2.

(** A hierarchy that holds its finest level and nothing else, as [build]
    expects it: one adjacency matrix, one array of positions, normals and
    areas, no phases, no constraints, no links between levels. *)
Record finest_level_only (h : MultiResolutionHierarchy) : Prop := {
  fl_mAdj : length (mAdj h) = 1;
  fl_mV : length (mV h) = 1;
  fl_mN : length (mN h) = 1;
  fl_mA : length (mA h) = 1;
  fl_mToUpper : mToUpper h = [];
  fl_mToLower : mToLower h = [];
  fl_mPhases : mPhases h = [];
  fl_mCQ : mCQ h = [];
  fl_mCO : mCO h = [];
  fl_mCQw : mCQw h = [];
  fl_mCOw : mCOw h = [];
  fl_level : level_ok (mAdj h !!! 0) (mV h !!! 0) (mA h !!! 0);
  fl_normals : length (mN h !!! 0) = length (mV h !!! 0)
}.

(** The invariant of the loop of [build] when it has pushed level [i]:
    the arrays hold the levels [0 .. i], every level can be coarsened and
    has the phases of its coloring, every level but the first is the
    coarsening of the one before, the constraint arrays are empty, and
    [mTotalSize] counts the vertices of all levels. *)
Record build_chain (deterministic : bool) (h : MultiResolutionHierarchy) (i : nat)
  : Prop := {
  bc_mAdj : length (mAdj h) = i + 1;
  bc_mV : length (mV h) = i + 1;
  bc_mN : length (mN h) = i + 1;
  bc_mA : length (mA h) = i + 1;
  bc_mPhases : length (mPhases h) = i + 1;
  bc_mToUpper : length (mToUpper h) = i;
  bc_mToLower : length (mToLower h) = i;
  bc_mCQ : mCQ h = replicate (i + 1) [];
  bc_mCO : mCO h = replicate (i + 1) [];
  bc_mCQw : mCQw h = replicate (i + 1) [];
  bc_mCOw : mCOw h = replicate (i + 1) [];
  bc_level : ∀ l, l ≤ i →
    level_ok (mAdj h !!! l) (mV h !!! l) (mA h !!! l) ∧
    length (mN h !!! l) = length (mV h !!! l);
  bc_phases : ∀ l, l ≤ i →
    color_level deterministic l (mAdj h !!! l) (length (mV h !!! l))
    = inr (mPhases h !!! l);
  bc_coarsened : ∀ l, l < i → coarsened deterministic h l;
  bc_total : mTotalSize h = (N.of_nat (sum_list (length <$> mV h)) mod 2 ^ 32)%N
}.

(** The object after a call, whether it returned or threw. *)
Definition state_of (o : outcome) : MultiResolutionHierarchy :=
  match o with Returns h | Throws _ h => h end.

(** Line 38: the number of links of a graph of [n] vertices. *)
Definition link_count (adj : AdjacencyMatrix) (n : nat) : nat :=
  adj_ptr adj !!! n - adj_ptr adj !!! 0.

(** *** [init_random_tangent], [init_random_position] and [resetSolution]
    (lines 465-511) *)

Section random_solution.

(** [coordinate_system(n, s, t)]: two tangent vectors [s] and [t] for
    the normal [n]. *)
Variable coordinate_system : Vector3f → Vector3f * Vector3f.

(** The floats of a default-constructed [pcg32]: [pcg32_float k] is what
    [nextFloat()] returns when the generator is [k] steps from its
    initial state, after [advance(k)] or after [k] calls of
    [nextFloat()], each of which takes one step. *)
Variable pcg32_float : nat → Q.

(** [std::cos], [std::sin] and the constant [M_PI]. *)
Variables cosf sinf : Q → Q.
Variable M_PI : Q.

(** Lines 472-476 for the vertex [i]; the state is the array [Q] and the
    number of steps that the generator of the range has taken. *)
Definition tangent_step (N : list Vector3f) (st : list Vector3f * nat) (i : nat)
  : list Vector3f * nat :=
  let '(s, t) := coordinate_system (N !!! i) in
  let angle := (pcg32_float st.2 * 2 * M_PI)%Q in
  (<[i := vadd (vscale s (cosf angle)) (vscale t (sinf angle))]> st.1, st.2 + 1).

(** Lines 469-477: the body, for the range [[r.1, r.2)]. *)
Definition tangent_body (N : list Vector3f) (Q : list Vector3f) (r : nat * nat)
  : list Vector3f :=
  (foldl (tangent_step N) (Q, r.1) (seq r.1 (r.2 - r.1))).1.

(** [init_random_tangent] (lines 465-479); [ranges] are the ranges that
    [tbb::parallel_for] hands to the body.  The bodies write different
    columns of [Q] and read [N] only, so that they are run here one
    after the other. *)
Definition init_random_tangent (ranges : list (nat * nat)) (N Q : list Vector3f)
  : list Vector3f :=
  foldl (tangent_body N) (eigen_resize (length N) Q) ranges.

(** Lines 488-493 for the vertex [i]. *)
Definition position_step (P N : list Vector3f) (scale : Q)
    (st : list Vector3f * nat) (i : nat) : list Vector3f * nat :=
  let '(s, t) := coordinate_system (N !!! i) in
  let x := (pcg32_float st.2 * 2 - 1)%Q in
  let y := (pcg32_float (st.2 + 1) * 2 - 1)%Q in
  (<[i := vadd (P !!! i) (vscale (vadd (vscale s x) (vscale t y)) scale)]> st.1,
   st.2 + 2).

(** Lines 485-494: the body; [2*range.begin()] is a 32-bit product. *)
Definition position_body (P N : list Vector3f) (scale : Q) (O : list Vector3f)
    (r : nat * nat) : list Vector3f :=
  (foldl (position_step P N scale) (O, N.to_nat ((2 * N.of_nat r.1) mod 2 ^ 32)%N)
         (seq r.1 (r.2 - r.1))).1.

(** [init_random_position] (lines 481-496). *)
Definition init_random_position (ranges : list (nat * nat)) (P N O : list Vector3f)
    (scale : Q) : list Vector3f :=
  foldl (position_body P N scale) (eigen_resize (length N) O) ranges.

(** [std::vector::resize]: the first elements are kept, empty matrices
    are appended. *)
Definition vector_resize (n : nat) (l : list (list Vector3f)) : list (list Vector3f) :=
  take n l ++ replicate (n - length l) [].

(** The hierarchy with a new solution. *)
Definition set_solution (h : MultiResolutionHierarchy) (mQ' mO' : list (list Vector3f))
    (frozenQ frozenO : bool) : MultiResolutionHierarchy :=
  {| mQ := mQ'; mO := mO'; mFrozenQ := frozenQ; mFrozenO := frozenO;
     mAdj := mAdj h; mV := mV h; mN := mN h; mA := mA h;
     mCQ := mCQ h; mCO := mCO h; mCQw := mCQw h; mCOw := mCOw h;
     mToUpper := mToUpper h; mToLower := mToLower h; mPhases := mPhases h;
     mTotalSize := mTotalSize h; mScale := mScale h;
     mIterationsQ := mIterationsQ h; mIterationsO := mIterationsO h |}.

(** Lines 505-508, one level; [rangesQ i] and [rangesO i] are the ranges
    of the two parallel loops of the level [i]. *)
Definition reset_level (rangesQ rangesO : nat → list (nat * nat))
    (h : MultiResolutionHierarchy) (i : nat) : MultiResolutionHierarchy :=
  let mQ' := <[i := init_random_tangent (rangesQ i) (mN h !!! i) (mQ h !!! i)]> (mQ h) in
  let mO' :=
    <[i := init_random_position (rangesO i) (mV h !!! i) (mN h !!! i) (mO h !!! i)
                                (mScale h)]> (mO h) in
  set_solution h mQ' mO' (mFrozenQ h) (mFrozenO h).

(** [resetSolution] (lines 498-511). *)
Definition resetSolution (rangesQ rangesO : nat → list (nat * nat))
    (h : MultiResolutionHierarchy) : MultiResolutionHierarchy :=
  let h :=
    if negb (length (mQ h) =? length (mV h)) then
      set_solution h (vector_resize (length (mV h)) (mQ h))
                     (vector_resize (length (mV h)) (mO h)) (mFrozenQ h) (mFrozenO h)
    else h in
  let h := foldl (reset_level rangesQ rangesO) h (range (length (mV h))) in
  set_solution h (mQ h) (mO h) false false.

(** The tangent and the position that the vertex [i] gets: the float
    number [i] of the generator turns the tangent, the floats number
    [2 i] and [2 i + 1] move the position. *)
Definition random_tangent (N : list Vector3f) (i : nat) : Vector3f :=
  let angle := (pcg32_float i * 2 * M_PI)%Q in
  vadd (vscale (coordinate_system (N !!! i)).1 (cosf angle))
       (vscale (coordinate_system (N !!! i)).2 (sinf angle)).

Definition random_position (P N : list Vector3f) (scale : Q) (i : nat) : Vector3f :=
  let x := (pcg32_float (2 * i) * 2 - 1)%Q in
  let y := (pcg32_float (2 * i + 1) * 2 - 1)%Q in
  vadd (P !!! i)
       (vscale (vadd (vscale (coordinate_system (N !!! i)).1 x)
                     (vscale (coordinate_system (N !!! i)).2 y)) scale).

End random_solution.

(** The ranges of a [tbb::parallel_for] over [[0, n)]: every index is in
    one range. *)
Definition blocked_ranges (ranges : list (nat * nat)) (n : nat) : Prop :=
  Forall (λ r, r.1 ≤ r.2) ranges ∧
  concat ((λ r, seq r.1 (r.2 - r.1)) <$> ranges) ≡ₚ range n.

(** ** More concrete data *)

(** The two levels of [two_levels] without constraints. *)
Definition unconstrained_levels : MultiResolutionHierarchy :=
  set_constraints two_levels (mCQ two_levels) (mCO two_levels)
                  [[0%Q; 0%Q]; [0%Q]] [[0%Q; 0%Q]; [0%Q]].

(** Collaborators of the random solution that compute: the same frame
    for every normal, floats that depend on the step, and rational
    stand-ins for the cosine, the sine and [M_PI]. *)
Definition sample_coordinate_system (n : Vector3f) : Vector3f * Vector3f :=
  (mkVec 0%Q 1%Q 0%Q, mkVec 0%Q 0%Q 1%Q).
Definition sample_pcg32_float (k : nat) : Q := 1 # Pos.of_nat (k + 2).
Definition sample_cosf (x : Q) : Q := (1 - x * x / 2)%Q.
Definition sample_sinf (x : Q) : Q := x.
Definition sample_M_PI : Q := 355 # 113.

(** Two ranges that cover [[0, n)], the upper half first. *)
Definition sample_ranges (n : nat) : list (nat * nat) := [(n / 2, n); (0, n / 2)].


(** * Properties *)

(** ** Arrays and loops *)

#[local] Arguments range : simpl never.
#[local] Set Default Proof Using "Type".

(** Tactics such as [tauto] take a collaborator of the section for a
    hypothesis (a function [nat → nat] for an implication).  The proofs
    that call them set aside the collaborators that their lemma does not
    name. *)
Ltac set_aside :=
  try clear RCPOVERFLOW; try clear MAX_DEPTH; try clear sqrtf; try clear shuffle;
  try clear parallel_perm; try clear parallel_bodies; try clear parallel_schedule.

Lemma range_S (n : nat) : range (S n) = range n ++ [n].
Proof. unfold range. by rewrite seq_S. Qed.

Lemma foldl_range_S {A} (f : A → nat → A) (a : A) (n : nat) :
  foldl f a (range (S n)) = f (foldl f a (range n)) n.
Proof. by rewrite range_S, foldl_app. Qed.

Lemma elem_of_range (n i : nat) : i ∈ range n ↔ i < n.
Proof. unfold range. rewrite elem_of_seq. lia. Qed.

Lemma length_range (n : nat) : length (range n) = n.
Proof. apply length_seq. Qed.

(** A loop whose body preserves an invariant preserves it. *)
Lemma foldl_invariant {A B} (P : A → Prop) (f : A → B → A) (l : list B) (a : A) :
  P a → (∀ a x, x ∈ l → P a → P (f a x)) → P (foldl f a l).
Proof.
  revert a. induction l as [|x l IH]; intros a Ha Hf; simpl; [done|].
  apply IH.
  - apply Hf; [left | done].
  - intros a' y Hy. apply Hf. by right.
Qed.

(** Writing slot [k] after the slots below it. *)
Lemma insert_fmap_range_drop {A} (f : nat → A) (k : nat) (old : list A) :
  k < length old →
  <[k := f k]> ((f <$> range k) ++ drop k old) = (f <$> range (S k)) ++ drop (S k) old.
Proof.
  intros Hk. rewrite range_S, fmap_app, <- app_assoc.
  rewrite insert_app_r_alt by (rewrite length_fmap, length_range; lia).
  rewrite length_fmap, length_range, Nat.sub_diag. f_equal.
  destruct (drop k old) as [|x tl] eqn:E.
  { apply (f_equal length) in E. rewrite length_drop in E. simpl in E. lia. }
  simpl. f_equal. replace (S k) with (k + 1) by lia. by rewrite <- drop_drop, E.
Qed.

Lemma lookup_total_fmap_range {A} `{Inhabited A} (f : nat → A) (n i : nat) :
  i < n → (f <$> range n) !!! i = f i.
Proof.
  intros Hi. rewrite (list_lookup_total_fmap f) by (by rewrite length_range).
  f_equal. unfold range. by rewrite lookup_total_seq_lt.
Qed.

(** ** Comparisons on [Float] *)

Lemma Qgtb_true (a b : Q) : Qgtb a b = true ↔ (b < a)%Q.
Proof.
  unfold Qgtb. rewrite negb_true_iff. split.
  - intros H. apply Qnot_le_lt. intros Hle. apply Qle_bool_iff in Hle. congruence.
  - intros H. destruct (Qle_bool a b) eqn:E; [|done].
    apply Qle_bool_iff in E. lra.
Qed.

Lemma Qgtb_false (a b : Q) : Qgtb a b = false ↔ (a <= b)%Q.
Proof.
  unfold Qgtb. rewrite negb_false_iff. apply Qle_bool_iff.
Qed.



Lemma elem_of_concat {A} (x : A) (ls : list (list A)) :
  x ∈ concat ls ↔ ∃ l, x ∈ l ∧ l ∈ ls.
Proof.
  induction ls as [|l ls IH]; simpl.
  - split; [by intros ?%elem_of_nil | by intros (l & _ & ?%elem_of_nil)].
  - rewrite elem_of_app, IH. split.
    + intros [H|(l' & H & H')]; [exists l | exists l']; split; try done;
        [left | by right].
    + intros (l' & H & [->|H']%elem_of_cons); [by left | right; eauto].
Qed.

Lemma Forall_elem_of {A} (P : A → Prop) (l : list A) (x : A) :
  Forall P l → x ∈ l → P x.
Proof.
  intros H Hx. apply list_elem_of_lookup in Hx as [i Hi].
  by eapply Forall_lookup_1.
Qed.

(** ** Sums of coefficients *)

Lemma Qsum_app (a b : list Q) : (Qsum (a ++ b) == Qsum a + Qsum b)%Q.
Proof.
  induction a as [|x a IH]; simpl; [lra|]. rewrite IH. lra.
Qed.

Lemma Qsum_perm (a b : list Q) : a ≡ₚ b → (Qsum a == Qsum b)%Q.
Proof.
  induction 1 as [|x a b _ IH|x y a|a b c _ IH1 _ IH2]; simpl; lra.
Qed.


(** ** The greedy choice of a color *)

Lemma foldl_max_le (used : list nat) (k : nat) :
  k ≤ foldl (λ k c, k `max` S c) k used ∧
  ∀ c, c ∈ used → c < foldl (λ k c, k `max` S c) k used.
Proof.
  revert k. induction used as [|u used IH]; intros k; simpl.
  - split; [done|]. intros c Hc. by apply elem_of_nil in Hc.
  - destruct (IH (k `max` S u)) as [Hk Hu]. split; [lia|].
    intros c [->|Hc]%elem_of_cons; [lia | by apply Hu].
Qed.

Lemma foldl_max_id (used : list nat) (k : nat) :
  (∀ c, c ∈ used → c < k) → foldl (λ k c, k `max` S c) k used = k.
Proof.
  revert k. induction used as [|u used IH]; intros k Hk; simpl; [done|].
  assert (u < k) by (apply Hk; left).
  replace (k `max` S u) with k by lia. apply IH.
  intros c Hc. apply Hk. by right.
Qed.

Lemma foldl_max_bound (used : list nat) (k b : nat) :
  k ≤ b → (∀ c, c ∈ used → c < b) → foldl (λ k c, k `max` S c) k used ≤ b.
Proof.
  revert k. induction used as [|u used IH]; intros k Hk Hb; simpl; [done|].
  apply IH.
  - assert (u < b) by (apply Hb; left). lia.
  - intros c Hc. apply Hb. by right.
Qed.

(** The chosen color is not a neighbor's, and it is below the new counter,
    which is not below the old one. *)
Lemma greedy_choice_spec (used : list nat) (k : nat) :
  ((greedy_choice used k).1 ∉ used) ∧
  (greedy_choice used k).1 < (greedy_choice used k).2 ∧
  k ≤ (greedy_choice used k).2 ∧
  (∀ u, u ∈ used → u < (greedy_choice used k).2).
Proof.
  unfold greedy_choice.
  destruct (foldl_max_le used k) as [Hk Hu].
  set (k' := foldl (λ k c, k `max` S c) k used) in *.
  destruct (list_find _ _) as [[j x]|] eqn:E; simpl.
  - apply list_find_Some in E as (Hjx & Hx & _).
    apply lookup_seq in Hjx as [-> Hj]. simpl in *. done.
  - repeat split; try lia.
    + intros Hin. apply Hu in Hin. lia.
    + intros u Hin. apply Hu in Hin. lia.
Qed.

(** No new color is made while a color below the counter is free. *)
Lemma greedy_choice_bound (used : list nat) (k b : nat) :
  k ≤ b → (∀ c, c ∈ used → c < b) →
  (greedy_choice used k).2 ≤ S b ∧
  ((greedy_choice used k).2 = S b → (greedy_choice used k).1 = b ∧
     ∀ j, j < b → j ∈ used).
Proof.
  intros Hk Hb. unfold greedy_choice.
  pose proof (foldl_max_bound used k b Hk Hb) as Hk'.
  set (k' := foldl (λ k c, k `max` S c) k used) in *.
  destruct (list_find _ _) as [[j x]|] eqn:E; simpl.
  - split; [lia|]. intros ->. lia.
  - split; [lia|]. intros [= Heq]. split; [done|]. subst k'.
    intros j Hj. rewrite Heq in E.
    apply list_find_None in E.
    rewrite Forall_forall in E. specialize (E j).
    destruct (decide (j ∈ used)) as [|Hn]; [done|].
    exfalso. apply E; [|done]. apply list_elem_of_In, elem_of_seq. lia.
Qed.

(** Two searches agree when their lists agree on the predicates, slot by
    slot. *)
Lemma list_find_pointwise {A B} (P : A → Prop) (Q : B → Prop)
    `{∀ x, Decision (P x)} `{∀ y, Decision (Q y)} (l1 : list A) (l2 : list B) :
  length l1 = length l2 →
  (∀ i x y, l1 !! i = Some x → l2 !! i = Some y → (P x ↔ Q y)) →
  fst <$> list_find P l1 = fst <$> list_find Q l2.
Proof.
  set_aside.
  revert l2. induction l1 as [|x l1 IH]; intros [|y l2] Hlen Hpq; try done.
  simpl. pose proof (Hpq 0 x y eq_refl eq_refl) as Hxy.
  destruct (decide (P x)), (decide (Q y)); try tauto; try done.
  rewrite <- !option_fmap_compose.
  assert (fst <$> list_find P l1 = fst <$> list_find Q l2) as IH'.
  { apply IH; [simpl in Hlen; lia|]. intros i. apply (Hpq (S i)). }
  destruct (list_find P l1) as [[]|], (list_find Q l2) as [[]|]; simpl in *;
    congruence.
Qed.

(** ** The deterministic coloring *)

Lemma det_first_possible_spec (pc : list N) (j : nat) :
  Deterministic.first_possible pc j =
  match list_find (λ b, b ≠ 0%N) pc with
  | Some (i, _) => Z.of_nat (j + i)
  | None => (-1)%Z
  end.
Proof.
  revert j. induction pc as [|b pc IH]; intros j; simpl; [done|].
  destruct (N.eqb_spec b 0) as [->|Hb]; simpl.
  - rewrite IH.
    destruct (list_find _ pc) as [[i x]|]; simpl; [f_equal; lia | done].
  - rewrite decide_True by done. f_equal. lia.
Qed.

Lemma used_colors_cons (g : N → option nat) (link : Link) (row : list Link) :
  used_colors g (link :: row) =
  match g (id link) with
  | Some c => c :: used_colors g row
  | None => used_colors g row
  end.
Proof. done. Qed.

Lemma elem_of_used_colors (g : N → option nat) (row : list Link) (c : nat) :
  c ∈ used_colors g row ↔ ∃ link, link ∈ row ∧ g (id link) = Some c.
Proof. unfold used_colors. by rewrite list_elem_of_omap. Qed.

Lemma det_color_of_cases (color : list Z) (v : N) :
  ((0 <= at32 color v)%Z ∧ det_color_of color v = Some (Z.to_nat (at32 color v))) ∨
  ((at32 color v < 0)%Z ∧ det_color_of color v = None).
Proof.
  unfold det_color_of. cbn zeta.
  destruct (Z.leb_spec 0 (at32 color v)); [left | right]; done.
Qed.

(** Lines 236-240: the flags after the scan of the neighbors. *)
Lemma det_forbid_spec (color : list Z) (row : list Link) (pc : list N) :
  let used := used_colors (det_color_of color) row in
  length (foldl (Deterministic.forbid color) pc row) = length pc ∧
  ∀ j, j < length pc →
    foldl (Deterministic.forbid color) pc row !!! j =
    if decide (j ∈ used) then 0%N else pc !!! j.
Proof.
  revert pc. induction row as [|link row IH]; intros pc; cbn zeta.
  - split; [done|]. intros j Hj. done.
  - cbn [foldl]. rewrite used_colors_cons.
    destruct (IH (Deterministic.forbid color pc link)) as [Hlen Hval].
    assert (Hflen : length (Deterministic.forbid color pc link) = length pc).
    { unfold Deterministic.forbid. destruct (_ <=? _)%Z; [|done].
      by rewrite length_insert. }
    split; [by rewrite Hlen|].
    intros j Hj. rewrite Hval by lia. unfold Deterministic.forbid.
    destruct (det_color_of_cases color (id link)) as [[Hc ->]|[Hc ->]].
    + apply Z.leb_le in Hc as Hb. rewrite Hb.
      destruct (decide (j = Z.to_nat (at32 color (id link)))) as [->|Hne].
      * rewrite (decide_True (P := _ ∈ _ :: _)) by left.
        destruct (decide (_ ∈ _)); [done|].
        by rewrite list_lookup_total_insert_eq.
      * rewrite list_lookup_total_insert_ne by done.
        destruct (decide (j ∈ used_colors (det_color_of color) row)).
        -- rewrite decide_True; [done | by right].
        -- rewrite decide_False; [done|].
           intros [?|?]%elem_of_cons; done.
    + apply Z.leb_gt in Hc as Hb. by rewrite Hb.
Qed.

Lemma det_used_lt (n : nat) (st : Deterministic.state) (row : list Link) :
  det_inv n st →
  (∀ link, link ∈ row → N.to_nat (id link) < n) →
  ∀ c, c ∈ used_colors (det_color_of (Deterministic.color st)) row →
       c < Z.to_nat (Deterministic.ncolors st).
Proof.
  intros [Hlen Hk _ Hrange] Hrow c (link & Hlink & Hc)%elem_of_used_colors.
  destruct (det_color_of_cases (Deterministic.color st) (id link))
    as [[H0 E]|[_ E]]; rewrite E in Hc; [|done].
  injection Hc as <-.
  assert ((-1 <= at32 (Deterministic.color st) (id link)
           < Deterministic.ncolors st)%Z) as Hb; [|lia].
  unfold at32. eapply (Forall_lookup_1 _ _ _ _ Hrange).
  apply list_lookup_lookup_total_lt. rewrite Hlen. by apply Hrow.
Qed.

(** One step of the deterministic coloring makes the greedy choice. *)
Lemma det_step_spec (adj : AdjacencyMatrix) (n : nat) (st : Deterministic.state)
    (ip : N) :
  det_inv n st →
  (∀ link, link ∈ adj_row adj (N.to_nat ip) → N.to_nat (id link) < n) →
  let used := used_colors (det_color_of (Deterministic.color st))
                          (adj_row adj (N.to_nat ip)) in
  let ck := greedy_choice used (Z.to_nat (Deterministic.ncolors st)) in
  Deterministic.color (Deterministic.step adj st ip)
    = set32 (Deterministic.color st) ip (Z.of_nat ck.1) ∧
  Deterministic.ncolors (Deterministic.step adj st ip) = Z.of_nat ck.2 ∧
  length (Deterministic.possible_colors (Deterministic.step adj st ip)) = ck.2.
Proof.
  intros Hinv Hrow. cbn zeta.
  pose proof (det_used_lt n st _ Hinv Hrow) as Hused.
  destruct Hinv as [Hlen Hk Hpc Hrange].
  set (row := adj_row adj (N.to_nat ip)) in *.
  set (used := used_colors (det_color_of (Deterministic.color st)) row) in *.
  set (k := Z.to_nat (Deterministic.ncolors st)) in *.
  unfold greedy_choice. rewrite (foldl_max_id used k Hused).
  unfold Deterministic.step. fold row.
  set (pc := foldl (Deterministic.forbid (Deterministic.color st))
                   ((λ _, 1%N) <$> Deterministic.possible_colors st) row).
  destruct (det_forbid_spec (Deterministic.color st) row
              ((λ _, 1%N) <$> Deterministic.possible_colors st)) as [Hpclen Hpcval].
  fold pc used in Hpclen, Hpcval. rewrite length_fmap, Hpc in Hpclen, Hpcval.
  rewrite det_first_possible_spec.
  assert (Hfind : fst <$> list_find (λ b, b ≠ 0%N) pc
                  = fst <$> list_find (λ j, j ∉ used) (seq 0 k)).
  { apply list_find_pointwise; [by rewrite length_seq|].
    intros i x y Hx Hy. apply lookup_seq in Hy as [-> Hi]. simpl.
    apply list_lookup_total_correct in Hx. rewrite Hpcval in Hx by done.
    destruct (decide (i ∈ used)); subst x; [done|].
    rewrite (list_lookup_total_fmap (λ _, 1%N)) by (rewrite Hpc; done).
    done. }
  destruct (list_find (λ b, b ≠ 0%N) pc) as [[i x]|],
           (list_find (λ j, j ∉ used) (seq 0 k)) as [[j y]|];
    try discriminate Hfind; cbn [fst snd].
  - injection Hfind as ->.
    replace (Z.of_nat (0 + j) <? 0)%Z with false by (symmetry; apply Z.ltb_ge; lia).
    cbn [Deterministic.color Deterministic.ncolors Deterministic.possible_colors].
    split; [done | split; [lia | apply Hpclen]].
  - replace (-1 <? 0)%Z with true by done.
    cbn [Deterministic.color Deterministic.ncolors Deterministic.possible_colors].
    split; [|split].
    + f_equal. lia.
    + lia.
    + rewrite length_resize. lia.
Qed.

(** ** Proper colorings *)

Lemma edge_link (adj : AdjacencyMatrix) (u v : N) :
  edge adj u v ↔ ∃ link, link ∈ adj_row adj (N.to_nat u) ∧ id link = v.
Proof.
  unfold edge, neighbors. rewrite list_elem_of_fmap. split.
  - intros (link & -> & Hlink). eauto.
  - intros (link & Hlink & <-). eauto.
Qed.

(** Giving a vertex a color that none of its colored neighbors has keeps
    a coloring proper. *)
Lemma proper_update (adj : AdjacencyMatrix) (n : nat) (g : N → option nat)
    (ip : N) (c : nat) :
  wf_adjacency adj n → symmetric adj n → no_self_loops adj n →
  (ip < N.of_nat n)%N →
  proper_coloring adj n g →
  c ∉ used_colors g (adj_row adj (N.to_nat ip)) →
  proper_coloring adj n (λ v, if decide (v = ip) then Some c else g v).
Proof.
  intros Hwf Hsym Hnoself Hip Hg Hc u v c' Hu Huv.
  pose proof (wf_ids adj n Hwf u v Hu Huv) as Hv.
  destruct (decide (u = ip)) as [->|Hne], (decide (v = ip)) as [->|Hne'].
  - by apply Hnoself in Huv.
  - intros [= <-] Hgv. apply Hc. apply elem_of_used_colors.
    apply edge_link in Huv as (link & Hlink & <-). eauto.
  - intros Hgu [= <-]. apply Hc. apply elem_of_used_colors.
    apply Hsym in Huv; [|done..].
    apply edge_link in Huv as (link & Hlink & <-). eauto.
  - by apply Hg.
Qed.

Lemma det_color_of_set32 (color : list Z) (ip v : N) (c : nat) :
  N.to_nat ip < length color →
  det_color_of (set32 color ip (Z.of_nat c)) v
  = if decide (v = ip) then Some c else det_color_of color v.
Proof.
  intros Hip. unfold det_color_of, set32, at32. cbn zeta.
  destruct (decide (v = ip)) as [->|Hne].
  - rewrite list_lookup_total_insert_eq by done.
    replace (0 <=? Z.of_nat c)%Z with true by (symmetry; apply Z.leb_le; lia).
    f_equal. lia.
  - rewrite list_lookup_total_insert_ne; [done | lia].
Qed.

(** The step of the deterministic coloring keeps the invariant and the
    coloring proper, colors its vertex, and makes at most one new color. *)
Lemma det_step_inv (adj : AdjacencyMatrix) (n : nat) (st : Deterministic.state)
    (ip : N) :
  wf_adjacency adj n → symmetric adj n → no_self_loops adj n →
  (ip < N.of_nat n)%N →
  det_inv n st →
  proper_coloring adj n (det_color_of (Deterministic.color st)) →
  let st' := Deterministic.step adj st ip in
  det_inv n st' ∧
  proper_coloring adj n (det_color_of (Deterministic.color st')) ∧
  (Deterministic.ncolors st <= Deterministic.ncolors st'
     <= Deterministic.ncolors st + 1)%Z ∧
  (∀ v, det_color_of (Deterministic.color st') v
        = if decide (v = ip) then det_color_of (Deterministic.color st') ip
          else det_color_of (Deterministic.color st) v) ∧
  det_color_of (Deterministic.color st') ip ≠ None.
Proof.
  intros Hwf Hsym Hnoself Hip Hinv Hproper. cbn zeta.
  assert (Hrow : ∀ link, link ∈ adj_row adj (N.to_nat ip) → N.to_nat (id link) < n).
  { intros link Hlink.
    assert (id link < N.of_nat n)%N; [|lia].
    apply (wf_ids adj n Hwf ip); [done|]. apply edge_link. eauto. }
  destruct (det_step_spec adj n st ip Hinv Hrow) as (Hcolor & Hncolors & Hpc).
  pose proof (det_used_lt n st _ Hinv Hrow) as Hused.
  set (used := used_colors (det_color_of (Deterministic.color st))
                           (adj_row adj (N.to_nat ip))) in *.
  set (k := Z.to_nat (Deterministic.ncolors st)) in *.
  destruct (greedy_choice_spec used k) as (Hnotin & Hlt & Hle & _).
  destruct (greedy_choice_bound used k k (le_n _) Hused) as [Hle' _].
  destruct Hinv as [Hlen Hk Hpclen Hrange].
  assert (Hview : ∀ v, det_color_of (Deterministic.color (Deterministic.step adj st ip)) v
                      = if decide (v = ip) then Some (greedy_choice used k).1
                        else det_color_of (Deterministic.color st) v).
  { intros v. rewrite Hcolor. apply det_color_of_set32. lia. }
  split; [|split; [|split; [|split]]].
  - split.
    + rewrite Hcolor. unfold set32. by rewrite length_insert.
    + lia.
    + rewrite Hpc, Hncolors. lia.
    + rewrite Hcolor, Hncolors. unfold set32. apply Forall_insert.
      * apply Forall_lookup_2. intros i x Hx.
        pose proof (Forall_lookup_1 _ _ _ _ Hrange Hx) as Hc. cbn beta in Hc. lia.
      * lia.
  - intros u v c Hu Huv. rewrite !Hview.
    by apply (proper_update adj n _ ip (greedy_choice used k).1).
  - lia.
  - intros v. rewrite !Hview. rewrite (decide_True (P := ip = ip)) by done. done.
  - rewrite Hview. by rewrite decide_True.
Qed.

(** ** From colors to phases *)

Lemma phase_of_S (f : nat → nat) (n c : nat) :
  phase_of f (S n) c = if decide (f n = c) then phase_of f n c ++ [N.of_nat n]
                       else phase_of f n c.
Proof.
  unfold phase_of. rewrite range_S, list.filter_app, fmap_app.
  rewrite filter_cons, filter_nil.
  destruct (decide (f n = c)); [done | by rewrite app_nil_r].
Qed.

Lemma elem_of_phase_of (f : nat → nat) (n c : nat) (v : N) :
  v ∈ phase_of f n c ↔ ∃ i, v = N.of_nat i ∧ i < n ∧ f i = c.
Proof.
  unfold phase_of. rewrite list_elem_of_fmap. split.
  - intros (i & -> & Hi). apply list_elem_of_filter in Hi as [Hf Hi].
    apply elem_of_range in Hi. eauto.
  - intros (i & -> & Hi & Hf). exists i. split; [done|].
    apply list_elem_of_filter. split; [done | by apply elem_of_range].
Qed.

Lemma NoDup_phase_of (f : nat → nat) (n c : nat) : NoDup (phase_of f n c).
Proof.
  unfold phase_of. apply NoDup_fmap_2; [apply _|].
  apply list.NoDup_filter, NoDup_seq.
Qed.

(** Lines 259-263 and 380-385: pushing every vertex to the phase of its
    color builds, for every color, the list of its vertices. *)
Lemma push_phases (f : nat → nat) (k n : nat) :
  (∀ i, i < n → f i < k) →
  foldl (λ phases i, <[f i := phases !!! f i ++ [N.of_nat i]]> phases)
        (replicate k []) (range n)
  = phase_of f n <$> range k.
Proof.
  induction n as [|n IH]; intros Hf.
  - simpl. apply list_eq. intros c.
    destruct (decide (c < k)) as [Hc|Hc].
    + rewrite lookup_replicate_2 by done.
      rewrite list_lookup_fmap. unfold range. by rewrite lookup_seq_lt.
    + rewrite !lookup_ge_None_2; [done | | ].
      * rewrite length_fmap, length_range. lia.
      * rewrite length_replicate. lia.
  - rewrite foldl_range_S, IH by (intros i Hi; apply Hf; lia).
    assert (Hn : f n < k) by (apply Hf; lia).
    rewrite lookup_total_fmap_range by done.
    apply list_eq. intros c.
    destruct (decide (c < k)) as [Hc|Hc].
    2: { rewrite !lookup_ge_None_2; [done | | ];
         rewrite ?length_insert, length_fmap, length_range; lia. }
    rewrite (list_lookup_fmap (phase_of f (S n))). unfold range at 2.
    rewrite lookup_seq_lt by done. simpl. rewrite phase_of_S.
    destruct (decide (f n = c)) as [<-|Hne].
    + rewrite list_lookup_insert_eq; [done|].
      by rewrite length_fmap, length_range.
    + rewrite list_lookup_insert_ne by done.
      rewrite list_lookup_fmap. unfold range. by rewrite lookup_seq_lt.
Qed.

Lemma elem_of_concat_phases (f : nat → nat) (k n : nat) (v : N) :
  v ∈ concat (phase_of f n <$> range k) ↔ ∃ i, v = N.of_nat i ∧ i < n ∧ f i < k.
Proof.
  rewrite elem_of_concat. split.
  - intros (phase & Hv & Hphase).
    apply list_elem_of_fmap in Hphase as (c & -> & Hc).
    apply elem_of_range in Hc. apply elem_of_phase_of in Hv as (i & -> & Hi & <-).
    eauto.
  - intros (i & -> & Hi & Hf). exists (phase_of f n (f i)). split.
    + apply elem_of_phase_of. eauto.
    + apply list_elem_of_fmap. exists (f i). split; [done | by apply elem_of_range].
Qed.

Lemma NoDup_concat_phases (f : nat → nat) (k n : nat) :
  NoDup (concat (phase_of f n <$> range k)).
Proof.
  induction k as [|k IH]; [constructor|].
  rewrite range_S, fmap_app, concat_app. simpl. rewrite app_nil_r.
  apply list.NoDup_app. split; [done|]. split; [|apply NoDup_phase_of].
  intros v Hv Hv'.
  apply elem_of_concat_phases in Hv as (i & -> & Hi & Hf).
  apply elem_of_phase_of in Hv' as (j & Hij & Hj & Hfj).
  assert (i = j) by lia. subst j. lia.
Qed.

(** The phases of a proper coloring of all vertices are valid. *)
Lemma phases_valid (adj : AdjacencyMatrix) (f : nat → nat) (g : N → option nat)
    (k n : nat) :
  proper_coloring adj n g →
  (∀ i, i < n → g (N.of_nat i) = Some (f i) ∧ f i < k) →
  valid_phases adj n (phase_of f n <$> range k).
Proof.
  intros Hproper Hf. split.
  - intros v. rewrite elem_of_concat_phases. split.
    + intros (i & -> & Hi & _). lia.
    + intros Hv. exists (N.to_nat v). split; [lia|]. split; [lia|].
      apply Hf. lia.
  - apply NoDup_concat_phases.
  - intros phase u v Hphase Hu Hv Huv.
    apply list_elem_of_fmap in Hphase as (c & -> & Hc).
    apply elem_of_phase_of in Hu as (i & -> & Hi & Hfi).
    apply elem_of_phase_of in Hv as (j & -> & Hj & Hfj).
    apply (Hproper (N.of_nat i) (N.of_nat j) c); [lia | done | |].
    + destruct (Hf i Hi) as [-> _]. by rewrite Hfi.
    + destruct (Hf j Hj) as [-> _]. by rewrite Hfj.
Qed.

(** ** Permutations of the vertices *)

Lemma is_permutation_length (perm : list N) (n : nat) :
  is_permutation perm n → length perm = n.
Proof.
  intros H. apply Permutation_length in H.
  by rewrite length_fmap, length_range in H.
Qed.

Lemma is_permutation_lt (perm : list N) (n i : nat) :
  is_permutation perm n → i < n → (perm !!! i < N.of_nat n)%N.
Proof.
  intros H Hi.
  assert (perm !!! i ∈ perm) as Hin.
  { apply list_elem_of_lookup_total_2. by rewrite (is_permutation_length perm n). }
  remember (perm !!! i) as x eqn:Ex. clear Ex.
  rewrite H in Hin. apply list_elem_of_fmap in Hin as (j & -> & Hj).
  apply elem_of_range in Hj. lia.
Qed.

Lemma is_permutation_covers (perm : list N) (n : nat) (v : N) :
  is_permutation perm n → (v < N.of_nat n)%N → ∃ i, i < n ∧ perm !!! i = v.
Proof.
  intros H Hv.
  assert (v ∈ perm) as Hin.
  { rewrite H. apply list_elem_of_fmap. exists (N.to_nat v).
    split; [lia | apply elem_of_range; lia]. }
  apply list_elem_of_lookup_total in Hin as (i & Hi & <-).
  exists i. by rewrite <- (is_permutation_length perm n).
Qed.

(** ** The loop of the deterministic coloring *)

Lemma det_init_inv (adj : AdjacencyMatrix) (n : nat) :
  det_inv n (Deterministic.init n) ∧
  proper_coloring adj n (det_color_of (Deterministic.color (Deterministic.init n))).
Proof.
  split.
  - split; simpl; try done.
    + by rewrite length_replicate.
    + apply Forall_replicate. lia.
  - intros u v c Hu _ Hc. exfalso. revert Hc.
    unfold det_color_of, at32. simpl.
    rewrite lookup_total_replicate_2 by lia. done.
Qed.

Lemma det_loop_inv (adj : AdjacencyMatrix) (n : nat) (perm : list N) (k : nat) :
  wf_adjacency adj n → symmetric adj n → no_self_loops adj n →
  is_permutation perm n → k ≤ n →
  let st := foldl (λ st i, Deterministic.step adj st (perm !!! i))
                  (Deterministic.init n) (range k) in
  det_inv n st ∧
  proper_coloring adj n (det_color_of (Deterministic.color st)) ∧
  (Deterministic.ncolors st <= Z.of_nat k)%Z ∧
  (∀ i, i < k → det_color_of (Deterministic.color st) (perm !!! i) ≠ None).
Proof.
  intros Hwf Hsym Hnoself Hperm. induction k as [|k IH]; intros Hk; cbn zeta.
  - destruct (det_init_inv adj n) as [Hinv Hproper].
    split; [done|]. split; [done|]. split; [simpl; lia|]. intros i Hi. lia.
  - rewrite foldl_range_S. cbn zeta in IH.
    destruct IH as (Hinv & Hproper & Hcount & Hcolored); [lia|].
    set (st := foldl _ _ (range k)) in *.
    destruct (det_step_inv adj n st (perm !!! k) Hwf Hsym Hnoself
                (is_permutation_lt perm n k Hperm Hk) Hinv Hproper)
      as (Hinv' & Hproper' & Hcount' & Hview & Hnew).
    split; [done|]. split; [done|]. split; [lia|].
    intros i Hi. rewrite Hview. destruct (decide (perm !!! i = perm !!! k)); [done|].
    apply Hcolored. destruct (decide (i = k)) as [->|]; [done | lia].
Qed.

(** The deterministic coloring: the final state colors every vertex
    properly with colors below [ncolors], and [ncolors] is at most the
    number of vertices. *)
Lemma det_coloring_final (adj : AdjacencyMatrix) (n : nat) (perm : list N) :
  wf_adjacency adj n → symmetric adj n → no_self_loops adj n →
  is_permutation perm n →
  let st := Deterministic.color_loop adj n perm in
  let f := λ i, Z.to_nat (Deterministic.color st !!! i) in
  proper_coloring adj n (det_color_of (Deterministic.color st)) ∧
  (0 <= Deterministic.ncolors st <= Z.of_nat n)%Z ∧
  (∀ i, i < n → det_color_of (Deterministic.color st) (N.of_nat i) = Some (f i) ∧
                f i < Z.to_nat (Deterministic.ncolors st)).
Proof.
  intros Hwf Hsym Hnoself Hperm. cbn zeta.
  destruct (det_loop_inv adj n perm n Hwf Hsym Hnoself Hperm (le_n _))
    as (Hinv & Hproper & Hcount & Hcolored).
  fold (Deterministic.color_loop adj n perm) in *.
  set (st := Deterministic.color_loop adj n perm) in *.
  destruct Hinv as [Hlen Hk Hpc Hrange].
  split; [done|]. split; [lia|].
  intros i Hi.
  destruct (is_permutation_covers perm n (N.of_nat i) Hperm) as (j & Hj & Hpj); [lia|].
  specialize (Hcolored j Hj). rewrite Hpj in Hcolored.
  destruct (det_color_of_cases (Deterministic.color st) (N.of_nat i))
    as [[H0 E]|[_ E]]; [|done].
  unfold at32 in *. rewrite Nat2N.id in *. split; [done|].
  assert ((-1 <= Deterministic.color st !!! i < Deterministic.ncolors st)%Z); [|lia].
  eapply (Forall_lookup_1 _ _ _ _ Hrange).
  apply list_lookup_lookup_total_lt. lia.
Qed.

(** The phases of the deterministic coloring are valid. *)
Lemma det_phases_valid (adj : AdjacencyMatrix) (n : nat) (perm : list N) :
  wf_adjacency adj n → symmetric adj n → no_self_loops adj n →
  is_permutation perm n →
  valid_phases adj n (generate_graph_coloring_deterministic adj n perm).
Proof.
  intros Hwf Hsym Hnoself Hperm.
  destruct (det_coloring_final adj n perm Hwf Hsym Hnoself Hperm)
    as (Hproper & Hk & Hf).
  unfold generate_graph_coloring_deterministic, Deterministic.build_phases.
  set (st := Deterministic.color_loop adj n perm) in *.
  change (foldl (Deterministic.push_phase (Deterministic.color st)))
    with (foldl (λ (phases : list (list N)) i,
            <[Z.to_nat (Deterministic.color st !!! i)
              := phases !!! Z.to_nat (Deterministic.color st !!! i) ++ [N.of_nat i]]>
              phases)).
  rewrite (push_phases (λ i, Z.to_nat (Deterministic.color st !!! i)))
    by (intros i Hi; by apply Hf).
  by eapply phases_valid.
Qed.


(** ** The parallel coloring: one step *)

(** Lines 335-339: the loop ends with the counter above [c]; the fuel of
    the model suffices.  The flags below the old counter are kept, the
    flags from the old counter to [c] are set. *)
Lemma grow_spec (fuel : nat) (c : N) (cd : Parallel.ColorData) (pc : list bool) :
  (c <= 254)%N → N.to_nat (c + 1 - Parallel.nColors cd) ≤ fuel →
  length pc = 256 →
  let r := Parallel.grow fuel c cd pc in
  Parallel.nColors r.1 = N.max (Parallel.nColors cd) (c + 1) ∧
  length r.2 = 256 ∧
  (∀ j, j < N.to_nat (Parallel.nColors cd) → r.2 !!! j = pc !!! j) ∧
  (∀ j, N.to_nat (Parallel.nColors cd) ≤ j ≤ N.to_nat c → r.2 !!! j = true).
Proof.
  intros Hc. revert cd pc. induction fuel as [|fuel IH]; intros cd pc Hfuel Hlen;
    cbn zeta; simpl.
  - split; [lia|]. split; [done|]. split; [done|]. intros j Hj. lia.
  - destruct (N.leb_spec (Parallel.nColors cd) c) as [Hle|Hgt].
    + set (cd' := {| Parallel.nColors := uint8_incr (Parallel.nColors cd);
                     Parallel.nNodes := set32 (Parallel.nNodes cd) (Parallel.nColors cd) 0%N |}).
      assert (Hincr : Parallel.nColors cd' = (Parallel.nColors cd + 1)%N).
      { simpl. unfold uint8_incr. apply N.mod_small. lia. }
      destruct (IH cd' (set32 pc (Parallel.nColors cd) true)) as (Hn & Hl & Hlow & Hhigh).
      { rewrite Hincr. lia. }
      { unfold set32. by rewrite length_insert. }
      rewrite Hincr in *.
      split; [lia|]. split; [done|]. split.
      * intros j Hj. rewrite Hlow by lia. unfold set32.
        rewrite list_lookup_total_insert_ne; [done | lia].
      * intros j Hj. destruct (decide (j = N.to_nat (Parallel.nColors cd))) as [->|Hne].
        -- rewrite Hlow by lia. unfold set32.
           rewrite list_lookup_total_insert_eq; [done | lia].
        -- apply Hhigh. lia.
    + simpl. split; [lia|]. split; [done|]. split; [done|]. intros j Hj. lia.
Qed.

Lemma par_color_of_cases (color : list N) (v : N) :
  (at32 color v ≠ Parallel.INVALID_COLOR ∧
   par_color_of color v = Some (N.to_nat (at32 color v))) ∨
  (at32 color v = Parallel.INVALID_COLOR ∧ par_color_of color v = None).
Proof.
  unfold par_color_of. cbn zeta.
  destruct (N.eqb_spec (at32 color v) Parallel.INVALID_COLOR); [right | left]; done.
Qed.

(** Lines 332-342: after the scan of the neighbors of a row, the counter
    covers their colors, and below the counter the flag of a color is set
    exactly when no neighbor seen so far has it.  [seen] holds the colors
    met before this part of the row. *)
Lemma par_see_spec (color : list N) (row : list Link) (seen : list nat)
    (cd : Parallel.ColorData) (pc : list bool) :
  (∀ link, link ∈ row →
     (at32 color (id link) <= 253)%N ∨ at32 color (id link) = Parallel.INVALID_COLOR) →
  (Parallel.nColors cd <= 254)%N → length pc = 256 →
  (∀ j, j < N.to_nat (Parallel.nColors cd) → pc !!! j = bool_decide (j ∉ seen)) →
  (∀ c, c ∈ seen → c < N.to_nat (Parallel.nColors cd)) →
  let used := used_colors (par_color_of color) row in
  let r := foldl (Parallel.see_neighbor color) (cd, pc) row in
  N.to_nat (Parallel.nColors r.1)
    = foldl (λ k c, k `max` S c) (N.to_nat (Parallel.nColors cd)) used ∧
  length r.2 = 256 ∧
  (∀ j, j < N.to_nat (Parallel.nColors r.1) →
        r.2 !!! j = bool_decide (j ∉ seen ++ used)).
Proof.
  set_aside.
  revert seen cd pc. induction row as [|link row IH];
    intros seen cd pc Hrow Hcd Hlen Hpc Hseen; cbn zeta.
  - simpl. rewrite app_nil_r. done.
  - cbn [foldl]. rewrite used_colors_cons.
    assert (Hrow' : ∀ link, link ∈ row →
              (at32 color (id link) <= 253)%N
              ∨ at32 color (id link) = Parallel.INVALID_COLOR).
    { intros l Hl. apply Hrow. by right. }
    destruct (par_color_of_cases color (id link)) as [[Hc Hview]|[Hc Hview]];
      rewrite Hview.
    + assert (at32 color (id link) <= 253)%N as Hc'.
      { destruct (Hrow link) as [?|?]; [by left | done | done]. }
      destruct (grow_spec 256 (at32 color (id link)) cd pc) as (Hn & Hl & Hlow & Hhigh);
        [lia | lia | done |].
      assert (Hsee : Parallel.see_neighbor color (cd, pc) link
                     = ((Parallel.grow 256 (at32 color (id link)) cd pc).1,
                        set32 (Parallel.grow 256 (at32 color (id link)) cd pc).2
                              (at32 color (id link)) false)).
      { unfold Parallel.see_neighbor. cbn [fst snd].
        apply N.eqb_neq in Hc. rewrite Hc. cbn [negb].
        by destruct (Parallel.grow 256 (at32 color (id link)) cd pc). }
      rewrite Hsee. clear Hsee.
      destruct (Parallel.grow 256 (at32 color (id link)) cd pc) as [cd1 pc1].
      cbn [fst snd] in *.
      set (c := at32 color (id link)) in *.
      destruct (IH (seen ++ [N.to_nat c]) cd1 (set32 pc1 c false)) as (Hn' & Hl' & Hval').
      * done.
      * lia.
      * unfold set32. by rewrite length_insert.
      * intros j Hj. unfold set32.
        destruct (decide (j = N.to_nat c)) as [->|Hne].
        -- rewrite list_lookup_total_insert_eq by lia.
           symmetry. apply bool_decide_eq_false. intros Hnot. apply Hnot.
           apply elem_of_app. right. left.
        -- rewrite list_lookup_total_insert_ne by done.
           destruct (decide (j < N.to_nat (Parallel.nColors cd))) as [Hlt|Hge].
           ++ rewrite Hlow, Hpc by done. apply bool_decide_ext.
              rewrite not_elem_of_app. split; [|tauto].
              intros Hj'. split; [done|]. by intros ?%list_elem_of_singleton.
           ++ rewrite Hhigh by lia. symmetry. apply bool_decide_eq_true.
              rewrite not_elem_of_app. split.
              ** intros Hin. apply Hseen in Hin. lia.
              ** by intros ?%list_elem_of_singleton.
      * intros c' [Hin| ->%list_elem_of_singleton]%elem_of_app.
        -- apply Hseen in Hin. lia.
        -- lia.
      * split; [|split; [done|]].
        -- rewrite Hn'. cbn [foldl]. f_equal. lia.
        -- intros j Hj. rewrite Hval' by done. apply bool_decide_ext.
           by rewrite <- app_assoc.
    + assert (Hsee : Parallel.see_neighbor color (cd, pc) link = (cd, pc)).
      { unfold Parallel.see_neighbor. apply N.eqb_eq in Hc. by rewrite Hc. }
      rewrite Hsee. by apply IH.
Qed.

Lemma par_first_possible_spec (pc : list bool) (j : N) :
  Parallel.first_possible pc j =
  match list_find (λ b, b = true) pc with
  | Some (i, _) => (j + N.of_nat i)%N
  | None => Parallel.INVALID_COLOR
  end.
Proof.
  revert j. induction pc as [|b pc IH]; intros j; simpl; [done|].
  destruct b; simpl.
  - lia.
  - rewrite IH. destruct (list_find _ pc) as [[i x]|]; simpl; [lia | done].
Qed.

(** One step of the parallel coloring makes the greedy choice, and
    throws when that choice would be the 255th color. *)
Lemma par_step_spec (adj : AdjacencyMatrix) (n : nat) (color : list N)
    (cd : Parallel.ColorData) (pc : list bool) (i : N) :
  length color = n → par_colors_ok color →
  (Parallel.nColors cd <= 254)%N → length pc = 256 →
  (∀ link, link ∈ adj_row adj (N.to_nat i) → N.to_nat (id link) < n) →
  let used := used_colors (par_color_of color) (adj_row adj (N.to_nat i)) in
  let ck := greedy_choice used (N.to_nat (Parallel.nColors cd)) in
  ck.2 ≤ 255 ∧
  if decide (ck.2 = 255) then
    Parallel.step adj color cd pc i = inl ColoringExhausted
  else
    ∃ cd' pc',
      Parallel.step adj color cd pc i = inr (set32 color i (N.of_nat ck.1), cd', pc') ∧
      Parallel.nColors cd' = N.of_nat ck.2 ∧ length pc' = 256.
Proof.
  intros Hlen Hcolors Hcd Hpc Hrow. cbn zeta.
  set (row := adj_row adj (N.to_nat i)) in *.
  set (used := used_colors (par_color_of color) row).
  set (k := N.to_nat (Parallel.nColors cd)).
  assert (Hrowc : ∀ link, link ∈ row →
            (at32 color (id link) <= 253)%N
            ∨ at32 color (id link) = Parallel.INVALID_COLOR).
  { intros link Hlink. unfold at32.
    eapply (Forall_lookup_1 _ _ _ _ Hcolors).
    apply list_lookup_lookup_total_lt. rewrite Hlen. by apply Hrow. }
  assert (Hused : ∀ c, c ∈ used → c < 254).
  { intros c (link & Hlink & Hc)%elem_of_used_colors.
    destruct (par_color_of_cases color (id link)) as [[Hne E]|[_ E]];
      rewrite E in Hc; [|done].
    injection Hc as <-. destruct (Hrowc link Hlink) as [?|?]; [lia | done]. }
  destruct (greedy_choice_bound used k 254 ltac:(lia) Hused) as [Hle Hnew].
  destruct (greedy_choice_spec used k) as (Hnotin & Hlt & _ & _).
  split; [done|].
  unfold Parallel.step. fold row.
  destruct (par_see_spec color row [] cd
              (replicate k true ++ drop k pc)) as (Hn & Hl & Hval).
  { done. }
  { done. }
  { rewrite length_app, length_replicate, length_drop. lia. }
  { intros j Hj. rewrite lookup_total_app_l by (rewrite length_replicate; lia).
    by rewrite lookup_total_replicate_2. }
  { intros c Hc. by apply elem_of_nil in Hc. }
  fold used k in Hn, Hval. rewrite app_nil_l in Hval.
  fold k.
  destruct (foldl (Parallel.see_neighbor color) (cd, replicate k true ++ drop k pc) row)
    as [cd1 pc1].
  cbn [fst snd] in *.
  rewrite par_first_possible_spec.
  unfold greedy_choice in *.
  pose proof (foldl_max_bound used k 254 ltac:(lia) Hused) as Hk'.
  set (k' := foldl (λ k c, k `max` S c) k used) in *.
  assert (Hfind : fst <$> list_find (λ b, b = true) (take (N.to_nat (Parallel.nColors cd1)) pc1)
                  = fst <$> list_find (λ j, j ∉ used) (seq 0 k')).
  { apply list_find_pointwise.
    - rewrite length_take, length_seq. lia.
    - intros j x y Hx Hy. apply lookup_seq in Hy as [-> Hj]. simpl.
      apply lookup_take_Some in Hx as [Hx Hj'].
      apply list_lookup_total_correct in Hx. rewrite Hval in Hx by done.
      subst x. by rewrite bool_decide_eq_true. }
  destruct (list_find (λ b, b = true) _) as [[j x]|] eqn:E1,
           (list_find (λ j, j ∉ used) (seq 0 k')) as [[j' y]|] eqn:E2;
    try discriminate Hfind; cbn [fst snd] in *.
  - injection Hfind as ->.
    rewrite decide_False by lia.
    replace (0 + N.of_nat j' =? Parallel.INVALID_COLOR)%N with false.
    2: { symmetry. apply N.eqb_neq. unfold Parallel.INVALID_COLOR. lia. }
    replace (0 + N.of_nat j')%N with (N.of_nat j') by lia.
    eexists _, _. split; [done|]. split; [|done]. simpl. lia.
  - replace (Parallel.INVALID_COLOR =? Parallel.INVALID_COLOR)%N with true by done.
    destruct (decide (S k' = 255)) as [Hk|Hk].
    + replace (Parallel.nColors cd1 =? Parallel.INVALID_COLOR - 1)%N with true; [done|].
      symmetry. apply N.eqb_eq. unfold Parallel.INVALID_COLOR. lia.
    + replace (Parallel.nColors cd1 =? Parallel.INVALID_COLOR - 1)%N with false.
      2: { symmetry. apply N.eqb_neq. unfold Parallel.INVALID_COLOR. lia. }
      replace (Parallel.nColors cd1) with (N.of_nat k') by lia.
      eexists _, _. split; [done|]. split; [|done].
      simpl. unfold uint8_incr. rewrite N.mod_small by lia. lia.
Qed.

(** ** The parallel coloring: schedules *)

Lemma par_color_of_set32 (color : list N) (ip v : N) (c : nat) :
  N.to_nat ip < length color → c ≤ 253 →
  par_color_of (set32 color ip (N.of_nat c)) v
  = if decide (v = ip) then Some c else par_color_of color v.
Proof.
  intros Hip Hc. unfold par_color_of, set32, at32. cbn zeta.
  destruct (decide (v = ip)) as [->|Hne].
  - rewrite list_lookup_total_insert_eq by done.
    replace (N.of_nat c =? Parallel.INVALID_COLOR)%N with false.
    + f_equal. lia.
    + symmetry. apply N.eqb_neq. unfold Parallel.INVALID_COLOR. lia.
  - rewrite list_lookup_total_insert_ne; [done | lia].
Qed.

Lemma par_init_inv (adj : AdjacencyMatrix) (n nbodies : nat) :
  par_inv adj n (Parallel.init n nbodies).
Proof.
  assert (Hnone : ∀ v, (v < N.of_nat n)%N →
            par_color_of (Parallel.color (Parallel.init n nbodies)) v = None).
  { intros v Hv. unfold par_color_of, at32. simpl.
    rewrite lookup_total_replicate_2 by lia. done. }
  split; cbn [Parallel.init Parallel.color Parallel.bodies].
  - by rewrite length_replicate.
  - apply Forall_replicate. by right.
  - apply Forall_replicate. split; [simpl; lia | done].
  - intros v c Hv Hc. by rewrite Hnone in Hc.
  - intros u v c Hu _ Hc. by rewrite Hnone in Hc.
Qed.

(** One step of a schedule throws the coloring error, or keeps the
    invariant and colors its vertex; the colored vertices stay colored. *)
Lemma par_run_step_inv (adj : AdjacencyMatrix) (n : nat) (perm : list N)
    (st : Parallel.state) (ev : nat * nat) :
  wf_adjacency adj n → symmetric adj n → no_self_loops adj n →
  is_permutation perm n →
  ev.1 < length (Parallel.bodies st) → ev.2 < n →
  par_inv adj n st →
  match Parallel.run_step adj perm (inr st) ev with
  | inl e => e = ColoringExhausted
  | inr st' =>
      par_inv adj n st' ∧
      length (Parallel.bodies st') = length (Parallel.bodies st) ∧
      par_color_of (Parallel.color st') (perm !!! ev.2) ≠ None ∧
      ∀ v, par_color_of (Parallel.color st) v ≠ None →
           par_color_of (Parallel.color st') v ≠ None
  end.
Proof.
  intros Hwf Hsym Hnoself Hperm Hbody Hpos [Hlen Hcolors Hbodies Hcounted Hproper].
  pose proof (is_permutation_lt perm n ev.2 Hperm Hpos) as Hip.
  set (ip := perm !!! ev.2) in *.
  assert (Hrow : ∀ link, link ∈ adj_row adj (N.to_nat ip) → N.to_nat (id link) < n).
  { intros link Hlink.
    assert (id link < N.of_nat n)%N; [|lia].
    apply (wf_ids adj n Hwf ip); [done|]. apply edge_link. eauto. }
  set (b := Parallel.bodies st !!! ev.1).
  assert (Hb : b ∈ Parallel.bodies st) by by apply list_elem_of_lookup_total_2.
  pose proof (proj1 (Forall_forall _ _) Hbodies b
                (proj1 (list_elem_of_In _ _) Hb)) as [Hbn Hbpc].
  destruct (par_step_spec adj n (Parallel.color st) (Parallel.colorData b)
              (Parallel.possible_colors b) ip Hlen Hcolors Hbn Hbpc Hrow)
    as [Hle Hstep].
  set (used := used_colors (par_color_of (Parallel.color st))
                           (adj_row adj (N.to_nat ip))) in *.
  set (k := N.to_nat (Parallel.nColors (Parallel.colorData b))) in *.
  destruct (greedy_choice_spec used k) as (Hnotin & Hlt & Hkle & _).
  unfold Parallel.run_step. fold ip b.
  destruct (decide ((greedy_choice used k).2 = 255)) as [Hk|Hk].
  { by rewrite Hstep. }
  destruct Hstep as (cd' & pc' & -> & Hcd' & Hpc').
  assert (Hview : ∀ v, par_color_of (set32 (Parallel.color st) ip
                                           (N.of_nat (greedy_choice used k).1)) v
                      = if decide (v = ip) then Some (greedy_choice used k).1
                        else par_color_of (Parallel.color st) v).
  { intros v. apply par_color_of_set32; lia. }
  cbn [Parallel.color Parallel.bodies].
  split; [split|split; [|split]]; cbn [Parallel.color Parallel.bodies].
  - unfold set32. by rewrite length_insert.
  - unfold set32, par_colors_ok. apply Forall_insert; [done|]. left. lia.
  - apply Forall_insert; [done|]. cbn [Parallel.colorData Parallel.possible_colors].
    split; [lia | done].
  - intros v c Hv. rewrite Hview. destruct (decide (v = ip)) as [->|Hne].
    + intros [= <-]. exists (Parallel.mkBody cd' pc'). split.
      * apply list_elem_of_lookup. exists ev.1. by apply list_lookup_insert_eq.
      * cbn [Parallel.colorData]. lia.
    + intros Hc. destruct (Hcounted v c Hv Hc) as (b0 & Hb0 & Hcb0).
      apply list_elem_of_lookup in Hb0 as (w & Hw).
      destruct (decide (w = ev.1)) as [->|Hwne].
      * exists (Parallel.mkBody cd' pc'). split.
        -- apply list_elem_of_lookup. exists ev.1. by apply list_lookup_insert_eq.
        -- cbn [Parallel.colorData].
           apply list_lookup_total_correct in Hw. fold b in Hw. subst b0. lia.
      * exists b0. split; [|done].
        apply list_elem_of_lookup. exists w. by rewrite list_lookup_insert_ne.
  - intros u v c Hu Huv. rewrite !Hview.
    by apply (proper_update adj n _ ip (greedy_choice used k).1).
  - by rewrite length_insert.
  - rewrite Hview. by rewrite decide_True.
  - intros v Hv. rewrite Hview. by destruct (decide (v = ip)).
Qed.

(** A whole schedule: an exception is the coloring error; otherwise the
    invariant holds and every treated vertex is colored. *)
Lemma par_schedule_inv (adj : AdjacencyMatrix) (n nbodies : nat) (perm : list N)
    (sched : list (nat * nat)) :
  wf_adjacency adj n → symmetric adj n → no_self_loops adj n →
  is_permutation perm n →
  Forall (λ ev, ev.1 < nbodies ∧ ev.2 < n) sched →
  match foldl (Parallel.run_step adj perm) (inr (Parallel.init n nbodies)) sched with
  | inl e => e = ColoringExhausted
  | inr st =>
      par_inv adj n st ∧ length (Parallel.bodies st) = nbodies ∧
      ∀ ev, ev ∈ sched → par_color_of (Parallel.color st) (perm !!! ev.2) ≠ None
  end.
Proof.
  intros Hwf Hsym Hnoself Hperm.
  induction sched as [|ev sched IH] using rev_ind; intros Hsched.
  - simpl. split; [apply par_init_inv|]. split.
    + by rewrite length_replicate.
    + intros ev Hev. by apply elem_of_nil in Hev.
  - apply Forall_app in Hsched as [Hsched Hev].
    apply Forall_singleton in Hev as [Hev1 Hev2].
    rewrite foldl_app. cbn [foldl].
    specialize (IH Hsched).
    destruct (foldl (Parallel.run_step adj perm) _ sched) as [e|st]; [done|].
    destruct IH as (Hinv & Hlen & Hcolored).
    pose proof (par_run_step_inv adj n perm st ev Hwf Hsym Hnoself Hperm
                  ltac:(lia) Hev2 Hinv) as Hstep.
    destruct (Parallel.run_step adj perm (inr st) ev) as [e|st']; [done|].
    destruct Hstep as (Hinv' & Hlen' & Hnew & Hkeep).
    split; [done|]. split; [lia|].
    intros ev' [Hin| ->%list_elem_of_singleton]%elem_of_app; [|done].
    by apply Hkeep, Hcolored.
Qed.

(** Lines 368-377: the join keeps the larger counter. *)
Lemma join_nColors (c1 c2 : Parallel.ColorData) :
  Parallel.nColors (Parallel.join c1 c2)
  = N.max (Parallel.nColors c1) (Parallel.nColors c2).
Proof. done. Qed.

Lemma foldl_join_nColors (l : list Parallel.ColorData) (a : Parallel.ColorData) :
  (Parallel.nColors a <= Parallel.nColors (foldl Parallel.join a l))%N ∧
  (∀ c, c ∈ l →
     (Parallel.nColors c <= Parallel.nColors (foldl Parallel.join a l))%N) ∧
  (∀ b, (Parallel.nColors a <= b)%N → Forall (λ c, (Parallel.nColors c <= b)%N) l →
        (Parallel.nColors (foldl Parallel.join a l) <= b)%N).
Proof.
  revert a. induction l as [|c l IH]; intros a; simpl.
  - split; [lia|]. split; [by intros c ?%elem_of_nil | done].
  - destruct (IH (Parallel.join a c)) as (Ha & Hl & Hb).
    rewrite join_nColors in *. split; [lia|]. split.
    + intros c' [->|Hc']%elem_of_cons; [lia | by apply Hl].
    + intros b Hab Hall. apply list.Forall_cons in Hall as [Hc Hall].
      apply Hb; [lia | done].
Qed.

(** The phases of the parallel coloring are valid, and there are at most
    254 of them; the only exception is the coloring error. *)
Lemma par_phases_valid (adj : AdjacencyMatrix) (n nbodies : nat) (perm : list N)
    (sched : list (nat * nat)) :
  wf_adjacency adj n → symmetric adj n → no_self_loops adj n →
  is_permutation perm n → is_schedule sched n nbodies →
  match generate_graph_coloring adj n perm nbodies sched with
  | inl e => e = ColoringExhausted
  | inr phases => valid_phases adj n phases ∧ length phases ≤ 254
  end.
Proof.
  intros Hwf Hsym Hnoself Hperm [Hpos Hbodies].
  assert (Hsched : Forall (λ ev, ev.1 < nbodies ∧ ev.2 < n) sched).
  { apply Forall_lookup_2. intros i ev Hev. split.
    - eapply Forall_lookup_1 in Hbodies; [|exact Hev]. done.
    - apply elem_of_range. rewrite <- Hpos.
      apply list_elem_of_fmap. exists ev. split; [done|].
      by eapply list_elem_of_lookup_2. }
  pose proof (par_schedule_inv adj n nbodies perm sched Hwf Hsym Hnoself Hperm Hsched)
    as Hrun.
  unfold generate_graph_coloring.
  destruct (foldl (Parallel.run_step adj perm) _ sched) as [e|st]; [done|].
  destruct Hrun as ([Hlen Hcolors Hbods Hcounted Hproper] & _ & Hcolored).
  set (cd := foldl Parallel.join Parallel.ColorData_ctor
                   (Parallel.colorData <$> Parallel.bodies st)).
  destruct (foldl_join_nColors (Parallel.colorData <$> Parallel.bodies st)
              Parallel.ColorData_ctor) as (_ & Hmax & Hbound).
  fold cd in Hmax, Hbound.
  assert (Hcd : (Parallel.nColors cd <= 254)%N).
  { apply Hbound; [simpl; lia|]. apply Forall_fmap.
    eapply list.Forall_impl; [apply Hbods|]. by intros b [? _]. }
  assert (Hf : ∀ i, i < n →
    par_color_of (Parallel.color st) (N.of_nat i)
      = Some (N.to_nat (Parallel.color st !!! i)) ∧
    N.to_nat (Parallel.color st !!! i) < N.to_nat (Parallel.nColors cd)).
  { intros i Hi.
    assert (par_color_of (Parallel.color st) (N.of_nat i) ≠ None) as Hne.
    { destruct (is_permutation_covers perm n (N.of_nat i) Hperm) as (p & Hp & Hpi);
        [lia|].
      rewrite <- Hpi.
      assert (p ∈ sched.*2) as Hin by (rewrite Hpos; by apply elem_of_range).
      apply list_elem_of_fmap in Hin as (ev & -> & Hev). by apply Hcolored. }
    destruct (par_color_of_cases (Parallel.color st) (N.of_nat i)) as [[_ E]|[_ E]];
      [|done].
    unfold at32 in E. rewrite Nat2N.id in E. split; [done|].
    destruct (Hcounted (N.of_nat i) _ ltac:(lia) E) as (b & Hb & Hlt).
    assert (Parallel.nColors (Parallel.colorData b) <= Parallel.nColors cd)%N; [|lia].
    apply Hmax. apply list_elem_of_fmap. eauto. }
  unfold Parallel.build_phases.
  change (foldl (Parallel.push_phase (Parallel.color st)))
    with (foldl (λ (phases : list (list N)) i,
            <[N.to_nat (Parallel.color st !!! i)
              := phases !!! N.to_nat (Parallel.color st !!! i) ++ [N.of_nat i]]>
              phases)).
  rewrite (push_phases (λ i, N.to_nat (Parallel.color st !!! i)))
    by (intros i Hi; by apply Hf).
  split; [by eapply phases_valid|].
  rewrite length_fmap, length_range. lia.
Qed.


(** ** The parallel coloring run by one body

    Run as one task, the parallel coloring makes the choices of the
    deterministic coloring, as long as it does not run out of colors. *)

Lemma used_colors_ext (g1 g2 : N → option nat) (row : list Link) :
  (∀ link, link ∈ row → g1 (id link) = g2 (id link)) →
  used_colors g1 row = used_colors g2 row.
Proof.
  induction row as [|link row IH]; intros H; [done|].
  rewrite !used_colors_cons, (H link) by left.
  rewrite IH; [done|]. intros l Hl. apply H. by right.
Qed.

Lemma foldl_fmap {A B C} (f : A → B → A) (g : C → B) (a : A) (l : list C) :
  foldl f a (g <$> l) = foldl (λ a x, f a (g x)) a l.
Proof. revert a. induction l as [|x l IH]; intros a; simpl; [done | apply IH]. Qed.

Lemma serial_simulation (adj : AdjacencyMatrix) (n : nat) (perm : list N) (k : nat) :
  wf_adjacency adj n → symmetric adj n → no_self_loops adj n →
  is_permutation perm n → k ≤ n →
  let st_d := foldl (λ st i, Deterministic.step adj st (perm !!! i))
                    (Deterministic.init n) (range k) in
  let r := foldl (λ st pidx, Parallel.run_step adj perm st (0, pidx))
                 (inr (Parallel.init n 1)) (range k) in
  if decide (Deterministic.ncolors st_d <= 254)%Z
  then ∃ st_p, r = inr st_p ∧ colorings_agree n st_d st_p
  else r = inl ColoringExhausted.
Proof.
  intros Hwf Hsym Hnoself Hperm. induction k as [|k IH]; intros Hk; cbn zeta.
  - simpl. eexists. split; [done|]. split; try done.
    + simpl. by rewrite length_replicate.
    + simpl. apply Forall_replicate. by right.
    + intros v Hv. unfold par_color_of, det_color_of, at32. simpl.
      rewrite !lookup_total_replicate_2 by lia. done.
  - rewrite !foldl_range_S. cbn zeta in IH. specialize (IH ltac:(lia)).
    destruct (det_loop_inv adj n perm k Hwf Hsym Hnoself Hperm ltac:(lia))
      as (Hinv & Hproper & _ & _).
    set (st_d := foldl _ (Deterministic.init n) (range k)) in *.
    set (r := foldl _ (inr (Parallel.init n 1)) (range k)) in *.
    pose proof (is_permutation_lt perm n k Hperm Hk) as Hip.
    set (ip := perm !!! k) in *.
    destruct (det_step_inv adj n st_d ip Hwf Hsym Hnoself Hip Hinv Hproper)
      as (_ & _ & Hmono & _ & _).
    assert (Hrow : ∀ link, link ∈ adj_row adj (N.to_nat ip) → N.to_nat (id link) < n).
    { intros link Hlink.
      assert (id link < N.of_nat n)%N; [|lia].
      apply (wf_ids adj n Hwf ip); [done|]. apply edge_link. eauto. }
    destruct (det_step_spec adj n st_d ip Hinv Hrow) as (Hcolor & Hncolors & _).
    destruct (decide (Deterministic.ncolors st_d <= 254)%Z) as [Hle|Hgt].
    2: { rewrite decide_False by lia. by rewrite IH. }
    destruct IH as (st_p & -> & [Hlen Hok Hbodies Hcnt Hflags Hcounter Hcolors]).
    set (b := Parallel.bodies st_p !!! 0) in *.
    destruct (par_step_spec adj n (Parallel.color st_p) (Parallel.colorData b)
                (Parallel.possible_colors b) ip Hlen Hok Hcnt Hflags Hrow)
      as [Hbound Hstep].
    assert (Hused : used_colors (par_color_of (Parallel.color st_p))
                                (adj_row adj (N.to_nat ip))
                    = used_colors (det_color_of (Deterministic.color st_d))
                                  (adj_row adj (N.to_nat ip))).
    { apply used_colors_ext. intros link Hlink. apply Hcolors.
      apply Hrow in Hlink. lia. }
    rewrite Hused in Hstep, Hbound.
    rewrite Hcounter in Hstep, Hbound.
    set (ck := greedy_choice _ _) in *.
    destruct (greedy_choice_spec
                (used_colors (det_color_of (Deterministic.color st_d))
                             (adj_row adj (N.to_nat ip)))
                (Z.to_nat (Deterministic.ncolors st_d))) as (_ & Hlt & _ & _).
    fold ck in Hlt.
    unfold Parallel.run_step. cbn [fst snd]. fold ip b.
    destruct (decide (ck.2 = 255)) as [E|E].
    { rewrite decide_False by lia. by rewrite Hstep. }
    rewrite decide_True by lia.
    destruct Hstep as (cd' & pc' & -> & Hcd' & Hpc').
    eexists. split; [done|].
    destruct (Parallel.bodies st_p) as [|b0 [|? ?]] eqn:Eb; try discriminate Hbodies.
    split; cbn [Parallel.color Parallel.bodies]; simpl.
    + unfold set32. by rewrite length_insert.
    + unfold set32, par_colors_ok. apply Forall_insert; [done|]. left. lia.
    + done.
    + lia.
    + done.
    + lia.
    + intros v Hv. rewrite Hcolor.
      rewrite par_color_of_set32, det_color_of_set32; try lia.
      * destruct (decide (v = ip)); [done | by apply Hcolors].
      * destruct Hinv. lia.
Qed.

Lemma phase_of_ext (f g : nat → nat) (n c : nat) :
  (∀ i, i < n → f i = g i) → phase_of f n c = phase_of g n c.
Proof.
  induction n as [|n IH]; intros H; [done|].
  rewrite !phase_of_S, IH, (H n) by (intros; (apply H || idtac); lia). done.
Qed.

(** The phases of the deterministic coloring, color by color. *)
Lemma det_phases_eq (adj : AdjacencyMatrix) (n : nat) (perm : list N) :
  wf_adjacency adj n → symmetric adj n → no_self_loops adj n →
  is_permutation perm n →
  let st := Deterministic.color_loop adj n perm in
  generate_graph_coloring_deterministic adj n perm
  = phase_of (λ i, Z.to_nat (Deterministic.color st !!! i)) n
      <$> range (Z.to_nat (Deterministic.ncolors st)).
Proof.
  intros Hwf Hsym Hnoself Hperm. cbn zeta.
  destruct (det_coloring_final adj n perm Hwf Hsym Hnoself Hperm)
    as (Hproper & Hk & Hf).
  unfold generate_graph_coloring_deterministic, Deterministic.build_phases.
  set (st := Deterministic.color_loop adj n perm) in *.
  change (foldl (Deterministic.push_phase (Deterministic.color st)))
    with (foldl (λ (phases : list (list N)) i,
            <[Z.to_nat (Deterministic.color st !!! i)
              := phases !!! Z.to_nat (Deterministic.color st !!! i) ++ [N.of_nat i]]>
              phases)).
  apply (push_phases (λ i, Z.to_nat (Deterministic.color st !!! i))).
  intros i Hi. by apply Hf.
Qed.

(** Run as one task, the parallel coloring returns the phases of the
    deterministic coloring when these are at most 254, and throws
    otherwise. *)
Lemma serial_coloring (adj : AdjacencyMatrix) (n : nat) (perm : list N) :
  wf_adjacency adj n → symmetric adj n → no_self_loops adj n →
  is_permutation perm n →
  generate_graph_coloring adj n perm 1 (Parallel.serial n)
  = if decide (length (generate_graph_coloring_deterministic adj n perm) ≤ 254)
    then inr (generate_graph_coloring_deterministic adj n perm)
    else inl ColoringExhausted.
Proof.
  intros Hwf Hsym Hnoself Hperm.
  pose proof (serial_simulation adj n perm n Hwf Hsym Hnoself Hperm (le_n _)) as Hsim.
  cbn zeta in Hsim.
  destruct (det_coloring_final adj n perm Hwf Hsym Hnoself Hperm)
    as (Hproper & Hk & Hf).
  rewrite (det_phases_eq adj n perm Hwf Hsym Hnoself Hperm).
  fold (Deterministic.color_loop adj n perm) in Hsim.
  set (st_d := Deterministic.color_loop adj n perm) in *.
  rewrite length_fmap, length_range.
  unfold generate_graph_coloring, Parallel.serial. rewrite foldl_fmap.
  destruct (decide (Deterministic.ncolors st_d <= 254)%Z) as [Hle|Hgt].
  2: { rewrite Hsim. rewrite decide_False by lia. done. }
  rewrite decide_True by lia.
  destruct Hsim as (st_p & -> & [Hlen Hok Hbodies Hcnt Hflags Hcounter Hcolors]).
  f_equal.
  destruct (Parallel.bodies st_p) as [|b [|? ?]] eqn:Eb; try discriminate Hbodies.
  cbn [fmap list_fmap foldl]. rewrite join_nColors. simpl in Hcounter.
  replace (N.max (Parallel.nColors Parallel.ColorData_ctor)
                 (Parallel.nColors (Parallel.colorData b)))
    with (Parallel.nColors (Parallel.colorData b)) by (simpl; lia).
  assert (Hfp : ∀ i, i < n → N.to_nat (Parallel.color st_p !!! i)
                            = Z.to_nat (Deterministic.color st_d !!! i)).
  { intros i Hi. destruct (Hf i Hi) as [E _].
    rewrite <- Hcolors in E by lia.
    destruct (par_color_of_cases (Parallel.color st_p) (N.of_nat i)) as [[_ E']|[_ E']];
      rewrite E' in E; [|done].
    unfold at32 in E. rewrite Nat2N.id in E. by injection E. }
  unfold Parallel.build_phases.
  change (foldl (Parallel.push_phase (Parallel.color st_p)))
    with (foldl (λ (phases : list (list N)) i,
            <[N.to_nat (Parallel.color st_p !!! i)
              := phases !!! N.to_nat (Parallel.color st_p !!! i) ++ [N.of_nat i]]>
              phases)).
  rewrite (push_phases (λ i, N.to_nat (Parallel.color st_p !!! i))).
  2: { intros i Hi. rewrite Hfp by done. destruct (Hf i Hi) as [_ ?]. lia. }
  rewrite Hcounter. apply list_fmap_ext. intros _ c _.
  by apply phase_of_ext.
Qed.

(** One body that treats the nodes in order is a schedule. *)
Lemma serial_is_schedule (n : nat) : is_schedule (Parallel.serial n) n 1.
Proof.
  unfold is_schedule, Parallel.serial. split.
  - rewrite <- list_fmap_compose. by rewrite list_fmap_id.
  - apply Forall_fmap, list.Forall_forall. intros i _. simpl. lia.
Qed.


(** ** Complete graphs *)

Lemma concat_length_le {A} (ls : list (list A)) :
  Forall (λ l, length l ≤ 1) ls → length (concat ls) ≤ length ls.
Proof.
  induction 1 as [|l ls Hl _ IH]; simpl; [done|].
  rewrite length_app. lia.
Qed.

Lemma NoDup_concat_elem {A} (ls : list (list A)) (l : list A) :
  NoDup (concat ls) → l ∈ ls → NoDup l.
Proof.
  induction ls as [|l' ls IH]; simpl; intros Hnd Hl.
  - by apply elem_of_nil in Hl.
  - apply list.NoDup_app in Hnd as (H1 & _ & H2).
    apply elem_of_cons in Hl as [->|Hl]; [done | by apply IH].
Qed.

(** Valid phases of a complete graph are at least as many as its
    vertices. *)
Lemma complete_phases (adj : AdjacencyMatrix) (n : nat) (phases : list (list N)) :
  complete adj n → valid_phases adj n phases → n ≤ length phases.
Proof.
  intros Hcomplete [Hcover Hnodup Hproper].
  assert (Hlen : length (concat phases) = n).
  { rewrite <- (length_range n), <- (length_fmap N.of_nat).
    apply Permutation_length. apply NoDup_Permutation; [done | |].
    - apply NoDup_fmap_2; [apply _ | apply NoDup_seq].
    - intros v. rewrite Hcover, list_elem_of_fmap. split.
      + intros Hv. exists (N.to_nat v). split; [lia | apply elem_of_range; lia].
      + intros (i & -> & Hi%elem_of_range). lia. }
  rewrite <- Hlen. apply concat_length_le.
  apply Forall_forall. intros phase Hphase%list_elem_of_In.
  pose proof (NoDup_concat_elem phases phase Hnodup Hphase) as Hnd.
  destruct phase as [|u [|v rest]]; simpl; try lia.
  exfalso.
  assert (u ≠ v) as Huv.
  { apply list.NoDup_cons in Hnd as [Hu _]. intros ->. apply Hu. left. }
  apply (Hproper (u :: v :: rest) u v Hphase); [left | right; left |].
  apply Hcomplete; [| | done]; apply Hcover, elem_of_concat;
    exists (u :: v :: rest); (split; [|done]); [left | right; left].
Qed.


(** ** The claims about the colorings *)


(** C1, as the code has it. The parallel coloring never returns more than
    254 phases, and the only exception it throws is the coloring error;
    run as one task it throws exactly when the greedy coloring in the
    order of [perm] needs more than 254 colors. The deterministic
    coloring has no limit and never throws. In particular, on a graph of
    at least 255 vertices that are all adjacent to each other, the
    parallel coloring throws under every schedule, and the deterministic
    coloring returns one phase per vertex. *)
Theorem coloring_exhausted (adj : AdjacencyMatrix) (n : nat) (perm : list N)
    (nbodies : nat) (sched : list (nat * nat)) :
  wf_adjacency adj n → symmetric adj n → no_self_loops adj n →
  is_permutation perm n → is_schedule sched n nbodies →
  match generate_graph_coloring adj n perm nbodies sched with
  | inl e => e = ColoringExhausted
  | inr phases => length phases ≤ 254
  end ∧
  (generate_graph_coloring adj n perm 1 (Parallel.serial n) = inl ColoringExhausted ↔
   254 < length (generate_graph_coloring_deterministic adj n perm)) ∧
  (complete adj n → 255 ≤ n →
   generate_graph_coloring adj n perm nbodies sched = inl ColoringExhausted ∧
   length (generate_graph_coloring_deterministic adj n perm) = n).
Proof.
  intros Hwf Hsym Hnoself Hperm Hsched.
  pose proof (par_phases_valid adj n nbodies perm sched Hwf Hsym Hnoself Hperm Hsched)
    as Hpar.
  split; [|split].
  - destruct (generate_graph_coloring adj n perm nbodies sched); [done|].
    by destruct Hpar.
  - rewrite serial_coloring by done.
    destruct (decide (length (generate_graph_coloring_deterministic adj n perm) ≤ 254));
      split; intros H; (done || lia).
  - intros Hcomplete Hn. split.
    + destruct (generate_graph_coloring adj n perm nbodies sched) as [e|phases];
        [by rewrite Hpar|].
      destruct Hpar as [Hvalid Hlen].
      pose proof (complete_phases adj n phases Hcomplete Hvalid). lia.
    + pose proof (det_phases_valid adj n perm Hwf Hsym Hnoself Hperm) as Hdet.
      pose proof (complete_phases adj n _ Hcomplete Hdet) as Hge.
      destruct (det_coloring_final adj n perm Hwf Hsym Hnoself Hperm) as (_ & Hk & _).
      rewrite (det_phases_eq adj n perm Hwf Hsym Hnoself Hperm) in *.
      rewrite length_fmap, length_range in *. lia.
Qed.


(** ** The number of colors and the degrees of the vertices *)

Lemma length_used_colors (g : N → option nat) (row : list Link) :
  length (used_colors g row) ≤ length row.
Proof.
  induction row as [|link row IH]; [done|].
  rewrite used_colors_cons. destruct (g (id link)); simpl; lia.
Qed.

(** Colors that are all in use are at most as many as the neighbors. *)
Lemma colors_in_use (used : list nat) (k : nat) :
  (∀ j, j < k → j ∈ used) → k ≤ length used.
Proof.
  intros Hall. transitivity (length (seq 0 k)); [by rewrite length_seq|].
  apply submseteq_length, NoDup_submseteq; [apply NoDup_seq|].
  intros j Hj%elem_of_seq. apply Hall. lia.
Qed.

(** The greedy choice opens a new color only when the neighbors have
    all the colors that exist: the counter stays within one more than
    the number of neighbors. *)
Lemma greedy_choice_degree (used : list nat) (k d : nat) :
  k ≤ d + 1 → (∀ c, c ∈ used → c < d + 1) → length used ≤ d →
  (greedy_choice used k).2 ≤ d + 1.
Proof.
  intros Hk Hused Hlen.
  destruct (foldl_max_le used k) as [Hle Hlt].
  pose proof (foldl_max_bound used k (d + 1) Hk Hused) as Hb.
  destruct (greedy_choice_bound used k _ Hle Hlt) as [Hle' Hnew].
  destruct (decide ((greedy_choice used k).2
                    = S (foldl (λ k c, k `max` S c) k used))) as [Heq|Hne]; [|lia].
  destruct (Hnew Heq) as [_ Hall]. apply colors_in_use in Hall. lia.
Qed.

Lemma det_loop_degree (adj : AdjacencyMatrix) (n d : nat) (perm : list N) (k : nat) :
  wf_adjacency adj n → symmetric adj n → no_self_loops adj n →
  is_permutation perm n → max_degree adj n d → k ≤ n →
  (Deterministic.ncolors
     (foldl (λ st i, Deterministic.step adj st (perm !!! i))
            (Deterministic.init n) (range k)) <= Z.of_nat (d + 1))%Z.
Proof.
  intros Hwf Hsym Hnoself Hperm Hdeg. induction k as [|k IH]; intros Hk.
  { simpl. lia. }
  rewrite foldl_range_S.
  destruct (det_loop_inv adj n perm k Hwf Hsym Hnoself Hperm ltac:(lia))
    as (Hinv & _ & _ & _).
  set (st := foldl _ _ _) in *.
  pose proof (is_permutation_lt perm n k Hperm ltac:(lia)) as Hip.
  assert (Hrow : ∀ link, link ∈ adj_row adj (N.to_nat (perm !!! k)) →
                         N.to_nat (id link) < n).
  { intros link Hlink.
    assert (id link < N.of_nat n)%N; [|lia].
    apply (wf_ids adj n Hwf (perm !!! k)); [done|]. apply edge_link. eauto. }
  destruct (det_step_spec adj n st (perm !!! k) Hinv Hrow) as (_ & -> & _).
  apply inj_le, greedy_choice_degree.
  - specialize (IH ltac:(lia)). pose proof (det_ncolors_nonneg n st Hinv). lia.
  - intros c Hc%(det_used_lt n st _ Hinv Hrow). specialize (IH ltac:(lia)). lia.
  - etransitivity; [apply length_used_colors|]. apply Hdeg. lia.
Qed.

(** X1: The deterministic coloring of a graph whose vertices have at most
    [d] neighbors returns at most [d + 1] phases. *)
Theorem deterministic_degree_bound (adj : AdjacencyMatrix) (n d : nat) (perm : list N) :
  wf_adjacency adj n → symmetric adj n → no_self_loops adj n →
  is_permutation perm n → max_degree adj n d →
  length (generate_graph_coloring_deterministic adj n perm) ≤ d + 1.
Proof.
  intros Hwf Hsym Hnoself Hperm Hdeg.
  rewrite det_phases_eq by done. rewrite length_fmap, length_range.
  pose proof (det_loop_degree adj n d perm n Hwf Hsym Hnoself Hperm Hdeg (le_n _)).
  unfold Deterministic.color_loop. lia.
Qed.

(** The counters of the bodies stay within one more than the largest
    number of neighbors; with at most 253 neighbors a step cannot throw. *)
Lemma par_run_step_degree (adj : AdjacencyMatrix) (n d : nat) (perm : list N)
    (st : Parallel.state) (ev : nat * nat) :
  wf_adjacency adj n → is_permutation perm n → max_degree adj n d → d ≤ 253 →
  ev.1 < length (Parallel.bodies st) → ev.2 < n →
  par_inv adj n st →
  Forall (λ b, N.to_nat (Parallel.nColors (Parallel.colorData b)) ≤ d + 1)
         (Parallel.bodies st) →
  ∃ st', Parallel.run_step adj perm (inr st) ev = inr st' ∧
         Forall (λ b, N.to_nat (Parallel.nColors (Parallel.colorData b)) ≤ d + 1)
                (Parallel.bodies st').
Proof.
  intros Hwf Hperm Hdeg Hd Hbody Hpos [Hlen Hcolors Hbodies Hcounted Hproper] Hbound.
  pose proof (is_permutation_lt perm n ev.2 Hperm Hpos) as Hip.
  set (ip := perm !!! ev.2) in *.
  assert (Hrow : ∀ link, link ∈ adj_row adj (N.to_nat ip) → N.to_nat (id link) < n).
  { intros link Hlink.
    assert (id link < N.of_nat n)%N; [|lia].
    apply (wf_ids adj n Hwf ip); [done|]. apply edge_link. eauto. }
  set (b := Parallel.bodies st !!! ev.1).
  assert (Hb : b ∈ Parallel.bodies st) by by apply list_elem_of_lookup_total_2.
  pose proof (Forall_elem_of _ _ _ Hbodies Hb) as [Hbn Hbpc].
  pose proof (Forall_elem_of _ _ _ Hbound Hb) as Hbd. cbn beta in Hbd.
  destruct (par_step_spec adj n (Parallel.color st) (Parallel.colorData b)
              (Parallel.possible_colors b) ip Hlen Hcolors Hbn Hbpc Hrow)
    as [_ Hstep].
  set (used := used_colors (par_color_of (Parallel.color st))
                           (adj_row adj (N.to_nat ip))) in *.
  set (k := N.to_nat (Parallel.nColors (Parallel.colorData b))) in *.
  assert (Hck : (greedy_choice used k).2 ≤ d + 1).
  { apply greedy_choice_degree; [done| |].
    - intros c (link & Hlink & Hc)%elem_of_used_colors.
      destruct (Hcounted (id link) c) as (b0 & Hb0 & Hlt);
        [specialize (Hrow link Hlink); lia | done |].
      pose proof (Forall_elem_of _ _ _ Hbound Hb0) as Hb0d. cbn beta in Hb0d. lia.
    - etransitivity; [apply length_used_colors|]. apply Hdeg. lia. }
  unfold Parallel.run_step. fold ip b.
  destruct (decide ((greedy_choice used k).2 = 255)) as [Hk|Hk]; [lia|].
  destruct Hstep as (cd' & pc' & -> & Hcd' & Hpc').
  eexists. split; [done|]. cbn [Parallel.bodies].
  apply Forall_insert; [done|]. cbn [Parallel.colorData]. lia.
Qed.

Lemma par_schedule_degree (adj : AdjacencyMatrix) (n d nbodies : nat) (perm : list N)
    (sched : list (nat * nat)) :
  wf_adjacency adj n → symmetric adj n → no_self_loops adj n →
  is_permutation perm n → max_degree adj n d → d ≤ 253 →
  Forall (λ ev, ev.1 < nbodies ∧ ev.2 < n) sched →
  ∃ st, foldl (Parallel.run_step adj perm) (inr (Parallel.init n nbodies)) sched
        = inr st ∧
        Forall (λ b, N.to_nat (Parallel.nColors (Parallel.colorData b)) ≤ d + 1)
               (Parallel.bodies st).
Proof.
  intros Hwf Hsym Hnoself Hperm Hdeg Hd.
  induction sched as [|ev sched IH] using rev_ind; intros Hsched.
  - eexists. split; [done|]. cbn [Parallel.init Parallel.bodies].
    apply Forall_replicate. simpl. lia.
  - pose proof (par_schedule_inv adj n nbodies perm sched Hwf Hsym Hnoself Hperm)
      as Hinv.
    apply Forall_app in Hsched as [Hsched Hev].
    apply Forall_singleton in Hev as [Hev1 Hev2].
    specialize (Hinv Hsched). destruct (IH Hsched) as (st & Hrun & Hbound).
    rewrite foldl_app, Hrun in *. cbn [foldl].
    destruct Hinv as (Hinv & Hlen & _).
    apply (par_run_step_degree adj n d); (done || lia).
Qed.

Lemma par_build_phases_length (color : list N) (nColors : N) (size : nat) :
  length (Parallel.build_phases color nColors size) = N.to_nat nColors.
Proof.
  unfold Parallel.build_phases.
  apply (foldl_invariant (λ phases, length phases = N.to_nat nColors)).
  - by rewrite length_replicate.
  - intros phases i _ Hlen. unfold Parallel.push_phase. by rewrite length_insert.
Qed.

(** With at most 253 neighbors per vertex the schedule runs to its end,
    and the joined counter is at most one more than the largest number
    of neighbors. *)
Lemma par_joined_degree (adj : AdjacencyMatrix) (n d nbodies : nat) (perm : list N)
    (sched : list (nat * nat)) :
  wf_adjacency adj n → symmetric adj n → no_self_loops adj n →
  is_permutation perm n → max_degree adj n d → d ≤ 253 →
  Forall (λ ev, ev.1 < nbodies ∧ ev.2 < n) sched →
  ∃ st, foldl (Parallel.run_step adj perm) (inr (Parallel.init n nbodies)) sched
        = inr st ∧
        N.to_nat (Parallel.nColors
                    (foldl Parallel.join Parallel.ColorData_ctor
                           (Parallel.colorData <$> Parallel.bodies st))) ≤ d + 1.
Proof.
  intros Hwf Hsym Hnoself Hperm Hdeg Hd Hsched.
  destruct (par_schedule_degree adj n d nbodies perm sched
              Hwf Hsym Hnoself Hperm Hdeg Hd Hsched) as (st & Hrun & Hbound).
  exists st. split; [done|].
  destruct (foldl_join_nColors (Parallel.colorData <$> Parallel.bodies st)
              Parallel.ColorData_ctor) as (_ & _ & Hmax).
  assert (Parallel.nColors (foldl Parallel.join Parallel.ColorData_ctor
            (Parallel.colorData <$> Parallel.bodies st)) <= N.of_nat (d + 1))%N; [|lia].
  apply Hmax; [simpl; lia|]. apply Forall_fmap.
  eapply list.Forall_impl; [exact Hbound|]. intros b Hb. cbn beta in *. simpl. lia.
Qed.

(** X2: The parallel coloring of a graph whose vertices have at most [d]
    neighbors, with [d] at most 253, does not throw, whatever the
    schedule, and returns at most [d + 1] phases. *)
Theorem parallel_degree_bound (adj : AdjacencyMatrix) (n d : nat) (perm : list N)
    (nbodies : nat) (sched : list (nat * nat)) :
  wf_adjacency adj n → symmetric adj n → no_self_loops adj n →
  is_permutation perm n → is_schedule sched n nbodies →
  max_degree adj n d → d ≤ 253 →
  ∃ phases, generate_graph_coloring adj n perm nbodies sched = inr phases ∧
            length phases ≤ d + 1.
Proof.
  intros Hwf Hsym Hnoself Hperm [Hpos Hbodies] Hdeg Hd.
  assert (Hsched : Forall (λ ev, ev.1 < nbodies ∧ ev.2 < n) sched).
  { apply Forall_lookup_2. intros i ev Hev. split.
    - eapply Forall_lookup_1 in Hbodies; [|exact Hev]. done.
    - apply elem_of_range. rewrite <- Hpos.
      apply list_elem_of_fmap. exists ev. split; [done|].
      by eapply list_elem_of_lookup_2. }
  destruct (par_joined_degree adj n d nbodies perm sched
              Hwf Hsym Hnoself Hperm Hdeg Hd Hsched) as (st & Hrun & Hbound).
  unfold generate_graph_coloring. rewrite Hrun. eexists. split; [done|].
  by rewrite par_build_phases_length.
Qed.


(** ** The order of the vertices within a phase *)

Lemma ascending_NoDup (phase : list N) : ascending phase → NoDup phase.
Proof.
  induction 1 as [|v phase _ IH Hv]; [constructor|].
  apply list.NoDup_cons. split; [|done].
  intros Hin. apply (Forall_elem_of _ _ _ Hv) in Hin. lia.
Qed.

(** Lines 262-263 and 384-385 append the vertices to their phases in
    ascending order. *)
Lemma push_ascending (f : nat → nat) (k n : nat) :
  Forall (λ phase, ascending phase ∧ Forall (λ v, (v < N.of_nat n)%N) phase)
         (foldl (λ phases i, <[f i := phases !!! f i ++ [N.of_nat i]]> phases)
                (replicate k []) (range n)).
Proof.
  induction n as [|n IH].
  { apply Forall_replicate. split; constructor. }
  rewrite foldl_range_S. set (phases := foldl _ _ _) in *.
  assert (Hweak : Forall (λ phase, ascending phase
                                   ∧ Forall (λ v, (v < N.of_nat (S n))%N) phase) phases).
  { eapply list.Forall_impl; [exact IH|]. intros phase [Hsorted Hlt].
    split; [done|]. eapply list.Forall_impl; [exact Hlt|]. intros v Hv. cbn beta in *. lia. }
  destruct (decide (f n < length phases)) as [Hin|Hout].
  - apply Forall_insert; [done|].
    destruct (Forall_lookup_1 _ _ (f n) (phases !!! f n) IH) as [Hsorted Hlt].
    { by apply list_lookup_lookup_total_lt. }
    split.
    + apply StronglySorted_app_2; [|done|repeat constructor].
      intros v w Hv ->%list_elem_of_singleton.
      by apply (Forall_elem_of _ _ _ Hlt) in Hv.
    + apply Forall_app. split.
      * eapply list.Forall_impl; [exact Hlt|]. intros v Hv. cbn beta in *. lia.
      * repeat constructor. lia.
  - rewrite list_insert_ge by lia. done.
Qed.

Lemma det_phases_ascending (adj : AdjacencyMatrix) (size : nat) (perm : list N) :
  Forall ascending (generate_graph_coloring_deterministic adj size perm).
Proof.
  unfold generate_graph_coloring_deterministic, Deterministic.build_phases.
  eapply list.Forall_impl.
  - apply (push_ascending
             (λ i, Z.to_nat (Deterministic.color
                               (Deterministic.color_loop adj size perm) !!! i))).
  - by intros phase [? _].
Qed.

Lemma par_phases_ascending (color : list N) (nColors : N) (size : nat) :
  Forall ascending (Parallel.build_phases color nColors size).
Proof.
  unfold Parallel.build_phases. eapply list.Forall_impl.
  - apply (push_ascending (λ i, N.to_nat (color !!! i))).
  - by intros phase [? _].
Qed.

(** X3: In every phase that a coloring returns, the vertices are listed in
    ascending order; in particular no phase lists a vertex twice.  The
    hypotheses are those under which the colorings stay inside their
    arrays; the order of the phases owes nothing to them. *)
Theorem phases_ascending (adj : AdjacencyMatrix) (size : nat) (perm : list N)
    (nbodies : nat) (sched : list (nat * nat)) :
  wf_adjacency adj size → is_permutation perm size → is_schedule sched size nbodies →
  Forall (λ phase, ascending phase ∧ NoDup phase)
         (generate_graph_coloring_deterministic adj size perm) ∧
  match generate_graph_coloring adj size perm nbodies sched with
  | inl _ => True
  | inr phases => Forall (λ phase, ascending phase ∧ NoDup phase) phases
  end.
Proof.
  intros _ _ _.
  assert (Hnodup : ∀ phases, Forall ascending phases →
                             Forall (λ phase, ascending phase ∧ NoDup phase) phases).
  { intros phases Hasc. eapply list.Forall_impl; [exact Hasc|].
    intros phase Hphase. split; [done | by apply ascending_NoDup]. }
  split; [apply Hnodup, det_phases_ascending|].
  unfold generate_graph_coloring.
  destruct (foldl (Parallel.run_step adj perm) _ sched) as [e|st]; [done|].
  apply Hnodup, par_phases_ascending.
Qed.

(** ** Every color is in use *)

Lemma is_permutation_NoDup (perm : list N) (n : nat) :
  is_permutation perm n → NoDup perm.
Proof.
  intros Hperm. unfold is_permutation in Hperm. rewrite Hperm.
  apply NoDup_fmap_2; [apply _|]. apply NoDup_seq.
Qed.

Lemma is_permutation_inj (perm : list N) (n i j : nat) :
  is_permutation perm n → i < n → j < n → perm !!! i = perm !!! j → i = j.
Proof.
  intros Hperm Hi Hj Heq.
  pose proof (is_permutation_length perm n Hperm) as Hlen.
  apply (NoDup_lookup perm i j (perm !!! i)).
  - by eapply is_permutation_NoDup.
  - apply list_lookup_lookup_total_lt. lia.
  - rewrite Heq. apply list_lookup_lookup_total_lt. lia.
Qed.

(** A color below the grown counter is below the old counter or is at
    most the color of a neighbor. *)
Lemma foldl_max_witness (used : list nat) (k j : nat) :
  j < foldl (λ k c, k `max` S c) k used → j < k ∨ ∃ c, c ∈ used ∧ j ≤ c.
Proof.
  revert k. induction used as [|c used IH]; intros k Hj; simpl in Hj; [by left|].
  destruct (IH _ Hj) as [Hlt|(c' & Hc' & Hle)].
  - destruct (decide (j < k)); [by left|]. right. exists c. split; [left | lia].
  - right. exists c'. split; [by right | done].
Qed.

(** The loop of the deterministic coloring: a vertex that it has not
    reached has no color, and every color that exists is the color of
    some vertex. *)
Lemma det_loop_used (adj : AdjacencyMatrix) (n : nat) (perm : list N) (k : nat) :
  wf_adjacency adj n → symmetric adj n → no_self_loops adj n →
  is_permutation perm n → k ≤ n →
  let st := foldl (λ st i, Deterministic.step adj st (perm !!! i))
                  (Deterministic.init n) (range k) in
  (∀ v, (v < N.of_nat n)%N → (∀ i, i < k → perm !!! i ≠ v) →
        det_color_of (Deterministic.color st) v = None) ∧
  (∀ j, j < Z.to_nat (Deterministic.ncolors st) →
        ∃ v, (v < N.of_nat n)%N ∧ det_color_of (Deterministic.color st) v = Some j).
Proof.
  intros Hwf Hsym Hnoself Hperm. induction k as [|k IH]; intros Hk; cbn zeta.
  { split.
    - intros v Hv _. unfold det_color_of, at32. simpl.
      by rewrite lookup_total_replicate_2 by lia.
    - simpl. lia. }
  rewrite foldl_range_S.
  destruct (det_loop_inv adj n perm k Hwf Hsym Hnoself Hperm ltac:(lia))
    as (Hinv & Hproper & _ & _).
  destruct IH as [Hfresh Hused]; [lia|].
  set (st := foldl _ _ _) in *.
  pose proof (is_permutation_lt perm n k Hperm ltac:(lia)) as Hip.
  set (ip := perm !!! k) in *.
  assert (Hrow : ∀ link, link ∈ adj_row adj (N.to_nat ip) → N.to_nat (id link) < n).
  { intros link Hlink.
    assert (id link < N.of_nat n)%N; [|lia].
    apply (wf_ids adj n Hwf ip); [done|]. apply edge_link. eauto. }
  destruct (det_step_spec adj n st ip Hinv Hrow) as (Hcolor & Hncolors & _).
  set (used := used_colors (det_color_of (Deterministic.color st))
                           (adj_row adj (N.to_nat ip))) in *.
  set (k0 := Z.to_nat (Deterministic.ncolors st)) in *.
  assert (Hview : ∀ v, det_color_of (Deterministic.color (Deterministic.step adj st ip)) v
                      = if decide (v = ip) then Some (greedy_choice used k0).1
                        else det_color_of (Deterministic.color st) v).
  { intros v. rewrite Hcolor. apply det_color_of_set32.
    rewrite (det_color_length n st Hinv). lia. }
  assert (Hnone : det_color_of (Deterministic.color st) ip = None).
  { apply Hfresh; [done|]. intros i Hi Heq.
    apply (is_permutation_inj perm n i k Hperm) in Heq; lia. }
  split.
  - intros v Hv Hnot. rewrite Hview.
    destruct (decide (v = ip)) as [->|_]; [by destruct (Hnot k ltac:(lia))|].
    apply Hfresh; [done|]. intros i Hi. apply Hnot. lia.
  - rewrite Hncolors, Nat2Z.id. intros j Hj.
    destruct (greedy_choice_bound used k0 k0 (le_n _)
                (det_used_lt n st _ Hinv Hrow)) as [Hle Hnew].
    destruct (decide (j < k0)) as [Hold|Hfreshcolor].
    + destruct (Hused j Hold) as (v & Hv & Hc). exists v. split; [done|].
      rewrite Hview. destruct (decide (v = ip)) as [->|_]; [congruence | done].
    + destruct Hnew as [Hchosen _]; [lia|].
      exists ip. split; [done|]. rewrite Hview, decide_True by done.
      f_equal. lia.
Qed.

(** The form of a step that does not throw. *)
Lemma par_run_step_form (adj : AdjacencyMatrix) (n : nat) (perm : list N)
    (st : Parallel.state) (ev : nat * nat) :
  wf_adjacency adj n → is_permutation perm n →
  ev.1 < length (Parallel.bodies st) → ev.2 < n →
  par_inv adj n st →
  let used := used_colors (par_color_of (Parallel.color st))
                          (adj_row adj (N.to_nat (perm !!! ev.2))) in
  let k := N.to_nat (Parallel.nColors
                       (Parallel.colorData (Parallel.bodies st !!! ev.1))) in
  let ck := greedy_choice used k in
  match Parallel.run_step adj perm (inr st) ev with
  | inl _ => True
  | inr st' =>
      ck.2 ≤ 254 ∧
      Parallel.color st' = set32 (Parallel.color st) (perm !!! ev.2) (N.of_nat ck.1) ∧
      ∃ b', Parallel.bodies st' = <[ev.1 := b']> (Parallel.bodies st) ∧
            N.to_nat (Parallel.nColors (Parallel.colorData b')) = ck.2
  end.
Proof.
  intros Hwf Hperm Hbody Hpos [Hlen Hcolors Hbodies Hcounted Hproper]. cbn zeta.
  pose proof (is_permutation_lt perm n ev.2 Hperm Hpos) as Hip.
  set (ip := perm !!! ev.2) in *.
  assert (Hrow : ∀ link, link ∈ adj_row adj (N.to_nat ip) → N.to_nat (id link) < n).
  { intros link Hlink.
    assert (id link < N.of_nat n)%N; [|lia].
    apply (wf_ids adj n Hwf ip); [done|]. apply edge_link. eauto. }
  set (b := Parallel.bodies st !!! ev.1).
  assert (Hb : b ∈ Parallel.bodies st) by by apply list_elem_of_lookup_total_2.
  pose proof (Forall_elem_of _ _ _ Hbodies Hb) as [Hbn Hbpc].
  destruct (par_step_spec adj n (Parallel.color st) (Parallel.colorData b)
              (Parallel.possible_colors b) ip Hlen Hcolors Hbn Hbpc Hrow)
    as [Hle Hstep].
  unfold Parallel.run_step. fold ip b.
  destruct (decide (_ = 255)) as [Hk|Hk]; [by rewrite Hstep|].
  destruct Hstep as (cd' & pc' & -> & Hcd' & Hpc').
  cbn [Parallel.color Parallel.bodies]. split; [lia|]. split; [done|].
  eexists. split; [done|]. cbn [Parallel.colorData]. lia.
Qed.

(** The parallel coloring: a vertex that no step has treated has no
    color, and every color below the counter of a body is the color of
    some vertex. *)
Lemma par_schedule_used (adj : AdjacencyMatrix) (n nbodies : nat) (perm : list N)
    (sched : list (nat * nat)) :
  wf_adjacency adj n → symmetric adj n → no_self_loops adj n →
  is_permutation perm n →
  Forall (λ ev, ev.1 < nbodies ∧ ev.2 < n) sched → NoDup sched.*2 →
  match foldl (Parallel.run_step adj perm) (inr (Parallel.init n nbodies)) sched with
  | inl _ => True
  | inr st =>
      (∀ v, (v < N.of_nat n)%N → (∀ ev, ev ∈ sched → perm !!! ev.2 ≠ v) →
            par_color_of (Parallel.color st) v = None) ∧
      (∀ b j, b ∈ Parallel.bodies st →
              j < N.to_nat (Parallel.nColors (Parallel.colorData b)) →
              ∃ v, (v < N.of_nat n)%N ∧ par_color_of (Parallel.color st) v = Some j)
  end.
Proof.
  intros Hwf Hsym Hnoself Hperm.
  induction sched as [|ev sched IH] using rev_ind; intros Hsched Hnodup.
  { simpl. split.
    - intros v Hv _. unfold par_color_of, at32.
      by rewrite lookup_total_replicate_2 by lia.
    - intros b j Hb%elem_of_replicate Hj. destruct Hb as [-> _]. simpl in Hj. lia. }
  apply Forall_app in Hsched as [Hsched Hev].
  apply Forall_singleton in Hev as [Hev1 Hev2].
  rewrite fmap_app in Hnodup. apply list.NoDup_app in Hnodup as (Hnodup & Hnew & _).
  pose proof (par_schedule_inv adj n nbodies perm sched Hwf Hsym Hnoself Hperm Hsched)
    as Hinv.
  specialize (IH Hsched Hnodup). rewrite foldl_app. cbn [foldl].
  destruct (foldl (Parallel.run_step adj perm) _ sched) as [e|st]; [done|].
  destruct Hinv as (Hinv & Hlen & _). destruct IH as [Hfresh Hused].
  pose proof (par_run_step_form adj n perm st ev Hwf Hperm ltac:(lia) Hev2 Hinv)
    as Hform.
  pose proof (par_run_step_inv adj n perm st ev Hwf Hsym Hnoself Hperm
                ltac:(lia) Hev2 Hinv) as Hstep.
  cbn zeta in Hform.
  destruct (Parallel.run_step adj perm (inr st) ev) as [e|st']; [done|].
  destruct Hform as (Hck & Hcolor & b' & Hbodies' & Hb').
  pose proof (is_permutation_lt perm n ev.2 Hperm Hev2) as Hip.
  set (ip := perm !!! ev.2) in *.
  set (used := used_colors (par_color_of (Parallel.color st))
                           (adj_row adj (N.to_nat ip))) in *.
  set (k := N.to_nat (Parallel.nColors
                        (Parallel.colorData (Parallel.bodies st !!! ev.1)))) in *.
  destruct (greedy_choice_spec used k) as (_ & Hlt & _ & _).
  assert (Hview : ∀ v, par_color_of (Parallel.color st') v
                      = if decide (v = ip) then Some (greedy_choice used k).1
                        else par_color_of (Parallel.color st) v).
  { intros v. rewrite Hcolor. apply par_color_of_set32; [|lia].
    rewrite (par_color_length adj n st Hinv). lia. }
  assert (Hnone : par_color_of (Parallel.color st) ip = None).
  { apply Hfresh; [done|]. intros ev' Hev' Heq.
    assert (ev'.2 < n) as Hlt'.
    { by apply (Forall_elem_of _ _ _ Hsched) in Hev' as [_ ?]. }
    apply (is_permutation_inj perm n _ _ Hperm Hlt' Hev2) in Heq.
    apply (Hnew ev.2); [|left]. rewrite <- Heq.
    apply list_elem_of_fmap. eauto. }
  assert (Hkeep : ∀ v j, par_color_of (Parallel.color st) v = Some j →
                         par_color_of (Parallel.color st') v = Some j).
  { intros v j Hv. rewrite Hview.
    destruct (decide (v = ip)) as [->|_]; [congruence | done]. }
  split.
  - intros v Hv Hnot. rewrite Hview. destruct (decide (v = ip)) as [->|_].
    + destruct (Hnot ev); [apply elem_of_app; right; left | done].
    + apply Hfresh; [done|]. intros ev' Hev'. apply Hnot, elem_of_app. by left.
  - intros b j Hb Hj. rewrite Hbodies' in Hb.
    apply list_elem_of_lookup in Hb as (w & Hw).
    destruct (decide (w = ev.1)) as [->|Hne].
    + rewrite list_lookup_insert_eq in Hw by lia. injection Hw as <-.
      rewrite Hb' in Hj.
      destruct (foldl_max_le used k) as [Hle Hbelow].
      destruct (greedy_choice_bound used k _ Hle Hbelow) as [Hle' Hnewcolor].
      destruct (decide (j < foldl (λ k c, k `max` S c) k used)) as [Hgrown|Hlast].
      * apply foldl_max_witness in Hgrown as [Hold|(c & Hc & Hjc)].
        -- destruct (Hused (Parallel.bodies st !!! ev.1) j) as (v & Hv & Hvj);
             [apply list_elem_of_lookup_total_2; lia | done |].
           exists v. split; [done | by apply Hkeep].
        -- apply elem_of_used_colors in Hc as (link & Hlink & Hc).
           assert (id link < N.of_nat n)%N as Hid.
           { apply (wf_ids adj n Hwf ip); [done|]. apply edge_link. eauto. }
           destruct (par_color_counted adj n st Hinv (id link) c Hid Hc)
             as (b0 & Hb0 & Hcb0).
           destruct (Hused b0 j Hb0 ltac:(lia)) as (v & Hv & Hvj).
           exists v. split; [done | by apply Hkeep].
      * destruct Hnewcolor as [Hchosen _]; [lia|].
        exists ip. split; [done|]. rewrite Hview, decide_True by done. f_equal. lia.
    + rewrite list_lookup_insert_ne in Hw by done.
      destruct (Hused b j) as (v & Hv & Hvj);
        [by eapply list_elem_of_lookup_2 | done |].
      exists v. split; [done | by apply Hkeep].
Qed.

(** The counter after the join is the counter of a body, or zero. *)
Lemma foldl_join_attained (l : list Parallel.ColorData) (a : Parallel.ColorData) :
  Parallel.nColors (foldl Parallel.join a l) = Parallel.nColors a ∨
  ∃ c, c ∈ l ∧ Parallel.nColors (foldl Parallel.join a l) = Parallel.nColors c.
Proof.
  revert a. induction l as [|c l IH]; intros a; simpl; [by left|].
  destruct (IH (Parallel.join a c)) as [Heq|(c' & Hc' & Heq)].
  - rewrite join_nColors in Heq.
    destruct (N.max_spec (Parallel.nColors a) (Parallel.nColors c)) as [[_ E]|[_ E]];
      rewrite E in Heq; [right; exists c; split; [left | done] | by left].
  - right. exists c'. split; [by right | done].
Qed.

Lemma phases_filled (n : nat) (f : nat → nat) (g : N → option nat) (k : nat) :
  (∀ i, i < n → g (N.of_nat i) = Some (f i)) →
  (∀ j, j < k → ∃ v, (v < N.of_nat n)%N ∧ g v = Some j) →
  Forall (λ phase, phase ≠ []) (phase_of f n <$> range k).
Proof.
  intros Hf Hk. apply Forall_fmap, list.Forall_forall.
  intros j Hj%elem_of_range. cbn.
  destruct (Hk j Hj) as (v & Hv & Hvj).
  assert (v ∈ phase_of f n j) as Hin.
  { apply elem_of_phase_of. exists (N.to_nat v).
    split; [lia|]. split; [lia|].
    specialize (Hf (N.to_nat v) ltac:(lia)). rewrite N2Nat.id in Hf. congruence. }
  intros Hnil. rewrite Hnil in Hin. by apply elem_of_nil in Hin.
Qed.

Lemma det_phases_nonempty (adj : AdjacencyMatrix) (n : nat) (perm : list N) :
  wf_adjacency adj n → symmetric adj n → no_self_loops adj n →
  is_permutation perm n →
  Forall (λ phase, phase ≠ []) (generate_graph_coloring_deterministic adj n perm).
Proof.
  intros Hwf Hsym Hnoself Hperm.
  rewrite det_phases_eq by done.
  destruct (det_coloring_final adj n perm Hwf Hsym Hnoself Hperm) as (_ & _ & Hf).
  destruct (det_loop_used adj n perm n Hwf Hsym Hnoself Hperm (le_n _)) as [_ Hused].
  eapply phases_filled; [intros i Hi; by apply Hf | exact Hused].
Qed.

Lemma is_schedule_steps (sched : list (nat * nat)) (n nbodies : nat) :
  is_schedule sched n nbodies →
  Forall (λ ev, ev.1 < nbodies ∧ ev.2 < n) sched ∧ NoDup sched.*2.
Proof.
  intros [Hpos Hbodies]. split.
  - apply Forall_lookup_2. intros i ev Hev. split.
    + eapply Forall_lookup_1 in Hbodies; [|exact Hev]. done.
    + apply elem_of_range. rewrite <- Hpos.
      apply list_elem_of_fmap. exists ev. split; [done|].
      by eapply list_elem_of_lookup_2.
  - rewrite Hpos. apply NoDup_seq.
Qed.

Lemma par_phases_nonempty (adj : AdjacencyMatrix) (n : nat) (perm : list N)
    (nbodies : nat) (sched : list (nat * nat)) :
  wf_adjacency adj n → symmetric adj n → no_self_loops adj n →
  is_permutation perm n → is_schedule sched n nbodies →
  match generate_graph_coloring adj n perm nbodies sched with
  | inl _ => True
  | inr phases => Forall (λ phase, phase ≠ []) phases
  end.
Proof.
  intros Hwf Hsym Hnoself Hperm Hsched0.
  destruct (is_schedule_steps sched n nbodies Hsched0) as [Hsched Hnodup].
  destruct Hsched0 as [Hpos Hbodies].
  pose proof (par_schedule_inv adj n nbodies perm sched Hwf Hsym Hnoself Hperm Hsched)
    as Hrun.
  pose proof (par_schedule_used adj n nbodies perm sched Hwf Hsym Hnoself Hperm
                Hsched Hnodup) as Hrun'.
  unfold generate_graph_coloring.
  destruct (foldl (Parallel.run_step adj perm) _ sched) as [e|st]; [done|].
  destruct Hrun as ([Hlen Hcolors Hbods Hcounted Hproper] & _ & Hcolored).
  destruct Hrun' as [_ Hused].
  set (cd := foldl Parallel.join Parallel.ColorData_ctor
                   (Parallel.colorData <$> Parallel.bodies st)).
  destruct (foldl_join_nColors (Parallel.colorData <$> Parallel.bodies st)
              Parallel.ColorData_ctor) as (_ & Hmax & _).
  fold cd in Hmax.
  assert (Hf : ∀ i, i < n →
    par_color_of (Parallel.color st) (N.of_nat i)
      = Some (N.to_nat (Parallel.color st !!! i)) ∧
    N.to_nat (Parallel.color st !!! i) < N.to_nat (Parallel.nColors cd)).
  { intros i Hi.
    assert (par_color_of (Parallel.color st) (N.of_nat i) ≠ None) as Hne.
    { destruct (is_permutation_covers perm n (N.of_nat i) Hperm) as (p & Hp & Hpi);
        [lia|].
      rewrite <- Hpi.
      assert (p ∈ sched.*2) as Hin by (rewrite Hpos; by apply elem_of_range).
      apply list_elem_of_fmap in Hin as (ev & -> & Hev). by apply Hcolored. }
    destruct (par_color_of_cases (Parallel.color st) (N.of_nat i)) as [[_ E]|[_ E]];
      [|done].
    unfold at32 in E. rewrite Nat2N.id in E. split; [done|].
    destruct (Hcounted (N.of_nat i) _ ltac:(lia) E) as (b & Hb & Hlt).
    assert (Parallel.nColors (Parallel.colorData b) <= Parallel.nColors cd)%N; [|lia].
    apply Hmax. apply list_elem_of_fmap. eauto. }
  unfold Parallel.build_phases.
  change (foldl (Parallel.push_phase (Parallel.color st)))
    with (foldl (λ (phases : list (list N)) i,
            <[N.to_nat (Parallel.color st !!! i)
              := phases !!! N.to_nat (Parallel.color st !!! i) ++ [N.of_nat i]]>
              phases)).
  rewrite (push_phases (λ i, N.to_nat (Parallel.color st !!! i)))
    by (intros i Hi; by apply Hf).
  eapply phases_filled; [intros i Hi; by apply Hf|].
  intros j Hj.
  destruct (foldl_join_attained (Parallel.colorData <$> Parallel.bodies st)
              Parallel.ColorData_ctor) as [Hzero|(c & Hc & Heq)].
  - fold cd in Hzero. rewrite Hzero in Hj. simpl in Hj. lia.
  - fold cd in Heq. apply list_elem_of_fmap in Hc as (b & -> & Hb).
    apply (Hused b j Hb). lia.
Qed.

(** X4: No phase is empty: the colorings return one phase for every color
    that some vertex has, and no other. *)
Theorem phases_nonempty (adj : AdjacencyMatrix) (n : nat) (perm : list N)
    (nbodies : nat) (sched : list (nat * nat)) :
  wf_adjacency adj n → symmetric adj n → no_self_loops adj n →
  is_permutation perm n → is_schedule sched n nbodies →
  Forall (λ phase, phase ≠ []) (generate_graph_coloring_deterministic adj n perm) ∧
  match generate_graph_coloring adj n perm nbodies sched with
  | inl _ => True
  | inr phases => Forall (λ phase, phase ≠ []) phases
  end.
Proof.
  intros Hwf Hsym Hnoself Hperm Hsched. split.
  - by apply det_phases_nonempty.
  - by apply par_phases_nonempty.
Qed.

(** ** Graphs without links *)

Lemma identity_perm_ascending (n : nat) : ascending (identity_perm n).
Proof.
  unfold ascending, identity_perm. induction n as [|n IH]; [constructor|].
  rewrite range_S, fmap_app. apply StronglySorted_app_2; [|done|repeat constructor].
  intros v w (i & -> & Hi%elem_of_range)%list_elem_of_fmap ->%list_elem_of_singleton.
  lia.
Qed.

Lemma elem_of_identity_perm (n : nat) (v : N) :
  v ∈ identity_perm n ↔ (v < N.of_nat n)%N.
Proof.
  unfold identity_perm. rewrite list_elem_of_fmap. split.
  - intros (i & -> & Hi%elem_of_range). lia.
  - intros Hv. exists (N.to_nat v). split; [lia|]. apply elem_of_range. lia.
Qed.

(** One phase that is in ascending order and holds every vertex. *)
Lemma single_phase (adj : AdjacencyMatrix) (n : nat) (phases : list (list N)) :
  valid_phases adj n phases → Forall ascending phases →
  Forall (λ phase, phase ≠ []) phases → length phases ≤ 1 →
  phases = if decide (n = 0) then [] else [identity_perm n].
Proof.
  intros [Hcover Hnodup _] Hsorted Hnonempty Hlen.
  destruct phases as [|phase [|? ?]]; [| |simpl in Hlen; lia].
  - destruct (decide (n = 0)) as [|Hn]; [done|].
    destruct (Hcover 0%N) as [_ H0]. apply elem_of_nil in H0; [done | lia].
  - apply list.Forall_cons in Hsorted as [Hsorted _].
    apply list.Forall_cons in Hnonempty as [Hnonempty _].
    simpl in Hcover, Hnodup. rewrite app_nil_r in *.
    destruct (decide (n = 0)) as [->|Hn].
    + destruct phase as [|v phase]; [done|].
      destruct (Hcover v) as [Hv _]. specialize (Hv ltac:(left)). lia.
    + f_equal. apply (StronglySorted_unique_strong N.lt).
      * intros v w _ _ Hvw Hwv. lia.
      * done.
      * apply identity_perm_ascending.
      * apply NoDup_Permutation; [done | |].
        -- apply ascending_NoDup, identity_perm_ascending.
        -- intros v. by rewrite Hcover, elem_of_identity_perm.
Qed.

(** X5: On a graph without links that has a vertex, both colorings return
    one phase with all the vertices in ascending order.  The parallel
    coloring does so under every schedule, and returns no phase when
    there is no vertex; nothing is said of the deterministic coloring of
    no vertex, which shuffles an empty array first. *)
Theorem coloring_without_links (adj : AdjacencyMatrix) (n : nat) (perm : list N)
    (nbodies : nat) (sched : list (nat * nat)) :
  wf_adjacency adj n → max_degree adj n 0 →
  is_permutation perm n → is_schedule sched n nbodies →
  (0 < n → generate_graph_coloring_deterministic adj n perm = [identity_perm n]) ∧
  generate_graph_coloring adj n perm nbodies sched
  = inr (if decide (n = 0) then [] else [identity_perm n]).
Proof.
  intros Hwf Hdeg Hperm Hsched.
  assert (Hnone : ∀ u v, (u < N.of_nat n)%N → ¬ edge adj u v).
  { intros u v Hu (link & Hlink & _)%edge_link.
    specialize (Hdeg (N.to_nat u) ltac:(lia)).
    destruct (adj_row adj (N.to_nat u)); [by apply elem_of_nil in Hlink|].
    simpl in Hdeg. lia. }
  assert (Hsym : symmetric adj n).
  { intros u v Hu _ Hedge. by destruct (Hnone u v). }
  assert (Hnoself : no_self_loops adj n).
  { intros u Hu. by apply Hnone. }
  pose proof (par_phases_nonempty adj n perm nbodies sched
                Hwf Hsym Hnoself Hperm Hsched) as Hne_p.
  destruct (is_schedule_steps sched n nbodies Hsched) as [Hsteps _].
  split.
  - intros Hn.
    replace [identity_perm n] with (if decide (n = 0) then [] else [identity_perm n])
      by (destruct (decide (n = 0)); [lia | done]).
    apply (single_phase adj).
    + by apply det_phases_valid.
    + apply det_phases_ascending.
    + by apply det_phases_nonempty.
    + rewrite det_phases_eq by done. rewrite length_fmap, length_range.
      pose proof (det_loop_degree adj n 0 perm n Hwf Hsym Hnoself Hperm Hdeg (le_n _)).
      unfold Deterministic.color_loop. lia.
  - pose proof (par_phases_valid adj n nbodies perm sched Hwf Hsym Hnoself Hperm Hsched)
      as Hvalid.
    destruct (par_joined_degree adj n 0 nbodies perm sched
                Hwf Hsym Hnoself Hperm Hdeg ltac:(lia) Hsteps) as (st & Hrun & Hlen).
    unfold generate_graph_coloring in *. rewrite Hrun in *. f_equal.
    destruct Hvalid as [Hvalid _].
    apply (single_phase adj); [done | apply par_phases_ascending | done |].
    rewrite par_build_phases_length. lia.
Qed.


(** ** Writing consecutive slots of an array *)

(** A loop that writes the slots [base .. base + m) in order. *)
Lemma write_slots {A} (f : nat → A) (base m : nat) (a : list A) :
  base + m ≤ length a →
  foldl (λ a j, <[base + j := f j]> a) a (range m)
  = take base a ++ (f <$> range m) ++ drop (base + m) a.
Proof.
  induction m as [|m IH]; intros Hm.
  - simpl. by rewrite Nat.add_0_r, take_drop.
  - rewrite foldl_range_S, IH by lia.
    rewrite insert_app_r_alt by (rewrite length_take; lia).
    rewrite length_take, Nat.min_l by lia.
    replace (base + m - base) with m by lia.
    f_equal. rewrite range_S, fmap_app, <- app_assoc.
    rewrite insert_app_r_alt by (rewrite length_fmap, length_range; lia).
    rewrite length_fmap, length_range, Nat.sub_diag. f_equal.
    destruct (drop (base + m) a) as [|x tl] eqn:E.
    { apply (f_equal length) in E. rewrite length_drop in E. simpl in E. lia. }
    simpl. f_equal.
    replace (base + S m) with (base + m + 1) by lia.
    by rewrite <- drop_drop, E.
Qed.

(** ** The entries of the links (lines 38-58) *)

Lemma fill_length (adj : AdjacencyMatrix) (N : list Vector3f) (A : list Q)
    (l : list nat) (entries0 : list Entry) :
  length (foldl (λ entries i,
           let nNeighbors := adj_ptr adj !!! (i + 1) - adj_ptr adj !!! i in
           let base := adj_ptr adj !!! i - adj_ptr adj !!! 0 in
           foldl (λ entries j, <[base + j := make_entry adj N A i j]> entries)
                 entries (range nNeighbors))
        entries0 l) = length entries0.
Proof.
  revert entries0. induction l as [|i l IH]; intros e; simpl; [done|].
  rewrite IH.
  generalize (range (adj_ptr adj !!! (i + 1) - adj_ptr adj !!! i)).
  intros l'. revert e. induction l' as [|j l' IH']; intros e; simpl; [done|].
  by rewrite IH', length_insert.
Qed.

Lemma fill_entries_prefix (adj : AdjacencyMatrix) (N : list Vector3f) (A : list Q)
    (n k : nat) (entries0 : list Entry) :
  wf_adjacency adj n → k ≤ n →
  length entries0 = adj_ptr adj !!! n - adj_ptr adj !!! 0 →
  adj_ptr adj !!! 0 ≤ adj_ptr adj !!! k ≤ adj_ptr adj !!! n ∧
  foldl (λ entries i,
           let nNeighbors := adj_ptr adj !!! (i + 1) - adj_ptr adj !!! i in
           let base := adj_ptr adj !!! i - adj_ptr adj !!! 0 in
           foldl (λ entries j, <[base + j := make_entry adj N A i j]> entries)
                 entries (range nNeighbors))
        entries0 (range k)
  = concat (row_entries adj N A <$> range k)
    ++ drop (adj_ptr adj !!! k - adj_ptr adj !!! 0) entries0.
Proof.
  intros Hwf. 
  assert (Hmono : ∀ i j, i ≤ j → j ≤ n → adj_ptr adj !!! i ≤ adj_ptr adj !!! j).
  { intros i j Hij Hj. induction Hij as [|j Hij IH]; [done|].
    pose proof (wf_ptr_mono adj n Hwf j ltac:(lia)).
    replace (S j) with (j + 1) by lia. lia. }
  induction k as [|k IH]; intros Hk Hlen.
  - split; [split; [done | apply Hmono; lia]|].
    simpl. by rewrite Nat.sub_diag, drop_0.
  - destruct IH as [Hb IH]; [lia | done |].
    pose proof (Hmono k (S k) ltac:(lia) Hk) as Hk1.
    pose proof (Hmono (S k) n Hk (le_n _)) as Hk2.
    split; [lia|].
    rewrite foldl_range_S, IH. cbn zeta.
    replace (k + 1) with (S k) by lia.
    set (base := adj_ptr adj !!! k - adj_ptr adj !!! 0).
    set (m := adj_ptr adj !!! S k - adj_ptr adj !!! k).
    assert (Hcl : length (concat (row_entries adj N A <$> range k)) = base).
    { apply (f_equal length) in IH.
      rewrite length_app, length_drop in IH.
      rewrite fill_length in IH. fold base in IH. lia. }
    rewrite write_slots by (rewrite length_app, length_drop, Hcl; lia).
    rewrite take_app_length' by done.
    rewrite (drop_app_add' _ _ base m) by done.
    rewrite drop_drop.
    rewrite range_S, fmap_app, concat_app. simpl. rewrite app_nil_r.
    rewrite <- app_assoc. f_equal. unfold row_entries.
    replace (k + 1) with (S k) by lia. fold m. f_equal. f_equal. lia.
Qed.

(** Lines 38-58: the entry array holds the entries of all rows, in order. *)
Lemma fill_entries_spec (adj : AdjacencyMatrix) (V N : list Vector3f) (A : list Q) :
  wf_adjacency adj (length V) →
  fill_entries adj V N A
    (replicate (adj_ptr adj !!! length V - adj_ptr adj !!! 0) inhabitant)
  = concat (row_entries adj N A <$> range (length V)).
Proof.
  intros Hwf. unfold fill_entries.
  destruct (fill_entries_prefix adj N A (length V) (length V)
              (replicate (adj_ptr adj !!! length V - adj_ptr adj !!! 0) inhabitant)
              Hwf (le_n _)) as [_ H].
  - by rewrite length_replicate.
  - etransitivity; [exact H|].
    rewrite drop_ge, app_nil_r; [done|]. by rewrite length_replicate.
Qed.

Lemma length_concat_row_entries (adj : AdjacencyMatrix) (N : list Vector3f)
    (A : list Q) (n k : nat) :
  wf_adjacency adj n → k ≤ n →
  length (concat (row_entries adj N A <$> range k))
  = adj_ptr adj !!! k - adj_ptr adj !!! 0.
Proof.
  intros Hwf Hk.
  destruct (fill_entries_prefix adj N A n k
              (replicate (adj_ptr adj !!! n - adj_ptr adj !!! 0) inhabitant) Hwf Hk)
    as [Hb H]; [by rewrite length_replicate|].
  apply (f_equal length) in H.
  rewrite fill_length, length_app, length_drop, length_replicate in H. lia.
Qed.

Lemma adj_row_lookup (adj : AdjacencyMatrix) (i j : nat) :
  j < adj_ptr adj !!! (i + 1) - adj_ptr adj !!! i →
  adj_ptr adj !!! (i + 1) ≤ length (adj_links adj) →
  adj_row adj i !! j = Some (adj_links adj !!! (adj_ptr adj !!! i + j)).
Proof.
  intros Hj Hlen. unfold adj_row.
  rewrite lookup_take_lt by done. rewrite lookup_drop.
  apply list_lookup_lookup_total_lt. lia.
Qed.

(** Every entry is an entry of the graph. *)
Lemma filled_entries_valid (adj : AdjacencyMatrix) (N : list Vector3f) (A : list Q)
    (n : nat) :
  wf_adjacency adj n →
  Forall (valid_entry adj n) (concat (row_entries adj N A <$> range n)).
Proof.
  intros Hwf.
  assert (Hmono : ∀ i j, i ≤ j → j ≤ n → adj_ptr adj !!! i ≤ adj_ptr adj !!! j).
  { intros i j Hij Hj. induction Hij as [|j Hij IH]; [done|].
    pose proof (wf_ptr_mono adj n Hwf j ltac:(lia)).
    replace (S j) with (j + 1) by lia. lia. }
  apply Forall_forall. intros e He%list_elem_of_In.
  apply elem_of_concat in He as (row & He & Hrow).
  apply list_elem_of_fmap in Hrow as (i & -> & Hi%elem_of_range).
  apply list_elem_of_fmap in He as (j & -> & Hj%elem_of_range).
  split; simpl; [lia|].
  apply edge_link. rewrite Nat2N.id.
  exists (adj_links adj !!! (adj_ptr adj !!! i + j)). split; [|done].
  eapply list_elem_of_lookup_2. apply adj_row_lookup; [done|].
  pose proof (wf_ptr_bound adj n Hwf).
  pose proof (Hmono (i + 1) n ltac:(lia) (le_n _)). lia.
Qed.

(** ** The greedy matching (lines 68-77) *)

Lemma match_step_accept (m : Matching) (k : nat) :
  let st := accept (mergeFlag m, take (nCollapsed m) (entries m)) (entries m !!! k) in
  nCollapsed m ≤ k → k < length (entries m) →
  mergeFlag (match_step m k) = st.1 ∧
  take (nCollapsed (match_step m k)) (entries (match_step m k)) = st.2 ∧
  drop (S k) (entries (match_step m k)) = drop (S k) (entries m) ∧
  nCollapsed (match_step m k) ≤ S k ∧
  length (entries (match_step m k)) = length (entries m).
Proof.
  cbn zeta. intros Hn Hk. unfold match_step, accept. cbn [fst snd].
  destruct (at32 (mergeFlag m) (e_i (entries m !!! k))
            || at32 (mergeFlag m) (e_j (entries m !!! k))).
  - repeat split; try done. lia.
  - cbn [mergeFlag entries nCollapsed]. repeat split.
    + replace (nCollapsed m + 1) with (S (nCollapsed m)) by lia.
      rewrite (take_S_r _ _ (entries m !!! k)).
      * by rewrite take_insert_ge.
      * apply list_lookup_insert_eq. lia.
    + by rewrite drop_insert_lt by lia.
    + lia.
    + by rewrite length_insert.
Qed.

(** The loop of lines 71-77 computes the functional matching: the
    accepted entries are compacted at the front of the array. *)
Lemma greedy_matching_prefix (sorted : list Entry) (n k : nat) :
  k ≤ length sorted →
  let m := foldl match_step
                 {| entries := sorted; mergeFlag := replicate n false; nCollapsed := 0 |}
                 (range k) in
  let st := foldl accept (replicate n false, []) (take k sorted) in
  mergeFlag m = st.1 ∧ take (nCollapsed m) (entries m) = st.2 ∧
  nCollapsed m = length st.2 ∧
  drop k (entries m) = drop k sorted ∧ nCollapsed m ≤ k ∧
  length (entries m) = length sorted.
Proof.
  induction k as [|k IH]; intros Hk; cbn zeta.
  - simpl. by rewrite take_0.
  - cbn zeta in IH. destruct IH as (Hflags & Hacc & Hlen & Hdrop & Hle & Hlength); [lia|].
    rewrite foldl_range_S.
    set (m := foldl match_step _ (range k)) in *.
    assert (Hek : entries m !!! k = sorted !!! k).
    { rewrite <- (Nat.add_0_r k) at 1. rewrite <- (Nat.add_0_r k) at 2.
      rewrite <- !lookup_total_drop. by rewrite Hdrop. }
    destruct (match_step_accept m k Hle ltac:(lia)) as (H1 & H2 & H3 & H4 & H5).
    rewrite (take_S_r _ _ (sorted !!! k)) by (apply list_lookup_lookup_total_lt; lia).
    rewrite foldl_app. cbn [foldl].
    rewrite Hflags, Hacc, Hek in H1, H2.
    destruct (foldl accept (replicate n false, []) (take k sorted)) as [flags acc].
    cbn [fst snd] in *.
    split; [done|]. split; [done|]. split.
    { rewrite <- H2. rewrite length_take. lia. }
    split; [|split; [done | lia]].
    rewrite H3. replace (S k) with (k + 1) by lia.
    by rewrite <- !drop_drop, Hdrop.
Qed.

Lemma greedy_matching_spec (sorted : list Entry) (n : nat) :
  let m := greedy_matching sorted (length sorted) n in
  mergeFlag m = (matching sorted n).1 ∧
  take (nCollapsed m) (entries m) = (matching sorted n).2 ∧
  nCollapsed m = length (matching sorted n).2.
Proof.
  cbn zeta. unfold greedy_matching, matching.
  destruct (greedy_matching_prefix sorted n (length sorted) (le_n _))
    as (H1 & H2 & H3 & _).
  rewrite firstn_all in *. done.
Qed.

Lemma valid_entry_ends (adj : AdjacencyMatrix) (n : nat) (e : Entry) :
  wf_adjacency adj n → no_self_loops adj n → valid_entry adj n e →
  (e_i e < N.of_nat n)%N ∧ (e_j e < N.of_nat n)%N ∧ e_i e ≠ e_j e.
Proof.
  intros Hwf Hnoself [Hi He]. split; [done|]. split.
  - by apply (wf_ids adj n Hwf (e_i e)).
  - intros Heq. rewrite <- Heq in He. by apply (Hnoself (e_i e)).
Qed.

Lemma endpoints_snoc (es : list Entry) (e : Entry) :
  endpoints (es ++ [e]) = endpoints es ++ [e_i e; e_j e].
Proof. unfold endpoints. by rewrite bind_app. Qed.

Lemma length_endpoints (es : list Entry) : length (endpoints es) = 2 * length es.
Proof.
  induction es as [|e es IH]; [done|].
  change (endpoints (e :: es)) with ([e_i e; e_j e] ++ endpoints es).
  rewrite length_app, IH. simpl. lia.
Qed.

Lemma accept_inv (adj : AdjacencyMatrix) (n : nat) (st : list bool * list Entry)
    (e : Entry) :
  wf_adjacency adj n → no_self_loops adj n → valid_entry adj n e →
  matching_inv adj n st → matching_inv adj n (accept st e).
Proof.
  intros Hwf Hnoself He [Hlen Hvalid Hnodup Hflags].
  destruct (valid_entry_ends adj n e Hwf Hnoself He) as (Hi & Hj & Hne).
  unfold accept.
  destruct (at32 st.1 (e_i e)) eqn:Ei; [done|].
  destruct (at32 st.1 (e_j e)) eqn:Ej; [done|].
  cbn [orb fst snd].
  assert (Hi' : e_i e ∉ endpoints st.2).
  { intros Hin. apply Hflags in Hin; [congruence | done]. }
  assert (Hj' : e_j e ∉ endpoints st.2).
  { intros Hin. apply Hflags in Hin; [congruence | done]. }
  split; cbn [fst snd].
  - unfold set32. by rewrite !length_insert.
  - apply Forall_app. split; [done|]. by apply Forall_singleton.
  - rewrite endpoints_snoc. apply list.NoDup_app. split; [done|]. split.
    + intros v Hv Hv'. apply elem_of_cons in Hv' as [Heq|Hv']; [by subst v|].
      apply list_elem_of_singleton in Hv'. by subst v.
    + apply list.NoDup_cons. split.
      * by intros Heq%list_elem_of_singleton.
      * apply NoDup_singleton.
  - intros v Hv. rewrite endpoints_snoc, elem_of_app, <- Hflags by done.
    unfold set32, at32.
    destruct (decide (v = e_i e)) as [->|Hvi].
    { rewrite list_lookup_total_insert_eq by (rewrite length_insert; lia).
      split; [|done]. intros _. right. left. }
    rewrite list_lookup_total_insert_ne by lia.
    destruct (decide (v = e_j e)) as [->|Hvj].
    { rewrite list_lookup_total_insert_eq by lia.
      split; [|done]. intros _. right. right. left. }
    rewrite list_lookup_total_insert_ne by lia.
    split; [by left|].
    intros [?|Hv']; [done|].
    apply elem_of_cons in Hv' as [Heq|Hv']; [done|].
    by apply list_elem_of_singleton in Hv'.
Qed.

Lemma matching_inv_final (adj : AdjacencyMatrix) (n : nat) (sorted : list Entry) :
  wf_adjacency adj n → no_self_loops adj n →
  Forall (valid_entry adj n) sorted →
  matching_inv adj n (matching sorted n).
Proof.
  intros Hwf Hnoself Hsorted. unfold matching.
  apply (foldl_invariant (matching_inv adj n)).
  - split; cbn [fst snd].
    + by rewrite length_replicate.
    + constructor.
    + constructor.
    + intros v Hv. unfold at32. rewrite lookup_total_replicate_2 by lia.
      split; [done | by intros ?%elem_of_nil].
  - intros st e He Hst. apply accept_inv; try done.
    by apply (Forall_elem_of _ _ _ Hsorted).
Qed.

(** The accepted entries only grow. *)
Lemma accept_length (st : list bool * list Entry) (e : Entry) :
  length st.2 ≤ length (accept st e).2.
Proof.
  unfold accept. destruct (_ || _); cbn [snd]; [done|].
  rewrite length_app. simpl. lia.
Qed.

Lemma foldl_accept_length (st : list bool * list Entry) (es : list Entry) :
  length st.2 ≤ length (foldl accept st es).2.
Proof.
  revert st. induction es as [|e es IH]; intros st; simpl; [done|].
  pose proof (accept_length st e). pose proof (IH (accept st e)). lia.
Qed.

(** The first entry of the sorted array is accepted: at least one pair
    is collapsed when the graph has a link. *)
Lemma matching_first (sorted : list Entry) (n : nat) :
  Forall (λ e, (e_i e < N.of_nat n)%N ∧ (e_j e < N.of_nat n)%N) sorted →
  sorted ≠ [] → 1 ≤ length (matching sorted n).2.
Proof.
  intros Hvalid Hne. destruct sorted as [|e sorted]; [done|].
  apply list.Forall_cons in Hvalid as [[Hi Hj] _].
  unfold matching. cbn [foldl].
  etransitivity; [|apply foldl_accept_length].
  unfold accept, at32. cbn [fst snd].
  rewrite !lookup_total_replicate_2 by lia. cbn [orb snd]. simpl. lia.
Qed.

(** No pair is collapsed when the graph has no link. *)
Lemma matching_nil (n : nat) : (matching [] n).2 = [].
Proof. done. Qed.

(** Every accepted entry flags a vertex of its own: there are at most as
    many pairs as vertices (twice as many ends, without self-loops). *)
Lemma NoDup_lt_length (l : list N) (n : nat) :
  NoDup l → (∀ v, v ∈ l → (v < N.of_nat n)%N) → length l ≤ n.
Proof.
  intros Hnd Hlt.
  transitivity (length (seq 0 n)); [|by rewrite length_seq].
  rewrite <- (length_fmap N.to_nat l).
  apply submseteq_length, NoDup_submseteq.
  - apply NoDup_fmap_2; [apply _ | done].
  - intros x (v & -> & Hv)%list_elem_of_fmap. apply elem_of_seq.
    apply Hlt in Hv. lia.
Qed.

Lemma matching_count (adj : AdjacencyMatrix) (n : nat) (sorted : list Entry) :
  wf_adjacency adj n → no_self_loops adj n →
  Forall (valid_entry adj n) sorted →
  2 * length (matching sorted n).2 ≤ n.
Proof.
  intros Hwf Hnoself Hsorted.
  destruct (matching_inv_final adj n sorted Hwf Hnoself Hsorted)
    as [Hlen Hvalid Hnodup Hflags].
  rewrite <- length_endpoints. apply NoDup_lt_length; [done|].
  intros v Hv. unfold endpoints in Hv.
  apply list_elem_of_bind in Hv as (e & Hv & He).
  apply (Forall_elem_of _ _ _ Hvalid) in He.
  destruct (valid_entry_ends adj n e Hwf Hnoself He) as (Hi & Hj & _).
  apply elem_of_cons in Hv as [Heq|Hv]; [by subst v|].
  apply list_elem_of_singleton in Hv. by subst v.
Qed.


(** ** Sorting *)

Lemma sort_insert_perm {A} (ltb : A → A → bool) (x : A) (l : list A) :
  sort_insert ltb x l ≡ₚ x :: l.
Proof.
  induction l as [|y l IH]; simpl; [done|].
  destruct (ltb y x); [|done]. rewrite IH. apply Permutation_swap.
Qed.

Lemma stable_sort_perm {A} (ltb : A → A → bool) (l : list A) :
  stable_sort ltb l ≡ₚ l.
Proof.
  induction l as [|x l IH]; simpl; [done|].
  unfold stable_sort in *. simpl. by rewrite sort_insert_perm, IH.
Qed.

(** ** The coarse vertices (lines 78-131) *)

Lemma write_prefix {A} (f : nat → A) (k : nat) (a : list A) :
  k ≤ length a →
  foldl (λ a i, <[i := f i]> a) a (range k) = (f <$> range k) ++ drop k a.
Proof.
  intros Hk. by pose proof (write_slots f 0 k a Hk) as H.
Qed.

Lemma fmap_lookup_range {A B} `{Inhabited A} (g : A → B) (es : list A) (k : nat) :
  k ≤ length es → (λ i, g (es !!! i)) <$> range k = g <$> take k es.
Proof.
  intros Hk. apply list_eq. intros i.
  rewrite !list_lookup_fmap. unfold range.
  destruct (decide (i < k)) as [Hi|Hi].
  - rewrite lookup_seq_lt, lookup_take_lt by done. simpl.
    rewrite (list_lookup_lookup_total_lt es i) by lia. done.
  - rewrite lookup_seq_ge, lookup_take_ge by lia. done.
Qed.

(** The fields after the loop of lines 87-107. *)
Lemma collapse_A_p V N A es c l :
  A_p (foldl (collapse_step V N A es) c l)
  = foldl (λ a i, <[i := pair_area A (es !!! i)]> a) (A_p c) l.
Proof. revert c. induction l as [|i l IH]; intros c; simpl; [done | by rewrite IH]. Qed.

Lemma collapse_to_upper V N A es c l :
  to_upper (foldl (collapse_step V N A es) c l)
  = foldl (λ a i, <[i := (e_i (es !!! i), e_j (es !!! i))]> a) (to_upper c) l.
Proof. revert c. induction l as [|i l IH]; intros c; simpl; [done | by rewrite IH]. Qed.

Lemma collapse_to_lower V N A es c l :
  to_lower (foldl (collapse_step V N A es) c l)
  = foldl (λ a i, set32 (set32 a (e_i (es !!! i)) (N.of_nat i))
                        (e_j (es !!! i)) (N.of_nat i)) (to_lower c) l.
Proof. revert c. induction l as [|i l IH]; intros c; simpl; [done | by rewrite IH]. Qed.

Lemma collapse_lengths V N A es c l :
  length (V_p (foldl (collapse_step V N A es) c l)) = length (V_p c) ∧
  length (N_p (foldl (collapse_step V N A es) c l)) = length (N_p c).
Proof.
  revert c. induction l as [|i l IH]; intros c; simpl; [done|].
  destruct (IH (collapse_step V N A es c i)) as [-> ->].
  simpl. by rewrite !length_insert.
Qed.

Lemma unmatched_cons (flags : list bool) (i : nat) (l : list nat) :
  unmatched flags (i :: l)
  = if negb (flags !!! i) then i :: unmatched flags l else unmatched flags l.
Proof.
  unfold unmatched. rewrite filter_cons.
  by destruct (flags !!! i).
Qed.

Lemma copy_step_flagged V N A flags st i :
  flags !!! i = true → copy_step V N A flags st i = st.
Proof. intros E. unfold copy_step. by rewrite E. Qed.

Lemma copy_step_unflagged V N A flags c off i :
  flags !!! i = false →
  copy_step V N A flags (c, off) i
  = ({| V_p := <[off:=V !!! i]> (V_p c);
        N_p := <[off:=N !!! i]> (N_p c);
        A_p := <[off:=A !!! i]> (A_p c);
        to_upper := <[off:=(N.of_nat i, INVALID)]> (to_upper c);
        to_lower := <[i:=N.of_nat off]> (to_lower c) |}, off + 1).
Proof. intros E. unfold copy_step. by rewrite E. Qed.

(** The atomic counter after the loop of lines 111-131. *)
Lemma copy_offset V N A flags c off l :
  (foldl (copy_step V N A flags) (c, off) l).2 = off + length (unmatched flags l).
Proof.
  revert c off. induction l as [|i l IH]; intros c off; simpl; [lia|].
  rewrite unmatched_cons. unfold copy_step at 2. cbn [fst snd].
  destruct (flags !!! i); cbn [negb]; rewrite IH; simpl; lia.
Qed.

(** A field that the loop writes slot by slot: the slots from the
    counter on receive the values of the unmatched vertices, in order. *)
Lemma copy_field {X} (proj : Coarse → list X) (g : nat → X) V N A flags :
  (∀ st i, proj (copy_step V N A flags st i).1
           = if negb (flags !!! i) then <[st.2 := g i]> (proj st.1) else proj st.1) →
  ∀ l c off, off + length (unmatched flags l) ≤ length (proj c) →
    proj (foldl (copy_step V N A flags) (c, off) l).1
    = take off (proj c) ++ (g <$> unmatched flags l)
        ++ drop (off + length (unmatched flags l)) (proj c).
Proof.
  intros Hstep. induction l as [|i l IH]; intros c off Hlen.
  - simpl. by rewrite Nat.add_0_r, take_drop.
  - cbn [foldl]. rewrite unmatched_cons in *.
    pose proof (Hstep (c, off) i) as Hi.
    assert (Hoff : (copy_step V N A flags (c, off) i).2
                   = if negb (flags !!! i) then off + 1 else off).
    { unfold copy_step. by destruct (flags !!! i). }
    destruct (copy_step V N A flags (c, off) i) as [c1 off1].
    cbn [fst snd] in *. subst off1.
    destruct (flags !!! i); cbn [negb] in *.
    + rewrite IH, Hi by (rewrite Hi; lia). done.
    + cbn [length] in Hlen.
      rewrite IH, Hi by (rewrite Hi, length_insert; lia).
      rewrite take_insert_lt by lia.
      replace (off + 1) with (S off) by lia.
      destruct (lookup_lt_is_Some_2 (proj c) off ltac:(lia)) as [x Hx].
      rewrite (take_S_r _ _ x Hx).
      rewrite insert_app_r_alt by (rewrite length_take; lia).
      rewrite length_take, Nat.min_l, Nat.sub_diag by lia. cbn [insert list_insert].
      rewrite <- app_assoc. cbn [fmap list_fmap app length].
      rewrite drop_insert_lt by lia.
      by replace (S off + length (unmatched flags l))
        with (off + S (length (unmatched flags l))) by lia.
Qed.

Lemma copy_A_p V N A flags l c off :
  off + length (unmatched flags l) ≤ length (A_p c) →
  A_p (foldl (copy_step V N A flags) (c, off) l).1
  = take off (A_p c) ++ ((λ i, A !!! i) <$> unmatched flags l)
      ++ drop (off + length (unmatched flags l)) (A_p c).
Proof.
  apply (copy_field A_p). intros st i. unfold copy_step.
  by destruct (flags !!! i).
Qed.

Lemma copy_to_upper V N A flags l c off :
  off + length (unmatched flags l) ≤ length (to_upper c) →
  to_upper (foldl (copy_step V N A flags) (c, off) l).1
  = take off (to_upper c) ++ ((λ i, (N.of_nat i, INVALID)) <$> unmatched flags l)
      ++ drop (off + length (unmatched flags l)) (to_upper c).
Proof.
  apply (copy_field to_upper). intros st i. unfold copy_step.
  by destruct (flags !!! i).
Qed.

Lemma copy_lengths V N A flags l c off :
  let c' := (foldl (copy_step V N A flags) (c, off) l).1 in
  length (V_p c') = length (V_p c) ∧ length (N_p c') = length (N_p c) ∧
  length (to_lower c') = length (to_lower c).
Proof.
  revert c off. induction l as [|i l IH]; intros c off; cbn zeta; simpl; [done|].
  destruct (flags !!! i) eqn:E.
  - rewrite copy_step_flagged by done. apply IH.
  - rewrite copy_step_unflagged by done.
    destruct (IH {| V_p := <[off:=V !!! i]> (V_p c);
                    N_p := <[off:=N !!! i]> (N_p c);
                    A_p := <[off:=A !!! i]> (A_p c);
                    to_upper := <[off:=(N.of_nat i, INVALID)]> (to_upper c);
                    to_lower := <[i:=N.of_nat off]> (to_lower c) |} (off + 1))
      as (-> & -> & ->).
    simpl. by rewrite !length_insert.
Qed.

(** [to_lower] after the loop of lines 87-107: the ends of the collapsed
    pairs map to the indices of their pairs. *)
Lemma collapse_to_lower_bound (es : list Entry) (tl : list N) (k : nat) :
  k ≤ length es →
  Forall (λ e, N.to_nat (e_i e) < length tl ∧ N.to_nat (e_j e) < length tl) (take k es) →
  let tl' := foldl (λ a i, set32 (set32 a (e_i (es !!! i)) (N.of_nat i))
                                 (e_j (es !!! i)) (N.of_nat i)) tl (range k) in
  length tl' = length tl ∧
  ∀ v, (v ∈ endpoints (take k es) → (at32 tl' v < N.of_nat k)%N) ∧
       (v ∉ endpoints (take k es) → at32 tl' v = at32 tl v).
Proof.
  induction k as [|k IH]; intros Hk Hvalid; cbn zeta.
  - simpl. split; [done|]. intros v. split; [|done].
    by intros ?%elem_of_nil.
  - rewrite foldl_range_S. cbn zeta in IH.
    rewrite (take_S_r _ _ (es !!! k)) in *
      by (apply list_lookup_lookup_total_lt; lia).
    apply Forall_app in Hvalid as [Hvalid Hek].
    apply Forall_singleton in Hek as [Hi Hj].
    destruct IH as [Hlen IH]; [lia | done |].
    set (tl' := foldl _ tl (range k)) in *.
    split; [unfold set32; by rewrite !length_insert|].
    intros v. rewrite endpoints_snoc, elem_of_app. unfold set32, at32.
    destruct (decide (v = e_j (es !!! k))) as [->|Hvj].
    { rewrite list_lookup_total_insert_eq by (rewrite length_insert; lia).
      split; [lia|]. intros Hn. exfalso. apply Hn. right. right. left. }
    rewrite list_lookup_total_insert_ne by lia.
    destruct (decide (v = e_i (es !!! k))) as [->|Hvi].
    { rewrite list_lookup_total_insert_eq by lia.
      split; [lia|]. intros Hn. exfalso. apply Hn. right. left. }
    rewrite list_lookup_total_insert_ne by lia.
    destruct (IH v) as [IH1 IH2]. unfold at32 in *. split.
    + intros [Hv|Hv].
      * apply IH1 in Hv. lia.
      * apply elem_of_cons in Hv as [?|Hv]; [done|].
        by apply list_elem_of_singleton in Hv.
    + intros Hn. apply IH2. intros Hv. apply Hn. by left.
Qed.

(** [to_lower] after the loop of lines 111-131: the unmatched vertices
    map to the indices drawn from the counter; the others are untouched. *)
Lemma copy_to_lower V N A flags l c off :
  Forall (λ i, i < length (to_lower c)) l →
  let tl' := to_lower (foldl (copy_step V N A flags) (c, off) l).1 in
  ∀ v, (v ∈ unmatched flags l →
          off ≤ N.to_nat (tl' !!! v) < off + length (unmatched flags l)) ∧
       (v ∉ unmatched flags l → tl' !!! v = to_lower c !!! v).
Proof.
  revert c off. induction l as [|i l IH]; intros c off Hl; cbn zeta.
  - simpl. intros v. split; [by intros ?%elem_of_nil | done].
  - cbn [foldl]. apply list.Forall_cons in Hl as [Hi Hl].
    rewrite unmatched_cons.
    destruct (flags !!! i) eqn:E; cbn [negb].
    { rewrite copy_step_flagged by done. by apply IH. }
    rewrite copy_step_unflagged by done.
    intros v.
    destruct (IH {| V_p := <[off:=V !!! i]> (V_p c);
                    N_p := <[off:=N !!! i]> (N_p c);
                    A_p := <[off:=A !!! i]> (A_p c);
                    to_upper := <[off:=(N.of_nat i, INVALID)]> (to_upper c);
                    to_lower := <[i:=N.of_nat off]> (to_lower c) |} (off + 1)
                ltac:(cbn [to_lower]; by rewrite length_insert) v) as [IH1 IH2].
    cbn [to_lower length] in *.
    destruct (decide (v ∈ unmatched flags l)) as [Hv|Hv].
    + split; [|intros Hn; exfalso; apply Hn; by right].
      intros _. specialize (IH1 Hv). lia.
    + rewrite (IH2 Hv). destruct (decide (v = i)) as [->|Hne].
      * rewrite list_lookup_total_insert_eq by done.
        split; [lia|]. intros Hn. exfalso. apply Hn. left.
      * rewrite list_lookup_total_insert_ne by done.
        split; [|done]. intros [?|?]%elem_of_cons; done.
Qed.

(** The unmatched vertices are the vertices that are no end of an
    accepted entry. *)
Lemma unmatched_count (adj : AdjacencyMatrix) (n : nat) (st : list bool * list Entry)
    (order : list nat) :
  wf_adjacency adj n → no_self_loops adj n →
  matching_inv adj n st → order ≡ₚ range n →
  (N.to_nat <$> endpoints st.2) ++ unmatched st.1 order ≡ₚ range n ∧
  2 * length st.2 + length (unmatched st.1 order) = n.
Proof.
  intros Hwf Hnoself [Hlen Hvalid Hnodup Hflags] Horder.
  assert (Hends : ∀ v, v ∈ endpoints st.2 → (v < N.of_nat n)%N).
  { intros v Hv. unfold endpoints in Hv.
    apply list_elem_of_bind in Hv as (e & Hv & He).
    apply (Forall_elem_of _ _ _ Hvalid) in He.
    destruct (valid_entry_ends adj n e Hwf Hnoself He) as (Hi & Hj & _).
    apply elem_of_cons in Hv as [Heq|Hv]; [by subst v|].
    apply list_elem_of_singleton in Hv. by subst v. }
  assert (Hperm : (N.to_nat <$> endpoints st.2) ++ unmatched st.1 order ≡ₚ range n).
  { apply NoDup_Permutation.
    - apply list.NoDup_app. split; [|split].
      + apply NoDup_fmap_2; [apply _ | done].
      + intros x (v & -> & Hv)%list_elem_of_fmap Hx.
        apply list_elem_of_filter in Hx as [Hx _].
        apply Hflags in Hv as Hf; [|by apply Hends]. unfold at32 in Hf. congruence.
      + apply list.NoDup_filter. rewrite Horder. apply NoDup_seq.
    - apply NoDup_seq.
    - intros x. rewrite elem_of_app, list_elem_of_fmap, elem_of_range.
      unfold unmatched. rewrite list_elem_of_filter, Horder, elem_of_range.
      split.
      + intros [(v & -> & Hv)|[_ Hx]]; [|done]. apply Hends in Hv. lia.
      + intros Hx. destruct (st.1 !!! x) eqn:E; [left | by right].
        exists (N.of_nat x). split; [lia|].
        apply Hflags; [lia|]. unfold at32. by rewrite Nat2N.id. }
  split; [done|].
  apply Permutation_length in Hperm.
  rewrite length_app, length_fmap, length_endpoints, length_range in Hperm. lia.
Qed.

Lemma sorted_entries_perm adj V N A deterministic :
  sorted_entries adj V N A deterministic
  ≡ₚ concat (row_entries adj N A <$> range (length V)).
Proof using parallel_sort_perm.
  unfold sorted_entries. destruct deterministic;
    [apply stable_sort_perm | apply parallel_sort_perm].
Qed.

Lemma copy_sequence_perm n deterministic : copy_sequence n deterministic ≡ₚ range n.
Proof using copy_order_perm.
  unfold copy_sequence. destruct deterministic; [done | apply copy_order_perm].
Qed.

Lemma sorted_entries_valid adj V N A deterministic :
  wf_adjacency adj (length V) →
  Forall (valid_entry adj (length V)) (sorted_entries adj V N A deterministic) ∧
  length (sorted_entries adj V N A deterministic)
  = adj_ptr adj !!! length V - adj_ptr adj !!! 0.
Proof using parallel_sort_perm.
  intros Hwf. split.
  - rewrite sorted_entries_perm. by apply filled_entries_valid.
  - rewrite sorted_entries_perm.
    by apply (length_concat_row_entries adj N A (length V)).
Qed.

(** [downsample_graph], unfolded down to the functional matching. *)
Lemma downsample_graph_unfold adj V N A deterministic :
  wf_adjacency adj (length V) →
  let sorted := sorted_entries adj V N A deterministic in
  let m := greedy_matching sorted (length sorted) (length V) in
  let vertexCount := length V - nCollapsed m in
  let c0 := {| V_p := replicate vertexCount inhabitant;
               N_p := replicate vertexCount inhabitant;
               A_p := replicate vertexCount inhabitant;
               to_upper := replicate vertexCount inhabitant;
               to_lower := replicate (length V) inhabitant |} in
  let c := (foldl (copy_step V N A (mergeFlag m))
                  (foldl (collapse_step V N A (entries m)) c0 (range (nCollapsed m)),
                   nCollapsed m)
                  (copy_sequence (length V) deterministic)).1 in
  downsample_graph adj V N A deterministic = (coarse_adjacency adj c, c).
Proof using parallel_sort_perm.
  set_aside.
  intros Hwf. cbn zeta.
  destruct (sorted_entries_valid adj V N A deterministic Hwf) as [_ Hlen].
  unfold downsample_graph. cbn zeta.
  rewrite fill_entries_spec by done.
  fold (sorted_entries adj V N A deterministic).
  fold (copy_sequence (length V) deterministic).
  by rewrite <- Hlen.
Qed.

(** The vertex count of the coarse level: the fine count less the
    number of accepted entries. *)
Lemma downsample_size adj V N A deterministic :
  wf_adjacency adj (length V) →
  length (V_p (downsample_graph adj V N A deterministic).2)
  = length V
    - length (matching (sorted_entries adj V N A deterministic) (length V)).2.
Proof using parallel_sort_perm.
  set_aside.
  intros Hwf. rewrite downsample_graph_unfold by done. cbn [snd].
  set (m := greedy_matching _ _ _).
  match goal with
  | |- context [foldl (copy_step _ _ _ _) (?c, ?o) ?l] =>
      destruct (copy_lengths V N A (mergeFlag m) l c o) as (-> & _ & _)
  end.
  match goal with
  | |- context [foldl (collapse_step _ _ _ ?es) ?c ?l] =>
      destruct (collapse_lengths V N A es c l) as (-> & _)
  end.
  cbn [V_p]. rewrite length_replicate. unfold m.
  by destruct (greedy_matching_spec (sorted_entries adj V N A deterministic) (length V))
    as (_ & _ & ->).
Qed.

(** The coarse vertices: the collapsed pairs first, then the unmatched
    vertices in the order of the copy.  Every slot of the output arrays
    is written, and [to_lower] maps every fine vertex to a coarse one. *)
Lemma downsample_coarse adj V N A deterministic :
  wf_adjacency adj (length V) → no_self_loops adj (length V) →
  let st := matching (sorted_entries adj V N A deterministic) (length V) in
  let um := unmatched st.1 (copy_sequence (length V) deterministic) in
  let c := (downsample_graph adj V N A deterministic).2 in
  matching_inv adj (length V) st ∧
  2 * length st.2 + length um = length V ∧
  length (V_p c) = length st.2 + length um ∧
  length (N_p c) = length st.2 + length um ∧
  A_p c = (pair_area A <$> st.2) ++ ((λ i, A !!! i) <$> um) ∧
  to_upper c = ((λ e, (e_i e, e_j e)) <$> st.2)
               ++ ((λ i, (N.of_nat i, INVALID)) <$> um) ∧
  length (to_lower c) = length V ∧
  ∀ v, v < length V → N.to_nat (to_lower c !!! v) < length st.2 + length um.
Proof using copy_order_perm parallel_sort_perm.
  set_aside.
  intros Hwf Hnoself. cbn zeta.
  destruct (sorted_entries_valid adj V N A deterministic Hwf) as [Hvalid Hlen].
  pose proof (matching_inv_final adj (length V) _ Hwf Hnoself Hvalid) as Hinv.
  destruct (unmatched_count adj (length V) _ (copy_sequence (length V) deterministic)
              Hwf Hnoself Hinv (copy_sequence_perm _ _)) as [Hperm Hcount].
  rewrite downsample_graph_unfold by done. cbn [snd].
  destruct (greedy_matching_spec (sorted_entries adj V N A deterministic) (length V))
    as (Hflags & Hacc & HnC).
  set (m := greedy_matching _ _ _) in *.
  set (st := matching _ _) in *.
  set (um := unmatched st.1 _) in *.
  rewrite Hflags. fold um.
  assert (HnCle : nCollapsed m ≤ length (entries m)).
  { rewrite HnC, <- Hacc, length_take. lia. }
  set (c0 := {| V_p := _ |}).
  set (c1 := foldl (collapse_step V N A (entries m)) c0 (range (nCollapsed m))).
  assert (Hum : length (unmatched st.1 (copy_sequence (length V) deterministic))
                = length um) by done.
  destruct (copy_lengths V N A st.1 (copy_sequence (length V) deterministic)
              c1 (nCollapsed m)) as (HlV & HlN & Hltl).
  destruct (collapse_lengths V N A (entries m) c0 (range (nCollapsed m)))
    as (HlV1 & HlN1).
  fold c1 in HlV1, HlN1.
  assert (HA1 : A_p c1 = (pair_area A <$> st.2) ++ replicate (length um) inhabitant).
  { unfold c1. rewrite collapse_A_p.
    rewrite (write_prefix (λ i, pair_area A (entries m !!! i)))
      by (cbn [A_p c0]; rewrite length_replicate; lia).
    rewrite (fmap_lookup_range (pair_area A)) by done.
    rewrite Hacc. cbn [A_p c0]. rewrite drop_replicate. do 2 f_equal. lia. }
  assert (Hup1 : to_upper c1 = ((λ e, (e_i e, e_j e)) <$> st.2)
                               ++ replicate (length um) inhabitant).
  { unfold c1. rewrite collapse_to_upper.
    rewrite (write_prefix (λ i, (e_i (entries m !!! i), e_j (entries m !!! i))))
      by (cbn [to_upper c0]; rewrite length_replicate; lia).
    rewrite (fmap_lookup_range (λ e, (e_i e, e_j e))) by done.
    rewrite Hacc. cbn [to_upper c0]. rewrite drop_replicate. do 2 f_equal. lia. }
  assert (Hends : Forall (λ e, N.to_nat (e_i e) < length V ∧ N.to_nat (e_j e) < length V)
                         st.2).
  { eapply list.Forall_impl; [apply (mi_valid _ _ _ Hinv)|].
    intros e He. destruct (valid_entry_ends adj _ e Hwf Hnoself He) as (? & ? & _). lia. }
  destruct (collapse_to_lower_bound (entries m) (replicate (length V) inhabitant)
              (nCollapsed m) HnCle) as [Hltl1 Htl1].
  { rewrite Hacc, length_replicate. done. }
  rewrite Hacc, length_replicate in *.
  assert (Htl1' : to_lower c1
            = foldl (λ a i, set32 (set32 a (e_i (entries m !!! i)) (N.of_nat i))
                                  (e_j (entries m !!! i)) (N.of_nat i))
                    (replicate (length V) inhabitant) (range (nCollapsed m))).
  { unfold c1. by rewrite collapse_to_lower. }
  rewrite <- Htl1' in *.
  split; [done|]. split; [done|].
  split. { rewrite HlV, HlV1. cbn [V_p c0]. rewrite length_replicate. lia. }
  split. { rewrite HlN, HlN1. cbn [N_p c0]. rewrite length_replicate. lia. }
  split.
  { rewrite copy_A_p by (rewrite HA1, length_app, length_fmap, length_replicate; lia).
    rewrite HA1, HnC.
    rewrite take_app_length' by (by rewrite length_fmap).
    rewrite drop_ge, app_nil_r; [done|].
    rewrite length_app, length_fmap, length_replicate. lia. }
  split.
  { rewrite copy_to_upper
      by (rewrite Hup1, length_app, length_fmap, length_replicate; lia).
    rewrite Hup1, HnC.
    rewrite take_app_length' by (by rewrite length_fmap).
    rewrite drop_ge, app_nil_r; [done|].
    rewrite length_app, length_fmap, length_replicate. lia. }
  split; [by rewrite Hltl, Hltl1|].
  intros v Hv.
  destruct (copy_to_lower V N A st.1 (copy_sequence (length V) deterministic)
              c1 (nCollapsed m)) with (v := v) as [Hcopy1 Hcopy2].
  { rewrite Hltl1. apply Forall_forall. intros i Hi%list_elem_of_In.
    rewrite copy_sequence_perm in Hi. by apply elem_of_range in Hi. }
  fold um in Hcopy1, Hcopy2.
  destruct (decide (v ∈ um)) as [Hin|Hnin].
  - apply Hcopy1 in Hin. lia.
  - rewrite (Hcopy2 Hnin).
    assert (N.of_nat v ∈ endpoints st.2) as Hend.
    { assert (v ∈ range (length V)) as Hr by by apply elem_of_range.
      rewrite <- Hperm in Hr. apply elem_of_app in Hr as [Hr|Hr]; [|done].
      apply list_elem_of_fmap in Hr as (w & -> & Hw). by rewrite N2Nat.id. }
    destruct (Htl1 (N.of_nat v)) as [Hb _]. specialize (Hb Hend).
    unfold at32 in Hb. rewrite Nat2N.id in Hb. lia.
Qed.

(** ** The order of the sorted entries (lines 35 and 63-66) *)








(** The entries of a level are those of its links. *)
Lemma elem_of_filled_entries (adj : AdjacencyMatrix) (N : list Vector3f) (A : list Q)
    (n : nat) (e : Entry) :
  e ∈ concat (row_entries adj N A <$> range n)
  ↔ ∃ i j, i < n ∧ j < adj_ptr adj !!! (i + 1) - adj_ptr adj !!! i
           ∧ e = make_entry adj N A i j.
Proof.
  rewrite elem_of_concat. split.
  - intros (row & He & Hrow).
    apply list_elem_of_fmap in Hrow as (i & -> & Hi%elem_of_range).
    apply list_elem_of_fmap in He as (j & -> & Hj%elem_of_range).
    by exists i, j.
  - intros (i & j & Hi & Hj & ->). exists (row_entries adj N A i). split.
    + apply list_elem_of_fmap. exists j. split; [done|]. by apply elem_of_range.
    + apply list_elem_of_fmap. exists i. split; [done|]. by apply elem_of_range.
Qed.


(** With positive areas every quotient of line 52 is a number, and so is
    every order. *)
Lemma positive_areas_defined (adj : AdjacencyMatrix) (N : list Vector3f) (A : list Q)
    (n : nat) :
  wf_adjacency adj n → no_self_loops adj n → length A = n →
  Forall (λ a, (0 < a)%Q) A → orders_defined adj N A n.
Proof.
  intros Hwf Hnoself HA Hpos i j Hi Hj.
  assert (Hin : make_entry adj N A i j ∈ concat (row_entries adj N A <$> range n))
    by (apply elem_of_filled_entries; by exists i, j).
  pose proof (proj1 (list.Forall_forall _ _) (filled_entries_valid adj N A n Hwf) _ Hin)
    as Hvalid.
  destruct (valid_entry_ends adj n _ Hwf Hnoself Hvalid) as (_ & Hk & _).
  revert Hk. unfold make_entry. cbn [e_j order].
  set (k := id _). intros Hk.
  assert (Hlookup : ∀ m, m < n → (0 < A !!! m)%Q).
  { intros m Hm. apply (Forall_lookup_total_1 _ _ _ Hpos). lia. }
  pose proof (Hlookup i Hi) as Hai.
  pose proof (Hlookup (N.to_nat k) ltac:(lia)) as Hak. fold (at32 A k) in Hak.
  assert (Hdiv : ∀ a b, (0 < b)%Q → float_div a b = finite (a / b)).
  { intros a b Hb. unfold float_div.
    destruct (Qeq_bool b 0) eqn:E; [|done].
    apply Qeq_bool_iff in E. lra. }
  destruct (Qgtb _ _); by rewrite Hdiv.
Qed.


(** ** The number of coarse vertices *)



(** Without a flag, every vertex of the copy is unmatched. *)
Lemma unmatched_none (n : nat) (order : list nat) :
  Forall (λ i, i < n) order → unmatched (replicate n false) order = order.
Proof.
  intros Hall. unfold unmatched. induction Hall as [|i order Hi _ IH]; [done|].
  rewrite filter_cons_True by by rewrite lookup_total_replicate_2.
  by rewrite IH.
Qed.

Lemma copy_sequence_lt (n : nat) (deterministic : bool) :
  Forall (λ i, i < n) (copy_sequence n deterministic).
Proof using copy_order_perm.
  apply Forall_forall. intros i Hi%list_elem_of_In.
  rewrite copy_sequence_perm in Hi. by apply elem_of_range in Hi.
Qed.

(** C2, as the code has it: one downsampling step never increases the
    number of vertices, and never more than halves it; the number
    decreases when the level has a link, and stays when it has none,
    whatever the number of vertices. *)
Theorem downsample_count adj V N A deterministic :
  wf_adjacency adj (length V) → no_self_loops adj (length V) →
  let nLinks := adj_ptr adj !!! length V - adj_ptr adj !!! 0 in
  let n' := length (V_p (downsample_graph adj V N A deterministic).2) in
  n' ≤ length V ∧ length V ≤ 2 * n' ∧
  (1 ≤ nLinks → n' < length V) ∧
  (nLinks = 0 → n' = length V).
Proof using parallel_sort_perm.
  set_aside.
  intros Hwf Hnoself. cbn zeta.
  destruct (sorted_entries_valid adj V N A deterministic Hwf) as [Hvalid Hlen].
  pose proof (matching_count adj (length V) _ Hwf Hnoself Hvalid) as Hcount.
  rewrite downsample_size by done. rewrite <- Hlen.
  split; [lia|]. split; [lia|]. split.
  - intros Hlinks.
    assert (1 ≤ length (matching (sorted_entries adj V N A deterministic) (length V)).2);
      [|lia].
    apply matching_first.
    + eapply list.Forall_impl; [done|]. intros e He.
      destruct (valid_entry_ends adj _ e Hwf Hnoself He) as (? & ? & _). done.
    + intros Hnil. rewrite Hnil in Hlinks. simpl in Hlinks. lia.
  - intros Hnil%length_zero_iff_nil. rewrite Hnil, matching_nil. simpl. lia.
Qed.




(** ** The links of a coarse vertex (lines 137-157 and 177-200) *)

(** [gather] collects the projected links of the parents. *)
Lemma gather_spec (adj : AdjacencyMatrix) (c : Coarse) (i : nat) :
  (to_upper c !!! i).1 ≠ INVALID →
  gather adj c i = projected_links adj c i.
Proof.
  intros Hp. unfold gather, projected_links.
  destruct (to_upper c !!! i) as [p q]. cbn [fst snd foldl] in *.
  destruct (N.eqb_spec p INVALID) as [|_]; [done|].
  rewrite app_nil_l, fmap_app.
  destruct (N.eqb_spec q INVALID) as [Hq|Hq], (decide (q = INVALID)); try done.
  by rewrite app_nil_r.
Qed.

Lemma merge_step_length (i : nat) (out : list Link) (link : Link) :
  length out ≤ length (merge_step i out link).
Proof.
  unfold merge_step. destruct (_ =? _)%N; [done|].
  destruct out as [|prev out]; [simpl; lia|].
  destruct (_ =? _)%N; simpl; lia.
Qed.

Lemma foldl_merge_length (i : nat) (out : list Link) (scratch : list Link) :
  length out ≤ length (foldl (merge_step i) out scratch).
Proof.
  revert out. induction scratch as [|link scratch IH]; intros out; simpl; [done|].
  pose proof (merge_step_length i out link). pose proof (IH (merge_step i out link)). lia.
Qed.

(** The two loops track the same [id]. *)
Lemma last_id_fresh (out : list Link) (link : Link) :
  id link ≠ INVALID →
  (last_id out =? id link)%N
  = match out with prev :: _ => (id prev =? id link)%N | [] => false end.
Proof.
  intros Hid. destruct out as [|prev out]; [|done].
  simpl. by destruct (N.eqb_spec INVALID (id link)).
Qed.

(** Lines 151-157: the loop counts the links that the loop of lines
    189-200 writes. *)
Lemma count_simulation (i : nat) (scratch : list Link) (out : list Link) :
  Forall (λ link, id link ≠ INVALID) scratch →
  foldl (λ (st : N * nat) link,
           if negb (st.1 =? id link)%N && negb (id link =? N.of_nat i)%N
           then (id link, st.2 + 1) else st)
        (last_id out, length out) scratch
  = (last_id (foldl (merge_step i) out scratch),
     length (foldl (merge_step i) out scratch)).
Proof.
  intros Hids. revert out.
  induction Hids as [|link scratch Hid _ IH]; intros out; [done|].
  cbn [foldl fst snd]. rewrite last_id_fresh by done. unfold merge_step.
  destruct (N.eqb_spec (id link) (N.of_nat i)) as [Hi|Hi].
  { rewrite andb_false_r. apply IH. }
  rewrite andb_true_r.
  destruct out as [|prev out].
  { cbn [negb]. apply (IH [link]). }
  destruct (N.eqb_spec (id prev) (id link)) as [Heq|Hne]; cbn [negb].
  - apply (IH (mkLink (id prev) (weight prev + weight link) :: out)).
  - replace (length (prev :: out) + 1) with (length (link :: prev :: out))
      by (simpl; lia).
    apply (IH (link :: prev :: out)).
Qed.

Lemma count_links_spec (i : nat) (scratch : list Link) :
  Forall (λ link, id link ≠ INVALID) scratch →
  count_links i scratch = length (merge_links i scratch).
Proof.
  intros Hids. unfold count_links, merge_links.
  rewrite length_reverse.
  pose proof (count_simulation i scratch [] Hids) as H.
  cbn [last_id length] in H. by rewrite H.
Qed.

(** Lines 189-200: the loop writes the merged links from [dest] on.  The
    link array is cut into what lies before the row, the links written
    so far and the slots that follow. *)
Lemma emit_step_eq (i : nat) (links : list Link) (dest : nat) (id0 : N) (link : Link) :
  emit_step i (links, dest, id0) link
  = if negb (id link =? N.of_nat i)%N then
      if negb (id0 =? id link)%N then (<[dest := link]> links, dest + 1, id link)
      else
        (<[dest - 1 := mkLink (id (links !!! (dest - 1)))
                              (weight (links !!! (dest - 1)%nat) + weight link)%Q]> links,
         dest, id0)
    else (links, dest, id0).
Proof. done. Qed.

Lemma emit_simulation (i : nat) (scratch : list Link) :
  Forall (λ link, id link ≠ INVALID) scratch →
  ∀ pre out post : list Link,
  length (foldl (merge_step i) out scratch) ≤ length out + length post →
  foldl (emit_step i) (pre ++ reverse out ++ post, length pre + length out, last_id out)
        scratch
  = (pre ++ reverse (foldl (merge_step i) out scratch)
       ++ drop (length (foldl (merge_step i) out scratch) - length out) post,
     length pre + length (foldl (merge_step i) out scratch),
     last_id (foldl (merge_step i) out scratch)).
Proof.
  intros Hids. induction Hids as [|link scratch Hid _ IH]; intros pre out post Hlen.
  { cbn [foldl]. by rewrite Nat.sub_diag, drop_0. }
  cbn [foldl] in *. rewrite emit_step_eq, last_id_fresh by done.
  remember (merge_step i out link) as out1 eqn:Hout1.
  assert (Hpush : length (foldl (merge_step i) (link :: out) scratch)
                  ≤ length out + length post →
    foldl (emit_step i)
      (<[length pre + length out := link]> (pre ++ reverse out ++ post),
       length pre + length out + 1, id link) scratch
    = (pre ++ reverse (foldl (merge_step i) (link :: out) scratch)
         ++ drop (length (foldl (merge_step i) (link :: out) scratch) - length out) post,
       length pre + length (foldl (merge_step i) (link :: out) scratch),
       last_id (foldl (merge_step i) (link :: out) scratch))).
  { intros Hlen'.
    pose proof (foldl_merge_length i (link :: out) scratch) as Hge. cbn [length] in Hge.
    destruct post as [|x post]; [simpl in Hlen'; lia|].
    rewrite insert_app_r, insert_app_r_alt by (rewrite length_reverse; lia).
    rewrite length_reverse, Nat.sub_diag. cbn [insert list_insert].
    specialize (IH pre (link :: out) post).
    rewrite reverse_cons, <- app_assoc in IH. cbn [app length last_id] in IH.
    replace (length pre + length out + 1) with (length pre + S (length out)) by lia.
    rewrite IH by (cbn [length] in Hlen'; lia).
    do 3 f_equal.
    replace (length (foldl (merge_step i) (link :: out) scratch) - length out)
      with (S (length (foldl (merge_step i) (link :: out) scratch) - S (length out)))
      by lia.
    done. }
  unfold merge_step in Hout1.
  destruct (N.eqb_spec (id link) (N.of_nat i)) as [Hi|Hi]; cbn [negb]; subst out1.
  { by apply IH. }
  destruct out as [|prev out].
  { cbn [negb]. apply Hpush. done. }
  destruct (N.eqb_spec (id prev) (id link)) as [Heq|Hne]; cbn [negb].
  - specialize (IH pre (mkLink (id prev) (weight prev + weight link) :: out) post).
    rewrite reverse_cons, <- app_assoc in IH |- *. cbn [app length last_id] in IH |- *.
    replace (length pre + S (length out) - 1) with (length pre + length out) by lia.
    assert (Hat : (pre ++ reverse out ++ prev :: post) !!! (length pre + length out)
                  = prev).
    { rewrite lookup_total_app_r, lookup_total_app_r by (rewrite ?length_reverse; lia).
      rewrite length_reverse.
      by replace (length pre + length out - length pre - length out) with 0 by lia. }
    rewrite Hat.
    rewrite insert_app_r, insert_app_r_alt by (rewrite length_reverse; lia).
    rewrite length_reverse, Nat.sub_diag. cbn [insert list_insert].
    apply IH. done.
  - apply Hpush. done.
Qed.

Lemma emit_links_spec (i : nat) (scratch pre post : list Link) :
  Forall (λ link, id link ≠ INVALID) scratch →
  length (merge_links i scratch) ≤ length post →
  emit_links i scratch (pre ++ post) (length pre)
  = pre ++ merge_links i scratch ++ drop (length (merge_links i scratch)) post.
Proof.
  intros Hids Hlen. unfold emit_links, merge_links in *.
  rewrite length_reverse in *.
  pose proof (emit_simulation i scratch Hids pre [] post) as H.
  rewrite reverse_nil in H. cbn [length last_id app] in H.
  rewrite Nat.add_0_r, Nat.sub_0_r in H.
  rewrite H by (simpl; lia). done.
Qed.


(** ** Merging the sorted links *)

Lemma weight_to_snoc (k : N) (links : list Link) (x : Link) :
  (weight_to k (links ++ [x])
   == weight_to k links + (if decide (id x = k) then weight x else 0))%Q.
Proof.
  unfold weight_to. rewrite list.filter_app, fmap_app, Qsum_app.
  rewrite filter_cons, filter_nil. destruct (decide (id x = k)); simpl; lra.
Qed.

Lemma weight_to_absent (k : N) (links : list Link) :
  k ∉ id <$> links → weight_to k links = 0%Q.
Proof.
  intros Hk. unfold weight_to.
  replace (filter (λ link, id link = k) links) with (@nil Link); [done|].
  symmetry. induction links as [|x links IH]; [done|].
  rewrite fmap_cons, not_elem_of_cons in Hk. destruct Hk as [Hx Hk].
  rewrite filter_cons_False by done. by apply IH.
Qed.

Lemma weight_to_perm (k : N) (a b : list Link) :
  a ≡ₚ b → (weight_to k a == weight_to k b)%Q.
Proof. intros Hab. unfold weight_to. apply Qsum_perm. by rewrite Hab. Qed.

Lemma merge_push_inv (i : nat) (seen out : list Link) (x : Link) :
  merge_inv i seen out → id x ≠ N.of_nat i →
  (∀ y, y ∈ out → (id y < id x)%N) →
  merge_inv i (seen ++ [x]) (x :: out).
Proof.
  set_aside.
  intros [Hsorted Hids Hweights] Hi Hlt.
  assert (Hnew : id x ∉ id <$> seen).
  { intros Hin.
    assert (id x ∈ id <$> out) as (y & Hy & Hin')%list_elem_of_fmap by by apply Hids.
    apply Hlt in Hin'. lia. }
  split.
  - apply StronglySorted_cons. split; [|done]. by apply list.Forall_forall.
  - intros k. rewrite fmap_cons, fmap_app, elem_of_cons, elem_of_app, Hids.
    change (id <$> [x]) with [id x]. rewrite list_elem_of_singleton. intuition congruence.
  - intros y [->|Hy]%elem_of_cons.
    + rewrite weight_to_snoc, weight_to_absent by done.
      destruct (decide (id x = id x)); [lra | done].
    + rewrite weight_to_snoc, (Hweights y Hy).
      destruct (decide (id x = id y)) as [Heq|_]; [|lra].
      apply Hlt in Hy. lia.
Qed.

Lemma merge_step_inv (i : nat) (seen out : list Link) (x : Link) :
  merge_inv i seen out → (∀ y, y ∈ seen → (id y <= id x)%N) →
  merge_inv i (seen ++ [x]) (merge_step i out x).
Proof.
  set_aside.
  intros Hinv Hle. unfold merge_step.
  pose proof Hinv as [Hsorted Hids Hweights].
  assert (Hout : ∀ y, y ∈ out → (id y <= id x)%N ∧ id y ≠ N.of_nat i).
  { intros y Hy.
    assert (id y ∈ id <$> out) as Hin by (apply list_elem_of_fmap; eauto).
    apply Hids in Hin as [Hne (z & Hz & Hin)%list_elem_of_fmap].
    rewrite Hz. split; [by apply Hle|]. by rewrite <- Hz. }
  destruct (N.eqb_spec (id x) (N.of_nat i)) as [Hi|Hi].
  { split; [done| |].
    - intros k. rewrite Hids, fmap_app, elem_of_app.
      change (id <$> [x]) with [id x]. rewrite list_elem_of_singleton. intuition congruence.
    - intros y Hy. rewrite weight_to_snoc, (Hweights y Hy).
      destruct (decide (id x = id y)) as [Heq|_]; [|lra].
      apply Hout in Hy as [_ Hy]. congruence. }
  destruct out as [|prev out].
  { apply merge_push_inv; [done..|]. by intros y ?%elem_of_nil. }
  apply StronglySorted_cons in Hsorted as [Hprev Hsorted].
  destruct (N.eqb_spec (id prev) (id x)) as [Heq|Hne].
  - split.
    + apply StronglySorted_cons. done.
    + intros k. specialize (Hids k). rewrite fmap_cons in Hids |- *.
      cbn [id]. rewrite Hids, fmap_app, elem_of_app.
      change (id <$> [x]) with [id x]. rewrite list_elem_of_singleton.
      split; [intuition congruence|].
      intros [Hk [Hin| ->]]; [done|]. apply Hids. rewrite <- Heq. left.
    + intros y [->|Hy]%elem_of_cons; cbn [id weight].
      * rewrite weight_to_snoc, (Hweights prev) by left.
        destruct (decide (id x = id prev)); [lra | congruence].
      * rewrite weight_to_snoc, (Hweights y) by by right.
        destruct (decide (id x = id y)) as [Heq'|_]; [|lra].
        apply (Forall_elem_of _ _ _ Hprev) in Hy. cbn beta in Hy. lia.
  - apply merge_push_inv; [done..|].
    intros y Hy. 
    assert (id prev < id x)%N.
    { destruct (Hout prev) as [? _]; [left|]. lia. }
    apply elem_of_cons in Hy as [->|Hy]; [done|].
    apply (Forall_elem_of _ _ _ Hprev) in Hy. cbn beta in Hy. lia.
Qed.

Lemma merge_links_inv (i : nat) (scratch : list Link) :
  StronglySorted Link_le scratch →
  merge_inv i scratch (foldl (merge_step i) [] scratch).
Proof.
  induction scratch as [|x scratch IH] using rev_ind; intros Hsorted.
  { split; [constructor| |].
    - intros k. cbn. split; [by intros ?%elem_of_nil | by intros [_ ?%elem_of_nil]].
    - by intros x ?%elem_of_nil. }
  apply StronglySorted_app in Hsorted as (Hle & Hsorted & _).
  rewrite foldl_app. cbn [foldl]. apply merge_step_inv; [by apply IH|].
  intros y Hy. apply Hle; [done | left].
Qed.

Lemma descending_NoDup (out : list Link) :
  StronglySorted (λ a b, (id b < id a)%N) out → NoDup (id <$> out).
Proof.
  induction 1 as [|x out _ IH Hx]; [constructor|].
  rewrite fmap_cons. apply list.NoDup_cons. split; [|done].
  intros (y & Hy & Hin)%list_elem_of_fmap.
  apply (Forall_elem_of _ _ _ Hx) in Hin. cbn beta in Hin. lia.
Qed.

(** The links of a coarse vertex, from sorted links: no link to the
    vertex itself, no neighbor twice, every other neighbor of the sorted
    links once, with the total weight of its links. *)
Lemma merge_links_spec (i : nat) (scratch : list Link) :
  StronglySorted Link_le scratch →
  NoDup (id <$> merge_links i scratch) ∧
  (∀ k, k ∈ id <$> merge_links i scratch ↔ k ≠ N.of_nat i ∧ k ∈ id <$> scratch) ∧
  (∀ x, x ∈ merge_links i scratch → (weight x == weight_to (id x) scratch)%Q).
Proof.
  intros Hsorted. destruct (merge_links_inv i scratch Hsorted) as [Hs Hids Hw].
  unfold merge_links. split; [|split].
  - rewrite fmap_reverse, reverse_Permutation. by apply descending_NoDup.
  - intros k. by rewrite fmap_reverse, elem_of_reverse.
  - intros x Hx. apply Hw. by apply elem_of_reverse.
Qed.


(** ** The coarse adjacency matrix (lines 133-204) *)

(** A loop that writes slot [i + 1] for every [i] below [m]. *)
Lemma write_shifted {A} (f : nat → A) (m : nat) (a : list A) :
  m + 1 ≤ length a →
  foldl (λ ns i, <[i + 1 := f i]> ns) a (range m)
  = take 1 a ++ (f <$> range m) ++ drop (m + 1) a.
Proof.
  intros Hm. rewrite <- (Nat.add_comm 1 m), <- (write_slots f 1 m a) by lia.
  generalize (range m). intros l. revert a Hm.
  induction l as [|i l IH]; intros a Hm; simpl; [done|].
  rewrite IH by (rewrite length_insert; lia).
  by replace (i + 1) with (S i) by lia.
Qed.

Lemma links_before_S {A} (rows : nat → list A) (k : nat) :
  links_before rows (S k) = length (rows k) + links_before rows k.
Proof.
  unfold links_before. rewrite range_S, fmap_app, concat_app, length_app.
  simpl. rewrite length_app. simpl. lia.
Qed.

Lemma links_before_mono {A} (rows : nat → list A) (i j : nat) :
  i ≤ j → links_before rows i ≤ links_before rows j.
Proof.
  induction 1 as [|j _ IH]; [done|]. rewrite links_before_S. lia.
Qed.

(** Lines 163-166: the row pointers are the running sums of the sizes. *)
Lemma prefix_sums_spec {A} (rows : nat → list A) (m x : nat) :
  prefix_sums (x :: ((λ i, length (rows i)) <$> range m))
  = links_before rows <$> range (m + 1).
Proof.
  unfold prefix_sums. cbn [length insert list_insert].
  rewrite length_fmap, length_range, Nat.sub_succ, Nat.sub_0_r.
  set (old := 0 :: ((λ i, length (rows i)) <$> range m)).
  assert (Hold : length old = m + 1).
  { unfold old. cbn [length]. rewrite length_fmap, length_range. lia. }
  assert (Hinv : ∀ k, k ≤ m →
    foldl (λ ns i, <[i + 1 := ns !!! (i + 1) + ns !!! i]> ns) old (range k)
    = (links_before rows <$> range (k + 1)) ++ drop (k + 1) old).
  { induction k as [|k IH]; intros Hk.
    - cbn [foldl]. unfold old. done.
    - rewrite foldl_range_S, IH by lia.
      assert (Hlen : length (links_before rows <$> range (k + 1)) = k + 1)
        by by rewrite length_fmap, length_range.
      assert (Hnext : old !!! (k + 1) = length (rows k)).
      { unfold old. replace (k + 1) with (S k) by lia.
        rewrite lookup_total_cons_ne_0 by lia.
        cbn [Nat.pred]. by rewrite lookup_total_fmap_range by lia. }
      rewrite (lookup_total_app_r _ _ (k + 1)) by lia.
      rewrite Hlen, Nat.sub_diag, lookup_total_drop, Nat.add_0_r, Hnext.
      rewrite lookup_total_app_l by lia.
      rewrite lookup_total_fmap_range by lia.
      rewrite <- links_before_S.
      replace (S k) with (k + 1) by lia.
      rewrite (insert_fmap_range_drop (links_before rows) (k + 1) old) by lia.
      by replace (S (k + 1)) with (k + 1 + 1) by lia. }
  rewrite Hinv by done. rewrite drop_ge by lia. by rewrite app_nil_r.
Qed.

(** The row [i] of an array that holds the rows one after the other. *)
Lemma concat_rows_lookup {A} (rows : nat → list A) (n i : nat) :
  i < n →
  take (links_before rows (i + 1) - links_before rows i)
       (drop (links_before rows i) (concat (rows <$> range n)))
  = rows i.
Proof.
  intros Hi.
  assert (∃ rest, concat (rows <$> range n) = concat (rows <$> range (S i)) ++ rest)
    as [rest ->].
  { induction n as [|n IH]; [lia|].
    destruct (decide (i = n)) as [->|Hne]; [exists []; by rewrite app_nil_r|].
    destruct IH as [rest IH]; [lia|].
    exists (rest ++ rows n).
    rewrite range_S, fmap_app, concat_app, IH. cbn [fmap list_fmap concat].
    by rewrite app_nil_r, app_assoc. }
  replace (i + 1) with (S i) by lia. rewrite links_before_S.
  rewrite range_S, fmap_app, concat_app. cbn [fmap list_fmap concat].
  rewrite app_nil_r, <- app_assoc.
  rewrite drop_app_length' by done.
  rewrite take_app_length' by lia. done.
Qed.

Section coarse_adjacency.

Variables (adj : AdjacencyMatrix) (c : Coarse).

(** The coarse vertices have a first parent, and their projected links
    name coarse vertices, none of which is numbered [INVALID]. *)
Hypothesis first_parent : ∀ i, i < length (V_p c) → (to_upper c !!! i).1 ≠ INVALID.
Hypothesis projected_ids : ∀ i, i < length (V_p c) →
  Forall (λ link, (id link < N.of_nat (length (V_p c)))%N) (projected_links adj c i).
Hypothesis ncols_p_bound : (N.of_nat (length (V_p c)) <= INVALID)%N.

Lemma sorted_links_ids (i : nat) :
  i < length (V_p c) →
  Forall (λ link, (id link < N.of_nat (length (V_p c)))%N) (std_sort (gather adj c i)).
Proof using first_parent projected_ids std_sort_perm.
  intros Hi. rewrite std_sort_perm, gather_spec by by apply first_parent.
  by apply projected_ids.
Qed.

Lemma sorted_links_valid (i : nat) :
  i < length (V_p c) →
  Forall (λ link, id link ≠ INVALID) (std_sort (gather adj c i)).
Proof using first_parent ncols_p_bound projected_ids std_sort_perm.
  intros Hi. eapply list.Forall_impl; [by apply sorted_links_ids|].
  intros link Hlink. cbn beta in Hlink. lia.
Qed.

(** Lines 133-204: the row pointers and the link array. *)
Lemma coarse_adjacency_arrays :
  let rows := λ i, merge_links i (std_sort (gather adj c i)) in
  adj_ptr (coarse_adjacency adj c)
  = (links_before rows <$> range (length (V_p c) + 1))
    ++ replicate (2 * length (V_p c)) 0 ∧
  adj_links (coarse_adjacency adj c) = concat (rows <$> range (length (V_p c))).
Proof using first_parent ncols_p_bound projected_ids std_sort_perm.
  intros rows. unfold coarse_adjacency. cbn zeta. cbn [adj_ptr adj_links].
  set (n' := length (V_p c)) in *.
  assert (Hsizes :
    foldl (λ ns i, <[i + 1 := count_links i (std_sort (gather adj c i))]> ns)
          (replicate (n' + 1) 0) (range n')
    = 0 :: ((λ i, length (rows i)) <$> range n')).
  { rewrite write_shifted by (by rewrite length_replicate).
    rewrite drop_ge by (by rewrite length_replicate).
    rewrite app_nil_r. replace (n' + 1) with (S n') by lia. cbn [replicate take app].
    f_equal. apply list_fmap_ext. intros j i [-> Hj]%lookup_seq.
    apply count_links_spec, sorted_links_valid. lia. }
  rewrite Hsizes, prefix_sums_spec.
  set (ns := links_before rows <$> range (n' + 1)).
  assert (Hns : length ns = n' + 1) by (unfold ns; by rewrite length_fmap, length_range).
  assert (Hptr :
    foldl (λ adj_p i, <[i := ns !!! i]> adj_p) (replicate (3 * n' + 1) 0)
          (range (length ns))
    = ns ++ replicate (2 * n') 0).
  { rewrite write_prefix by (rewrite length_replicate; lia).
    rewrite (fmap_lookup_range (λ x, x) ns) by done.
    rewrite list_fmap_id, firstn_all, drop_replicate. do 2 f_equal. lia. }
  rewrite Hptr. split; [done|].
  rewrite Hns, Nat.add_sub.
  assert (Hat : ∀ k, k ≤ n' → (ns ++ replicate (2 * n') 0) !!! k = links_before rows k).
  { intros k Hk. rewrite lookup_total_app_l by lia.
    unfold ns. by rewrite lookup_total_fmap_range by lia. }
  replace (ns !!! n') with (links_before rows n')
    by (unfold ns; by rewrite lookup_total_fmap_range by lia).
  assert (Hinv : ∀ k, k ≤ n' →
    foldl (λ links i, emit_links i (std_sort (gather adj c i)) links
                        ((ns ++ replicate (2 * n') 0) !!! i))
          (replicate (links_before rows n') inhabitant) (range k)
    = concat (rows <$> range k)
      ++ drop (links_before rows k) (replicate (links_before rows n') inhabitant)).
  { induction k as [|k IH]; intros Hk.
    - cbn [foldl]. change (links_before rows 0) with 0. by rewrite drop_0.
    - rewrite foldl_range_S, IH, Hat by lia.
      pose proof (links_before_mono rows (S k) n' Hk) as Hmono.
      rewrite links_before_S in Hmono.
      replace (links_before rows k) with (length (concat (rows <$> range k))) at 2
        by done.
      rewrite emit_links_spec.
      + rewrite drop_drop, range_S, fmap_app, concat_app.
        cbn [fmap list_fmap concat]. rewrite app_nil_r, <- app_assoc.
        do 3 f_equal. rewrite links_before_S. fold (rows k). lia.
      + apply sorted_links_valid. lia.
      + fold (rows k). rewrite length_drop, length_replicate. lia. }
  rewrite Hinv by done. rewrite drop_ge by (by rewrite length_replicate).
  by rewrite app_nil_r.
Qed.

(** The rows of the coarse adjacency matrix. *)
Lemma coarse_adjacency_row (i : nat) :
  i < length (V_p c) →
  adj_row (coarse_adjacency adj c) i = merge_links i (std_sort (gather adj c i)).
Proof using first_parent ncols_p_bound projected_ids std_sort_perm.
  intros Hi. destruct coarse_adjacency_arrays as [Hptr Hlinks].
  unfold adj_row. rewrite Hptr, Hlinks.
  rewrite !lookup_total_app_l by (rewrite length_fmap, length_range; lia).
  rewrite !lookup_total_fmap_range by lia.
  by apply (concat_rows_lookup (λ i, merge_links i (std_sort (gather adj c i)))).
Qed.

(** A row names each neighbor once, never the vertex itself: the
    neighbors are those of the projected links of the parents, and the
    weight of a link is the total weight of the projected links to its
    neighbor. *)
Lemma coarse_adjacency_row_spec (i : nat) :
  i < length (V_p c) →
  let row := adj_row (coarse_adjacency adj c) i in
  NoDup (id <$> row) ∧
  (∀ k, k ∈ id <$> row ↔ k ≠ N.of_nat i ∧ k ∈ id <$> projected_links adj c i) ∧
  (∀ link, link ∈ row → (weight link == weight_to (id link) (projected_links adj c i))%Q).
Proof using first_parent ncols_p_bound projected_ids std_sort_perm std_sort_sorted.
  intros Hi. cbn zeta. rewrite coarse_adjacency_row by done.
  destruct (merge_links_spec i (std_sort (gather adj c i)) (std_sort_sorted _))
    as (Hnodup & Hids & Hweights).
  split; [done|]. split.
  - intros k. rewrite Hids, std_sort_perm, gather_spec by by apply first_parent. done.
  - intros link Hlink. rewrite (Hweights link Hlink).
    rewrite <- gather_spec by by apply first_parent.
    apply weight_to_perm, std_sort_perm.
Qed.

(** The coarse adjacency matrix is well formed and has no self-loop. *)
Lemma coarse_adjacency_wf :
  wf_adjacency (coarse_adjacency adj c) (length (V_p c)) ∧
  no_self_loops (coarse_adjacency adj c) (length (V_p c)).
Proof using first_parent ncols_p_bound projected_ids std_sort_perm std_sort_sorted.
  destruct coarse_adjacency_arrays as [Hptr Hlinks]. cbn zeta in *.
  set (rows := λ i, merge_links i (std_sort (gather adj c i))) in *.
  assert (Hat : ∀ k, k ≤ length (V_p c) →
            adj_ptr (coarse_adjacency adj c) !!! k = links_before rows k).
  { intros k Hk. rewrite Hptr.
    rewrite lookup_total_app_l by (rewrite length_fmap, length_range; lia).
    by rewrite lookup_total_fmap_range by lia. }
  split; [split|].
  - rewrite Hptr, length_app, length_fmap, length_range. lia.
  - intros i Hi. rewrite !Hat by lia. apply links_before_mono. lia.
  - rewrite Hat, Hlinks by done. done.
  - intros u v Hu Hedge. unfold edge, neighbors in Hedge.
    destruct (coarse_adjacency_row_spec (N.to_nat u) ltac:(lia)) as (_ & Hids & _).
    apply Hids in Hedge as [_ (link & -> & Hlink)%list_elem_of_fmap].
    by apply (Forall_elem_of _ _ _ (projected_ids (N.to_nat u) ltac:(lia))) in Hlink.
  - intros u Hu Hedge. unfold edge, neighbors in Hedge.
    destruct (coarse_adjacency_row_spec (N.to_nat u) ltac:(lia)) as (_ & Hids & _).
    apply Hids in Hedge as [Hne _]. lia.
Qed.

End coarse_adjacency.


(** ** One coarsening step *)

Lemma downsample_adjacency adj V N A deterministic :
  (downsample_graph adj V N A deterministic).1
  = coarse_adjacency adj (downsample_graph adj V N A deterministic).2.
Proof. done. Qed.

(** The parents of the coarse vertices are vertices of the fine level,
    and the area of a coarse vertex is that of its parents. *)
Lemma coarse_parents adj V N A deterministic :
  wf_adjacency adj (length V) → no_self_loops adj (length V) →
  (N.of_nat (length V) <= INVALID)%N →
  let c := (downsample_graph adj V N A deterministic).2 in
  length (V_p c) ≤ length V ∧
  length (A_p c) = length (V_p c) ∧
  length (to_upper c) = length (V_p c) ∧
  ∀ k, k < length (V_p c) →
    ((to_upper c !!! k).1 < N.of_nat (length V))%N ∧
    ((to_upper c !!! k).2 = INVALID ∨ ((to_upper c !!! k).2 < N.of_nat (length V))%N) ∧
    A_p c !!! k = parent_area A (to_upper c !!! k).
Proof using copy_order_perm parallel_sort_perm.
  set_aside.
  intros Hwf Hnoself Hbound. cbn zeta.
  destruct (downsample_coarse adj V N A deterministic Hwf Hnoself)
    as (Hinv & Hcount & HlV & _ & HA & Hup & _).
  set (st := matching _ _) in *. set (um := unmatched _ _) in *.
  set (c := (downsample_graph adj V N A deterministic).2) in *.
  split; [lia|]. split.
  { rewrite HA, HlV, length_app, !length_fmap. done. }
  split.
  { rewrite Hup, HlV, length_app, !length_fmap. done. }
  intros k Hk. rewrite HA, Hup. destruct (decide (k < length st.2)) as [Hlt|Hge].
  - rewrite !lookup_total_app_l by (rewrite length_fmap; lia).
    rewrite (list_lookup_total_fmap (pair_area A)) by done.
    rewrite (list_lookup_total_fmap (λ e, (e_i e, e_j e))) by done.
    set (e := st.2 !!! k).
    assert (valid_entry adj (length V) e) as He.
    { apply (Forall_elem_of _ _ _ (mi_valid _ _ _ Hinv)).
      by apply list_elem_of_lookup_total_2. }
    destruct (valid_entry_ends adj _ e Hwf Hnoself He) as (Hi & Hj & _).
    cbn [fst snd]. split; [done|]. split; [by right|].
    unfold parent_area. cbn [fst snd].
    destruct (decide (e_j e = INVALID)) as [Heq|_]; [lia | done].
  - rewrite !lookup_total_app_r by (rewrite length_fmap; lia).
    rewrite !length_fmap.
    rewrite (list_lookup_total_fmap (λ i, A !!! i)) by lia.
    rewrite (list_lookup_total_fmap (λ i, (N.of_nat i, INVALID))) by lia.
    set (v := um !!! (k - length st.2)).
    assert (v < length V) as Hv.
    { assert (v ∈ um) as Hin by (apply list_elem_of_lookup_total_2; lia).
      apply list_elem_of_filter in Hin as [_ Hin].
      by apply (Forall_elem_of _ _ _ (copy_sequence_lt (length V) deterministic)) in Hin. }
    cbn [fst snd]. split; [lia|]. split; [by left|].
    unfold parent_area, at32. cbn [fst snd].
    destruct (decide (INVALID = INVALID)); [|done]. by rewrite Nat2N.id.
Qed.

(** The projected links of a coarse vertex name coarse vertices. *)
Lemma projected_links_ids adj V N A deterministic (k : nat) :
  wf_adjacency adj (length V) → no_self_loops adj (length V) →
  (N.of_nat (length V) <= INVALID)%N →
  let c := (downsample_graph adj V N A deterministic).2 in
  k < length (V_p c) →
  Forall (λ link, (id link < N.of_nat (length (V_p c)))%N) (projected_links adj c k).
Proof using copy_order_perm parallel_sort_perm.
  set_aside.
  intros Hwf Hnoself Hbound. cbn zeta. intros Hk.
  destruct (coarse_parents adj V N A deterministic Hwf Hnoself Hbound)
    as (_ & _ & _ & Hparents).
  destruct (Hparents k Hk) as (Hp & Hq & _).
  destruct (downsample_coarse adj V N A deterministic Hwf Hnoself)
    as (_ & _ & HlV & _ & _ & _ & _ & Hlower).
  set (c := (downsample_graph adj V N A deterministic).2) in *.
  assert (Hrow : ∀ p link, (p < N.of_nat (length V))%N → link ∈ adj_row adj (N.to_nat p) →
            (at32 (to_lower c) (id link) < N.of_nat (length (V_p c)))%N).
  { intros p link Hlt Hlink.
    assert (id link < N.of_nat (length V))%N as Hid.
    { apply (wf_ids adj _ Hwf p); [done|]. apply edge_link. eauto. }
    specialize (Hlower (N.to_nat (id link)) ltac:(lia)).
    unfold at32. rewrite HlV. lia. }
  unfold projected_links. destruct (to_upper c !!! k) as [p q]. cbn [fst snd] in *.
  apply list.Forall_forall. intros link (link0 & -> & Hin)%list_elem_of_fmap.
  cbn [id]. apply elem_of_app in Hin as [Hin|Hin]; [by apply (Hrow p)|].
  destruct (decide (q = INVALID)) as [|Hne]; [by apply elem_of_nil in Hin|].
  destruct Hq as [|Hq]; [done|]. by apply (Hrow q).
Qed.

Lemma fmap_lookup_total_all {A} `{Inhabited A} (a : list A) :
  (λ i, a !!! i) <$> range (length a) = a.
Proof.
  rewrite (fmap_lookup_range (λ x, x) a) by done.
  by rewrite list_fmap_id, firstn_all.
Qed.

Lemma Qsum_pair_area (A : list Q) (es : list Entry) :
  (Qsum (pair_area A <$> es) == Qsum ((λ v, A !!! N.to_nat v) <$> endpoints es))%Q.
Proof.
  induction es as [|e es IH]; [done|].
  unfold endpoints in *. cbn [fmap list_fmap mbind list_bind app Qsum foldr] in *.
  unfold pair_area at 1, at32. unfold Qsum in IH. rewrite IH. lra.
Qed.

(** Lines 87-131 conserve the total area. *)
Lemma downsample_area adj V N A deterministic :
  level_ok adj V A →
  (Qsum (A_p (downsample_graph adj V N A deterministic).2) == Qsum A)%Q.
Proof using copy_order_perm parallel_sort_perm.
  set_aside.
  intros [Hwf Hnoself Hbound HlA].
  destruct (downsample_coarse adj V N A deterministic Hwf Hnoself)
    as (Hinv & _ & _ & _ & HA & _).
  destruct (sorted_entries_valid adj V N A deterministic Hwf) as [Hvalid _].
  destruct (unmatched_count adj (length V) _ (copy_sequence (length V) deterministic)
              Hwf Hnoself Hinv (copy_sequence_perm _ _)) as [Hperm _].
  rewrite HA, Qsum_app, Qsum_pair_area.
  change (λ v : BinNums.N, A !!! N.to_nat v) with ((λ i, A !!! i) ∘ N.to_nat).
  rewrite (list_fmap_compose N.to_nat (λ i, A !!! i)), <- Qsum_app, <- fmap_app.
  rewrite (Qsum_perm _ ((λ i, A !!! i) <$> range (length V))) by by rewrite Hperm.
  by rewrite <- HlA, fmap_lookup_total_all.
Qed.

(** A coarsened level can be coarsened again. *)
Lemma downsample_level adj V N A deterministic :
  level_ok adj V A →
  level_ok (downsample_graph adj V N A deterministic).1
           (V_p (downsample_graph adj V N A deterministic).2)
           (A_p (downsample_graph adj V N A deterministic).2).
Proof using copy_order_perm parallel_sort_perm std_sort_perm std_sort_sorted.
  set_aside.
  intros [Hwf Hnoself Hbound _].
  destruct (coarse_parents adj V N A deterministic Hwf Hnoself Hbound)
    as (Hle & HlA & _ & Hparents).
  rewrite downsample_adjacency.
  destruct (coarse_adjacency_wf adj (downsample_graph adj V N A deterministic).2)
    as [Hwf' Hnoself'].
  - intros i Hi. destruct (Hparents i Hi) as (Hp & _). lia.
  - intros i Hi. by apply projected_links_ids.
  - lia.
  - split; [done | done | lia | done].
Qed.

(** C6: a row of the coarse adjacency matrix names neither its own
    vertex nor a neighbor twice; its neighbors are those that the links
    of the parents name once projected through [to_lower], and the
    weight of a link is the sum of the weights of the projected links to
    its neighbor. *)
Theorem coarse_adjacency_merged adj V N A deterministic (i : nat) :
  wf_adjacency adj (length V) → no_self_loops adj (length V) →
  (N.of_nat (length V) <= INVALID)%N →
  let adj_p := (downsample_graph adj V N A deterministic).1 in
  let c := (downsample_graph adj V N A deterministic).2 in
  i < length (V_p c) →
  (N.of_nat i ∉ id <$> adj_row adj_p i) ∧
  NoDup (id <$> adj_row adj_p i) ∧
  (∀ k, k ∈ id <$> adj_row adj_p i
        ↔ k ≠ N.of_nat i ∧ k ∈ id <$> projected_links adj c i) ∧
  (∀ link, link ∈ adj_row adj_p i →
     (weight link == weight_to (id link) (projected_links adj c i))%Q).
Proof using copy_order_perm parallel_sort_perm std_sort_perm std_sort_sorted.
  set_aside.
  intros Hwf Hnoself Hbound. cbn zeta. intros Hi.
  destruct (coarse_parents adj V N A deterministic Hwf Hnoself Hbound)
    as (Hle & _ & _ & Hparents).
  rewrite downsample_adjacency.
  destruct (coarse_adjacency_row_spec adj (downsample_graph adj V N A deterministic).2)
    with (i := i) as (Hnodup & Hids & Hweights).
  - intros k Hk. destruct (Hparents k Hk) as (Hp & _). lia.
  - intros k Hk. by apply projected_links_ids.
  - lia.
  - done.
  - split; [|done]. intros [Hne _]%Hids. done.
Qed.


(** ** The levels of the hierarchy ([build]) *)

Lemma lookup_total_snoc_eq {A} `{Inhabited A} (l : list A) (x : A) (k : nat) :
  length l = k → (l ++ [x]) !!! k = x.
Proof.
  intros <-. rewrite lookup_total_app_r by done. by rewrite Nat.sub_diag.
Qed.

Lemma lookup_total_snoc_lt {A} `{Inhabited A} (l : list A) (x : A) (k : nat) :
  k < length l → (l ++ [x]) !!! k = l !!! k.
Proof. intros Hk. by rewrite lookup_total_app_l. Qed.

(** Lines 435-456 keep the invariant. *)
Lemma push_level_inv (A0 : list Q) (h : MultiResolutionHierarchy) (i : nat)
    (deterministic : bool) (phases_p : list (list N)) :
  build_inv A0 h i →
  build_inv A0
    (push_level h
       (downsample_graph (mAdj h !!! i) (mV h !!! i) (mN h !!! i) (mA h !!! i)
                         deterministic).1
       (downsample_graph (mAdj h !!! i) (mV h !!! i) (mN h !!! i) (mA h !!! i)
                         deterministic).2
       phases_p)
    (i + 1).
Proof using copy_order_perm parallel_sort_perm std_sort_perm std_sort_sorted.
  set_aside.
  intros [HlAdj HlV HlN HlA HlUp Hfirst Hlevel Htotal Hareas].
  set (r := downsample_graph _ _ _ _ _).
  pose proof (downsample_level _ _ (mN h !!! i) _ deterministic Hlevel) as Hlevel'.
  pose proof (downsample_area _ _ (mN h !!! i) _ deterministic Hlevel) as Harea.
  destruct (coarse_parents _ _ (mN h !!! i) (mA h !!! i) deterministic
              (level_wf _ _ _ Hlevel) (level_no_self_loops _ _ _ Hlevel)
              (level_bound _ _ _ Hlevel)) as (_ & _ & _ & Hparents).
  fold r in Hlevel', Harea, Hparents.
  split; cbn [push_level mAdj mV mN mA mToUpper].
  - rewrite length_app. simpl. lia.
  - rewrite length_app. simpl. lia.
  - rewrite length_app. simpl. lia.
  - rewrite length_app. simpl. lia.
  - rewrite length_app. simpl. lia.
  - by rewrite lookup_total_snoc_lt by lia.
  - by rewrite !lookup_total_snoc_eq by done.
  - intros l Hl. destruct (decide (l = i + 1)) as [->|Hne].
    + rewrite lookup_total_snoc_eq by done. rewrite Harea. apply Htotal. lia.
    + rewrite lookup_total_snoc_lt by lia. apply Htotal. lia.
  - intros l k Hl Hk. destruct (decide (l = i)) as [->|Hne].
    + rewrite lookup_total_snoc_eq in Hk by done.
      rewrite !lookup_total_snoc_eq by done.
      rewrite lookup_total_snoc_lt by lia.
      rewrite (lookup_total_snoc_eq (mToUpper h)) by done.
      by destruct (Hparents k Hk) as (_ & _ & ->).
    + rewrite lookup_total_snoc_lt in Hk by lia.
      rewrite !lookup_total_snoc_lt by lia. apply Hareas; [lia | done].
Qed.

(** The loop of lines 429-459 ends, by a return or by an exception of
    the coloring, and leaves the invariant. *)
Lemma build_loop_inv (A0 : list Q) (deterministic : bool) (fuel : nat) :
  ∀ i h, build_inv A0 h i →
  ∃ h' i', (build_loop fuel i deterministic h = Returns h'
            ∨ ∃ e, build_loop fuel i deterministic h = Throws e h')
           ∧ build_inv A0 h' i'.
Proof using copy_order_perm parallel_sort_perm std_sort_perm std_sort_sorted.
  set_aside.
  induction fuel as [|fuel IH]; intros i h Hinv.
  { exists h, i. split; [by left | done]. }
  cbn [build_loop].
  pose proof (push_level_inv A0 h i deterministic) as Hpush.
  destruct (downsample_graph _ _ _ _ _) as [adj_p c]. cbn [fst snd] in Hpush.
  destruct (color_level _ _ _ _) as [e|phases_p].
  { exists h, i. split; [right; by exists e | done]. }
  specialize (Hpush phases_p Hinv).
  destruct (_ =? 1).
  - eexists _, (i + 1). split; [by left | done].
  - by apply IH.
Qed.

(** C7: [build] ends, by a return or by an exception of the coloring;
    every level of the hierarchy it leaves has the total area of level 0,
    because the area of every coarse vertex is the sum of the areas of
    its two parents or the area of its only parent. *)
Theorem area_conserved (deterministic : bool) (h : MultiResolutionHierarchy) :
  length (mAdj h) = 1 → length (mV h) = 1 → length (mN h) = 1 →
  length (mA h) = 1 → length (mToUpper h) = 0 →
  level_ok (mAdj h !!! 0) (mV h !!! 0) (mA h !!! 0) →
  ∃ h', (build deterministic h = Returns h'
         ∨ ∃ e, build deterministic h = Throws e h') ∧
        mA h' !!! 0 = mA h !!! 0 ∧
        length (mA h') = levels h' ∧
        (∀ l, l < levels h' → (Qsum (mA h' !!! l) == Qsum (mA h !!! 0%nat))%Q) ∧
        (∀ l k, l + 1 < levels h' → k < size h' (l + 1) →
           (mA h' !!! (l + 1)) !!! k
           = parent_area (mA h' !!! l) (toUpper h' l !!! k)).
Proof using copy_order_perm parallel_sort_perm std_sort_perm std_sort_sorted.
  set_aside.
  intros HlAdj HlV HlN HlA HlUp Hlevel.
  assert (Hfinal : ∀ h' i, build_inv (mA h !!! 0) h' i →
            mA h' !!! 0 = mA h !!! 0 ∧
            length (mA h') = levels h' ∧
            (∀ l, l < levels h' → (Qsum (mA h' !!! l) == Qsum (mA h !!! 0%nat))%Q) ∧
            (∀ l k, l + 1 < levels h' → k < size h' (l + 1) →
               (mA h' !!! (l + 1)) !!! k
               = parent_area (mA h' !!! l) (toUpper h' l !!! k))).
  { intros h' i [_ HlV' _ HlA' _ Hfirst _ Htotal Hareas]. unfold levels, size, toUpper.
    split; [done|]. split; [lia|]. split.
    - intros l Hl. apply Htotal. lia.
    - intros l k Hl Hk. apply Hareas; [lia | done]. }
  assert (Hinit : build_inv (mA h !!! 0) h 0).
  { split; try done. intros l Hl. by replace l with 0 by lia. intros l k Hl. lia. }
  unfold build. destruct (color_level _ _ _ _) as [e|phases].
  { exists h. split; [right; by exists e|]. by apply (Hfinal h 0). }
  set (h1 := {| mPhases := mPhases h ++ [phases] |}).
  assert (Hinv1 : build_inv (mA h !!! 0) h1 0).
  { destruct Hinit. by split. }
  destruct (build_loop_inv (mA h !!! 0) deterministic MAX_DEPTH 0 h1 Hinv1)
    as (h' & i' & [Hrun | [e Hrun]] & Hinv'); rewrite Hrun.
  - eexists. split; [by left|]. apply (Hfinal _ i'). destruct Hinv'. by split.
  - exists h'. split; [right; by exists e|]. by apply (Hfinal h' i').
Qed.


(** ** The coarse vertices and their parents *)

Lemma collapse_V_p V N A es c l :
  V_p (foldl (collapse_step V N A es) c l)
  = foldl (λ a i, <[i := pair_position V A (e_i (es !!! i)) (e_j (es !!! i))]> a)
          (V_p c) l.
Proof. revert c. induction l as [|i l IH]; intros c; simpl; [done | by rewrite IH]. Qed.

Lemma collapse_N_p V N A es c l :
  N_p (foldl (collapse_step V N A es) c l)
  = foldl (λ a i, <[i := pair_normal N A (e_i (es !!! i)) (e_j (es !!! i))]> a)
          (N_p c) l.
Proof. revert c. induction l as [|i l IH]; intros c; simpl; [done | by rewrite IH]. Qed.

Lemma copy_V_p V N A flags l c off :
  off + length (unmatched flags l) ≤ length (V_p c) →
  V_p (foldl (copy_step V N A flags) (c, off) l).1
  = take off (V_p c) ++ ((λ i, V !!! i) <$> unmatched flags l)
      ++ drop (off + length (unmatched flags l)) (V_p c).
Proof.
  apply (copy_field V_p). intros st i. unfold copy_step.
  by destruct (flags !!! i).
Qed.

Lemma copy_N_p V N A flags l c off :
  off + length (unmatched flags l) ≤ length (N_p c) →
  N_p (foldl (copy_step V N A flags) (c, off) l).1
  = take off (N_p c) ++ ((λ i, N !!! i) <$> unmatched flags l)
      ++ drop (off + length (unmatched flags l)) (N_p c).
Proof.
  apply (copy_field N_p). intros st i. unfold copy_step.
  by destruct (flags !!! i).
Qed.

(** Lines 102-103: both ends of the pair [i] are mapped to [i]. *)
Lemma collapse_to_lower_exact (es : list Entry) (tl : list N) (k : nat) :
  k ≤ length es →
  Forall (λ e, N.to_nat (e_i e) < length tl ∧ N.to_nat (e_j e) < length tl) (take k es) →
  NoDup (endpoints (take k es)) →
  let tl' := foldl (λ a i, set32 (set32 a (e_i (es !!! i)) (N.of_nat i))
                                 (e_j (es !!! i)) (N.of_nat i)) tl (range k) in
  ∀ i, i < k → at32 tl' (e_i (es !!! i)) = N.of_nat i ∧
               at32 tl' (e_j (es !!! i)) = N.of_nat i.
Proof.
  induction k as [|k IH]; intros Hk Hvalid Hnodup; cbn zeta; [intros i Hi; lia|].
  rewrite foldl_range_S.
  destruct (collapse_to_lower_bound es tl k ltac:(lia)) as [Hlen _].
  { rewrite (take_S_r _ _ (es !!! k)) in Hvalid
      by (apply list_lookup_lookup_total_lt; lia).
    by apply Forall_app in Hvalid as [? _]. }
  rewrite (take_S_r _ _ (es !!! k)) in Hvalid, Hnodup
    by (apply list_lookup_lookup_total_lt; lia).
  apply Forall_app in Hvalid as [Hvalid Hek].
  apply Forall_singleton in Hek as [Hi Hj].
  rewrite endpoints_snoc in Hnodup.
  apply list.NoDup_app in Hnodup as (Hnodup & Hfresh & _).
  specialize (IH ltac:(lia) Hvalid Hnodup). cbn zeta in IH, Hlen.
  set (tl' := foldl _ tl (range k)) in *.
  assert (Hnew : ∀ v, v = e_i (es !!! k) ∨ v = e_j (es !!! k) →
            at32 (set32 (set32 tl' (e_i (es !!! k)) (N.of_nat k))
                        (e_j (es !!! k)) (N.of_nat k)) v = N.of_nat k).
  { intros v Hv. unfold at32, set32.
    destruct (decide (v = e_j (es !!! k))) as [->|Hne].
    - by rewrite list_lookup_total_insert_eq by (rewrite length_insert; lia).
    - destruct Hv as [->|]; [|done].
      rewrite list_lookup_total_insert_ne by lia.
      by rewrite list_lookup_total_insert_eq by lia. }
  assert (Hold : ∀ v, v ∈ endpoints (take k es) →
            at32 (set32 (set32 tl' (e_i (es !!! k)) (N.of_nat k))
                        (e_j (es !!! k)) (N.of_nat k)) v = at32 tl' v).
  { intros v Hv. unfold at32, set32.
    assert (v ≠ e_i (es !!! k) ∧ v ≠ e_j (es !!! k)) as [H1 H2].
    { split; intros ->; apply (Hfresh _ Hv); [left | right; left]. }
    by rewrite !list_lookup_total_insert_ne by lia. }
  intros i Hi'. destruct (decide (i = k)) as [->|Hne].
  { split; apply Hnew; [by left | by right]. }
  assert (es !!! i ∈ take k es) as Hin.
  { apply list_elem_of_lookup. exists i. rewrite lookup_take_lt by lia.
    apply list_lookup_lookup_total_lt. lia. }
  destruct (IH i ltac:(lia)) as [IHi IHj].
  split; (rewrite Hold; [done|]); unfold endpoints;
    apply list_elem_of_bind; exists (es !!! i); (split; [|done]).
  - left.
  - right. left.
Qed.

(** Lines 117-122: the unmatched vertices get the coarse indices from
    [offset] on, in the order of the copy. *)
Lemma copy_to_lower_exact V N A flags l c off :
  Forall (λ i, i < length (to_lower c)) l → NoDup l →
  let tl' := to_lower (foldl (copy_step V N A flags) (c, off) l).1 in
  ∀ m, m < length (unmatched flags l) →
       tl' !!! (unmatched flags l !!! m) = N.of_nat (off + m).
Proof.
  revert c off. induction l as [|i l IH]; intros c off Hl Hnodup; cbn zeta.
  { intros m Hm. simpl in Hm. lia. }
  cbn [foldl]. apply list.Forall_cons in Hl as [Hi Hl].
  apply list.NoDup_cons in Hnodup as [Hfresh Hnodup].
  rewrite unmatched_cons.
  destruct (flags !!! i) eqn:E; cbn [negb].
  { rewrite copy_step_flagged by done. by apply IH. }
  rewrite copy_step_unflagged by done.
  set (c1 := {| V_p := _ |}).
  assert (Hl1 : Forall (λ i, i < length (to_lower c1)) l).
  { cbn [to_lower c1]. by rewrite length_insert. }
  intros [|m] Hm; cbn [length] in Hm.
  - rewrite Nat.add_0_r. change ((i :: unmatched flags l) !!! 0) with i.
    destruct (copy_to_lower V N A flags l c1 (off + 1) Hl1 i) as [_ Hkeep].
    rewrite Hkeep.
    + cbn [to_lower c1]. by rewrite list_lookup_total_insert_eq.
    + intros Hin%list_elem_of_filter. by destruct Hin.
  - change ((i :: unmatched flags l) !!! S m) with (unmatched flags l !!! m).
    rewrite (IH c1 (off + 1) Hl1 Hnodup m) by lia. f_equal. lia.
Qed.

(** The outputs of lines 78-131, vertex by vertex: the collapsed pairs
    first, in the order in which the scan accepted them, then the
    unmatched vertices in the order of the copy. *)
Lemma downsample_vertices adj V N A deterministic :
  wf_adjacency adj (length V) → no_self_loops adj (length V) →
  let st := matching (sorted_entries adj V N A deterministic) (length V) in
  let um := unmatched st.1 (copy_sequence (length V) deterministic) in
  let c := (downsample_graph adj V N A deterministic).2 in
  V_p c = ((λ e, pair_position V A (e_i e) (e_j e)) <$> st.2)
          ++ ((λ i, V !!! i) <$> um) ∧
  N_p c = ((λ e, pair_normal N A (e_i e) (e_j e)) <$> st.2)
          ++ ((λ i, N !!! i) <$> um) ∧
  (∀ k, k < length st.2 →
        at32 (to_lower c) (e_i (st.2 !!! k)) = N.of_nat k ∧
        at32 (to_lower c) (e_j (st.2 !!! k)) = N.of_nat k) ∧
  (∀ m, m < length um → to_lower c !!! (um !!! m) = N.of_nat (length st.2 + m)).
Proof using copy_order_perm parallel_sort_perm.
  set_aside.
  intros Hwf Hnoself. cbn zeta.
  destruct (sorted_entries_valid adj V N A deterministic Hwf) as [Hvalid Hlen].
  pose proof (matching_inv_final adj (length V) _ Hwf Hnoself Hvalid) as Hinv.
  destruct (unmatched_count adj (length V) _ (copy_sequence (length V) deterministic)
              Hwf Hnoself Hinv (copy_sequence_perm _ _)) as [Hperm Hcount].
  rewrite downsample_graph_unfold by done. cbn [snd].
  destruct (greedy_matching_spec (sorted_entries adj V N A deterministic) (length V))
    as (Hflags & Hacc & HnC).
  set (m := greedy_matching _ _ _) in *.
  set (st := matching _ _) in *.
  set (um := unmatched st.1 _) in *.
  rewrite Hflags. fold um.
  assert (HnCle : nCollapsed m ≤ length (entries m)).
  { rewrite HnC, <- Hacc, length_take. lia. }
  set (c0 := {| V_p := _ |}).
  set (c1 := foldl (collapse_step V N A (entries m)) c0 (range (nCollapsed m))).
  assert (Hum : length (unmatched st.1 (copy_sequence (length V) deterministic))
                = length um) by done.
  assert (HV1 : V_p c1 = ((λ e, pair_position V A (e_i e) (e_j e)) <$> st.2)
                         ++ replicate (length um) inhabitant).
  { unfold c1. rewrite collapse_V_p.
    rewrite (write_prefix (λ i, pair_position V A (e_i (entries m !!! i))
                                              (e_j (entries m !!! i))))
      by (cbn [V_p c0]; rewrite length_replicate; lia).
    rewrite (fmap_lookup_range (λ e, pair_position V A (e_i e) (e_j e))) by done.
    rewrite Hacc. cbn [V_p c0]. rewrite drop_replicate. do 2 f_equal. lia. }
  assert (HN1 : N_p c1 = ((λ e, pair_normal N A (e_i e) (e_j e)) <$> st.2)
                         ++ replicate (length um) inhabitant).
  { unfold c1. rewrite collapse_N_p.
    rewrite (write_prefix (λ i, pair_normal N A (e_i (entries m !!! i))
                                            (e_j (entries m !!! i))))
      by (cbn [N_p c0]; rewrite length_replicate; lia).
    rewrite (fmap_lookup_range (λ e, pair_normal N A (e_i e) (e_j e))) by done.
    rewrite Hacc. cbn [N_p c0]. rewrite drop_replicate. do 2 f_equal. lia. }
  assert (Hends : Forall (λ e, N.to_nat (e_i e) < length V ∧ N.to_nat (e_j e) < length V)
                         st.2).
  { eapply list.Forall_impl; [apply (mi_valid _ _ _ Hinv)|].
    intros e He. destruct (valid_entry_ends adj _ e Hwf Hnoself He) as (? & ? & _). lia. }
  assert (Htl1 : to_lower c1
            = foldl (λ a i, set32 (set32 a (e_i (entries m !!! i)) (N.of_nat i))
                                  (e_j (entries m !!! i)) (N.of_nat i))
                    (replicate (length V) inhabitant) (range (nCollapsed m))).
  { unfold c1. by rewrite collapse_to_lower. }
  destruct (collapse_to_lower_bound (entries m) (replicate (length V) inhabitant)
              (nCollapsed m) HnCle) as [Hltl1 _].
  { rewrite Hacc, length_replicate. done. }
  pose proof (collapse_to_lower_exact (entries m) (replicate (length V) inhabitant)
                (nCollapsed m) HnCle) as Hexact.
  rewrite Hacc, length_replicate in Hexact.
  specialize (Hexact Hends (mi_nodup _ _ _ Hinv)).
  cbn zeta in Hexact, Hltl1. rewrite <- Htl1 in Hexact, Hltl1.
  rewrite length_replicate in Hltl1.
  assert (Horder : Forall (λ i, i < length (to_lower c1))
                          (copy_sequence (length V) deterministic)).
  { rewrite Hltl1. apply list.Forall_forall. intros i Hi.
    rewrite copy_sequence_perm in Hi. by apply elem_of_range in Hi. }
  split.
  { rewrite copy_V_p by (rewrite HV1, length_app, length_fmap, length_replicate; lia).
    rewrite HV1, HnC.
    rewrite take_app_length' by (by rewrite length_fmap).
    rewrite drop_ge, app_nil_r; [done|].
    rewrite length_app, length_fmap, length_replicate. lia. }
  split.
  { rewrite copy_N_p by (rewrite HN1, length_app, length_fmap, length_replicate; lia).
    rewrite HN1, HnC.
    rewrite take_app_length' by (by rewrite length_fmap).
    rewrite drop_ge, app_nil_r; [done|].
    rewrite length_app, length_fmap, length_replicate. lia. }
  split.
  - intros k Hk.
    assert (Hk' : entries m !!! k = st.2 !!! k).
    { rewrite <- Hacc. by rewrite lookup_total_take_lt by lia. }
    destruct (Hexact k ltac:(lia)) as [Hi Hj]. rewrite Hk' in Hi, Hj.
    assert (Hflag : ∀ v, v ∈ endpoints st.2 → (v < N.of_nat (length V))%N →
              at32 (to_lower (foldl (copy_step V N A st.1) (c1, nCollapsed m)
                                    (copy_sequence (length V) deterministic)).1) v
              = at32 (to_lower c1) v).
    { intros v Hv Hlt. unfold at32.
      destruct (copy_to_lower V N A st.1 (copy_sequence (length V) deterministic)
                  c1 (nCollapsed m) Horder (N.to_nat v)) as [_ Hkeep].
      apply Hkeep. intros [Hfalse _]%list_elem_of_filter.
      apply (mi_flags _ _ _ Hinv v Hlt) in Hv. unfold at32 in Hv. congruence. }
    assert (Hin : st.2 !!! k ∈ st.2) by by apply list_elem_of_lookup_total_2.
    pose proof (Forall_elem_of _ _ _ Hends Hin) as [Hilt Hjlt]. cbn beta in *.
    rewrite !Hflag; [done | | lia | | lia];
      unfold endpoints; apply list_elem_of_bind; exists (st.2 !!! k);
      (split; [|done]); [right; left | left].
  - intros j Hj. rewrite <- HnC.
    apply (copy_to_lower_exact V N A st.1 (copy_sequence (length V) deterministic)
             c1 (nCollapsed m) Horder); [|done].
    rewrite copy_sequence_perm. apply NoDup_seq.
Qed.

(** The two kinds of coarse vertices: the vertex [k] is a collapsed pair
    when [k] is below the number of accepted entries, and an unmatched
    vertex otherwise. *)
Lemma coarse_vertex_cases adj V N A deterministic (k : nat) :
  wf_adjacency adj (length V) → no_self_loops adj (length V) →
  let st := matching (sorted_entries adj V N A deterministic) (length V) in
  let um := unmatched st.1 (copy_sequence (length V) deterministic) in
  let c := (downsample_graph adj V N A deterministic).2 in
  k < length (V_p c) →
  (k < length st.2 ∧
   let e := st.2 !!! k in
   e ∈ st.2 ∧
   to_upper c !!! k = (e_i e, e_j e) ∧
   V_p c !!! k = pair_position V A (e_i e) (e_j e) ∧
   N_p c !!! k = pair_normal N A (e_i e) (e_j e) ∧
   A_p c !!! k = pair_area A e ∧
   at32 (to_lower c) (e_i e) = N.of_nat k ∧
   at32 (to_lower c) (e_j e) = N.of_nat k)
  ∨ (length st.2 ≤ k ∧
     let i := um !!! (k - length st.2) in
     i ∈ um ∧
     to_upper c !!! k = (N.of_nat i, INVALID) ∧
     V_p c !!! k = V !!! i ∧ N_p c !!! k = N !!! i ∧ A_p c !!! k = A !!! i ∧
     to_lower c !!! i = N.of_nat k).
Proof using copy_order_perm parallel_sort_perm.
  set_aside.
  intros Hwf Hnoself. cbn zeta. intros Hk.
  destruct (downsample_coarse adj V N A deterministic Hwf Hnoself)
    as (Hinv & Hcount & HlV & _ & HA & Hup & _).
  destruct (downsample_vertices adj V N A deterministic Hwf Hnoself)
    as (HV & HN & Hpairs & Hsingles).
  cbn zeta in *.
  set (st := matching _ _) in *.
  set (um := unmatched st.1 _) in *.
  set (c := (downsample_graph adj V N A deterministic).2) in *.
  destruct (decide (k < length st.2)) as [Hlt|Hge].
  - left. split; [done|]. cbn zeta.
    destruct (Hpairs k Hlt) as [Hi Hj].
    split; [by apply list_elem_of_lookup_total_2|].
    rewrite Hup, HV, HN, HA.
    rewrite !lookup_total_app_l by (by rewrite length_fmap).
    rewrite (list_lookup_total_fmap (λ e, (e_i e, e_j e))) by done.
    rewrite (list_lookup_total_fmap (λ e, pair_position V A (e_i e) (e_j e))) by done.
    rewrite (list_lookup_total_fmap (λ e, pair_normal N A (e_i e) (e_j e))) by done.
    rewrite (list_lookup_total_fmap (pair_area A)) by done.
    done.
  - right. split; [lia|]. cbn zeta.
    assert (Hm : k - length st.2 < length um) by lia.
    split; [by apply list_elem_of_lookup_total_2|].
    rewrite Hup, HV, HN, HA.
    rewrite !lookup_total_app_r by (rewrite length_fmap; lia).
    rewrite !length_fmap.
    rewrite (list_lookup_total_fmap (λ i, (N.of_nat i, INVALID))) by done.
    rewrite (list_lookup_total_fmap (λ i, V !!! i)) by done.
    rewrite (list_lookup_total_fmap (λ i, N !!! i)) by done.
    rewrite (list_lookup_total_fmap (λ i, A !!! i)) by done.
    rewrite (Hsingles _ Hm).
    repeat split; try done. f_equal. lia.
Qed.

(** What the scan guarantees of an accepted entry: its ends are two
    different vertices of the graph, joined by a link, and flagged. *)
Lemma accepted_entry adj n st (e : Entry) :
  wf_adjacency adj n → no_self_loops adj n → matching_inv adj n st → e ∈ st.2 →
  (e_i e < N.of_nat n)%N ∧ (e_j e < N.of_nat n)%N ∧ e_i e ≠ e_j e ∧
  edge adj (e_i e) (e_j e) ∧
  st.1 !!! N.to_nat (e_i e) = true ∧ st.1 !!! N.to_nat (e_j e) = true.
Proof.
  intros Hwf Hnoself Hinv He.
  pose proof (Forall_elem_of _ _ _ (mi_valid _ _ _ Hinv) He) as Hvalid.
  destruct (valid_entry_ends adj n e Hwf Hnoself Hvalid) as (Hi & Hj & Hne).
  destruct Hvalid as [_ Hedge].
  assert (Hin : ∀ v, v = e_i e ∨ v = e_j e → v ∈ endpoints st.2).
  { intros v Hv. unfold endpoints. apply list_elem_of_bind. exists e.
    split; [|done]. destruct Hv as [->| ->]; [left | right; left]. }
  repeat split; try done.
  - apply (mi_flags _ _ _ Hinv (e_i e) Hi). apply Hin. by left.
  - apply (mi_flags _ _ _ Hinv (e_j e) Hj). apply Hin. by right.
Qed.

(** An unmatched vertex is an unflagged vertex of the graph. *)
Lemma unmatched_vertex (flags : list bool) (n : nat) (deterministic : bool) (i : nat) :
  i ∈ unmatched flags (copy_sequence n deterministic) →
  i < n ∧ flags !!! i = false.
Proof using copy_order_perm.
  set_aside.
  intros [Hflag Hin]%list_elem_of_filter.
  rewrite copy_sequence_perm in Hin. apply elem_of_range in Hin. done.
Qed.

(** Every vertex of the finer level is a parent of the coarse vertex
    that [to_lower] names. *)
Lemma fine_vertex_parent adj V N A deterministic (v : nat) :
  wf_adjacency adj (length V) → no_self_loops adj (length V) →
  let c := (downsample_graph adj V N A deterministic).2 in
  v < length V →
  N.to_nat (to_lower c !!! v) < length (V_p c) ∧
  ((to_upper c !!! N.to_nat (to_lower c !!! v)).1 = N.of_nat v ∨
   (to_upper c !!! N.to_nat (to_lower c !!! v)).2 = N.of_nat v).
Proof using copy_order_perm parallel_sort_perm.
  set_aside.
  intros Hwf Hnoself. cbn zeta. intros Hv.
  destruct (downsample_coarse adj V N A deterministic Hwf Hnoself)
    as (Hinv & Hcount & HlV & _ & _ & _ & _ & Hbound).
  destruct (unmatched_count adj (length V) _ (copy_sequence (length V) deterministic)
              Hwf Hnoself Hinv (copy_sequence_perm _ _)) as [Hperm _].
  cbn zeta in *. split; [rewrite HlV; by apply Hbound|].
  assert (Hin : v ∈ range (length V)) by (apply elem_of_range; lia).
  rewrite <- Hperm in Hin. apply elem_of_app in Hin as [Hin|Hin].
  + apply list_elem_of_fmap in Hin as (x & -> & Hx).
    unfold endpoints in Hx. apply list_elem_of_bind in Hx as (e & Hx & He).
    apply list_elem_of_lookup_total in He as (k & Hk & <-).
    destruct (coarse_vertex_cases adj V N A deterministic k Hwf Hnoself
                ltac:(rewrite HlV; lia))
      as [(_ & _ & Hup & _ & _ & _ & Hi & Hj) | (? & _)]; [|lia].
    cbn zeta in *. unfold at32 in Hi, Hj.
    apply elem_of_cons in Hx as [-> | Hx];
      [|apply elem_of_cons in Hx as [-> | Hx]; [|by apply elem_of_nil in Hx]].
    * rewrite Hi, Nat2N.id, Hup, N2Nat.id. by left.
    * rewrite Hj, Nat2N.id, Hup, N2Nat.id. by right.
  + apply list_elem_of_lookup_total in Hin as (m & Hm & <-).
    destruct (coarse_vertex_cases adj V N A deterministic
                (length (matching (sorted_entries adj V N A deterministic)
                                  (length V)).2 + m) Hwf Hnoself
                ltac:(rewrite HlV; lia))
      as [(? & _) | (_ & _ & Hup & _ & _ & _ & Hi)]; [lia|].
    cbn zeta in *.
    replace (length (matching (sorted_entries adj V N A deterministic)
                              (length V)).2 + m
             - length (matching (sorted_entries adj V N A deterministic)
                                (length V)).2) with m in * by lia.
    rewrite Hi, Nat2N.id, Hup. by left.
Qed.

(** [to_lower] maps the parents of a coarse vertex to it. *)
Lemma parent_to_lower adj V N A deterministic (k : nat) :
  wf_adjacency adj (length V) → no_self_loops adj (length V) →
  let c := (downsample_graph adj V N A deterministic).2 in
  k < length (V_p c) →
  at32 (to_lower c) (to_upper c !!! k).1 = N.of_nat k ∧
  ((to_upper c !!! k).2 ≠ INVALID →
   at32 (to_lower c) (to_upper c !!! k).2 = N.of_nat k).
Proof using copy_order_perm parallel_sort_perm.
  set_aside.
  intros Hwf Hnoself. cbn zeta. intros Hk.
  destruct (coarse_vertex_cases adj V N A deterministic k Hwf Hnoself Hk)
    as [(_ & _ & -> & _ & _ & _ & Hi & Hj) | (_ & _ & -> & _ & _ & _ & Hi)];
    cbn [fst snd].
  - done.
  - split; [|done]. unfold at32. by rewrite Nat2N.id.
Qed.

(** X6: [to_lower] and [to_upper] are inverse to each other: [to_lower]
    maps the parents of the coarse vertex [k] to [k], and every vertex
    [v] of the finer level is a parent of the coarse vertex
    [to_lower[v]]. *)
Theorem parents_round_trip adj V N A deterministic :
  wf_adjacency adj (length V) → no_self_loops adj (length V) →
  let c := (downsample_graph adj V N A deterministic).2 in
  (∀ k, k < length (V_p c) →
     at32 (to_lower c) (to_upper c !!! k).1 = N.of_nat k ∧
     ((to_upper c !!! k).2 ≠ INVALID →
      at32 (to_lower c) (to_upper c !!! k).2 = N.of_nat k)) ∧
  (∀ v, v < length V →
     N.to_nat (to_lower c !!! v) < length (V_p c) ∧
     ((to_upper c !!! N.to_nat (to_lower c !!! v)).1 = N.of_nat v ∨
      (to_upper c !!! N.to_nat (to_lower c !!! v)).2 = N.of_nat v)).
Proof using copy_order_perm parallel_sort_perm.
  set_aside.
  intros Hwf Hnoself. cbn zeta. split.
  - intros k Hk. by apply parent_to_lower.
  - intros v Hv. by apply fine_vertex_parent.
Qed.

(** X7: a coarse vertex with two parents collapses a link of the finer
    graph. *)
Theorem collapsed_pairs_are_links adj V N A deterministic (k : nat) :
  wf_adjacency adj (length V) → no_self_loops adj (length V) →
  (N.of_nat (length V) <= INVALID)%N →
  let c := (downsample_graph adj V N A deterministic).2 in
  k < length (V_p c) →
  ((to_upper c !!! k).1 < N.of_nat (length V))%N ∧
  ((to_upper c !!! k).2 ≠ INVALID →
   ((to_upper c !!! k).2 < N.of_nat (length V))%N ∧
   (to_upper c !!! k).1 ≠ (to_upper c !!! k).2 ∧
   edge adj (to_upper c !!! k).1 (to_upper c !!! k).2).
Proof using copy_order_perm parallel_sort_perm.
  set_aside.
  intros Hwf Hnoself Hbound. cbn zeta. intros Hk.
  destruct (downsample_coarse adj V N A deterministic Hwf Hnoself) as (Hinv & _).
  destruct (coarse_vertex_cases adj V N A deterministic k Hwf Hnoself Hk)
    as [(_ & He & -> & _) | (_ & Hi & -> & _)]; cbn [fst snd].
  - destruct (accepted_entry adj _ _ _ Hwf Hnoself Hinv He) as (? & ? & ? & ? & _).
    done.
  - apply unmatched_vertex in Hi as [Hi _]. split; [lia | done].
Qed.

(** X8: the attributes of a coarse vertex in terms of its parents: a
    vertex with one parent has the position, the normal and the area of
    that parent; a vertex with two parents has the position and the
    normal that lines 91-100 make of both ([pair_position],
    [pair_normal]), and the sum of their areas.  [N] and [A] hold one
    entry per vertex, as the code expects. *)
Theorem coarse_vertex_attributes adj V N A deterministic (k : nat) :
  wf_adjacency adj (length V) → no_self_loops adj (length V) →
  (N.of_nat (length V) <= INVALID)%N →
  length N = length V → length A = length V →
  let c := (downsample_graph adj V N A deterministic).2 in
  k < length (V_p c) →
  let p := (to_upper c !!! k).1 in
  let q := (to_upper c !!! k).2 in
  if decide (q = INVALID)
  then V_p c !!! k = at32 V p ∧ N_p c !!! k = at32 N p ∧ A_p c !!! k = at32 A p
  else V_p c !!! k = pair_position V A p q ∧ N_p c !!! k = pair_normal N A p q ∧
       A_p c !!! k = (at32 A p + at32 A q)%Q.
Proof using copy_order_perm parallel_sort_perm.
  set_aside.
  intros Hwf Hnoself Hbound _ _. cbn zeta. intros Hk.
  destruct (downsample_coarse adj V N A deterministic Hwf Hnoself) as (Hinv & _).
  destruct (coarse_vertex_cases adj V N A deterministic k Hwf Hnoself Hk)
    as [(_ & He & -> & HV & HN & HA & _) | (_ & Hi & -> & HV & HN & HA & _)];
    cbn [fst snd].
  - destruct (accepted_entry adj _ _ _ Hwf Hnoself Hinv He) as (_ & Hj & _).
    destruct (decide _) as [Heq|_]; [lia | done].
  - destruct (decide _) as [_|?]; [|done]. unfold at32. by rewrite Nat2N.id.
Qed.

(** In a sorted list, the element at a smaller index is related to the
    element at a larger one. *)
Lemma StronglySorted_lookup_lt {A} `{Inhabited A} (R : relation A) (l : list A)
    (i j : nat) :
  StronglySorted R l → i < j → j < length l → R (l !!! i) (l !!! j).
Proof.
  intros Hsorted Hij Hj. rewrite <- (take_drop j l) in Hsorted.
  apply (StronglySorted_app_1_elem_of _ _ _ _ _ Hsorted).
  - apply list_elem_of_lookup. exists i. rewrite lookup_take_lt by lia.
    apply list_lookup_lookup_total_lt. lia.
  - apply list_elem_of_lookup. exists 0. rewrite lookup_drop, Nat.add_0_r.
    apply list_lookup_lookup_total_lt. lia.
Qed.

(** The unmatched vertices are met in ascending order on the
    deterministic path. *)
Lemma unmatched_ascending (flags : list bool) (n : nat) :
  StronglySorted lt (unmatched flags (range n)).
Proof.
  unfold unmatched, range. generalize 0 as s.
  induction n as [|n IH]; intros s; cbn [seq]; [constructor|].
  rewrite filter_cons. destruct (decide _); [|apply IH].
  constructor; [apply IH|].
  apply list.Forall_forall. intros x [_ Hx%elem_of_seq]%list_elem_of_filter. lia.
Qed.

(** X9: the collapsed pairs come first, then the unmatched vertices; on
    the deterministic path these keep their order. *)
Theorem pairs_before_singles adj V N A deterministic :
  wf_adjacency adj (length V) → no_self_loops adj (length V) →
  (N.of_nat (length V) <= INVALID)%N →
  let c := (downsample_graph adj V N A deterministic).2 in
  (∀ k, k < length (V_p c) →
     (to_upper c !!! k).2 ≠ INVALID ↔ k < length V - length (V_p c)) ∧
  (deterministic = true →
   ∀ k1 k2, length V - length (V_p c) ≤ k1 → k1 < k2 → k2 < length (V_p c) →
     ((to_upper c !!! k1).1 < (to_upper c !!! k2).1)%N).
Proof using copy_order_perm parallel_sort_perm.
  set_aside.
  intros Hwf Hnoself Hbound. cbn zeta.
  destruct (downsample_coarse adj V N A deterministic Hwf Hnoself)
    as (Hinv & Hcount & HlV & _).
  cbn zeta in *.
  assert (Hpairs : length V - length (V_p (downsample_graph adj V N A deterministic).2)
                   = length (matching (sorted_entries adj V N A deterministic)
                                      (length V)).2) by lia.
  rewrite Hpairs. split.
  - intros k Hk.
    destruct (coarse_vertex_cases adj V N A deterministic k Hwf Hnoself Hk)
      as [(Hlt & He & -> & _) | (Hge & _ & -> & _)]; cbn [fst snd].
    + destruct (accepted_entry adj _ _ _ Hwf Hnoself Hinv He) as (_ & Hj & _).
      split; [done | lia].
    + split; [done | lia].
  - intros -> k1 k2 Hk1 Hlt Hk2.
    destruct (coarse_vertex_cases adj V N A true k1 Hwf Hnoself ltac:(lia))
      as [(? & _) | (_ & _ & -> & _)]; [lia|].
    destruct (coarse_vertex_cases adj V N A true k2 Hwf Hnoself Hk2)
      as [(? & _) | (_ & _ & -> & _)]; [lia|].
    cbn [fst snd copy_sequence].
    set (st := matching _ _) in *.
    pose proof (unmatched_ascending st.1 (length V)) as Hsorted.
    cut (unmatched st.1 (range (length V)) !!! (k1 - length st.2)
         < unmatched st.1 (range (length V)) !!! (k2 - length st.2)); [lia|].
    cbn [copy_sequence] in HlV, Hcount.
    apply (StronglySorted_lookup_lt lt _ _ _ Hsorted); lia.
Qed.


(** ** The coarse graph is the quotient of the finer one *)

Lemma StronglySorted_reverse {A} (R : relation A) (l : list A) :
  StronglySorted R l → StronglySorted (flip R) (reverse l).
Proof.
  induction 1 as [|x l Hl IH Hx]; [rewrite reverse_nil; constructor|].
  rewrite reverse_cons. apply StronglySorted_app_2; [|done|by repeat constructor].
  intros a b Ha ->%list_elem_of_singleton.
  rewrite elem_of_reverse in Ha. apply (Forall_elem_of _ _ _ Hx Ha).
Qed.

(** The links of the coarse vertex [i]: those of its parents, renamed by
    [to_lower], other than the links back to [i]. *)
Lemma coarse_edge_spec adj V N A deterministic (i : nat) (k : BinNums.N) :
  wf_adjacency adj (length V) → no_self_loops adj (length V) →
  (N.of_nat (length V) <= INVALID)%N →
  let adj_p := (downsample_graph adj V N A deterministic).1 in
  let c := (downsample_graph adj V N A deterministic).2 in
  i < length (V_p c) →
  edge adj_p (N.of_nat i) k ↔
    k ≠ N.of_nat i ∧
    ∃ u v, (u < N.of_nat (length V))%N ∧ at32 (to_lower c) u = N.of_nat i ∧
           edge adj u v ∧ at32 (to_lower c) v = k.
Proof using copy_order_perm parallel_sort_perm std_sort_perm std_sort_sorted.
  set_aside.
  intros Hwf Hnoself Hbound. cbn zeta. intros Hi.
  destruct (coarse_parents adj V N A deterministic Hwf Hnoself Hbound)
    as (Hle & _ & _ & Hparents).
  rewrite downsample_adjacency.
  destruct (coarse_adjacency_row_spec adj (downsample_graph adj V N A deterministic).2)
    with (i := i) as (_ & Hids & _).
  { intros j Hj. destruct (Hparents j Hj) as (Hp & _). lia. }
  { intros j Hj. by apply projected_links_ids. }
  { lia. }
  { done. }
  unfold edge, neighbors. rewrite Nat2N.id, Hids.
  apply and_iff_compat_l.
  destruct (parent_to_lower adj V N A deterministic i Hwf Hnoself Hi) as [Hp Hq].
  destruct (Hparents i Hi) as (Hpn & Hqn & _).
  unfold projected_links.
  set (c := (downsample_graph adj V N A deterministic).2) in *.
  destruct (to_upper c !!! i) as [p q] eqn:Hup. cbn [fst snd] in *.
  rewrite <- list_fmap_compose. split.
  - intros (link & -> & Hin)%list_elem_of_fmap. cbn [compose id].
    apply elem_of_app in Hin as [Hin|Hin].
    + exists p, (id link). repeat split; try done.
      apply list_elem_of_fmap. by exists link.
    + destruct (decide (q = INVALID)) as [|Hne]; [by apply elem_of_nil in Hin|].
      exists q, (id link). destruct Hqn as [|Hqn]; [done|].
      repeat split; try done; [by apply Hq|].
      apply list_elem_of_fmap. by exists link.
  - intros (u & v & Hu & Htl & (link & -> & Hin)%list_elem_of_fmap & <-).
    apply list_elem_of_fmap. exists link. split; [done|].
    destruct (fine_vertex_parent adj V N A deterministic (N.to_nat u) Hwf Hnoself
                ltac:(lia)) as [_ Hparent].
    fold c in Hparent. unfold at32 in Htl. rewrite Htl, Nat2N.id, Hup in Hparent.
    rewrite N2Nat.id in Hparent. cbn [fst snd] in Hparent.
    apply elem_of_app. destruct Hparent as [->| ->]; [by left|right].
    destruct (decide (u = INVALID)) as [|_]; [lia | done].
Qed.

(** X10: the coarse graph is the quotient of the finer graph by
    [to_lower]: two different coarse vertices are linked exactly when a
    link of the finer graph joins a parent of the one to a parent of
    the other. *)
Theorem coarse_graph_quotient adj V N A deterministic (a b : BinNums.N) :
  wf_adjacency adj (length V) → no_self_loops adj (length V) →
  (N.of_nat (length V) <= INVALID)%N →
  let adj_p := (downsample_graph adj V N A deterministic).1 in
  let c := (downsample_graph adj V N A deterministic).2 in
  (a < N.of_nat (length (V_p c)))%N →
  edge adj_p a b ↔
    a ≠ b ∧
    ∃ u v, (u < N.of_nat (length V))%N ∧ (v < N.of_nat (length V))%N ∧
           edge adj u v ∧ at32 (to_lower c) u = a ∧ at32 (to_lower c) v = b.
Proof using copy_order_perm parallel_sort_perm std_sort_perm std_sort_sorted.
  set_aside.
  intros Hwf Hnoself Hbound. cbn zeta. intros Ha.
  rewrite <- (N2Nat.id a) at 1.
  rewrite (coarse_edge_spec adj V N A deterministic (N.to_nat a) b Hwf Hnoself Hbound)
    by lia.
  rewrite N2Nat.id. split.
  - intros (Hne & u & v & Hu & Htl & Hedge & Hv). split; [done|].
    exists u, v. repeat split; try done. by apply (wf_ids _ _ Hwf u v).
  - intros (Hne & u & v & Hu & Hv & Hedge & Htlu & Htlv). split; [done|].
    by exists u, v.
Qed.

(** A link of the coarse graph has a link back when the finer graph is
    symmetric. *)
Lemma coarse_edge_back adj V N A deterministic (i k : nat) :
  wf_adjacency adj (length V) → no_self_loops adj (length V) →
  (N.of_nat (length V) <= INVALID)%N →
  symmetric adj (length V) →
  let adj_p := (downsample_graph adj V N A deterministic).1 in
  let c := (downsample_graph adj V N A deterministic).2 in
  i < length (V_p c) → k < length (V_p c) →
  edge adj_p (N.of_nat i) (N.of_nat k) → edge adj_p (N.of_nat k) (N.of_nat i).
Proof using copy_order_perm parallel_sort_perm std_sort_perm std_sort_sorted.
  set_aside.
  intros Hwf Hnoself Hbound Hsym. cbn zeta. intros Hi Hk.
  rewrite (coarse_edge_spec adj V N A deterministic i _ Hwf Hnoself Hbound) by done.
  rewrite (coarse_edge_spec adj V N A deterministic k _ Hwf Hnoself Hbound) by done.
  intros (Hne & u & v & Hu & Htl & Hedge & Hv). split; [done|].
  pose proof (wf_ids _ _ Hwf u v Hu Hedge) as Hvn.
  exists v, u. repeat split; try done. by apply Hsym.
Qed.

(** X11: downsampling keeps the graph symmetric: when every link of the
    finer graph has a link back, so has every link of the coarse graph. *)
Theorem coarse_graph_symmetric adj V N A deterministic :
  wf_adjacency adj (length V) → no_self_loops adj (length V) →
  (N.of_nat (length V) <= INVALID)%N →
  symmetric adj (length V) →
  symmetric (downsample_graph adj V N A deterministic).1
            (length (V_p (downsample_graph adj V N A deterministic).2)).
Proof using copy_order_perm parallel_sort_perm std_sort_perm std_sort_sorted.
  set_aside.
  intros Hwf Hnoself Hbound Hsym a b Ha Hb.
  rewrite <- (N2Nat.id a), <- (N2Nat.id b).
  apply (coarse_edge_back adj V N A deterministic); (done || lia).
Qed.

(** X12: the rows of the coarse adjacency matrix are sorted by neighbor,
    strictly. *)
Theorem coarse_rows_ascending adj V N A deterministic (i : nat) :
  wf_adjacency adj (length V) → no_self_loops adj (length V) →
  (N.of_nat (length V) <= INVALID)%N →
  let adj_p := (downsample_graph adj V N A deterministic).1 in
  let c := (downsample_graph adj V N A deterministic).2 in
  i < length (V_p c) →
  StronglySorted (λ x y, (id x < id y)%N) (adj_row adj_p i).
Proof using copy_order_perm parallel_sort_perm std_sort_perm std_sort_sorted.
  set_aside.
  intros Hwf Hnoself Hbound. cbn zeta. intros Hi.
  destruct (coarse_parents adj V N A deterministic Hwf Hnoself Hbound)
    as (Hle & _ & _ & Hparents).
  rewrite downsample_adjacency.
  rewrite coarse_adjacency_row.
  - unfold merge_links.
    apply (StronglySorted_reverse (λ x y, (id y < id x)%N)).
    eapply merge_sorted. apply merge_links_inv, std_sort_sorted.
  - intros j Hj. destruct (Hparents j Hj) as (Hp & _). lia.
  - intros j Hj. by apply projected_links_ids.
  - lia.
  - done.
Qed.


(** ** The matching is maximal *)

(** Every link of a vertex has its entry. *)
Lemma link_entry (adj : AdjacencyMatrix) (N : list Vector3f) (A : list Q)
    (n u : nat) (link : Link) :
  wf_adjacency adj n → u < n → link ∈ adj_row adj u →
  ∃ e, e ∈ row_entries adj N A u ∧ e_i e = N.of_nat u ∧ e_j e = id link.
Proof.
  intros Hwf Hu Hlink. unfold adj_row in Hlink.
  apply list_elem_of_lookup in Hlink as [j Hj].
  apply lookup_take_Some in Hj as [Hj Hlt].
  rewrite lookup_drop in Hj.
  exists (make_entry adj N A u j). split.
  - unfold row_entries. apply list_elem_of_fmap. exists j.
    split; [done | by apply elem_of_range].
  - split; [done|]. unfold make_entry. cbn [e_j].
    by rewrite (list_lookup_total_correct _ _ _ Hj).
Qed.

Lemma insert_true_mono (flags : list bool) (k i : nat) :
  flags !!! i = true → <[k := true]> flags !!! i = true.
Proof.
  intros Hi. destruct (decide (k < length flags)) as [Hk|Hk].
  - destruct (decide (i = k)) as [->|Hne].
    + by rewrite list_lookup_total_insert_eq.
    + by rewrite list_lookup_total_insert_ne.
  - by rewrite list_insert_ge by lia.
Qed.

(** Lines 71-77 never clear a flag. *)
Lemma accept_flags_mono (st : list bool * list Entry) (e : Entry) (v : N) :
  at32 st.1 v = true → at32 (accept st e).1 v = true.
Proof.
  intros Hv. unfold accept. destruct (_ || _); [done|].
  cbn [fst]. unfold at32, set32 in *. by do 2 apply insert_true_mono.
Qed.

Lemma foldl_accept_flags_mono (es : list Entry) (st : list bool * list Entry) (v : N) :
  at32 st.1 v = true → at32 (foldl accept st es).1 v = true.
Proof.
  revert st. induction es as [|e es IH]; intros st Hv; [done|].
  cbn [foldl]. by apply IH, accept_flags_mono.
Qed.

Lemma accept_flags_length (st : list bool * list Entry) (e : Entry) :
  length (accept st e).1 = length st.1.
Proof.
  unfold accept. destruct (_ || _); [done|].
  cbn [fst]. unfold set32. by rewrite !length_insert.
Qed.

(** After the scan has met an entry, one of its ends is flagged. *)
Lemma accept_flags_entry (st : list bool * list Entry) (e : Entry) :
  N.to_nat (e_i e) < length st.1 →
  at32 (accept st e).1 (e_i e) = true ∨ at32 (accept st e).1 (e_j e) = true.
Proof.
  intros Hi. unfold accept.
  destruct (at32 st.1 (e_i e) || at32 st.1 (e_j e)) eqn:E.
  - by apply orb_true_iff in E.
  - left. cbn [fst]. unfold at32, set32.
    by rewrite list_lookup_total_insert_eq by (by rewrite length_insert).
Qed.

Lemma matching_flags (es : list Entry) (st : list bool * list Entry) (e : Entry) :
  Forall (λ e, N.to_nat (e_i e) < length st.1) es → e ∈ es →
  at32 (foldl accept st es).1 (e_i e) = true ∨
  at32 (foldl accept st es).1 (e_j e) = true.
Proof.
  revert st. induction es as [|x es IH]; intros st Hes He.
  { by apply elem_of_nil in He. }
  apply list.Forall_cons in Hes as [Hx Hes]. cbn [foldl].
  apply elem_of_cons in He as [->|He].
  - destruct (accept_flags_entry st x Hx) as [H|H]; [left | right];
      by apply foldl_accept_flags_mono.
  - apply IH; [|done]. by rewrite accept_flags_length.
Qed.

(** X13: the matching is maximal: of the two ends of a link, at least
    one is collapsed into a pair, so that no link joins two vertices
    that are promoted alone. *)
Theorem matching_maximal adj V N A deterministic (u v : BinNums.N) :
  wf_adjacency adj (length V) → no_self_loops adj (length V) →
  (N.of_nat (length V) <= INVALID)%N →
  (u < N.of_nat (length V))%N → edge adj u v →
  let c := (downsample_graph adj V N A deterministic).2 in
  (to_upper c !!! N.to_nat (at32 (to_lower c) u)).2 ≠ INVALID ∨
  (to_upper c !!! N.to_nat (at32 (to_lower c) v)).2 ≠ INVALID.
Proof using copy_order_perm parallel_sort_perm.
  set_aside.
  intros Hwf Hnoself Hbound Hu Hedge. cbn zeta.
  pose proof (wf_ids _ _ Hwf u v Hu Hedge) as Hv.
  destruct (downsample_coarse adj V N A deterministic Hwf Hnoself)
    as (Hinv & _ & HlV & _).
  destruct (sorted_entries_valid adj V N A deterministic Hwf) as [Hvalid _].
  cbn zeta in *.
  assert (Hpair : ∀ w, (w < N.of_nat (length V))%N → at32 (matching (sorted_entries adj V N A deterministic) (length V)).1 w = true →
            (to_upper (downsample_graph adj V N A deterministic).2
               !!! N.to_nat (at32 (to_lower (downsample_graph adj V N A deterministic).2)
                                  w)).2 ≠ INVALID).
  { intros w Hw Hflag. apply (mi_flags _ _ _ Hinv w Hw) in Hflag.
    unfold endpoints in Hflag. apply list_elem_of_bind in Hflag as (e & Hin & He).
    apply list_elem_of_lookup_total in He as (k & Hk & <-).
    destruct (coarse_vertex_cases adj V N A deterministic k Hwf Hnoself
                ltac:(rewrite HlV; lia))
      as [(_ & Hmem & Hup & _ & _ & _ & Hi & Hj) | (? & _)]; [|lia].
    cbn zeta in *.
    destruct (accepted_entry adj _ _ _ Hwf Hnoself Hinv Hmem) as (_ & Hjn & _).
    assert (at32 (to_lower (downsample_graph adj V N A deterministic).2) w = N.of_nat k)
      as ->.
    { apply elem_of_cons in Hin as [->|Hin]; [done|].
      apply elem_of_cons in Hin as [->|Hin]; [done | by apply elem_of_nil in Hin]. }
    rewrite Nat2N.id, Hup. cbn [snd]. lia. }
  apply edge_link in Hedge as (link & Hlink & Hid).
  destruct (link_entry adj N A (length V) (N.to_nat u) link Hwf ltac:(lia) Hlink)
    as (e & He & Hei & Hej).
  assert (Hsorted : e ∈ sorted_entries adj V N A deterministic).
  { rewrite sorted_entries_perm. apply elem_of_concat.
    exists (row_entries adj N A (N.to_nat u)). split; [done|].
    apply list_elem_of_fmap. exists (N.to_nat u). split; [done|].
    apply elem_of_range. lia. }
  destruct (matching_flags (sorted_entries adj V N A deterministic)
              (replicate (length V) false, []) e) as [Hflag|Hflag].
  - cbn [fst]. rewrite length_replicate.
    eapply list.Forall_impl; [exact Hvalid|]. intros x [Hx _]. lia.
  - done.
  - left. apply Hpair; [done|]. by rewrite Hei, N2Nat.id in Hflag.
  - right. apply Hpair; [done|]. by rewrite Hej, Hid in Hflag.
Qed.


(** ** The number of links *)

Lemma ptr_mono (adj : AdjacencyMatrix) (n i j : nat) :
  wf_adjacency adj n → i ≤ j → j ≤ n → adj_ptr adj !!! i ≤ adj_ptr adj !!! j.
Proof.
  intros Hwf Hij Hj. induction Hij as [|j Hij IH]; [done|].
  pose proof (wf_ptr_mono adj n Hwf j ltac:(lia)).
  replace (S j) with (j + 1) by lia. lia.
Qed.

Lemma merge_step_length_le (i : nat) (out : list Link) (link : Link) :
  length (merge_step i out link) ≤ length out + 1.
Proof.
  unfold merge_step. destruct (_ =? _)%N; [lia|].
  destruct out as [|prev out]; [simpl; lia|].
  destruct (_ =? _)%N; simpl; lia.
Qed.

(** Lines 189-200 write at most one link for every link of the scratch
    array. *)
Lemma merge_links_length (i : nat) (scratch : list Link) :
  length (merge_links i scratch) ≤ length scratch.
Proof.
  unfold merge_links. rewrite length_reverse.
  assert (Hle : ∀ out, length (foldl (merge_step i) out scratch)
                       ≤ length out + length scratch).
  { induction scratch as [|link scratch IH]; intros out; simpl; [lia|].
    pose proof (merge_step_length_le i out link).
    pose proof (IH (merge_step i out link)). lia. }
  apply (Hle []).
Qed.

(** The rows of a well-formed matrix have the lengths that the row
    pointers give, which add up to the number of links. *)
Lemma length_adj_row (adj : AdjacencyMatrix) (n u : nat) :
  wf_adjacency adj n → u < n →
  length (adj_row adj u) = adj_ptr adj !!! (u + 1) - adj_ptr adj !!! u.
Proof.
  intros Hwf Hu. unfold adj_row. rewrite length_take, length_drop.
  pose proof (ptr_mono adj n (u + 1) n Hwf ltac:(lia) ltac:(lia)).
  pose proof (wf_ptr_bound adj n Hwf). lia.
Qed.

Lemma sum_list_range_S (f : nat → nat) (k : nat) :
  sum_list (f <$> range (S k)) = sum_list (f <$> range k) + f k.
Proof.
  rewrite range_S, fmap_app, sum_list_with_app. simpl. lia.
Qed.

Lemma sum_rows (adj : AdjacencyMatrix) (n k : nat) :
  wf_adjacency adj n → k ≤ n →
  sum_list ((λ u, length (adj_row adj u)) <$> range k)
  = adj_ptr adj !!! k - adj_ptr adj !!! 0.
Proof.
  intros Hwf. induction k as [|k IH]; intros Hk; [simpl; lia|].
  rewrite sum_list_range_S, IH by lia.
  rewrite (length_adj_row adj n) by (done || lia).
  pose proof (ptr_mono adj n 0 k Hwf ltac:(lia) ltac:(lia)).
  pose proof (ptr_mono adj n k (k + 1) Hwf ltac:(lia) ltac:(lia)).
  replace (S k) with (k + 1) by lia. lia.
Qed.

Lemma sum_list_pointwise (f g : nat → nat) (k : nat) :
  (∀ i, i < k → f i ≤ g i) →
  sum_list (f <$> range k) ≤ sum_list (g <$> range k).
Proof.
  induction k as [|k IH]; intros Hfg; [done|].
  rewrite !sum_list_range_S.
  pose proof (Hfg k ltac:(lia)). pose proof (IH ltac:(intros; apply Hfg; lia)). lia.
Qed.

Lemma sum_pair_rows (adj : AdjacencyMatrix) (es : list Entry) :
  sum_list ((λ e, length (adj_row adj (N.to_nat (e_i e)))
                  + length (adj_row adj (N.to_nat (e_j e)))) <$> es)
  = sum_list ((λ v, length (adj_row adj v)) <$> (N.to_nat <$> endpoints es)).
Proof.
  induction es as [|e es IH]; [done|].
  unfold endpoints in *. cbn [fmap list_fmap mbind list_bind app sum_list_with] in *.
  unfold Datatypes.id in *. rewrite IH. lia.
Qed.

(** X14: the coarse graph has at most as many links as the finer one:
    every link of the coarse graph stands for at least one link of a
    parent, and every vertex is the parent of one coarse vertex. *)
Theorem coarse_links_bound adj V N A deterministic :
  wf_adjacency adj (length V) → no_self_loops adj (length V) →
  (N.of_nat (length V) <= INVALID)%N →
  link_count (downsample_graph adj V N A deterministic).1
             (length (V_p (downsample_graph adj V N A deterministic).2))
  ≤ link_count adj (length V).
Proof using copy_order_perm parallel_sort_perm std_sort_perm std_sort_sorted.
  set_aside.
  intros Hwf Hnoself Hbound.
  destruct (downsample_coarse adj V N A deterministic Hwf Hnoself)
    as (Hinv & Hcount & HlV & _ & _ & Hup & _).
  destruct (unmatched_count adj (length V) _ (copy_sequence (length V) deterministic)
              Hwf Hnoself Hinv (copy_sequence_perm _ _)) as [Hperm _].
  destruct (coarse_parents adj V N A deterministic Hwf Hnoself Hbound)
    as (Hle & _ & HlUp & Hparents).
  cbn zeta in *. rewrite downsample_adjacency.
  set (c := (downsample_graph adj V N A deterministic).2) in *.
  assert (Hfirst : ∀ i, i < length (V_p c) → (to_upper c !!! i).1 ≠ INVALID).
  { intros i Hi. destruct (Hparents i Hi) as (Hp & _). lia. }
  assert (Hids : ∀ i, i < length (V_p c) →
            Forall (λ link, (id link < N.of_nat (length (V_p c)))%N)
                   (projected_links adj c i)).
  { intros i Hi. by apply projected_links_ids. }
  assert (Hcols : (N.of_nat (length (V_p c)) <= INVALID)%N) by lia.
  destruct (coarse_adjacency_arrays adj c Hfirst Hids Hcols) as [Hptr _].
  cbn zeta in Hptr. unfold link_count at 1. rewrite Hptr.
  rewrite !lookup_total_app_l by (rewrite length_fmap, length_range; lia).
  rewrite !(list_lookup_total_fmap (links_before _)) by (rewrite length_range; lia).
  unfold range at 1 2. rewrite !lookup_total_seq_lt by lia.
  cbn [Nat.add]. unfold links_before at 2. cbn [range seq fmap list_fmap concat length].
  rewrite Nat.sub_0_r. unfold links_before. rewrite length_concat, <- list_fmap_compose.
  set (rows_of := λ parents : BinNums.N * BinNums.N,
         length (adj_row adj (N.to_nat parents.1))
         + (if decide (parents.2 = INVALID) then 0
            else length (adj_row adj (N.to_nat parents.2)))).
  transitivity (sum_list ((λ i, rows_of (to_upper c !!! i)) <$> range (length (V_p c)))).
  { apply sum_list_pointwise. intros i Hi. cbn [compose].
    etransitivity; [apply merge_links_length|].
    rewrite std_sort_perm, gather_spec by by apply Hfirst.
    unfold projected_links, rows_of. destruct (to_upper c !!! i) as [p q].
    cbn [fst snd]. rewrite length_fmap, length_app.
    by destruct (decide (q = INVALID)). }
  rewrite <- HlUp.
  change (λ i, rows_of (to_upper c !!! i)) with (rows_of ∘ (λ i, to_upper c !!! i)).
  rewrite (list_fmap_compose (λ i, to_upper c !!! i) rows_of), fmap_lookup_total_all.
  rewrite Hup, fmap_app, sum_list_with_app, <- !list_fmap_compose.
  rewrite (list_fmap_ext (rows_of ∘ (λ e, (e_i e, e_j e)))
             (λ e, length (adj_row adj (N.to_nat (e_i e)))
                   + length (adj_row adj (N.to_nat (e_j e))))); cycle 1.
  { intros k e He. cbn [compose]. unfold rows_of. cbn [fst snd].
    destruct (accepted_entry adj _ _ e Hwf Hnoself Hinv) as (_ & Hj & _).
    - by eapply list_elem_of_lookup_2.
    - destruct (decide (e_j e = INVALID)); [lia | done]. }
  rewrite (list_fmap_ext (rows_of ∘ (λ i, (N.of_nat i, INVALID)))
             (λ i, length (adj_row adj i))); cycle 1.
  { intros k i _. cbn [compose]. unfold rows_of. cbn [fst snd].
    rewrite Nat2N.id, decide_True by done. lia. }
  rewrite sum_pair_rows, <- sum_list_with_app, <- fmap_app, Hperm.
  rewrite (sum_rows adj (length V)) by done. done.
Qed.


(** ** The chain of levels that [build] leaves *)

(** Lines 435-456 keep the invariant. *)
Lemma push_level_chain (deterministic : bool) (h : MultiResolutionHierarchy) (i : nat)
    (phases_p : list (list N)) :
  let d := downsample_graph (mAdj h !!! i) (mV h !!! i) (mN h !!! i) (mA h !!! i)
                            deterministic in
  build_chain deterministic h i →
  color_level deterministic (i + 1) d.1 (length (V_p d.2)) = inr phases_p →
  build_chain deterministic (push_level h d.1 d.2 phases_p) (i + 1).
Proof using copy_order_perm parallel_sort_perm std_sort_perm std_sort_sorted.
  set_aside.
  cbn zeta.
  intros [HlAdj HlV HlN HlA HlPh HlUp HlLow HCQ HCO HCQw HCOw Hlevel Hphases Hdown Htotal]
         Hcolor.
  destruct (Hlevel i ltac:(lia)) as [Hok HlNi].
  pose proof (downsample_level _ _ (mN h !!! i) _ deterministic Hok) as Hok'.
  destruct (downsample_coarse _ _ (mN h !!! i) (mA h !!! i) deterministic
              (level_wf _ _ _ Hok) (level_no_self_loops _ _ _ Hok))
    as (_ & _ & HlVp & HlNp & _).
  cbn zeta in HlVp, HlNp.
  set (d := downsample_graph _ _ _ _ _) in *.
  split; cbn [push_level mAdj mV mN mA mPhases mToUpper mToLower mCQ mCO mCQw mCOw
              mTotalSize].
  1-7: rewrite length_app; simpl; lia.
  1-4: rewrite replicate_add; cbn [replicate]; congruence.
  - intros l Hl. destruct (decide (l = i + 1)) as [->|Hne].
    + rewrite !lookup_total_snoc_eq by done. split; [done | lia].
    + rewrite !lookup_total_snoc_lt by lia. apply Hlevel. lia.
  - intros l Hl. destruct (decide (l = i + 1)) as [->|Hne].
    + by rewrite !lookup_total_snoc_eq by done.
    + rewrite !lookup_total_snoc_lt by lia. apply Hphases. lia.
  - intros l Hl. unfold coarsened.
    cbn [push_level mAdj mV mN mA mToUpper mToLower].
    destruct (decide (l = i)) as [->|Hne].
    + rewrite (lookup_total_snoc_eq (mAdj h) _ (i + 1)) by done.
      rewrite (lookup_total_snoc_eq (mV h) _ (i + 1)) by done.
      rewrite (lookup_total_snoc_eq (mN h) _ (i + 1)) by done.
      rewrite (lookup_total_snoc_eq (mA h) _ (i + 1)) by done.
      rewrite (lookup_total_snoc_eq (mToUpper h) _ i) by done.
      rewrite (lookup_total_snoc_eq (mToLower h) _ i) by done.
      rewrite !lookup_total_snoc_lt by lia. done.
    + rewrite !lookup_total_snoc_lt by lia. apply Hdown. lia.
  - rewrite Htotal, fmap_app, sum_list_with_app. cbn [fmap list_fmap sum_list_with].
    rewrite N.Div0.add_mod_idemp_l. f_equal. unfold Datatypes.id. lia.
Qed.

(** The loop of lines 429-459 from the iteration [i] on, with [fuel]
    iterations left: it stops at a level [i'], having pushed the levels
    in between; it returns when the iterations are used up or when the
    last level has one vertex; it throws only when the parallel coloring
    does. *)
Lemma build_loop_chain (deterministic : bool) (fuel : nat) :
  ∀ i h, build_chain deterministic h i →
  (∀ l, 0 < l ≤ i → length (mV h !!! l) ≠ 1) →
  ∃ h' i',
    build_chain deterministic h' i' ∧ i ≤ i' ≤ i + fuel ∧
    (∀ l, 0 < l < i' → length (mV h' !!! l) ≠ 1) ∧
    (mAdj h' !!! 0 = mAdj h !!! 0 ∧ mV h' !!! 0 = mV h !!! 0 ∧
     mN h' !!! 0 = mN h !!! 0 ∧ mA h' !!! 0 = mA h !!! 0) ∧
    (mQ h' = mQ h ∧ mO h' = mO h ∧ mScale h' = mScale h) ∧
    ((build_loop fuel i deterministic h = Returns h' ∧
      (i' = i + fuel ∨ (i < i' ∧ length (mV h' !!! i') = 1)))
     ∨ (deterministic = false ∧ i' < i + fuel ∧
        ∃ e, build_loop fuel i deterministic h = Throws e h')).
Proof using copy_order_perm parallel_sort_perm std_sort_perm std_sort_sorted.
  set_aside.
  induction fuel as [|fuel IH]; intros i h Hinv Hsizes.
  { exists h, i. split; [done|]. split; [lia|].
    split; [intros l Hl; apply Hsizes; lia|]. do 2 (split; [done|]).
    left. split; [done | lia]. }
  cbn [build_loop].
  pose proof (push_level_chain deterministic h i) as Hpush. cbn zeta in Hpush.
  destruct (downsample_graph _ _ _ _ _) as [adj_p c] eqn:Hd. cbn [fst snd] in Hpush.
  destruct (color_level _ _ _ _) as [e|phases_p] eqn:Hcolor.
  { exists h, i. split; [done|]. split; [lia|].
    split; [intros l Hl; apply Hsizes; lia|]. do 2 (split; [done|]).
    right. unfold color_level in Hcolor. destruct deterministic; [done|].
    split; [done|]. split; [lia|]. by exists e. }
  specialize (Hpush phases_p Hinv eq_refl).
  pose proof (bc_mV _ _ _ Hinv) as HlV.
  pose proof (bc_mAdj _ _ _ Hinv) as HlAdj.
  pose proof (bc_mN _ _ _ Hinv) as HlN.
  pose proof (bc_mA _ _ _ Hinv) as HlA.
  assert (Hlast : mV (push_level h adj_p c phases_p)
                  !!! (length (mV (push_level h adj_p c phases_p)) - 1) = V_p c).
  { cbn [push_level mV]. rewrite length_app. cbn [length].
    apply lookup_total_snoc_eq. lia. }
  assert (Hfirst : mAdj (push_level h adj_p c phases_p) !!! 0 = mAdj h !!! 0 ∧
                   mV (push_level h adj_p c phases_p) !!! 0 = mV h !!! 0 ∧
                   mN (push_level h adj_p c phases_p) !!! 0 = mN h !!! 0 ∧
                   mA (push_level h adj_p c phases_p) !!! 0 = mA h !!! 0).
  { cbn [push_level mAdj mV mN mA]. by rewrite !lookup_total_snoc_lt by lia. }
  assert (Hprev : ∀ l, 0 < l ≤ i →
            length (mV (push_level h adj_p c phases_p) !!! l) ≠ 1).
  { intros l Hl. cbn [push_level mV]. rewrite lookup_total_snoc_lt by lia.
    by apply Hsizes. }
  rewrite Hlast. destruct (length (V_p c) =? 1) eqn:Hone.
  - apply Nat.eqb_eq in Hone.
    exists (push_level h adj_p c phases_p), (i + 1).
    split; [done|]. split; [lia|].
    split; [intros l Hl; apply Hprev; lia|]. do 2 (split; [done|]).
    left. split; [done|]. right. split; [lia|].
    cbn [push_level mV]. rewrite lookup_total_snoc_eq by done. done.
  - apply Nat.eqb_neq in Hone.
    destruct (IH (i + 1) (push_level h adj_p c phases_p) Hpush)
      as (h' & i' & Hinv' & Hi' & Hsizes' & Hzero & Hkeep & Hrun).
    { intros l Hl. destruct (decide (l = i + 1)) as [->|Hne]; [|apply Hprev; lia].
      cbn [push_level mV]. by rewrite lookup_total_snoc_eq by done. }
    exists h', i'. destruct Hfirst as (? & ? & ? & ?).
    destruct Hzero as (? & ? & ? & ?).
    split; [done|]. split; [lia|]. split; [done|].
    split; [repeat split; congruence|]. split; [done|].
    destruct Hrun as [[Hrun Hstop] | (Hdet & Hlt & Hrun)]; [left | right].
    + split; [done | lia].
    + split; [done|]. split; [lia | done].
Qed.

(** [build] as a whole: the coloring of level 0 throws and nothing is
    changed, or the loop runs and stops at a level [i']. *)
Lemma build_result (deterministic : bool) (h : MultiResolutionHierarchy) :
  finest_level_only h →
  (deterministic = false ∧ ∃ e, build deterministic h = Throws e h) ∨
  ∃ h' i',
    build_chain deterministic h' i' ∧ i' ≤ MAX_DEPTH ∧
    (∀ l, 0 < l < i' → length (mV h' !!! l) ≠ 1) ∧
    (mAdj h' !!! 0 = mAdj h !!! 0 ∧ mV h' !!! 0 = mV h !!! 0 ∧
     mN h' !!! 0 = mN h !!! 0 ∧ mA h' !!! 0 = mA h !!! 0) ∧
    (mQ h' = mQ h ∧ mO h' = mO h ∧ mScale h' = mScale h) ∧
    ((build deterministic h = Returns h' ∧
      (mIterationsQ h' = (-1)%Z ∧ mIterationsO h' = (-1)%Z ∧
       mFrozenQ h' = false ∧ mFrozenO h' = false) ∧
      (i' = MAX_DEPTH ∨ (0 < i' ∧ length (mV h' !!! i') = 1)))
     ∨ (deterministic = false ∧ i' < MAX_DEPTH ∧
        ∃ e, build deterministic h = Throws e h')).
Proof using copy_order_perm parallel_sort_perm std_sort_perm std_sort_sorted.
  set_aside.
  intros [HlAdj HlV HlN HlA HUp HLow HPh HCQ HCO HCQw HCOw Hlevel HlN0].
  unfold build. destruct (color_level _ _ _ _) as [e|phases] eqn:Hcolor.
  { left. unfold color_level in Hcolor. destruct deterministic; [done|].
    split; [done | by exists e]. }
  right.
  set (h1 := {| mPhases := mPhases h ++ [phases] |}).
  assert (Hinv1 : build_chain deterministic h1 0).
  { split; cbn [h1 mAdj mV mN mA mPhases mToUpper mToLower mCQ mCO mCQw mCOw mTotalSize].
    1-4: done.
    1: by rewrite HPh.
    1-2: by (rewrite HUp || rewrite HLow).
    1-4: by (rewrite HCQ || rewrite HCO || rewrite HCQw || rewrite HCOw).
    - intros l Hl. by replace l with 0 by lia.
    - intros l Hl. replace l with 0 by lia. by rewrite HPh.
    - intros l Hl. lia.
    - destruct (mV h) as [|v [|]]; try done. cbn. by rewrite Nat.add_0_r. }
  destruct (build_loop_chain deterministic MAX_DEPTH 0 h1 Hinv1 ltac:(intros; lia))
    as (h' & i' & Hinv' & Hi' & Hsizes & Hzero & Hkeep & Hrun).
  destruct Hrun as [[Hrun Hstop] | (Hdet & Hlt & e & Hrun)]; rewrite Hrun.
  - match goal with |- context [Returns ?r] => exists r, i' end.
    split; [destruct Hinv'; by split|].
    split; [lia|]. split; [done|]. do 2 (split; [done|]).
    left. split; [done|]. split; [done|]. cbn [mV]. lia.
  - exists h', i'. split; [done|]. split; [lia|]. split; [done|].
    do 2 (split; [done|]). right. split; [done|]. split; [lia | by exists e].
Qed.


(** ** What [build] guarantees of the hierarchy *)

(** One step of the chain: the sizes, the links between the two levels. *)
Lemma coarsened_level (deterministic : bool) (h : MultiResolutionHierarchy) (l : nat) :
  level_ok (mAdj h !!! l) (mV h !!! l) (mA h !!! l) →
  coarsened deterministic h l →
  (size h (l + 1) ≤ size h l ∧ size h l ≤ 2 * size h (l + 1)) ∧
  length (toUpper h l) = size h (l + 1) ∧
  length (mToLower h !!! l) = size h l ∧
  (∀ k, k < size h (l + 1) →
     N.to_nat (toUpper h l !!! k).1 < size h l ∧
     ((toUpper h l !!! k).2 = INVALID ∨ N.to_nat (toUpper h l !!! k).2 < size h l)) ∧
  (∀ v, v < size h l →
     N.to_nat ((mToLower h !!! l) !!! v) < size h (l + 1) ∧
     ((toUpper h l !!! N.to_nat ((mToLower h !!! l) !!! v)).1 = N.of_nat v ∨
      (toUpper h l !!! N.to_nat ((mToLower h !!! l) !!! v)).2 = N.of_nat v)).
Proof using copy_order_perm parallel_sort_perm.
  set_aside.
  intros [Hwf Hnoself Hbound _] (_ & HV & _ & _ & Hup & Hlow).
  unfold size, toUpper. rewrite HV, Hup, Hlow.
  destruct (downsample_coarse _ _ (mN h !!! l) (mA h !!! l) deterministic Hwf Hnoself)
    as (_ & Hcount & HlV & _ & _ & _ & HlLow & _).
  destruct (coarse_parents _ _ (mN h !!! l) (mA h !!! l) deterministic Hwf Hnoself
              Hbound) as (_ & _ & HlUp & Hparents).
  cbn zeta in *.
  split; [lia|]. split; [done|]. split; [done|]. split.
  - intros k Hk. destruct (Hparents k Hk) as (Hp & Hq & _).
    split; [lia|]. destruct Hq as [Hq|Hq]; [by left | right; lia].
  - intros v Hv. by apply fine_vertex_parent.
Qed.

(** The chain keeps the graphs symmetric. *)
Lemma chain_symmetric (deterministic : bool) (h : MultiResolutionHierarchy) (i : nat) :
  build_chain deterministic h i →
  symmetric (mAdj h !!! 0) (length (mV h !!! 0)) →
  ∀ l, l ≤ i → symmetric (mAdj h !!! l) (length (mV h !!! l)).
Proof using copy_order_perm parallel_sort_perm std_sort_perm std_sort_sorted.
  set_aside.
  intros Hinv Hsym. induction l as [|l IH]; intros Hl; [done|].
  destruct (bc_level _ _ _ Hinv l ltac:(lia)) as [[Hwf Hnoself Hbound _] _].
  destruct (bc_coarsened _ _ _ Hinv l ltac:(lia)) as (HAdj & HV & _).
  replace (S l) with (l + 1) by lia. rewrite HAdj, HV.
  intros a b Ha Hb.
  rewrite <- (N2Nat.id a), <- (N2Nat.id b).
  apply (coarse_edge_back _ _ (mN h !!! l) (mA h !!! l) deterministic);
    (done || lia || (apply IH; lia)).
Qed.

(** The sizes along the chain: no level is larger than the finest one,
    and level [l] has at least the [2^l]-th part of its vertices. *)
Lemma chain_sizes (deterministic : bool) (h : MultiResolutionHierarchy) (i : nat) :
  build_chain deterministic h i →
  ∀ l, l ≤ i → size h l ≤ size h 0 ∧ size h 0 ≤ 2 ^ l * size h l.
Proof using copy_order_perm parallel_sort_perm.
  set_aside.
  intros Hinv. induction l as [|l IH]; intros Hl; [simpl; lia|].
  destruct (bc_level _ _ _ Hinv l ltac:(lia)) as [Hok _].
  destruct (coarsened_level deterministic h l Hok (bc_coarsened _ _ _ Hinv l ltac:(lia)))
    as ([Hle Hge] & _).
  replace (S l) with (l + 1) in * by lia.
  destruct (IH ltac:(lia)) as [IH1 IH2]. split; [lia|].
  rewrite Nat.pow_add_r. cbn [Nat.pow]. nia.
Qed.

(** X15: [build] makes every level from the one before by
    [downsample_graph], keeps level 0, and makes at most [MAX_DEPTH]
    coarser levels; on the deterministic path it always returns. *)
Theorem build_levels_coarsened (deterministic : bool) (h : MultiResolutionHierarchy) :
  finest_level_only h →
  ∃ h', (build deterministic h = Returns h'
         ∨ (deterministic = false ∧ ∃ e, build deterministic h = Throws e h')) ∧
        1 ≤ levels h' ≤ MAX_DEPTH + 1 ∧
        (mAdj h' !!! 0 = mAdj h !!! 0 ∧ mV h' !!! 0 = mV h !!! 0 ∧
         mN h' !!! 0 = mN h !!! 0 ∧ mA h' !!! 0 = mA h !!! 0) ∧
        ∀ l, l + 1 < levels h' → coarsened deterministic h' l.
Proof using copy_order_perm parallel_sort_perm std_sort_perm std_sort_sorted.
  set_aside.
  intros Hfinest.
  destruct (build_result deterministic h Hfinest)
    as [(Hdet & e & Hrun) | (h' & i' & Hinv & Hi' & _ & Hzero & _ & Hrun)].
  - exists h. split; [right; split; [done | by exists e]|].
    unfold levels. rewrite (fl_mV _ Hfinest). split; [lia|]. split; [done|].
    intros l Hl. lia.
  - exists h'. split.
    { destruct Hrun as [(Hrun & _) | (Hdet & _ & Hrun)]; [by left | by right]. }
    unfold levels. rewrite (bc_mV _ _ _ Hinv). split; [lia|]. split; [done|].
    intros l Hl. apply (bc_coarsened _ _ _ Hinv). lia.
Qed.

(** X16: when [build] returns, it has made [MAX_DEPTH] coarser levels or
    has stopped at the first coarser level of one vertex; the iteration
    counters are reset, and nothing is frozen. *)
Theorem build_stops (deterministic : bool) (h : MultiResolutionHierarchy) :
  finest_level_only h →
  match build deterministic h with
  | Returns h' =>
      (levels h' = MAX_DEPTH + 1 ∨ (2 ≤ levels h' ∧ size h' (levels h' - 1) = 1)) ∧
      (∀ l, 0 < l → l + 1 < levels h' → size h' l ≠ 1) ∧
      mIterationsQ h' = (-1)%Z ∧ mIterationsO h' = (-1)%Z ∧
      mFrozenQ h' = false ∧ mFrozenO h' = false
  | Throws e h' => deterministic = false
  end.
Proof using copy_order_perm parallel_sort_perm std_sort_perm std_sort_sorted.
  set_aside.
  intros Hfinest.
  destruct (build_result deterministic h Hfinest)
    as [(Hdet & e & Hrun) | (h' & i' & Hinv & Hi' & Hsizes & _ & _ & Hrun)].
  - by rewrite Hrun.
  - destruct Hrun as [(Hrun & Hfields & Hstop) | (Hdet & Hlt & e & Hrun)]; rewrite Hrun.
    + unfold levels, size. rewrite (bc_mV _ _ _ Hinv).
      split; [|split; [|done]].
      * destruct Hstop as [->|[Hpos Hone]]; [by left | right].
        split; [lia|]. by replace (i' + 1 - 1) with i' by lia.
      * intros l Hl Hl'. apply Hsizes. lia.
    + done.
Qed.

(** The hierarchy that [build] leaves, with the level it stopped at. *)
Lemma build_state (deterministic : bool) (h : MultiResolutionHierarchy) :
  finest_level_only h →
  state_of (build deterministic h) = h ∨
  ∃ i', build_chain deterministic (state_of (build deterministic h)) i' ∧
        mAdj (state_of (build deterministic h)) !!! 0 = mAdj h !!! 0 ∧
        mV (state_of (build deterministic h)) !!! 0 = mV h !!! 0 ∧
        mN (state_of (build deterministic h)) !!! 0 = mN h !!! 0 ∧
        mA (state_of (build deterministic h)) !!! 0 = mA h !!! 0.
Proof using copy_order_perm parallel_sort_perm std_sort_perm std_sort_sorted.
  set_aside.
  intros Hfinest.
  destruct (build_result deterministic h Hfinest)
    as [(Hdet & e & Hrun) | (h' & i' & Hinv & _ & _ & Hzero & _ & Hrun)].
  - left. by rewrite Hrun.
  - right. exists i'.
    destruct Hrun as [(Hrun & _) | (_ & _ & e & Hrun)]; by rewrite Hrun.
Qed.

(** X17: the hierarchy that [build] leaves is well formed, whether
    [build] returned or threw: every level can be coarsened and has one
    normal per vertex, the parents that [toUpper] names exist, and
    [toLower] maps every vertex to a vertex of the next level that has
    it as a parent. *)
Theorem build_well_formed (deterministic : bool) (h : MultiResolutionHierarchy) :
  finest_level_only h →
  let h' := state_of (build deterministic h) in
  wf_hierarchy h' ∧
  length (mAdj h') = levels h' ∧ length (mA h') = levels h' ∧
  length (mToLower h') = levels h' - 1 ∧
  (∀ l, l < levels h' → level_ok (mAdj h' !!! l) (mV h' !!! l) (mA h' !!! l)) ∧
  (∀ l, l + 1 < levels h' → length (mToLower h' !!! l) = size h' l) ∧
  (∀ l v, l + 1 < levels h' → v < size h' l →
     N.to_nat ((mToLower h' !!! l) !!! v) < size h' (l + 1) ∧
     ((toUpper h' l !!! N.to_nat ((mToLower h' !!! l) !!! v)).1 = N.of_nat v ∨
      (toUpper h' l !!! N.to_nat ((mToLower h' !!! l) !!! v)).2 = N.of_nat v)).
Proof using copy_order_perm parallel_sort_perm std_sort_perm std_sort_sorted.
  set_aside.
  intros Hfinest. cbn zeta.
  destruct (build_state deterministic h Hfinest) as [-> | (i' & Hinv & _)].
  - destruct Hfinest as [HlAdj HlV HlN HlA HUp HLow _ _ _ _ _ Hlevel HlN0].
    split; [split|]; unfold levels, size, toUpper; rewrite ?HlV, ?HUp, ?HLow.
    + done.
    + intros l Hl. by replace l with 0 by lia.
    + done.
    + intros l Hl. lia.
    + intros l c Hl. lia.
    + split; [done|]. split; [done|]. split; [done|]. split; [|split].
      * intros l Hl. by replace l with 0 by lia.
      * intros l Hl. lia.
      * intros l v Hl. lia.
  - set (h' := state_of _) in *.
    assert (Hstep : ∀ l, l + 1 < levels h' →
              level_ok (mAdj h' !!! l) (mV h' !!! l) (mA h' !!! l) ∧
              coarsened deterministic h' l).
    { unfold levels. rewrite (bc_mV _ _ _ Hinv). intros l Hl.
      split; [apply (bc_level _ _ _ Hinv); lia | apply (bc_coarsened _ _ _ Hinv); lia]. }
    split; [split|].
    + unfold levels. by rewrite (bc_mN _ _ _ Hinv), (bc_mV _ _ _ Hinv).
    + unfold levels, size. rewrite (bc_mV _ _ _ Hinv). intros l Hl.
      apply (bc_level _ _ _ Hinv). lia.
    + unfold levels. rewrite (bc_mToUpper _ _ _ Hinv), (bc_mV _ _ _ Hinv). lia.
    + intros l Hl. destruct (Hstep l Hl) as [Hok Hdown].
      by destruct (coarsened_level deterministic h' l Hok Hdown) as (_ & ? & _).
    + intros l c Hl Hc. destruct (Hstep l Hl) as [Hok Hdown].
      destruct (coarsened_level deterministic h' l Hok Hdown) as (_ & _ & _ & Hp & _).
      by apply Hp.
    + unfold levels in *.
      rewrite (bc_mAdj _ _ _ Hinv), (bc_mA _ _ _ Hinv), (bc_mToLower _ _ _ Hinv),
        (bc_mV _ _ _ Hinv) in *.
      split; [done|]. split; [done|]. split; [lia|]. split; [|split].
      * intros l Hl. apply (bc_level _ _ _ Hinv). lia.
      * intros l Hl. destruct (Hstep l Hl) as [Hok Hdown].
        by destruct (coarsened_level deterministic h' l Hok Hdown) as (_ & _ & ? & _).
      * intros l v Hl Hv. destruct (Hstep l Hl) as [Hok Hdown].
        destruct (coarsened_level deterministic h' l Hok Hdown)
          as (_ & _ & _ & _ & Hlow).
        by apply Hlow.
Qed.

(** X18: what [build] allocates: when it returns, every level has its
    phases and an empty entry in each of the four constraint arrays,
    [mTotalSize] is the number of vertices of all levels (as a 32-bit
    number), and the solution and the scale are untouched. *)
Theorem build_bookkeeping (deterministic : bool) (h : MultiResolutionHierarchy) :
  finest_level_only h →
  match build deterministic h with
  | Returns h' =>
      length (mPhases h') = levels h' ∧
      mCQ h' = replicate (levels h') [] ∧ mCO h' = replicate (levels h') [] ∧
      mCQw h' = replicate (levels h') [] ∧ mCOw h' = replicate (levels h') [] ∧
      mTotalSize h' = (N.of_nat (sum_list (length <$> mV h')) mod 2 ^ 32)%N ∧
      mQ h' = mQ h ∧ mO h' = mO h ∧ mScale h' = mScale h
  | Throws e h' => mQ h' = mQ h ∧ mO h' = mO h ∧ mScale h' = mScale h
  end.
Proof using copy_order_perm parallel_sort_perm std_sort_perm std_sort_sorted.
  set_aside.
  intros Hfinest.
  destruct (build_result deterministic h Hfinest)
    as [(Hdet & e & Hrun) | (h' & i' & Hinv & _ & _ & _ & Hkeep & Hrun)].
  - by rewrite Hrun.
  - destruct Hrun as [(Hrun & _) | (_ & _ & e & Hrun)]; rewrite Hrun; [|done].
    unfold levels. rewrite (bc_mV _ _ _ Hinv).
    destruct Hinv. destruct Hkeep as (? & ? & ?). by repeat split.
Qed.

(** X19: the sizes of the levels: a level is not larger than the one
    before and has at least half its vertices, so level [l] has at most
    the vertices of level 0 and at least the [2^l]-th part of them. *)
Theorem build_sizes (deterministic : bool) (h : MultiResolutionHierarchy) :
  finest_level_only h →
  let h' := state_of (build deterministic h) in
  (∀ l, l + 1 < levels h' →
     size h' (l + 1) ≤ size h' l ∧ size h' l ≤ 2 * size h' (l + 1)) ∧
  (∀ l, l < levels h' → size h' l ≤ size h 0 ∧ size h 0 ≤ 2 ^ l * size h' l).
Proof using copy_order_perm parallel_sort_perm std_sort_perm std_sort_sorted.
  set_aside.
  intros Hfinest. cbn zeta.
  destruct (build_state deterministic h Hfinest) as [-> | (i' & Hinv & _ & HV0 & _)].
  - unfold levels. rewrite (fl_mV _ Hfinest). split; [intros; lia|].
    intros l Hl. replace l with 0 by lia. simpl. lia.
  - set (h' := state_of _) in *. unfold levels. rewrite (bc_mV _ _ _ Hinv). split.
    + intros l Hl.
      destruct (bc_level _ _ _ Hinv l ltac:(lia)) as [Hok _].
      by destruct (coarsened_level deterministic h' l Hok
                     (bc_coarsened _ _ _ Hinv l ltac:(lia))) as (? & _).
    + intros l Hl. replace (size h 0) with (size h' 0) by (unfold size; by rewrite HV0).
      apply (chain_sizes deterministic h' i' Hinv). lia.
Qed.


(** ** The phases of the levels, and graphs without links *)

(** X20: the phases that [build] stores are valid at every level: with a
    symmetric finest level, shuffles that permute the vertices and
    schedules that treat every vertex once, the phases of a level
    partition its vertices, and no link of the level joins two vertices
    of one phase. *)
Theorem build_phases_valid (deterministic : bool) (h : MultiResolutionHierarchy) :
  finest_level_only h → symmetric (mAdj h !!! 0) (size h 0) →
  let h' := state_of (build deterministic h) in
  (if deterministic then ∀ n, is_permutation (shuffle n) n
   else ∀ l, l < levels h' →
          is_permutation (parallel_perm l) (size h' l) ∧
          is_schedule (parallel_schedule l) (size h' l) (parallel_bodies l)) →
  ∀ l, l < length (mPhases h') →
       valid_phases (mAdj h' !!! l) (size h' l) (mPhases h' !!! l).
Proof using copy_order_perm parallel_sort_perm std_sort_perm std_sort_sorted.
  set_aside.
  intros Hfinest Hsym. cbn zeta.
  destruct (build_state deterministic h Hfinest)
    as [-> | (i' & Hinv & HAdj0 & HV0 & _)].
  { intros _ l Hl. rewrite (fl_mPhases _ Hfinest) in Hl. simpl in Hl. lia. }
  set (h' := state_of _) in *. intros Hperm l Hl.
  rewrite (bc_mPhases _ _ _ Hinv) in Hl.
  assert (Hsym' : symmetric (mAdj h' !!! l) (length (mV h' !!! l))).
  { apply (chain_symmetric deterministic h' i' Hinv); [|lia].
    by rewrite HAdj0, HV0. }
  destruct (bc_level _ _ _ Hinv l ltac:(lia)) as [[Hwf Hnoself _ _] _].
  pose proof (bc_phases _ _ _ Hinv l ltac:(lia)) as Hcolor.
  unfold color_level in Hcolor. unfold size. destruct deterministic.
  - injection Hcolor as <-. by apply det_phases_valid.
  - destruct (Hperm l) as [Hp Hs]; [unfold levels; rewrite (bc_mV _ _ _ Hinv); lia|].
    pose proof (par_phases_valid _ _ _ _ _ Hwf Hsym' Hnoself Hp Hs) as Hvalid.
    unfold size in Hvalid. rewrite Hcolor in Hvalid. by destruct Hvalid.
Qed.

(** In a graph without links every row is empty. *)
Lemma no_links_row (adj : AdjacencyMatrix) (n u : nat) :
  wf_adjacency adj n → link_count adj n = 0 → u < n → adj_row adj u = [].
Proof.
  intros Hwf Hzero Hu. unfold link_count in Hzero. unfold adj_row.
  pose proof (ptr_mono adj n 0 u Hwf ltac:(lia) ltac:(lia)).
  pose proof (ptr_mono adj n (u + 1) n Hwf ltac:(lia) ltac:(lia)).
  by replace (adj_ptr adj !!! (u + 1) - adj_ptr adj !!! u) with 0 by lia.
Qed.

(** Lines 36-131 and 133-204 on a graph without links: no pair is
    collapsed, the coarse graph has no links either, and on the
    deterministic path the coarse level is a copy of the finer one. *)
Lemma downsample_no_links adj V N A deterministic :
  level_ok adj V A → link_count adj (length V) = 0 →
  let d := downsample_graph adj V N A deterministic in
  length (V_p d.2) = length V ∧
  link_count d.1 (length (V_p d.2)) = 0 ∧
  (deterministic = true → length N = length V →
   V_p d.2 = V ∧ N_p d.2 = N ∧ A_p d.2 = A).
Proof using copy_order_perm parallel_sort_perm std_sort_perm std_sort_sorted.
  set_aside.
  intros [Hwf Hnoself Hbound HlA] Hzero. cbn zeta.
  destruct (sorted_entries_valid adj V N A deterministic Hwf) as [_ Hlen].
  fold (link_count adj (length V)) in Hlen. rewrite Hzero in Hlen.
  apply length_zero_iff_nil in Hlen.
  destruct (downsample_coarse adj V N A deterministic Hwf Hnoself)
    as (_ & _ & HlV & _ & HA & _).
  destruct (downsample_vertices adj V N A deterministic Hwf Hnoself)
    as (HV & HN & _).
  destruct (coarse_parents adj V N A deterministic Hwf Hnoself Hbound)
    as (Hle & _ & _ & Hparents).
  cbn zeta in *. rewrite Hlen in *.
  change (matching [] (length V)) with (replicate (length V) false, @nil Entry) in *.
  cbn [fst snd fmap list_fmap app length] in *.
  rewrite unmatched_none in * by apply copy_sequence_lt.
  assert (HlV' : length (V_p (downsample_graph adj V N A deterministic).2) = length V).
  { rewrite HlV, copy_sequence_perm. apply length_range. }
  split; [done|]. split.
  - rewrite downsample_adjacency.
    set (c := (downsample_graph adj V N A deterministic).2) in *.
    assert (Hfirst : ∀ i, i < length (V_p c) → (to_upper c !!! i).1 ≠ INVALID).
    { intros i Hi. destruct (Hparents i Hi) as (Hp & _). lia. }
    assert (Hids : ∀ i, i < length (V_p c) →
              Forall (λ link, (id link < N.of_nat (length (V_p c)))%N)
                     (projected_links adj c i)).
    { intros i Hi. by apply projected_links_ids. }
    assert (Hcols : (N.of_nat (length (V_p c)) <= INVALID)%N) by lia.
    destruct (coarse_adjacency_arrays adj c Hfirst Hids Hcols) as [Hptr _].
    cbn zeta in Hptr. unfold link_count. rewrite Hptr.
    rewrite !lookup_total_app_l by (rewrite length_fmap, length_range; lia).
    rewrite !(list_lookup_total_fmap (links_before _)) by (rewrite length_range; lia).
    unfold range at 1 2. rewrite !lookup_total_seq_lt by lia.
    assert (Hrows : ∀ k, k ≤ length (V_p c) →
              links_before (λ i, merge_links i (std_sort (gather adj c i))) k = 0).
    { induction k as [|k IH]; intros Hk; [done|].
      rewrite links_before_S, IH by lia.
      assert (gather adj c k = []) as ->.
      { destruct (Hparents k ltac:(lia)) as (Hp & Hq & _).
        unfold gather. destruct (to_upper c !!! k) as [p q]. cbn [fst snd foldl] in *.
        rewrite (no_links_row adj (length V) (N.to_nat p)) by (done || lia).
        destruct (N.eqb_spec p INVALID) as [|_]; destruct (N.eqb_spec q INVALID) as [|Hne];
          try done.
        all: destruct Hq as [|Hq]; [done|].
        all: by rewrite (no_links_row adj (length V) (N.to_nat q)) by (done || lia). }
      assert (std_sort [] = []) as -> by (apply Permutation_nil_r, std_sort_perm).
      done. }
    rewrite Hrows by lia. done.
  - intros -> HlN. cbn [copy_sequence] in *.
    rewrite HV, HN, HA. rewrite <- HlA at 3. rewrite <- HlN at 2.
    by rewrite !fmap_lookup_total_all.
Qed.

(** X21: a hierarchy built on a graph without links: no level is smaller
    than the finest one, on the deterministic path every level is a copy
    of it, and [build] makes all [MAX_DEPTH] coarser levels unless the
    graph has a single vertex, in which case it makes one. *)
Theorem build_without_links (deterministic : bool) (h : MultiResolutionHierarchy) :
  finest_level_only h → link_count (mAdj h !!! 0) (size h 0) = 0 →
  let h' := state_of (build deterministic h) in
  (∀ l, l < levels h' →
     size h' l = size h 0 ∧ link_count (mAdj h' !!! l) (size h' l) = 0 ∧
     (deterministic = true →
      mV h' !!! l = mV h !!! 0 ∧ mN h' !!! l = mN h !!! 0 ∧ mA h' !!! l = mA h !!! 0)) ∧
  match build deterministic h with
  | Returns _ =>
      levels h' = if decide (size h 0 = 1) then Nat.min 2 (MAX_DEPTH + 1)
                  else MAX_DEPTH + 1
  | Throws _ _ => deterministic = false
  end.
Proof using copy_order_perm parallel_sort_perm std_sort_perm std_sort_sorted.
  set_aside.
  intros Hfinest Hzero. cbn zeta.
  destruct (build_result deterministic h Hfinest)
    as [(Hdet & e & Hrun) | (h' & i' & Hinv & Hi' & Hsizes & Hfirst & _ & Hrun)].
  { rewrite Hrun. cbn [state_of]. split; [|done].
    unfold levels. rewrite (fl_mV _ Hfinest). intros l Hl. by replace l with 0 by lia. }
  assert (Hstate : state_of (build deterministic h) = h').
  { destruct Hrun as [(Hrun & _) | (_ & _ & e & Hrun)]; by rewrite Hrun. }
  rewrite Hstate. destruct Hfirst as (HAdj0 & HV0 & HN0 & HA0).
  assert (Hall : ∀ l, l ≤ i' →
            size h' l = size h 0 ∧ link_count (mAdj h' !!! l) (size h' l) = 0 ∧
            (deterministic = true →
             mV h' !!! l = mV h !!! 0 ∧ mN h' !!! l = mN h !!! 0 ∧
             mA h' !!! l = mA h !!! 0)).
  { induction l as [|l IH]; intros Hl.
    { unfold size. rewrite HAdj0, HV0. done. }
    destruct (IH ltac:(lia)) as (Hsize & Hlinks & Hcopy).
    destruct (bc_level _ _ _ Hinv l ltac:(lia)) as [Hok HlN].
    destruct (bc_coarsened _ _ _ Hinv l ltac:(lia)) as (HAdj & HV & HN & HA & _).
    destruct (downsample_no_links _ _ (mN h' !!! l) _ deterministic Hok Hlinks)
      as (Hsame & Hlinks' & Hcopy').
    replace (S l) with (l + 1) by lia. unfold size in *.
    rewrite HAdj, HV, HN, HA. split; [lia|]. split; [done|].
    intros Hdet. destruct (Hcopy Hdet) as (<- & <- & <-). by apply Hcopy'. }
  split.
  { intros l Hl. apply Hall. unfold levels in Hl. rewrite (bc_mV _ _ _ Hinv) in Hl. lia. }
  destruct Hrun as [(Hrun & _ & Hstop) | (Hdet & _ & e & Hrun)]; rewrite Hrun; [|done].
  unfold levels. rewrite (bc_mV _ _ _ Hinv).
  destruct (decide (size h 0 = 1)) as [Hone|Hmany].
  - assert (i' ≤ 1).
    { destruct (decide (i' ≤ 1)) as [|Hgt]; [done|].
      destruct (Hall 1 ltac:(lia)) as (Hsize & _).
      destruct (Hsizes 1 ltac:(lia)). unfold size in *. lia. }
    lia.
  - destruct Hstop as [->|[_ Hlast]]; [done|].
    destruct (Hall i' ltac:(lia)) as (Hsize & _). unfold size in *. lia.
Qed.


(** ** Symmetry selection and the empty hierarchy *)

Lemma select_compat_orient_None (rosy : Z) :
  select_compat_orient rosy = None ↔ rosy ≠ 2%Z ∧ rosy ≠ 4%Z ∧ rosy ≠ 6%Z.
Proof.
  unfold select_compat_orient.
  destruct (Z.eqb_spec rosy 2), (Z.eqb_spec rosy 4), (Z.eqb_spec rosy 6);
    split; intros H; try discriminate; try lia; done.
Qed.

Lemma select_compat_pos_None (posy : Z) :
  select_compat_pos posy = None ↔ posy ≠ 3%Z ∧ posy ≠ 4%Z.
Proof.
  unfold select_compat_pos.
  destruct (Z.eqb_spec posy 4), (Z.eqb_spec posy 3);
    split; intros H; try discriminate; try lia; done.
Qed.

(** C10.  On a hierarchy without levels, [clearConstraints] and
    [propagateConstraints] return at once and leave the hierarchy as it
    is, whatever the symmetry arguments are: the test for the empty
    hierarchy comes before the selection of the operators, so unsupported
    values of [rosy] and [posy] raise nothing. *)
Theorem empty_hierarchy_noop (h : MultiResolutionHierarchy) :
  levels h = 0 →
  clearConstraints h = Returns h ∧
  ∀ rosy posy : Z, propagateConstraints rosy posy h = Returns h.
Proof.
  intros H. unfold clearConstraints, propagateConstraints. by rewrite H.
Qed.

(** C8, as the code has it. [propagateSolution] throws exactly when
    [rosy] is none of 2, 4, 6. [propagateConstraints] throws exactly when
    the hierarchy has a level and [rosy] is none of 2, 4, 6 or [posy] is
    none of 3, 4; on a hierarchy without levels it returns. Whenever one
    of them throws, the exception is the unsupported-symmetry error and
    the hierarchy is as it was before the call. *)
Theorem unsupported_symmetry (rosy posy : Z) (h : MultiResolutionHierarchy) :
  ((∃ e h', propagateSolution rosy h = Throws e h') ↔
     (rosy ≠ 2 ∧ rosy ≠ 4 ∧ rosy ≠ 6)%Z) ∧
  ((∃ e h', propagateConstraints rosy posy h = Throws e h') ↔
     levels h ≠ 0 ∧
     ((rosy ≠ 2 ∧ rosy ≠ 4 ∧ rosy ≠ 6)%Z ∨ (posy ≠ 3 ∧ posy ≠ 4)%Z)) ∧
  (∀ e h', propagateSolution rosy h = Throws e h' →
           e = UnsupportedSymmetry ∧ h' = h) ∧
  (∀ e h', propagateConstraints rosy posy h = Throws e h' →
           e = UnsupportedSymmetry ∧ h' = h).
Proof.
  pose proof (select_compat_orient_None rosy) as Hr.
  pose proof (select_compat_pos_None posy) as Hp.
  unfold propagateSolution, propagateConstraints.
  destruct (select_compat_orient rosy) as [co|] eqn:Eco;
    destruct (select_compat_pos posy) as [cp|] eqn:Ecp;
    destruct (Nat.eqb_spec (levels h) 0) as [Hl|Hl];
    (split; [|split; [|split]]);
    try (intros e h' He; by inversion He).
  all: split.
  all: try (intros (e & h' & He); discriminate He).
  all: try (intros _; eauto; fail).
  all: try (intros [? ?]; done).
  all: try (intros _; apply Hr; done).
  all: try (intros H; apply Hr in H; done).
  all: try (intros [_ [H|H]]; [apply Hr in H | apply Hp in H]; done).
  all: try (intros _; split; [done|]).
  all: try (left; apply Hr; done); try (right; apply Hp; done).
Qed.


(** ** Propagation of the solution *)

(** [coarse_tangent] reads [mQ] at level [l] only. *)
Lemma coarse_tangent_ext co h1 h2 l i :
  mToUpper h1 = mToUpper h2 → mN h1 = mN h2 → mQ h1 !!! l = mQ h2 !!! l →
  coarse_tangent co h1 l i = coarse_tangent co h2 l i.
Proof.
  intros Hu Hn Hq. unfold coarse_tangent, toUpper. by rewrite Hu, Hn, Hq.
Qed.

Lemma set_mQ_set_mQ h a b : set_mQ (set_mQ h a) b = set_mQ h b.
Proof. done. Qed.

(** The first [k] iterations of the loop over the vertices of level [l + 1]. *)
Lemma propagate_vertices co l h k :
  l + 1 < length (mQ h) → k ≤ length (mQ h !!! (l + 1)) →
  foldl (propagate_vertex co l) h (range k) =
  set_mQ h (<[l + 1 := (coarse_tangent co h l <$> range k)
                        ++ drop k (mQ h !!! (l + 1))]> (mQ h)).
Proof.
  intros Hl. induction k as [|k IH]; intros Hk.
  - simpl. rewrite drop_0, list_insert_id; [by destruct h|].
    by apply list_lookup_lookup_total_lt.
  - rewrite foldl_range_S, IH by lia. unfold propagate_vertex at 1.
    rewrite set_mQ_set_mQ. f_equal. cbn [mQ set_mQ].
    rewrite list_lookup_total_insert_eq by done.
    rewrite list_insert_insert_eq. f_equal.
    rewrite (coarse_tangent_ext co _ h); cbn [mQ mN mToUpper set_mQ]; try done.
    2: { rewrite list_lookup_total_insert_ne; [done | lia]. }
    rewrite range_S, fmap_app, <- app_assoc.
    rewrite insert_app_r_alt by (rewrite length_fmap, length_range; lia).
    rewrite length_fmap, length_range, Nat.sub_diag. f_equal.
    destruct (drop k (mQ h !!! (l + 1))) as [|x tl] eqn:E.
    { apply (f_equal length) in E. rewrite length_drop in E. simpl in E. lia. }
    simpl. f_equal.
    replace (S k) with (k + 1) by lia. by rewrite <- drop_drop, E.
Qed.

(** One level: the tangents of level [l + 1] are the coarse tangents
    computed from the state at the start of the level. *)
Lemma propagate_level_spec co h l :
  l + 1 < length (mQ h) → length (mQ h !!! (l + 1)) = size h (l + 1) →
  propagate_level co h l =
  set_mQ h (<[l + 1 := coarse_tangent co h l <$> range (size h (l + 1))]> (mQ h)).
Proof.
  intros Hl Hs. unfold propagate_level.
  rewrite propagate_vertices by lia.
  by rewrite <- Hs, drop_all, app_nil_r.
Qed.

(** The first [k] levels of the loop of [propagateSolution]: only [mQ]
    changes, the levels above [k] and level 0 are untouched, and every
    level up to [k] holds the coarse tangents of the level below it. *)
Lemma propagate_levels co h k :
  solution_allocated h → k ≤ levels h - 1 →
  let hk := foldl (propagate_level co) h (range k) in
  hk = set_mQ h (mQ hk) ∧
  length (mQ hk) = length (mQ h) ∧
  (∀ l, length (mQ hk !!! l) = length (mQ h !!! l)) ∧
  (∀ l, k < l ∨ l = 0 → mQ hk !!! l = mQ h !!! l) ∧
  (∀ l c, l < k → c < size h (l + 1) →
     (mQ hk !!! (l + 1)) !!! c = coarse_tangent co hk l c).
Proof.
  intros [HQ HQs]. induction k as [|k IH]; intros Hk; cbn zeta.
  - repeat split; try done; try lia. by destruct h.
  - cbn zeta in IH. rewrite foldl_range_S.
    destruct IH as (Hset & Hlen & Hlens & Hsame & Hdone); [lia|].
    set (hk := foldl (propagate_level co) h (range k)) in *.
    assert (Hsz : ∀ l, size hk l = size h l).
    { intros l. unfold size. by rewrite Hset. }
    rewrite propagate_level_spec.
    2: { rewrite Hlen. lia. }
    2: { rewrite Hsz, Hlens. apply HQs. lia. }
    cbn [mQ set_mQ]. rewrite Hsz.
    repeat split.
    + by rewrite Hset.
    + by rewrite length_insert.
    + intros l. destruct (decide (l = k + 1)) as [->|Hne].
      * rewrite list_lookup_total_insert_eq by (rewrite Hlen; lia).
        rewrite length_fmap, length_range. symmetry. apply HQs. lia.
      * rewrite list_lookup_total_insert_ne by done. apply Hlens.
    + intros l Hl. rewrite list_lookup_total_insert_ne by lia.
      apply Hsame. lia.
    + intros l c Hl Hc.
      assert (Hext : ∀ l', l' ≤ k → ∀ c',
                coarse_tangent co
                  (set_mQ hk (<[k + 1 := coarse_tangent co hk k
                                           <$> range (size h (k + 1))]> (mQ hk))) l' c'
                = coarse_tangent co hk l' c').
      { intros l' Hl' c'. apply coarse_tangent_ext; cbn [mQ mN mToUpper set_mQ]; try done.
        rewrite list_lookup_total_insert_ne; [done | lia]. }
      rewrite Hext by lia.
      destruct (decide (l = k)) as [->|Hne].
      * rewrite list_lookup_total_insert_eq by (rewrite Hlen; lia).
        rewrite (list_lookup_total_fmap (coarse_tangent co hk k))
          by (by rewrite length_range).
        f_equal. unfold range. rewrite lookup_total_seq_lt; [done | lia].
      * rewrite list_lookup_total_insert_ne by lia. apply Hdone; [lia | done].
Qed.

(** The squared length of a normalized vector, times the square of the
    square root, is the squared length of the vector. *)
Lemma normalize_squaredNorm (v : Vector3f) :
  ¬ (sqrtf (squaredNorm v) == 0)%Q →
  (squaredNorm (normalize v) * (sqrtf (squaredNorm v) * sqrtf (squaredNorm v))
   == squaredNorm v)%Q.
Proof.
  intros Hs. unfold normalize, norm.
  set (s := sqrtf (squaredNorm v)) in *.
  unfold squaredNorm, dot, vdiv in *. cbn [vx vy vz] in *.
  by field.
Qed.

(** A normalized vector has length one where [sqrtf] is exact, and
    nowhere else. *)
Lemma normalize_unit_iff (v : Vector3f) :
  (0 < squaredNorm v)%Q →
  (squaredNorm (normalize v) == 1)%Q
  ↔ (sqrtf (squaredNorm v) * sqrtf (squaredNorm v) == squaredNorm v)%Q.
Proof.
  intros Hpos.
  destruct (Qeq_dec (sqrtf (squaredNorm v)) 0) as [Hz|Hnz].
  - split.
    + intros Hunit. exfalso. revert Hunit. unfold normalize, norm.
      unfold squaredNorm, dot, vdiv in *. cbn [vx vy vz] in *.
      rewrite Hz. unfold Qdiv. change (/ 0)%Q with 0%Q. lra.
    + intros Hsq. rewrite Hz in Hsq. lra.
  - pose proof (normalize_squaredNorm v Hnz) as Hid. split.
    + intros Hunit. rewrite Hunit in Hid. lra.
    + intros Hsq. rewrite Hsq in Hid.
      apply (Qmult_inj_r _ _ (squaredNorm v)); [lra | lra].
Qed.

(** With a square root of relative accuracy [eps], the squared length of
    a normalized vector lies between [1 / (1 + eps)] and [1 / (1 - eps)]. *)
Lemma normalize_accuracy (v : Vector3f) (eps : Q) :
  (0 < squaredNorm v)%Q → (0 <= eps)%Q → (eps < 1)%Q →
  ((1 - eps) * squaredNorm v <= sqrtf (squaredNorm v) * sqrtf (squaredNorm v))%Q →
  (sqrtf (squaredNorm v) * sqrtf (squaredNorm v) <= (1 + eps) * squaredNorm v)%Q →
  (1 <= (1 + eps) * squaredNorm (normalize v))%Q ∧
  ((1 - eps) * squaredNorm (normalize v) <= 1)%Q.
Proof.
  intros Hpos H0 H1 Hlo Hhi.
  assert (Hr : (0 < sqrtf (squaredNorm v) * sqrtf (squaredNorm v))%Q).
  { eapply Qlt_le_trans; [|exact Hlo]. apply Qmult_lt_0_compat; lra. }
  assert (Hnz : ¬ (sqrtf (squaredNorm v) == 0)%Q).
  { intros Hz. rewrite Hz in Hr. lra. }
  pose proof (normalize_squaredNorm v Hnz) as Hid.
  set (t := squaredNorm (normalize v)) in *.
  set (r2 := (sqrtf (squaredNorm v) * sqrtf (squaredNorm v))%Q) in *.
  rewrite <- Hid in Hlo, Hhi. split.
  - apply (Qmult_le_r _ _ r2); [done|]. lra.
  - apply (Qmult_le_r _ _ r2); [done|]. lra.
Qed.

(** C4, as the code has it. After [propagateSolution], for every level
    [l] and every vertex [c] of level [l + 1] with parents [(p, q)]: the
    tangent starts as [Q[l][p]] when [q] is [INVALID], and otherwise as
    the sum of the two vectors that the compatibility operator returns
    for the parents; its component along [N[l+1][c]] is removed; when the
    squared norm [s] of the result exceeds [RCPOVERFLOW], the vector is
    stored divided by [sqrtf s]; otherwise the projected vector is
    stored as it is, which need not be the zero vector.  For a threshold
    that is not negative, the stored quotient has length one exactly
    when [sqrtf s] squared is [s]; with a square root of relative
    accuracy [eps], its squared length lies between [1 / (1 + eps)] and
    [1 / (1 - eps)]. *)
Theorem propagateSolution_tangent
    (rosy : Z) (compat_orient : compat_orientation) (h : MultiResolutionHierarchy) :
  (rosy = 2%Z ∧ compat_orient = compat_orientation_extrinsic_2) ∨
  (rosy = 4%Z ∧ compat_orient = compat_orientation_extrinsic_4) ∨
  (rosy = 6%Z ∧ compat_orient = compat_orientation_extrinsic_6) →
  wf_hierarchy h → solution_allocated h →
  ∃ h', propagateSolution rosy h = Returns h' ∧
    ∀ l c, l + 1 < levels h → c < size h (l + 1) →
      let p := (toUpper h l !!! c).1 in
      let q := (toUpper h l !!! c).2 in
      let Q := mQ h' !!! l in
      let N := mN h !!! l in
      let n := (mN h !!! (l + 1)) !!! c in
      let start :=
        if decide (q = INVALID) then at32 Q p
        else vadd (compat_orient (at32 Q p) (at32 N p) (at32 Q q) (at32 N q)).1
                  (compat_orient (at32 Q p) (at32 N p) (at32 Q q) (at32 N q)).2 in
      let projected := vsub start (vscale n (dot n start)) in
      let stored := (mQ h' !!! (l + 1)) !!! c in
      let s := squaredNorm projected in
      ((RCPOVERFLOW < s)%Q →
         stored = vdiv projected (sqrtf s) ∧
         ((0 <= RCPOVERFLOW)%Q →
          ((squaredNorm stored == 1)%Q ↔ (sqrtf s * sqrtf s == s)%Q) ∧
          ∀ eps, (0 <= eps)%Q → (eps < 1)%Q →
            ((1 - eps) * s <= sqrtf s * sqrtf s)%Q →
            (sqrtf s * sqrtf s <= (1 + eps) * s)%Q →
            (1 <= (1 + eps) * squaredNorm stored)%Q ∧
            ((1 - eps) * squaredNorm stored <= 1)%Q)) ∧
      ((s <= RCPOVERFLOW)%Q → stored = projected).
Proof.
  intros Hrosy _ Halloc.
  assert (Hsel : select_compat_orient rosy = Some compat_orient).
  { unfold select_compat_orient.
    destruct Hrosy as [[-> ->]|[[-> ->]|[-> ->]]]; done. }
  unfold propagateSolution. rewrite Hsel. eexists. split; [done|].
  destruct (propagate_levels compat_orient h (levels h - 1) Halloc (le_n _))
    as (Hset & _ & _ & _ & Hdone).
  set (h' := foldl (propagate_level compat_orient) h (range (levels h - 1))) in *.
  intros l c Hl Hc. cbn zeta.
  rewrite (Hdone l c) by (done || lia).
  unfold coarse_tangent, project_normalize, toUpper.
  rewrite Hset. cbn [mQ mN mToUpper set_mQ].
  set (up := (mToUpper h !!! l) !!! c).
  assert (Hstart :
    (if negb (up.2 =? INVALID)%N
     then vadd (compat_orient (at32 (mQ h' !!! l) up.1) (at32 (mN h !!! l) up.1)
                              (at32 (mQ h' !!! l) up.2) (at32 (mN h !!! l) up.2)).1
               (compat_orient (at32 (mQ h' !!! l) up.1) (at32 (mN h !!! l) up.1)
                              (at32 (mQ h' !!! l) up.2) (at32 (mN h !!! l) up.2)).2
     else at32 (mQ h' !!! l) up.1)
    = (if decide (up.2 = INVALID) then at32 (mQ h' !!! l) up.1
       else vadd (compat_orient (at32 (mQ h' !!! l) up.1) (at32 (mN h !!! l) up.1)
                                (at32 (mQ h' !!! l) up.2) (at32 (mN h !!! l) up.2)).1
                 (compat_orient (at32 (mQ h' !!! l) up.1) (at32 (mN h !!! l) up.1)
                                (at32 (mQ h' !!! l) up.2) (at32 (mN h !!! l) up.2)).2)).
  { destruct (N.eqb_spec up.2 INVALID), (decide (up.2 = INVALID)); done. }
  rewrite Hstart. clear Hstart.
  match goal with |- context [Qgtb (squaredNorm ?v) _] => set (projected := v) end.
  split.
  - intros Hgt. apply Qgtb_true in Hgt as Hb. rewrite Hb. split; [done|].
    intros H0. split.
    + apply normalize_unit_iff. lra.
    + intros eps He0 He1 Hlo Hhi. apply normalize_accuracy; [lra | done..].
  - intros Hle. apply Qgtb_false in Hle. by rewrite Hle.
Qed.


(** ** Propagation of the constraints *)

(** [coarse_constraint] reads the constraint arrays at level [l] only. *)
Lemma coarse_constraint_ext co cp h1 h2 l i :
  mToUpper h1 = mToUpper h2 → mN h1 = mN h2 → mV h1 = mV h2 → mScale h1 = mScale h2 →
  mCQ h1 !!! l = mCQ h2 !!! l → mCO h1 !!! l = mCO h2 !!! l →
  mCQw h1 !!! l = mCQw h2 !!! l → mCOw h1 !!! l = mCOw h2 !!! l →
  coarse_constraint co cp h1 l i = coarse_constraint co cp h2 l i.
Proof.
  intros Hu Hn Hv Hs H1 H2 H3 H4. unfold coarse_constraint, toUpper.
  by rewrite Hu, Hn, Hv, Hs, H1, H2, H3, H4.
Qed.

Lemma set_constraints_twice h a b c d a' b' c' d' :
  set_constraints (set_constraints h a b c d) a' b' c' d' = set_constraints h a' b' c' d'.
Proof. done. Qed.

Lemma levels_set_constraints h a b c d : levels (set_constraints h a b c d) = levels h.
Proof. done. Qed.

Lemma size_set_constraints h a b c d l : size (set_constraints h a b c d) l = size h l.
Proof. done. Qed.

(** The first [k] iterations of the loop over the vertices of level [l + 1]. *)
Lemma constrain_vertices co cp l h k :
  l + 1 < length (mCQ h) → l + 1 < length (mCO h) →
  l + 1 < length (mCQw h) → l + 1 < length (mCOw h) →
  k ≤ length (mCQ h !!! (l + 1)) → k ≤ length (mCO h !!! (l + 1)) →
  k ≤ length (mCQw h !!! (l + 1)) → k ≤ length (mCOw h !!! (l + 1)) →
  let r := coarse_constraint co cp h l in
  foldl (constrain_vertex co cp l) h (range k) =
  set_constraints h
    (<[l + 1 := ((λ i, c_cq (r i)) <$> range k) ++ drop k (mCQ h !!! (l + 1))]> (mCQ h))
    (<[l + 1 := ((λ i, c_co (r i)) <$> range k) ++ drop k (mCO h !!! (l + 1))]> (mCO h))
    (<[l + 1 := ((λ i, c_cqw (r i)) <$> range k) ++ drop k (mCQw h !!! (l + 1))]> (mCQw h))
    (<[l + 1 := ((λ i, c_cow (r i)) <$> range k) ++ drop k (mCOw h !!! (l + 1))]> (mCOw h)).
Proof.
  intros L1 L2 L3 L4. induction k as [|k IH]; intros K1 K2 K3 K4; cbn zeta.
  - simpl. rewrite !drop_0.
    rewrite !list_insert_id by (by apply list_lookup_lookup_total_lt).
    by destruct h.
  - cbn zeta in IH. rewrite foldl_range_S, IH by lia.
    unfold constrain_vertex at 1. rewrite set_constraints_twice.
    cbn [mCQ mCO mCQw mCOw set_constraints].
    rewrite !list_lookup_total_insert_eq by done.
    rewrite !list_insert_insert_eq.
    rewrite (coarse_constraint_ext co cp _ h);
      cbn [mCQ mCO mCQw mCOw mN mV mScale mToUpper set_constraints]; try done;
      try (rewrite list_lookup_total_insert_ne; [done | lia]).
    rewrite <- (insert_fmap_range_drop (λ i, c_cq (coarse_constraint co cp h l i))) by lia.
    rewrite <- (insert_fmap_range_drop (λ i, c_co (coarse_constraint co cp h l i))) by lia.
    rewrite <- (insert_fmap_range_drop (λ i, c_cqw (coarse_constraint co cp h l i))) by lia.
    rewrite <- (insert_fmap_range_drop (λ i, c_cow (coarse_constraint co cp h l i))) by lia.
    done.
Qed.

Lemma constrain_level_spec co cp h l :
  constraints_allocated h → l + 1 < levels h →
  let r := coarse_constraint co cp h l in
  constrain_level co cp h l =
  set_constraints h
    (<[l + 1 := (λ i, c_cq (r i)) <$> range (size h (l + 1))]> (mCQ h))
    (<[l + 1 := (λ i, c_co (r i)) <$> range (size h (l + 1))]> (mCO h))
    (<[l + 1 := (λ i, c_cqw (r i)) <$> range (size h (l + 1))]> (mCQw h))
    (<[l + 1 := (λ i, c_cow (r i)) <$> range (size h (l + 1))]> (mCOw h)).
Proof.
  intros [] Hl. cbn zeta. unfold constrain_level.
  rewrite constrain_vertices by (rewrite ?alloc_mCQ_size0, ?alloc_mCO_size0,
                                    ?alloc_mCQw_size0, ?alloc_mCOw_size0; lia).
  rewrite !drop_ge, !app_nil_r; [done|..];
    rewrite ?alloc_mCQ_size0, ?alloc_mCO_size0, ?alloc_mCQw_size0, ?alloc_mCOw_size0; lia.
Qed.

(** The first [k] levels of the loop of [propagateConstraints]. *)
Lemma constrain_levels co cp h k :
  constraints_allocated h → k ≤ levels h - 1 →
  let hk := foldl (constrain_level co cp) h (range k) in
  hk = set_constraints h (mCQ hk) (mCO hk) (mCQw hk) (mCOw hk) ∧
  constraints_allocated hk ∧
  (∀ l, k < l ∨ l = 0 →
     mCQw hk !!! l = mCQw h !!! l ∧ mCOw hk !!! l = mCOw h !!! l) ∧
  (∀ l c, l < k → c < size h (l + 1) →
     (mCQw hk !!! (l + 1)) !!! c = c_cqw (coarse_constraint co cp hk l c) ∧
     (mCOw hk !!! (l + 1)) !!! c = c_cow (coarse_constraint co cp hk l c)).
Proof.
  intros Halloc. induction k as [|k IH]; intros Hk; cbn zeta.
  - repeat split; try done; try lia; try apply Halloc. by destruct h.
  - cbn zeta in IH. rewrite foldl_range_S.
    destruct IH as (Hset & Hallock & Hsame & Hdone); [lia|].
    set (hk := foldl (constrain_level co cp) h (range k)) in *.
    assert (Hlev : levels hk = levels h) by (unfold levels; by rewrite Hset).
    assert (Hsz : ∀ l, size hk l = size h l).
    { intros l. unfold size. by rewrite Hset. }
    rewrite constrain_level_spec by (done || lia).
    rewrite Hsz.
    set (r := coarse_constraint co cp hk k).
    assert (Hext : ∀ l' c', l' ≤ k →
      coarse_constraint co cp
        (set_constraints hk
           (<[k + 1 := (λ i, c_cq (r i)) <$> range (size h (k + 1))]> (mCQ hk))
           (<[k + 1 := (λ i, c_co (r i)) <$> range (size h (k + 1))]> (mCO hk))
           (<[k + 1 := (λ i, c_cqw (r i)) <$> range (size h (k + 1))]> (mCQw hk))
           (<[k + 1 := (λ i, c_cow (r i)) <$> range (size h (k + 1))]> (mCOw hk)))
        l' c' = coarse_constraint co cp hk l' c').
    { intros l' c' Hl'. apply coarse_constraint_ext;
        cbn [mCQ mCO mCQw mCOw mN mV mScale mToUpper set_constraints]; try done;
        rewrite list_lookup_total_insert_ne; (done || lia). }
    destruct Hallock.
    split; [|split; [|split]].
    + by rewrite Hset.
    + split; rewrite ?levels_set_constraints; cbn [mCQ mCO mCQw mCOw set_constraints];
        rewrite ?length_insert; try done;
        intros l Hl; rewrite size_set_constraints, Hsz;
        (destruct (decide (l = k + 1)) as [->|Hne];
         [ rewrite list_lookup_total_insert_eq by lia;
           by rewrite length_fmap, length_range
         | rewrite list_lookup_total_insert_ne by done; rewrite <- Hsz; auto ]).
    + intros l Hl. cbn [mCQw mCOw set_constraints].
      rewrite !list_lookup_total_insert_ne by lia. apply Hsame. lia.
    + intros l c Hl Hc. rewrite Hext by lia.
      cbn [mCQw mCOw set_constraints].
      destruct (decide (l = k)) as [->|Hne].
      * rewrite !list_lookup_total_insert_eq by lia.
        by rewrite !lookup_total_fmap_range.
      * rewrite !list_lookup_total_insert_ne by lia. apply Hdone; [lia | done].
Qed.







(** ** What the propagations keep, and the tangent plane *)

Lemma supported_rosy (rosy : Z) :
  (rosy = 2 ∨ rosy = 4 ∨ rosy = 6)%Z → ∃ co, select_compat_orient rosy = Some co.
Proof.
  unfold select_compat_orient. intros [->|[->| ->]]; cbn; eauto.
Qed.

Lemma supported_posy (posy : Z) :
  (posy = 3 ∨ posy = 4)%Z → ∃ cp, select_compat_pos posy = Some cp.
Proof.
  unfold select_compat_pos. intros [->| ->]; cbn; eauto.
Qed.

(** X22: on a well-formed hierarchy with a solution,
    [propagateSolution] writes the tangents of the coarser levels and
    nothing else: the tangents of level 0 and every other member are
    kept, and so are the sizes of the arrays; with at most one level it
    changes nothing. *)
Theorem propagateSolution_frame (rosy : Z) (h : MultiResolutionHierarchy) :
  (rosy = 2 ∨ rosy = 4 ∨ rosy = 6)%Z → wf_hierarchy h → solution_allocated h →
  ∃ h', propagateSolution rosy h = Returns h' ∧
        h' = set_mQ h (mQ h') ∧
        solution_allocated h' ∧
        mQ h' !!! 0 = mQ h !!! 0 ∧
        (levels h ≤ 1 → h' = h).
Proof.
  set_aside.
  intros [co Hsel]%supported_rosy _ Halloc.
  unfold propagateSolution. rewrite Hsel. eexists. split; [done|].
  destruct (propagate_levels co h (levels h - 1) Halloc (le_n _))
    as (Hset & Hlen & Hlens & Hsame & _).
  set (h' := foldl (propagate_level co) h (range (levels h - 1))) in *.
  split; [done|]. split; [|split].
  - destruct Halloc as [HlQ HlQs].
    assert (Hlev : levels h' = levels h) by (unfold levels; by rewrite Hset).
    split; [by rewrite Hlen, Hlev|].
    intros l Hl. rewrite Hlens. unfold size. rewrite Hset. cbn [mV set_mQ].
    apply HlQs. by rewrite <- Hlev.
  - apply Hsame. by right.
  - intros Hle. unfold h'. by replace (levels h - 1) with 0 by lia.
Qed.

(** The projection of lines 581-584 leaves a vector of the tangent
    plane of a unit normal. *)
Lemma project_normalize_orthogonal (n q : Vector3f) :
  (squaredNorm n == 1)%Q → (dot n (project_normalize n q) == 0)%Q.
Proof.
  clear. intros Hunit. unfold project_normalize.
  assert (Hprojected : (dot n (vsub q (vscale n (dot n q))) == 0)%Q).
  { transitivity (dot n q * (1 - squaredNorm n))%Q.
    - unfold squaredNorm, dot, vsub, vscale. simpl. ring.
    - rewrite Hunit. ring. }
  destruct (Qgtb _ _); [|done].
  unfold normalize. set (p := vsub q (vscale n (dot n q))) in *.
  transitivity (dot n p * / norm p)%Q.
  - unfold dot, vdiv, Qdiv. simpl. ring.
  - rewrite Hprojected. ring.
Qed.

(** X23: after [propagateSolution] on a well-formed hierarchy with a
    solution, the tangent of a coarse vertex with a unit normal lies in
    the tangent plane of that normal. *)
Theorem propagateSolution_tangent_plane (rosy : Z) (h : MultiResolutionHierarchy) :
  (rosy = 2 ∨ rosy = 4 ∨ rosy = 6)%Z → wf_hierarchy h → solution_allocated h →
  ∃ h', propagateSolution rosy h = Returns h' ∧
    ∀ l c, l + 1 < levels h → c < size h (l + 1) →
      let n := (mN h !!! (l + 1)) !!! c in
      let q := (mQ h' !!! (l + 1)) !!! c in
      (squaredNorm n == 1)%Q → (dot n q == 0)%Q.
Proof.
  set_aside.
  intros [co Hsel]%supported_rosy _ Halloc.
  unfold propagateSolution. rewrite Hsel. eexists. split; [done|].
  destruct (propagate_levels co h (levels h - 1) Halloc (le_n _))
    as (Hset & _ & _ & _ & Hdone).
  set (h' := foldl (propagate_level co) h (range (levels h - 1))) in *.
  intros l c Hl Hc. cbn zeta. intros Hunit.
  rewrite (Hdone l c) by (done || lia).
  unfold coarse_tangent. rewrite Hset. cbn [mN set_mQ].
  by apply project_normalize_orthogonal.
Qed.

(** The loop of lines 532-541 up to the level [k]. *)
Lemma clear_levels (h : MultiResolutionHierarchy) (k : nat) :
  length (mCQ h) = levels h → length (mCO h) = levels h →
  length (mCQw h) = levels h → length (mCOw h) = levels h →
  k ≤ levels h →
  let hk := foldl clear_level h (range k) in
  hk = set_constraints h (mCQ hk) (mCO hk) (mCQw hk) (mCOw hk) ∧
  (length (mCQ hk) = levels h ∧ length (mCO hk) = levels h ∧
   length (mCQw hk) = levels h ∧ length (mCOw hk) = levels h) ∧
  (∀ l, k ≤ l →
     mCQ hk !!! l = mCQ h !!! l ∧ mCO hk !!! l = mCO h !!! l ∧
     mCQw hk !!! l = mCQw h !!! l ∧ mCOw hk !!! l = mCOw h !!! l) ∧
  (∀ l, l < k →
     mCQ hk !!! l = eigen_resize (size h l) (mCQ h !!! l) ∧
     mCO hk !!! l = eigen_resize (size h l) (mCO h !!! l) ∧
     mCQw hk !!! l = replicate (size h l) 0%Q ∧
     mCOw hk !!! l = replicate (size h l) 0%Q).
Proof.
  intros HCQ HCO HCQw HCOw. induction k as [|k IH]; intros Hk; cbn zeta.
  { split; [by destruct h|]. split; [done|]. split; [done|]. intros l Hl. lia. }
  rewrite foldl_range_S. cbn zeta in IH.
  destruct IH as (Hset & (HlCQ & HlCO & HlCQw & HlCOw) & Hsame & Hdone); [lia|].
  set (hk := foldl clear_level h (range k)) in *.
  assert (Hsz : ∀ l, size hk l = size h l).
  { intros l. unfold size. by rewrite Hset. }
  destruct (Hsame k (le_n _)) as (HkCQ & HkCO & _).
  unfold clear_level. rewrite Hsz, HkCQ, HkCO.
  cbn [mCQ mCO mCQw mCOw set_constraints].
  split; [by rewrite Hset at 1|]. split; [by rewrite !length_insert|]. split.
  - intros l Hl. rewrite !list_lookup_total_insert_ne by lia. apply Hsame. lia.
  - intros l Hl. destruct (decide (l = k)) as [->|Hne].
    + by rewrite !list_lookup_total_insert_eq by lia.
    + rewrite !list_lookup_total_insert_ne by lia. apply Hdone. lia.
Qed.

Lemma length_eigen_resize {A} `{Inhabited A} (n : nat) (a : list A) :
  length (eigen_resize n a) = n.
Proof.
  unfold eigen_resize. destruct (Nat.eqb_spec (length a) n); [done|].
  apply length_replicate.
Qed.

(** X24: [clearConstraints] gives every level constraint arrays of its
    size and sets all the weights to zero; it changes nothing else, and
    it keeps the constraint vectors of the arrays that had the size of
    their level already. *)
Theorem clearConstraints_allocates (h : MultiResolutionHierarchy) :
  length (mCQ h) = levels h → length (mCO h) = levels h →
  length (mCQw h) = levels h → length (mCOw h) = levels h →
  ∃ h', clearConstraints h = Returns h' ∧
        h' = set_constraints h (mCQ h') (mCO h') (mCQw h') (mCOw h') ∧
        constraints_allocated h' ∧
        ∀ l, l < levels h →
          mCQw h' !!! l = replicate (size h l) 0%Q ∧
          mCOw h' !!! l = replicate (size h l) 0%Q ∧
          (length (mCQ h !!! l) = size h l → mCQ h' !!! l = mCQ h !!! l) ∧
          (length (mCO h !!! l) = size h l → mCO h' !!! l = mCO h !!! l).
Proof.
  intros HCQ HCO HCQw HCOw.
  destruct (clear_levels h (levels h) HCQ HCO HCQw HCOw (le_n _))
    as (Hset & (HlCQ & HlCO & HlCQw & HlCOw) & _ & Hdone).
  unfold clearConstraints. destruct (Nat.eqb_spec (levels h) 0) as [Hzero|Hpos].
  { exists h. split; [done|]. split; [by destruct h|]. split; [|intros l Hl; lia].
    split; try done; intros l Hl; lia. }
  eexists. split; [done|]. cbn zeta in *.
  set (h' := foldl clear_level h (range (levels h))) in *.
  assert (Hlev : levels h' = levels h) by (unfold levels; by rewrite Hset).
  assert (Hsz : ∀ l, size h' l = size h l).
  { intros l. unfold size. by rewrite Hset. }
  split; [done|]. split.
  - split; rewrite ?Hlev; try done; intros l Hl; rewrite Hsz;
      destruct (Hdone l Hl) as (E1 & E2 & E3 & E4);
      rewrite ?E1, ?E2, ?E3, ?E4;
      by rewrite ?length_eigen_resize, ?length_replicate.
  - intros l Hl. destruct (Hdone l Hl) as (E1 & E2 & E3 & E4).
    rewrite E1, E2, E3, E4. split; [done|]. split; [done|].
    unfold eigen_resize. split; intros ->; by rewrite Nat.eqb_refl.
Qed.

(** The loop of lines 620-701 up to the level [k], for the constraint
    vectors: what [constrain_levels] says of the weights. *)
Lemma constrain_levels_vectors co cp h k :
  constraints_allocated h → k ≤ levels h - 1 →
  let hk := foldl (constrain_level co cp) h (range k) in
  (∀ l, k < l ∨ l = 0 → mCQ hk !!! l = mCQ h !!! l ∧ mCO hk !!! l = mCO h !!! l) ∧
  (∀ l, l < k →
     mCQ hk !!! (l + 1)
     = (λ c, c_cq (coarse_constraint co cp hk l c)) <$> range (size h (l + 1)) ∧
     mCO hk !!! (l + 1)
     = (λ c, c_co (coarse_constraint co cp hk l c)) <$> range (size h (l + 1)) ∧
     mCQw hk !!! (l + 1)
     = (λ c, c_cqw (coarse_constraint co cp hk l c)) <$> range (size h (l + 1)) ∧
     mCOw hk !!! (l + 1)
     = (λ c, c_cow (coarse_constraint co cp hk l c)) <$> range (size h (l + 1))).
Proof.
  intros Halloc. induction k as [|k IH]; intros Hk; cbn zeta.
  { split; [done|]. intros l Hl. lia. }
  cbn zeta in IH. rewrite foldl_range_S.
  destruct IH as (Hsame & Hdone); [lia|].
  destruct (constrain_levels co cp h k Halloc ltac:(lia)) as (Hset & Hallock & _).
  cbn zeta in Hset, Hallock.
  set (hk := foldl (constrain_level co cp) h (range k)) in *.
  assert (Hlev : levels hk = levels h) by (unfold levels; by rewrite Hset).
  assert (Hsz : ∀ l, size hk l = size h l).
  { intros l. unfold size. by rewrite Hset. }
  rewrite constrain_level_spec by (done || lia).
  rewrite Hsz.
  set (r := coarse_constraint co cp hk k).
  assert (Hext : ∀ l' c', l' ≤ k →
    coarse_constraint co cp
      (set_constraints hk
         (<[k + 1 := (λ i, c_cq (r i)) <$> range (size h (k + 1))]> (mCQ hk))
         (<[k + 1 := (λ i, c_co (r i)) <$> range (size h (k + 1))]> (mCO hk))
         (<[k + 1 := (λ i, c_cqw (r i)) <$> range (size h (k + 1))]> (mCQw hk))
         (<[k + 1 := (λ i, c_cow (r i)) <$> range (size h (k + 1))]> (mCOw hk)))
      l' c' = coarse_constraint co cp hk l' c').
  { intros l' c' Hl'. apply coarse_constraint_ext;
      cbn [mCQ mCO mCQw mCOw mN mV mScale mToUpper set_constraints]; try done;
      rewrite list_lookup_total_insert_ne; (done || lia). }
  destruct Hallock. cbn [mCQ mCO mCQw mCOw set_constraints]. split.
  - intros l Hl. rewrite !list_lookup_total_insert_ne by lia. apply Hsame. lia.
  - intros l Hl. destruct (decide (l = k)) as [->|Hne].
    + rewrite !list_lookup_total_insert_eq by lia.
      repeat split; apply list_fmap_ext; intros ? c _; by rewrite Hext.
    + rewrite !list_lookup_total_insert_ne by lia.
      destruct (Hdone l ltac:(lia)) as (-> & -> & -> & ->).
      repeat split; apply list_fmap_ext; intros ? c _; by rewrite Hext by lia.
Qed.

(** X25: on a well-formed hierarchy with constraint arrays,
    [propagateConstraints] writes the constraints of the coarser levels
    and nothing else: the constraints of level 0 and every other member
    are kept, and so are the sizes of the arrays. *)
Theorem propagateConstraints_frame (rosy posy : Z) (h : MultiResolutionHierarchy) :
  (rosy = 2 ∨ rosy = 4 ∨ rosy = 6)%Z → (posy = 3 ∨ posy = 4)%Z →
  wf_hierarchy h → constraints_allocated h →
  ∃ h', propagateConstraints rosy posy h = Returns h' ∧
        h' = set_constraints h (mCQ h') (mCO h') (mCQw h') (mCOw h') ∧
        constraints_allocated h' ∧
        (mCQ h' !!! 0 = mCQ h !!! 0 ∧ mCO h' !!! 0 = mCO h !!! 0 ∧
         mCQw h' !!! 0 = mCQw h !!! 0 ∧ mCOw h' !!! 0 = mCOw h !!! 0).
Proof.
  set_aside.
  intros [co Hco]%supported_rosy [cp Hcp]%supported_posy _ Halloc.
  unfold propagateConstraints. rewrite Hco, Hcp.
  destruct (Nat.eqb_spec (levels h) 0) as [Hzero|Hpos].
  { exists h. split; [done|]. split; [by destruct h | done]. }
  eexists. split; [done|].
  destruct (constrain_levels co cp h (levels h - 1) Halloc (le_n _))
    as (Hset & Halloc' & Hsame & _).
  destruct (constrain_levels_vectors co cp h (levels h - 1) Halloc (le_n _))
    as (Hsamev & _).
  cbn zeta in *. split; [done|]. split; [done|].
  destruct (Hsame 0) as [? ?]; [by right|].
  destruct (Hsamev 0) as [? ?]; [by right|]. done.
Qed.

Lemma at32_zero (w : list Q) (v : N) :
  Forall (λ x, (x == 0)%Q) w → (at32 w v == 0)%Q.
Proof.
  intros Hw. unfold at32. rewrite list_lookup_total_alt.
  destruct (w !! N.to_nat v) as [x|] eqn:E; simpl.
  - by eapply (Forall_lookup_1 _ _ _ _ Hw E).
  - done.
Qed.

(** Lines 638-697 for a coarse vertex whose parents have no constraint. *)
Lemma coarse_constraint_none co cp h l i :
  Forall (λ x, (x == 0)%Q) (mCQw h !!! l) →
  Forall (λ x, (x == 0)%Q) (mCOw h !!! l) →
  coarse_constraint co cp h l i = mkConstraint Vector3f_Zero 0 Vector3f_Zero 0.
Proof.
  clear. intros HCQw HCOw. unfold coarse_constraint. cbn zeta.
  assert (Hq : ∀ v, Qneqb (at32 (mCQw h !!! l) v) 0 = false).
  { intros v. unfold Qneqb. apply negb_false_iff, Qeq_bool_iff. by apply at32_zero. }
  assert (Ho : ∀ v, Qneqb (at32 (mCOw h !!! l) v) 0 = false).
  { intros v. unfold Qneqb. apply negb_false_iff, Qeq_bool_iff. by apply at32_zero. }
  rewrite !Hq, !Ho, !andb_false_r. done.
Qed.

(** X26: without constraints on level 0 there are none on the coarser
    levels: when all the weights of level 0 are zero, [propagateConstraints]
    on a well-formed hierarchy leaves zero weights and zero vectors on
    every coarser level. *)
Theorem propagateConstraints_none (rosy posy : Z) (h : MultiResolutionHierarchy) :
  (rosy = 2 ∨ rosy = 4 ∨ rosy = 6)%Z → (posy = 3 ∨ posy = 4)%Z →
  wf_hierarchy h → constraints_allocated h →
  Forall (λ w, (w == 0)%Q) (mCQw h !!! 0) →
  Forall (λ w, (w == 0)%Q) (mCOw h !!! 0) →
  ∃ h', propagateConstraints rosy posy h = Returns h' ∧
    ∀ l, 0 < l < levels h →
      mCQ h' !!! l = replicate (size h l) Vector3f_Zero ∧
      mCO h' !!! l = replicate (size h l) Vector3f_Zero ∧
      mCQw h' !!! l = replicate (size h l) 0%Q ∧
      mCOw h' !!! l = replicate (size h l) 0%Q.
Proof.
  set_aside.
  intros [co Hco]%supported_rosy [cp Hcp]%supported_posy _ Halloc HCQw HCOw.
  unfold propagateConstraints. rewrite Hco, Hcp.
  destruct (Nat.eqb_spec (levels h) 0) as [Hzero|Hpos].
  { exists h. split; [done|]. intros l Hl. lia. }
  eexists. split; [done|].
  destruct (constrain_levels co cp h (levels h - 1) Halloc (le_n _))
    as (_ & _ & Hsame & _).
  destruct (constrain_levels_vectors co cp h (levels h - 1) Halloc (le_n _))
    as (_ & Hdone).
  cbn zeta in *.
  set (h' := foldl (constrain_level co cp) h (range (levels h - 1))) in *.
  assert (Hzero : ∀ l, l < levels h →
            Forall (λ x, (x == 0)%Q) (mCQw h' !!! l) ∧
            Forall (λ x, (x == 0)%Q) (mCOw h' !!! l) ∧
            (0 < l →
             mCQ h' !!! l = replicate (size h l) Vector3f_Zero ∧
             mCO h' !!! l = replicate (size h l) Vector3f_Zero ∧
             mCQw h' !!! l = replicate (size h l) 0%Q ∧
             mCOw h' !!! l = replicate (size h l) 0%Q)).
  { induction l as [|l IH]; intros Hl.
    { destruct (Hsame 0) as [-> ->]; [by right|]. split; [done|]. split; [done|]. lia. }
    destruct (IH ltac:(lia)) as (IHq & IHo & _).
    destruct (Hdone l ltac:(lia)) as (HCQ & HCO & HQw & HOw).
    replace (S l) with (l + 1) by lia.
    rewrite HCQ, HCO, HQw, HOw.
    rewrite (const_fmap (λ c, c_cq _) _ Vector3f_Zero)
      by (intros ? c _; by rewrite coarse_constraint_none).
    rewrite (const_fmap (λ c, c_co _) _ Vector3f_Zero)
      by (intros ? c _; by rewrite coarse_constraint_none).
    rewrite (const_fmap (λ c, c_cqw _) _ 0%Q)
      by (intros ? c _; by rewrite coarse_constraint_none).
    rewrite (const_fmap (λ c, c_cow _) _ 0%Q)
      by (intros ? c _; by rewrite coarse_constraint_none).
    rewrite !length_range.
    split; [|split; [|done]]; by apply Forall_replicate. }
  intros l Hl. destruct (Hzero l ltac:(lia)) as (_ & _ & Hl'). apply Hl'. lia.
Qed.


(** A vector that [!=] does not tell from zero is orthogonal to
    everything. *)
Lemma vneqb_zero_dot (n q : Vector3f) :
  vneqb q Vector3f_Zero = false → (dot n q == 0)%Q.
Proof.
  unfold vneqb. intros Hq. apply negb_false_iff in Hq.
  apply andb_true_iff in Hq as [Hq Hz]. apply andb_true_iff in Hq as [Hx Hy].
  apply Qeq_bool_iff in Hx, Hy, Hz. cbn [vx vy vz Vector3f_Zero] in Hx, Hy, Hz.
  unfold dot. rewrite Hx, Hy, Hz. ring.
Qed.

(** Lines 657-663: the orientation constraint of a coarse vertex with a
    unit normal lies in the tangent plane. *)
Lemma coarse_constraint_orthogonal co cp h (l i : nat) :
  let n := (mN h !!! (l + 1)) !!! i in
  (squaredNorm n == 1)%Q → (dot n (c_cq (coarse_constraint co cp h l i)) == 0)%Q.
Proof.
  cbn zeta. intros Hunit. unfold coarse_constraint. cbn zeta.
  match goal with
  | |- context [let '(cq, cqw) := ?X in _] => destruct X as [cq cqw]
  end.
  match goal with
  | |- context [let '(co, cow) := ?X in _] => destruct X as [co' cow]
  end.
  cbn [c_cq]. destruct (vneqb cq Vector3f_Zero) eqn:E.
  - by apply project_normalize_orthogonal.
  - by apply vneqb_zero_dot.
Qed.

(** X27: after [propagateConstraints] on a well-formed hierarchy, the
    orientation constraint of a coarse vertex with a unit normal lies in
    the tangent plane of that normal. *)
Theorem propagateConstraints_tangent_plane (rosy posy : Z)
    (h : MultiResolutionHierarchy) :
  (rosy = 2 ∨ rosy = 4 ∨ rosy = 6)%Z → (posy = 3 ∨ posy = 4)%Z →
  wf_hierarchy h → constraints_allocated h →
  ∃ h', propagateConstraints rosy posy h = Returns h' ∧
    ∀ l c, l + 1 < levels h → c < size h (l + 1) →
      let n := (mN h !!! (l + 1)) !!! c in
      let cq := (mCQ h' !!! (l + 1)) !!! c in
      (squaredNorm n == 1)%Q → (dot n cq == 0)%Q.
Proof.
  set_aside.
  intros [co Hco]%supported_rosy [cp Hcp]%supported_posy _ Halloc.
  unfold propagateConstraints. rewrite Hco, Hcp.
  destruct (Nat.eqb_spec (levels h) 0) as [Hzero|Hpos].
  { exists h. split; [done|]. intros l c Hl. lia. }
  eexists. split; [done|].
  destruct (constrain_levels co cp h (levels h - 1) Halloc (le_n _)) as (Hset & _).
  destruct (constrain_levels_vectors co cp h (levels h - 1) Halloc (le_n _))
    as (_ & Hdone).
  cbn zeta in *.
  set (h' := foldl (constrain_level co cp) h (range (levels h - 1))) in *.
  intros l c Hl Hc. cbn zeta. intros Hunit.
  destruct (Hdone l ltac:(lia)) as (-> & _).
  rewrite lookup_total_fmap_range by done.
  replace (mN h) with (mN h') in * by (by rewrite Hset).
  by apply coarse_constraint_orthogonal.
Qed.


(** ** The random solution ([resetSolution]) *)

Section random_solution_facts.

Variable coordinate_system : Vector3f → Vector3f * Vector3f.
Variable pcg32_float : nat → Q.
Variables cosf sinf : Q → Q.
Variable M_PI : Q.

(** Writing [f i] at every index of [l]. *)
Lemma write_all_lookup {A} `{Inhabited A} (f : nat → A) (l : list nat) :
  ∀ a, length (foldl (λ a i, <[i := f i]> a) a l) = length a ∧
       ∀ i, i < length a →
            foldl (λ a i, <[i := f i]> a) a l !!! i
            = if decide (i ∈ l) then f i else a !!! i.
Proof.
  induction l as [|j l IH]; intros a.
  { split; [done|]. intros i Hi. by rewrite decide_False by apply not_elem_of_nil. }
  cbn [foldl]. destruct (IH (<[j := f j]> a)) as [Hlen Hget].
  rewrite length_insert in Hlen, Hget. split; [done|].
  intros i Hi. rewrite (Hget i Hi).
  destruct (decide (i = j)) as [->|Hne].
  - rewrite (decide_True (P := j ∈ j :: l)) by left.
    rewrite list_lookup_total_insert_eq by done. by destruct (decide _).
  - rewrite list_lookup_total_insert_ne by done.
    destruct (decide (i ∈ l)) as [Hin|Hin].
    + by rewrite decide_True by by right.
    + rewrite decide_False; [done|]. by intros [?|?]%elem_of_cons.
Qed.

Lemma write_all {A} `{Inhabited A} (f : nat → A) (l : list nat) (a : list A) :
  l ≡ₚ range (length a) →
  foldl (λ a i, <[i := f i]> a) a l = f <$> range (length a).
Proof.
  intros Hperm. destruct (write_all_lookup f l a) as [Hlen Hget].
  apply list_eq_same_length with (length a);
    [by rewrite length_fmap, length_range | done |].
  intros i x y Hi Hx Hy.
  apply list_lookup_total_correct in Hx, Hy.
  rewrite Hget in Hx by done. rewrite lookup_total_fmap_range in Hy by done.
  rewrite decide_True in Hx; [congruence|].
  rewrite Hperm. by apply elem_of_range.
Qed.

Lemma foldl_concat {A B} (g : A → B → A) (ls : list (list B)) (a : A) :
  foldl g a (concat ls) = foldl (λ a l, foldl g a l) a ls.
Proof.
  clear. revert a. induction ls as [|l ls IH]; intros a; [done|].
  cbn [concat foldl]. by rewrite foldl_app, IH.
Qed.

Lemma foldl_pointwise {A B} (f g : A → B → A) (l : list B) (a : A) :
  (∀ a x, f a x = g a x) → foldl f a l = foldl g a l.
Proof.
  clear. intros Hfg. revert a. induction l as [|x l IH]; intros a; [done|].
  cbn [foldl]. by rewrite Hfg, IH.
Qed.

(** The generator of a range is at the step [i] when the body treats the
    vertex [i]. *)
Lemma tangent_body_spec (N Q : list Vector3f) (r : nat * nat) :
  tangent_body coordinate_system pcg32_float cosf sinf M_PI N Q r
  = foldl (λ a i, <[i := random_tangent coordinate_system pcg32_float cosf sinf M_PI N i]> a)
          Q (seq r.1 (r.2 - r.1)).
Proof.
  unfold tangent_body. generalize (r.2 - r.1) as k. intros k. revert Q.
  generalize r.1 as b. clear r.
  induction k as [|k IH]; intros b Q; [done|].
  cbn [seq foldl]. unfold tangent_step at 2, random_tangent at 2. cbn [fst snd].
  destruct (coordinate_system (N !!! b)) as [s t]. cbn [fst snd].
  replace (b + 1) with (S b) by lia. apply IH.
Qed.

(** X28: [init_random_tangent] gives the vertex [i] the tangent that the
    float number [i] of the generator selects, whatever the ranges of
    the parallel loop and whatever [Q] held before. *)
Theorem init_random_tangent_blocks (ranges : list (nat * nat)) (N Q : list Vector3f) :
  blocked_ranges ranges (length N) →
  init_random_tangent coordinate_system pcg32_float cosf sinf M_PI ranges N Q
  = random_tangent coordinate_system pcg32_float cosf sinf M_PI N <$> range (length N).
Proof.
  intros [_ Hcover]. unfold init_random_tangent.
  rewrite (foldl_pointwise _
             (λ a r, foldl (λ a i, <[i := random_tangent coordinate_system
                                      pcg32_float cosf sinf M_PI N i]> a)
                           a (seq r.1 (r.2 - r.1))))
    by (intros; apply tangent_body_spec).
  rewrite <- (list.foldl_fmap
                (λ a l, foldl (λ a i, <[i := random_tangent coordinate_system
                                          pcg32_float cosf sinf M_PI N i]> a) a l)
                _ _ (λ r, seq r.1 (r.2 - r.1))).
  rewrite <- foldl_concat.
  rewrite <- (length_eigen_resize (length N) Q) at 2.
  apply write_all. by rewrite length_eigen_resize.
Qed.

(** The generator of a range is at the step [2 i] when the body treats
    the vertex [i], as long as [2 * begin] fits 32 bits. *)
Lemma position_body_spec (P N O : list Vector3f) (scale : Q) (r : nat * nat) :
  r.2 - r.1 = 0 ∨ (2 * N.of_nat r.1 < 2 ^ 32)%N →
  position_body coordinate_system pcg32_float P N scale O r
  = foldl (λ a i, <[i := random_position coordinate_system pcg32_float P N scale i]> a)
          O (seq r.1 (r.2 - r.1)).
Proof.
  unfold position_body. intros [-> | Hfit]; [done|].
  rewrite N.mod_small by done.
  replace (N.to_nat (2 * N.of_nat r.1)) with (2 * r.1) by lia.
  generalize (r.2 - r.1) as k. intros k. revert O.
  generalize r.1 as b. clear r Hfit.
  induction k as [|k IH]; intros b O; [done|].
  cbn [seq foldl]. unfold position_step at 2, random_position at 2. cbn [fst snd].
  destruct (coordinate_system (N !!! b)) as [s t]. cbn [fst snd].
  replace (2 * b + 2) with (2 * S b) by lia. apply IH.
Qed.

(** X29: [init_random_position] moves the vertex [i] by the floats number
    [2 i] and [2 i + 1] of the generator, whatever the ranges of the
    parallel loop and whatever [O] held before, on a level of at most
    [2^31] vertices with one position per normal. *)
Theorem init_random_position_blocks (ranges : list (nat * nat))
    (P N O : list Vector3f) (scale : Q) :
  blocked_ranges ranges (length N) → length P = length N →
  (N.of_nat (length N) <= 2 ^ 31)%N →
  init_random_position coordinate_system pcg32_float ranges P N O scale
  = random_position coordinate_system pcg32_float P N scale <$> range (length N).
Proof.
  intros [Hle Hcover] _ Hsmall. unfold init_random_position.
  assert (Hfit : Forall (λ r, r.2 - r.1 = 0 ∨ (2 * N.of_nat r.1 < 2 ^ 32)%N) ranges).
  { apply list.Forall_forall. intros r Hr.
    destruct (decide (r.2 - r.1 = 0)) as [|Hne]; [by left | right].
    assert (r.1 ∈ range (length N)) as Hin%elem_of_range.
    { rewrite <- Hcover. apply elem_of_concat.
      exists (seq r.1 (r.2 - r.1)). split; [|apply list_elem_of_fmap; by exists r].
      apply elem_of_seq. lia. }
    change (2 ^ 32)%N with (2 * 2 ^ 31)%N. lia. }
  assert (Hbodies : ∀ a,
    foldl (position_body coordinate_system pcg32_float P N scale) a ranges
    = foldl (λ a r, foldl (λ a i, <[i := random_position coordinate_system
                                     pcg32_float P N scale i]> a)
                          a (seq r.1 (r.2 - r.1))) a ranges).
  { clear Hle Hcover. induction Hfit as [|r ranges Hr _ IH]; intros a; [done|].
    cbn [foldl]. by rewrite position_body_spec, IH. }
  rewrite Hbodies.
  rewrite <- (list.foldl_fmap
                (λ a l, foldl (λ a i, <[i := random_position coordinate_system
                                          pcg32_float P N scale i]> a) a l)
                _ _ (λ r, seq r.1 (r.2 - r.1))).
  rewrite <- foldl_concat.
  rewrite <- (length_eigen_resize (length N) O) at 2.
  apply write_all. by rewrite length_eigen_resize.
Qed.

(** The bodies keep the size that the resize gave the array. *)
Lemma length_init_random_tangent (ranges : list (nat * nat)) (N Q : list Vector3f) :
  length (init_random_tangent coordinate_system pcg32_float cosf sinf M_PI ranges N Q)
  = length N.
Proof.
  unfold init_random_tangent.
  rewrite <- (length_eigen_resize (length N) Q) at 2.
  generalize (eigen_resize (length N) Q) as a.
  induction ranges as [|r ranges IH]; intros a; [done|].
  cbn [foldl]. rewrite IH, tangent_body_spec.
  apply (write_all_lookup _ (seq r.1 (r.2 - r.1)) a).
Qed.

Lemma length_init_random_position (ranges : list (nat * nat)) (P N O : list Vector3f)
    (scale : Q) :
  length (init_random_position coordinate_system pcg32_float ranges P N O scale)
  = length N.
Proof.
  unfold init_random_position.
  rewrite <- (length_eigen_resize (length N) O) at 2.
  generalize (eigen_resize (length N) O) as a.
  induction ranges as [|r ranges IH]; intros a; [done|].
  cbn [foldl]. rewrite IH. unfold position_body.
  generalize (N.to_nat ((2 * N.of_nat r.1) mod 2 ^ 32)%N) as p.
  generalize (seq r.1 (r.2 - r.1)) as l. clear IH. intros l. revert a.
  induction l as [|i l IH]; intros a p; [done|].
  cbn [foldl]. unfold position_step at 2.
  destruct (coordinate_system (N !!! i)) as [s t]. cbn [fst snd].
  rewrite IH. apply length_insert.
Qed.

Lemma length_vector_resize (n : nat) (l : list (list Vector3f)) :
  length (vector_resize n l) = n.
Proof.
  unfold vector_resize. rewrite length_app, length_take, length_replicate. lia.
Qed.

Lemma lookup_total_vector_resize (n : nat) (l : list (list Vector3f)) (i : nat) :
  i < n → vector_resize n l !!! i = l !!! i.
Proof.
  intros Hi. unfold vector_resize. destruct (decide (i < length l)) as [Hlt|Hge].
  - rewrite lookup_total_app_l by (rewrite length_take; lia).
    by rewrite lookup_total_take_lt.
  - rewrite lookup_total_app_r by (rewrite length_take; lia).
    rewrite lookup_total_replicate_2 by (rewrite length_take; lia).
    rewrite list_lookup_total_alt, lookup_ge_None_2 by lia. done.
Qed.

(** The loop of lines 505-508 up to the level [k]. *)
Lemma reset_levels (rangesQ rangesO : nat → list (nat * nat))
    (h : MultiResolutionHierarchy) (k : nat) :
  k ≤ length (mQ h) → k ≤ length (mO h) →
  let hk := foldl (reset_level coordinate_system pcg32_float cosf sinf M_PI
                               rangesQ rangesO) h (range k) in
  hk = set_solution h (mQ hk) (mO hk) (mFrozenQ h) (mFrozenO h) ∧
  length (mQ hk) = length (mQ h) ∧ length (mO hk) = length (mO h) ∧
  (∀ l, k ≤ l → mQ hk !!! l = mQ h !!! l ∧ mO hk !!! l = mO h !!! l) ∧
  (∀ l, l < k →
     mQ hk !!! l
     = init_random_tangent coordinate_system pcg32_float cosf sinf M_PI
                           (rangesQ l) (mN h !!! l) (mQ h !!! l) ∧
     mO hk !!! l
     = init_random_position coordinate_system pcg32_float
                            (rangesO l) (mV h !!! l) (mN h !!! l) (mO h !!! l)
                            (mScale h)).
Proof.
  induction k as [|k IH]; intros HkQ HkO; cbn zeta.
  { split; [by destruct h|]. split; [done|]. split; [done|]. split; [done|].
    intros l Hl. lia. }
  rewrite foldl_range_S. cbn zeta in IH.
  destruct IH as (Hset & HlQ & HlO & Hsame & Hdone); [lia | lia |].
  set (hk := foldl _ h (range k)) in *.
  destruct (Hsame k (le_n _)) as [HQk HOk].
  unfold reset_level. rewrite HQk, HOk.
  replace (mN hk) with (mN h) by (by rewrite Hset).
  replace (mV hk) with (mV h) by (by rewrite Hset).
  replace (mScale hk) with (mScale h) by (by rewrite Hset).
  replace (mFrozenQ hk) with (mFrozenQ h) by (by rewrite Hset).
  replace (mFrozenO hk) with (mFrozenO h) by (by rewrite Hset).
  cbn [mQ mO set_solution].
  split; [by rewrite Hset at 1|]. rewrite !length_insert.
  split; [done|]. split; [done|]. split.
  - intros l Hl. rewrite !list_lookup_total_insert_ne by lia. apply Hsame. lia.
  - intros l Hl. destruct (decide (l = k)) as [->|Hne].
    + by rewrite !list_lookup_total_insert_eq by lia.
    + rewrite !list_lookup_total_insert_ne by lia. apply Hdone. lia.
Qed.

(** X30: [resetSolution] gives every level a tangent and a position per
    vertex, those of [init_random_tangent] and [init_random_position] for
    the normals and positions of the level; it unfreezes the solution and
    changes nothing else. *)
Theorem resetSolution_allocates (rangesQ rangesO : nat → list (nat * nat))
    (h : MultiResolutionHierarchy) :
  length (mN h) = levels h → (∀ l, l < levels h → length (mN h !!! l) = size h l) →
  length (mO h) = length (mQ h) →
  let h' := resetSolution coordinate_system pcg32_float cosf sinf M_PI
                          rangesQ rangesO h in
  h' = set_solution h (mQ h') (mO h') false false ∧
  solution_allocated h' ∧
  length (mO h') = levels h ∧
  ∀ l, l < levels h →
    length (mO h' !!! l) = size h l ∧
    mQ h' !!! l
    = init_random_tangent coordinate_system pcg32_float cosf sinf M_PI
                          (rangesQ l) (mN h !!! l) (mQ h !!! l) ∧
    mO h' !!! l
    = init_random_position coordinate_system pcg32_float
                           (rangesO l) (mV h !!! l) (mN h !!! l) (mO h !!! l)
                           (mScale h).
Proof.
  intros HlN HlNs HlO. cbn zeta. unfold resetSolution.
  set (h0 := if negb (length (mQ h) =? length (mV h)) then _ else h).
  assert (Hh0 : h0 = set_solution h (mQ h0) (mO h0) (mFrozenQ h) (mFrozenO h) ∧
                length (mQ h0) = levels h ∧ length (mO h0) = levels h ∧
                ∀ l, l < levels h →
                     mQ h0 !!! l = mQ h !!! l ∧ mO h0 !!! l = mO h !!! l).
  { unfold h0, levels. destruct (Nat.eqb_spec (length (mQ h)) (length (mV h))) as [E|E];
      cbn [negb].
    - split; [by destruct h|]. split; [done|]. split; [lia | done].
    - cbn [mQ mO set_solution]. rewrite !length_vector_resize.
      split; [done|]. split; [done|]. split; [done|].
      intros l Hl. by rewrite !lookup_total_vector_resize. }
  destruct Hh0 as (Hset0 & HlQ0 & HlO0 & Hsame0).
  assert (HV0 : mV h0 = mV h) by (by rewrite Hset0).
  rewrite HV0. fold (levels h).
  destruct (reset_levels rangesQ rangesO h0 (levels h) ltac:(lia) ltac:(lia))
    as (Hset & HlQ & HlO' & _ & Hdone).
  cbn zeta in *.
  set (hk := foldl _ h0 (range (levels h))) in *.
  cbn [mQ mO set_solution].
  assert (Hlevel : ∀ l, l < levels h →
            mQ hk !!! l
            = init_random_tangent coordinate_system pcg32_float cosf sinf M_PI
                                  (rangesQ l) (mN h !!! l) (mQ h !!! l) ∧
            mO hk !!! l
            = init_random_position coordinate_system pcg32_float
                                   (rangesO l) (mV h !!! l) (mN h !!! l) (mO h !!! l)
                                   (mScale h)).
  { intros l Hl. destruct (Hdone l Hl) as [HQ HO].
    destruct (Hsame0 l Hl) as [EQ EO]. rewrite EQ, EO in *.
    replace (mN h0) with (mN h) in * by (by rewrite Hset0).
    replace (mV h0) with (mV h) in * by (by rewrite Hset0).
    replace (mScale h0) with (mScale h) in * by (by rewrite Hset0).
    done. }
  split; [by rewrite Hset, Hset0|]. split; [|split].
  - unfold solution_allocated, levels, size. cbn [mQ mV set_solution].
    replace (mV hk) with (mV h) by (by rewrite Hset, Hset0).
    split; [by rewrite HlQ, HlQ0|]. intros l Hl.
    destruct (Hlevel l Hl) as [-> _]. rewrite length_init_random_tangent.
    by apply HlNs.
  - by rewrite HlO', HlO0.
  - intros l Hl. destruct (Hlevel l Hl) as [HQ HO]. rewrite HQ, HO.
    rewrite length_init_random_position. split; [by apply HlNs | done].
Qed.

End random_solution_facts.

End Hierarchy.


(** * Examples *)

(** ** The checks that compute are sound *)

Lemma wf_adjacencyb_sound (adj : AdjacencyMatrix) (n : nat) :
  wf_adjacencyb adj n = true → wf_adjacency adj n.
Proof.
  unfold wf_adjacencyb. rewrite !andb_true_iff, !forallb_forall.
  intros [[[Hlen Hmono] Hbound] Hids]. split.
  - by apply Nat.leb_le.
  - intros i Hi. apply Nat.leb_le, Hmono, list_elem_of_In, elem_of_range. done.
  - by apply Nat.leb_le.
  - intros u v Hu (link & Hlink & <-)%edge_link.
    apply N.ltb_lt. specialize (Hids (N.to_nat u)).
    rewrite forallb_forall in Hids. apply Hids.
    + apply list_elem_of_In, elem_of_range. lia.
    + by apply list_elem_of_In.
Qed.

Lemma no_self_loopsb_sound (adj : AdjacencyMatrix) (n : nat) :
  no_self_loopsb adj n = true → no_self_loops adj n.
Proof.
  unfold no_self_loopsb. rewrite forallb_forall.
  intros Hrows u Hu (link & Hlink & Hid)%edge_link.
  specialize (Hrows (N.to_nat u)). rewrite forallb_forall in Hrows.
  assert (negb (id link =? N.of_nat (N.to_nat u))%N = true) as Hne.
  { apply Hrows; [apply list_elem_of_In, elem_of_range; lia | by apply list_elem_of_In]. }
  apply negb_true_iff, N.eqb_neq in Hne. lia.
Qed.

Lemma symmetricb_sound (adj : AdjacencyMatrix) (n : nat) :
  symmetricb adj n = true → symmetric adj n.
Proof.
  unfold symmetricb. rewrite forallb_forall.
  intros Hrows u v Hu Hv (link & Hlink & <-)%edge_link.
  specialize (Hrows (N.to_nat u)). rewrite forallb_forall in Hrows.
  assert (existsb (λ back, (id back =? N.of_nat (N.to_nat u))%N)
                  (adj_row adj (N.to_nat (id link))) = true) as Hback.
  { apply Hrows; [apply list_elem_of_In, elem_of_range; lia | by apply list_elem_of_In]. }
  apply existsb_exists in Hback as (back & Hin & Hid%N.eqb_eq).
  apply edge_link. exists back. split; [by apply list_elem_of_In | lia].
Qed.

(** ** The sample collaborators keep their contracts *)

Lemma Link_le_transitive : Transitive Link_le.
Proof. intros a b c. unfold Link_le. lia. Qed.

Lemma Link_le_total : Total Link_le.
Proof. intros a b. unfold Link_le. lia. Qed.

Lemma sample_parallel_sort_perm (l : list Entry) : sample_parallel_sort l ≡ₚ l.
Proof. apply stable_sort_perm. Qed.


Lemma sample_copy_order_perm (n : nat) : range n ≡ₚ range n.
Proof. done. Qed.

Lemma sample_std_sort_perm (l : list Link) : sample_std_sort l ≡ₚ l.
Proof. apply merge_sort_Permutation. Qed.

Lemma sample_std_sort_sorted (l : list Link) : StronglySorted Link_le (sample_std_sort l).
Proof.
  apply (@StronglySorted_merge_sort _ Link_le _ Link_le_transitive Link_le_total).
Qed.

(** ** Colorings *)

Lemma identity_is_permutation (n : nat) : is_permutation (identity_perm n) n.
Proof. unfold is_permutation, identity_perm. reflexivity. Qed.



Lemma coloring_exhausted_witness :
  is_schedule (Parallel.serial 3) 3 1 ∧
  match generate_graph_coloring (clique 3) 3 (identity_perm 3) 1 (Parallel.serial 3) with
  | inl e => e = ColoringExhausted
  | inr phases => length phases ≤ 254
  end.
Proof.
  split; [apply serial_is_schedule|].
  refine (proj1 (coloring_exhausted (clique 3) 3 (identity_perm 3) 1 (Parallel.serial 3)
                   _ _ _ (identity_is_permutation 3) (serial_is_schedule 3))).
  - apply wf_adjacencyb_sound. reflexivity.
  - apply symmetricb_sound. reflexivity.
  - apply no_self_loopsb_sound. reflexivity.
Defined.

(** The deterministic coloring of the clique of 255 vertices returns 255
    phases; the parallel coloring of the same graph throws. *)
Lemma deterministic_coloring_returns :
  length (generate_graph_coloring_deterministic (clique 255) 255 (identity_perm 255)) = 255 ∧
  generate_graph_coloring (clique 255) 255 (identity_perm 255) 1 (Parallel.serial 255)
  = inl ColoringExhausted.
Proof. split; vm_compute; reflexivity. Qed.

(** ** Downsampling *)

(** The step on a level, with the sample constants and collaborators. *)
Abbreviation sample_downsample adj n deterministic :=
  (downsample_graph sample_INVALID sample_RCPOVERFLOW sample_sqrtf sample_parallel_sort
                    sample_std_sort range adj
                    (line_positions n) (flat_normals n) (unit_areas n) deterministic)
  (only parsing).

Lemma clique_wf_3 : wf_adjacency (clique 3) (length (line_positions 3)).
Proof. apply wf_adjacencyb_sound. reflexivity. Qed.

Lemma clique_no_self_loops_3 : no_self_loops (clique 3) (length (line_positions 3)).
Proof. apply no_self_loopsb_sound. reflexivity. Qed.

Lemma downsample_count_witness :
  wf_adjacency (clique 3) 3 ∧ no_self_loops (clique 3) 3 ∧
  length (V_p (sample_downsample (clique 3) 3 true).2) ≤ 3 ∧
  3 ≤ 2 * length (V_p (sample_downsample (clique 3) 3 true).2).
Proof.
  split; [exact clique_wf_3|]. split; [exact clique_no_self_loops_3|].
  pose proof (downsample_count sample_INVALID sample_RCPOVERFLOW sample_sqrtf
                sample_parallel_sort sample_std_sort range sample_parallel_sort_perm
                (clique 3) (line_positions 3) (flat_normals 3) (unit_areas 3) true
                clique_wf_3 clique_no_self_loops_3) as (Hle & Hhalf & _).
  split; [exact Hle | exact Hhalf].
Defined.

(** Two isolated vertices stay two vertices. *)
Lemma isolated_pair_not_reduced :
  1 < length (line_positions 2) ∧
  length (V_p (sample_downsample isolated_pair 2 true).2) = length (line_positions 2) ∧
  length (V_p (sample_downsample isolated_pair 2 false).2) = length (line_positions 2).
Proof. split; [vm_compute; lia|]. split; vm_compute; reflexivity. Qed.







Lemma coarse_adjacency_merged_witness :
  (N.of_nat 3 <= sample_INVALID)%N ∧
  0 < length (V_p (sample_downsample (clique 3) 3 true).2) ∧
  (0%N ∉ id <$> adj_row (sample_downsample (clique 3) 3 true).1 0) ∧
  NoDup (id <$> adj_row (sample_downsample (clique 3) 3 true).1 0).
Proof.
  assert (Hbound : (N.of_nat (length (line_positions 3)) <= sample_INVALID)%N)
    by (vm_compute; discriminate).
  assert (Hi : 0 < length (V_p (sample_downsample (clique 3) 3 true).2))
    by (vm_compute; lia).
  split; [exact Hbound|]. split; [exact Hi|].
  pose proof (coarse_adjacency_merged sample_INVALID sample_RCPOVERFLOW sample_sqrtf
                sample_parallel_sort sample_std_sort range
                sample_parallel_sort_perm sample_copy_order_perm
                sample_std_sort_perm sample_std_sort_sorted
                (clique 3) (line_positions 3) (flat_normals 3) (unit_areas 3) true 0
                clique_wf_3 clique_no_self_loops_3 Hbound Hi) as (Hself & Hnodup & _).
  split; [exact Hself | exact Hnodup].
Defined.

(** ** Hierarchies *)

Abbreviation sample_build :=
  (build sample_INVALID sample_RCPOVERFLOW 25 sample_sqrtf sample_parallel_sort
         sample_std_sort range identity_perm identity_perm (λ _, 1) Parallel.serial)
  (only parsing).

Abbreviation sample_propagateSolution :=
  (propagateSolution sample_INVALID sample_RCPOVERFLOW sample_sqrtf
     sample_compat_orientation sample_compat_orientation sample_compat_orientation)
  (only parsing).

Abbreviation sample_propagateConstraints :=
  (propagateConstraints sample_INVALID sample_RCPOVERFLOW sample_sqrtf
     sample_compat_orientation sample_compat_orientation sample_compat_orientation
     sample_compat_position sample_compat_position)
  (only parsing).

Lemma clique_level_ok :
  level_ok sample_INVALID (clique 3) (line_positions 3) (unit_areas 3).
Proof.
  split.
  - apply wf_adjacencyb_sound. reflexivity.
  - apply no_self_loopsb_sound. reflexivity.
  - vm_compute. discriminate.
  - reflexivity.
Qed.

Lemma area_conserved_witness :
  level_ok sample_INVALID (clique 3) (line_positions 3) (unit_areas 3) ∧
  ∃ h', (sample_build true (single_level (clique 3) 3) = Returns h'
         ∨ ∃ e, sample_build true (single_level (clique 3) 3) = Throws e h') ∧
        ∀ l, l < levels h' → (Qsum (mA h' !!! l) == Qsum (unit_areas 3))%Q.
Proof.
  split; [exact clique_level_ok|].
  destruct (area_conserved sample_INVALID sample_RCPOVERFLOW 25 sample_sqrtf
              sample_parallel_sort sample_std_sort range identity_perm identity_perm
              (λ _, 1) Parallel.serial
              sample_parallel_sort_perm sample_copy_order_perm
              sample_std_sort_perm sample_std_sort_sorted
              true (single_level (clique 3) 3)
              eq_refl eq_refl eq_refl eq_refl eq_refl clique_level_ok)
    as (h' & Hrun & _ & _ & Htotal & _).
  exists h'. split; [exact Hrun | exact Htotal].
Defined.

Lemma two_levels_wf : wf_hierarchy sample_INVALID two_levels.
Proof.
  split.
  - reflexivity.
  - intros [|[|l]] Hl; [reflexivity | reflexivity | cbn in Hl; lia].
  - reflexivity.
  - intros [|l] Hl; [reflexivity | cbn in Hl; lia].
  - intros [|l] [|c] Hl Hc; try (cbn in Hl, Hc; lia).
    vm_compute. split; [lia | right; lia].
Qed.

Lemma two_levels_solution : solution_allocated two_levels.
Proof.
  split; [reflexivity|].
  intros [|[|l]] Hl; [reflexivity | reflexivity | cbn in Hl; lia].
Qed.

Lemma two_levels_constraints : constraints_allocated two_levels.
Proof.
  split; try reflexivity;
    intros [|[|l]] Hl; try reflexivity; cbn in Hl; lia.
Qed.

Lemma aligned_levels_wf : wf_hierarchy sample_INVALID aligned_levels.
Proof.
  split.
  - reflexivity.
  - intros [|[|l]] Hl; [reflexivity | reflexivity | cbn in Hl; lia].
  - reflexivity.
  - intros [|l] Hl; [reflexivity | cbn in Hl; lia].
  - intros [|l] [|c] Hl Hc; try (cbn in Hl, Hc; lia).
    vm_compute. split; [lia | right; lia].
Qed.

Lemma aligned_levels_solution : solution_allocated aligned_levels.
Proof.
  split; [reflexivity|].
  intros [|[|l]] Hl; [reflexivity | reflexivity | cbn in Hl; lia].
Qed.

(** Two parents with the tangent [(1, 0, 0)]: the sum [(2, 0, 0)] has the
    squared norm 4, whose square root is exact, and the stored tangent
    has length one. *)
Lemma propagateSolution_tangent_witness :
  wf_hierarchy sample_INVALID aligned_levels ∧ solution_allocated aligned_levels ∧
  ∃ h', sample_propagateSolution 4%Z aligned_levels = Returns h' ∧
        (squaredNorm ((mQ h' !!! 1%nat) !!! 0%nat) == 1)%Q.
Proof.
  split; [exact aligned_levels_wf|]. split; [exact aligned_levels_solution|].
  destruct (propagateSolution_tangent sample_INVALID sample_RCPOVERFLOW sample_sqrtf
              sample_compat_orientation sample_compat_orientation
              sample_compat_orientation 4%Z sample_compat_orientation aligned_levels
              (or_intror (or_introl (conj eq_refl eq_refl)))
              aligned_levels_wf aligned_levels_solution) as (h' & Hrun & Hall).
  exists h'. split; [exact Hrun|].
  assert (Hh : Returns h' = sample_propagateSolution 4%Z aligned_levels)
    by (symmetry; exact Hrun).
  vm_compute in Hh. injection Hh as ->.
  destruct (Hall 0 0 ltac:(vm_compute; lia) ltac:(vm_compute; lia)) as [Hlong _].
  destruct (Hlong ltac:(vm_compute; reflexivity)) as [_ Hunit].
  destruct (Hunit ltac:(vm_compute; discriminate)) as [Hiff _].
  apply Hiff. vm_compute. reflexivity.
Defined.

(** The tangent of a promoted vertex that is too short to normalize is
    stored as it is, not as the zero vector. *)
Lemma short_tangent_kept :
  ∃ h', sample_propagateSolution 4%Z promoted_vertex = Returns h' ∧
        (squaredNorm short_tangent <= sample_RCPOVERFLOW)%Q ∧
        vneqb ((mQ h' !!! 1) !!! 0) short_tangent = false ∧
        vneqb ((mQ h' !!! 1) !!! 0) Vector3f_Zero = true.
Proof.
  eexists. split; [vm_compute; reflexivity|].
  split; [vm_compute; discriminate|]. split; vm_compute; reflexivity.
Qed.


Lemma empty_hierarchy_noop_witness :
  levels empty_hierarchy = 0 ∧
  clearConstraints empty_hierarchy = Returns empty_hierarchy ∧
  sample_propagateConstraints 3%Z 5%Z empty_hierarchy = Returns empty_hierarchy.
Proof.
  split; [reflexivity|].
  destruct (empty_hierarchy_noop sample_INVALID sample_RCPOVERFLOW sample_sqrtf
              sample_compat_orientation sample_compat_orientation
              sample_compat_orientation sample_compat_position sample_compat_position
              empty_hierarchy eq_refl) as [Hclear Hpropagate].
  split; [exact Hclear | exact (Hpropagate 3%Z 5%Z)].
Defined.

(** On a hierarchy without levels, [propagateConstraints] returns for
    symmetries that it does not support. *)
Lemma unsupported_symmetry_accepted :
  select_compat_orient sample_compat_orientation sample_compat_orientation
                       sample_compat_orientation 3%Z = None ∧
  select_compat_pos sample_compat_position sample_compat_position 5%Z = None ∧
  sample_propagateConstraints 3%Z 5%Z empty_hierarchy = Returns empty_hierarchy.
Proof. split; [reflexivity|]. split; reflexivity. Qed.


(** ** More examples *)

Lemma max_degreeb_sound (adj : AdjacencyMatrix) (n d : nat) :
  max_degreeb adj n d = true → max_degree adj n d.
Proof.
  unfold max_degreeb. rewrite forallb_forall. intros Hrows u Hu.
  apply Nat.leb_le, Hrows, list_elem_of_In, elem_of_range. done.
Qed.

Lemma clique_symmetric_3 : symmetric (clique 3) (length (line_positions 3)).
Proof. apply symmetricb_sound. reflexivity. Qed.

Lemma clique_bound_3 : (N.of_nat (length (line_positions 3)) <= sample_INVALID)%N.
Proof. vm_compute. discriminate. Qed.

Lemma isolated_pair_wf : wf_adjacency isolated_pair 2.
Proof. apply wf_adjacencyb_sound. reflexivity. Qed.

Lemma deterministic_degree_bound_witness :
  max_degree (clique 3) 3 2 ∧
  length (generate_graph_coloring_deterministic (clique 3) 3 (identity_perm 3)) ≤ 2 + 1.
Proof.
  assert (Hdeg : max_degree (clique 3) 3 2) by (apply max_degreeb_sound; reflexivity).
  split; [exact Hdeg|].
  exact (deterministic_degree_bound (clique 3) 3 2 (identity_perm 3)
           clique_wf_3 clique_symmetric_3 clique_no_self_loops_3
           (identity_is_permutation 3) Hdeg).
Defined.

Lemma parallel_degree_bound_witness :
  max_degree (clique 3) 3 2 ∧
  ∃ phases,
    generate_graph_coloring (clique 3) 3 (identity_perm 3) 1 (Parallel.serial 3)
    = inr phases ∧ length phases ≤ 2 + 1.
Proof.
  assert (Hdeg : max_degree (clique 3) 3 2) by (apply max_degreeb_sound; reflexivity).
  split; [exact Hdeg|].
  exact (parallel_degree_bound (clique 3) 3 2 (identity_perm 3) 1 (Parallel.serial 3)
           clique_wf_3 clique_symmetric_3 clique_no_self_loops_3
           (identity_is_permutation 3) (serial_is_schedule 3) Hdeg ltac:(lia)).
Defined.

Lemma phases_ascending_witness :
  wf_adjacency (clique 3) 3 ∧ is_schedule (Parallel.serial 3) 3 1 ∧
  Forall (λ phase, ascending phase ∧ NoDup phase)
         (generate_graph_coloring_deterministic (clique 3) 3 (identity_perm 3)).
Proof.
  split; [exact clique_wf_3|]. split; [apply serial_is_schedule|].
  exact (proj1 (phases_ascending (clique 3) 3 (identity_perm 3) 1 (Parallel.serial 3)
                  clique_wf_3 (identity_is_permutation 3) (serial_is_schedule 3))).
Defined.

Lemma phases_nonempty_witness :
  is_schedule (Parallel.serial 3) 3 1 ∧
  Forall (λ phase, phase ≠ [])
         (generate_graph_coloring_deterministic (clique 3) 3 (identity_perm 3)).
Proof.
  split; [apply serial_is_schedule|].
  exact (proj1 (phases_nonempty (clique 3) 3 (identity_perm 3) 1 (Parallel.serial 3)
                  clique_wf_3 clique_symmetric_3 clique_no_self_loops_3
                  (identity_is_permutation 3) (serial_is_schedule 3))).
Defined.

Lemma coloring_without_links_witness :
  max_degree isolated_pair 2 0 ∧
  generate_graph_coloring_deterministic isolated_pair 2 (identity_perm 2)
  = [identity_perm 2].
Proof.
  assert (Hdeg : max_degree isolated_pair 2 0) by (apply max_degreeb_sound; reflexivity).
  split; [exact Hdeg|].
  exact (proj1 (coloring_without_links isolated_pair 2 (identity_perm 2) 1
                  (Parallel.serial 2) isolated_pair_wf Hdeg
                  (identity_is_permutation 2) (serial_is_schedule 2))
               (Nat.lt_0_succ 1)).
Defined.

Lemma parents_round_trip_witness :
  wf_adjacency (clique 3) 3 ∧ no_self_loops (clique 3) 3 ∧
  at32 (to_lower (sample_downsample (clique 3) 3 true).2)
       (to_upper (sample_downsample (clique 3) 3 true).2 !!! 0%nat).1 = 0%N.
Proof.
  split; [exact clique_wf_3|]. split; [exact clique_no_self_loops_3|].
  assert (Hk : 0 < length (V_p (sample_downsample (clique 3) 3 true).2))
    by (vm_compute; lia).
  exact (proj1 (proj1 (parents_round_trip sample_INVALID sample_RCPOVERFLOW sample_sqrtf
                         sample_parallel_sort sample_std_sort range
                         sample_parallel_sort_perm sample_copy_order_perm
                         (clique 3) (line_positions 3) (flat_normals 3) (unit_areas 3)
                         true clique_wf_3 clique_no_self_loops_3) 0 Hk)).
Defined.

Lemma collapsed_pairs_are_links_witness :
  (N.of_nat 3 <= sample_INVALID)%N ∧
  0 < length (V_p (sample_downsample (clique 3) 3 true).2) ∧
  ((to_upper (sample_downsample (clique 3) 3 true).2 !!! 0%nat).1 < N.of_nat 3)%N.
Proof.
  assert (Hk : 0 < length (V_p (sample_downsample (clique 3) 3 true).2))
    by (vm_compute; lia).
  split; [exact clique_bound_3|]. split; [exact Hk|].
  exact (proj1 (collapsed_pairs_are_links sample_INVALID sample_RCPOVERFLOW sample_sqrtf
                  sample_parallel_sort sample_std_sort range
                  sample_parallel_sort_perm sample_copy_order_perm
                  (clique 3) (line_positions 3) (flat_normals 3) (unit_areas 3)
                  true 0 clique_wf_3 clique_no_self_loops_3 clique_bound_3 Hk)).
Defined.

Lemma coarse_vertex_attributes_witness :
  (N.of_nat 3 <= sample_INVALID)%N ∧
  0 < length (V_p (sample_downsample (clique 3) 3 true).2) ∧
  A_p (sample_downsample (clique 3) 3 true).2 !!! 0 = (1 + 1)%Q.
Proof.
  assert (Hk : 0 < length (V_p (sample_downsample (clique 3) 3 true).2))
    by (vm_compute; lia).
  split; [exact clique_bound_3|]. split; [exact Hk|].
  pose proof (coarse_vertex_attributes sample_INVALID sample_RCPOVERFLOW sample_sqrtf
                sample_parallel_sort sample_std_sort range
                sample_parallel_sort_perm sample_copy_order_perm
                (clique 3) (line_positions 3) (flat_normals 3) (unit_areas 3)
                true 0 clique_wf_3 clique_no_self_loops_3 clique_bound_3
                eq_refl eq_refl Hk) as Hattr.
  cbn zeta in Hattr.
  destruct (decide ((to_upper (sample_downsample (clique 3) 3 true).2 !!! 0).2
                    = sample_INVALID)) as [Hsingle|Hpair].
  - vm_compute in Hsingle. discriminate Hsingle.
  - destruct Hattr as (_ & _ & ->). vm_compute. reflexivity.
Defined.

Lemma pairs_before_singles_witness :
  (N.of_nat 3 <= sample_INVALID)%N ∧
  ((to_upper (sample_downsample (clique 3) 3 true).2 !!! 0).2 ≠ sample_INVALID
   ↔ 0 < length (line_positions 3)
         - length (V_p (sample_downsample (clique 3) 3 true).2)).
Proof.
  assert (Hk : 0 < length (V_p (sample_downsample (clique 3) 3 true).2))
    by (vm_compute; lia).
  split; [exact clique_bound_3|].
  exact (proj1 (pairs_before_singles sample_INVALID sample_RCPOVERFLOW sample_sqrtf
                  sample_parallel_sort sample_std_sort range
                  sample_parallel_sort_perm sample_copy_order_perm
                  (clique 3) (line_positions 3) (flat_normals 3) (unit_areas 3)
                  true clique_wf_3 clique_no_self_loops_3 clique_bound_3) 0 Hk).
Defined.

Lemma coarse_graph_quotient_witness :
  (N.of_nat 3 <= sample_INVALID)%N ∧
  (edge (sample_downsample (clique 3) 3 true).1 0%N 1%N ↔
   0%N ≠ 1%N ∧
   ∃ u v, (u < N.of_nat (length (line_positions 3)))%N ∧
          (v < N.of_nat (length (line_positions 3)))%N ∧
          edge (clique 3) u v ∧
          at32 (to_lower (sample_downsample (clique 3) 3 true).2) u = 0%N ∧
          at32 (to_lower (sample_downsample (clique 3) 3 true).2) v = 1%N).
Proof.
  assert (Ha : (0 < N.of_nat (length (V_p (sample_downsample (clique 3) 3 true).2)))%N)
    by (vm_compute; reflexivity).
  split; [exact clique_bound_3|].
  exact (coarse_graph_quotient sample_INVALID sample_RCPOVERFLOW sample_sqrtf
           sample_parallel_sort sample_std_sort range
           sample_parallel_sort_perm sample_copy_order_perm
           sample_std_sort_perm sample_std_sort_sorted
           (clique 3) (line_positions 3) (flat_normals 3) (unit_areas 3)
           true 0%N 1%N clique_wf_3 clique_no_self_loops_3 clique_bound_3 Ha).
Defined.

Lemma coarse_graph_symmetric_witness :
  symmetric (clique 3) 3 ∧
  symmetric (sample_downsample (clique 3) 3 true).1
            (length (V_p (sample_downsample (clique 3) 3 true).2)).
Proof.
  split; [exact clique_symmetric_3|].
  exact (coarse_graph_symmetric sample_INVALID sample_RCPOVERFLOW sample_sqrtf
           sample_parallel_sort sample_std_sort range
           sample_parallel_sort_perm sample_copy_order_perm
           sample_std_sort_perm sample_std_sort_sorted
           (clique 3) (line_positions 3) (flat_normals 3) (unit_areas 3)
           true clique_wf_3 clique_no_self_loops_3 clique_bound_3 clique_symmetric_3).
Defined.

Lemma coarse_rows_ascending_witness :
  0 < length (V_p (sample_downsample (clique 3) 3 false).2) ∧
  StronglySorted (λ x y, (id x < id y)%N)
                 (adj_row (sample_downsample (clique 3) 3 false).1 0).
Proof.
  assert (Hk : 0 < length (V_p (sample_downsample (clique 3) 3 false).2))
    by (vm_compute; lia).
  split; [exact Hk|].
  exact (coarse_rows_ascending sample_INVALID sample_RCPOVERFLOW sample_sqrtf
           sample_parallel_sort sample_std_sort range
           sample_parallel_sort_perm sample_copy_order_perm
           sample_std_sort_perm sample_std_sort_sorted
           (clique 3) (line_positions 3) (flat_normals 3) (unit_areas 3)
           false 0 clique_wf_3 clique_no_self_loops_3 clique_bound_3 Hk).
Defined.

Lemma matching_maximal_witness :
  (0 < N.of_nat (length (line_positions 3)))%N ∧ edge (clique 3) 0%N 1%N ∧
  ((to_upper (sample_downsample (clique 3) 3 true).2
      !!! N.to_nat (at32 (to_lower (sample_downsample (clique 3) 3 true).2) 0%N)).2
     ≠ sample_INVALID ∨
   (to_upper (sample_downsample (clique 3) 3 true).2
      !!! N.to_nat (at32 (to_lower (sample_downsample (clique 3) 3 true).2) 1%N)).2
     ≠ sample_INVALID).
Proof.
  assert (Hu : (0 < N.of_nat (length (line_positions 3)))%N) by (vm_compute; reflexivity).
  assert (Hedge : edge (clique 3) 0%N 1%N).
  { apply edge_link. exists (mkLink 1%N 1%Q). split; [|reflexivity].
    vm_compute. left. }
  split; [exact Hu|]. split; [exact Hedge|].
  exact (matching_maximal sample_INVALID sample_RCPOVERFLOW sample_sqrtf
           sample_parallel_sort sample_std_sort range
           sample_parallel_sort_perm sample_copy_order_perm
           (clique 3) (line_positions 3) (flat_normals 3) (unit_areas 3)
           true 0%N 1%N clique_wf_3 clique_no_self_loops_3 clique_bound_3 Hu Hedge).
Defined.

Lemma coarse_links_bound_witness :
  (N.of_nat (length (line_positions 3)) <= sample_INVALID)%N ∧
  link_count (sample_downsample (clique 3) 3 true).1
             (length (V_p (sample_downsample (clique 3) 3 true).2))
  ≤ link_count (clique 3) (length (line_positions 3)).
Proof.
  split; [exact clique_bound_3|].
  exact (coarse_links_bound sample_INVALID sample_RCPOVERFLOW sample_sqrtf
           sample_parallel_sort sample_std_sort range
           sample_parallel_sort_perm sample_copy_order_perm
           sample_std_sort_perm sample_std_sort_sorted
           (clique 3) (line_positions 3) (flat_normals 3) (unit_areas 3)
           true clique_wf_3 clique_no_self_loops_3 clique_bound_3).
Defined.

Lemma single_level_finest :
  finest_level_only sample_INVALID (single_level (clique 3) 3).
Proof. split; try reflexivity. exact clique_level_ok. Qed.

Lemma isolated_pair_finest :
  finest_level_only sample_INVALID (single_level isolated_pair 2).
Proof.
  split; try reflexivity. split.
  - apply wf_adjacencyb_sound. reflexivity.
  - apply no_self_loopsb_sound. reflexivity.
  - vm_compute. discriminate.
  - reflexivity.
Qed.

Lemma build_levels_coarsened_witness :
  finest_level_only sample_INVALID (single_level (clique 3) 3) ∧
  ∃ h', (sample_build true (single_level (clique 3) 3) = Returns h'
         ∨ true = false ∧ ∃ e, sample_build true (single_level (clique 3) 3) = Throws e h')
        ∧ 1 ≤ levels h' ≤ 25 + 1.
Proof.
  split; [exact single_level_finest|].
  destruct (build_levels_coarsened sample_INVALID sample_RCPOVERFLOW 25 sample_sqrtf
              sample_parallel_sort sample_std_sort range identity_perm identity_perm
              (λ _, 1) Parallel.serial
              sample_parallel_sort_perm sample_copy_order_perm
              sample_std_sort_perm sample_std_sort_sorted
              true (single_level (clique 3) 3) single_level_finest)
    as (h' & Hrun & Hlevels & _).
  exists h'. split; [exact Hrun | exact Hlevels].
Defined.

Lemma build_stops_witness :
  finest_level_only sample_INVALID (single_level (clique 3) 3) ∧
  match sample_build true (single_level (clique 3) 3) with
  | Returns h' => levels h' = 25 + 1 ∨ 2 ≤ levels h' ∧ size h' (levels h' - 1) = 1
  | Throws _ _ => true = false
  end.
Proof.
  split; [exact single_level_finest|].
  pose proof (build_stops sample_INVALID sample_RCPOVERFLOW 25 sample_sqrtf
                sample_parallel_sort sample_std_sort range identity_perm identity_perm
                (λ _, 1) Parallel.serial
                sample_parallel_sort_perm sample_copy_order_perm
                sample_std_sort_perm sample_std_sort_sorted
                true (single_level (clique 3) 3) single_level_finest) as Hstops.
  destruct (sample_build true (single_level (clique 3) 3)) as [h'|e h'].
  - exact (proj1 Hstops).
  - exact Hstops.
Defined.

Lemma build_well_formed_witness :
  finest_level_only sample_INVALID (single_level (clique 3) 3) ∧
  wf_hierarchy sample_INVALID (state_of (sample_build true (single_level (clique 3) 3))).
Proof.
  split; [exact single_level_finest|].
  exact (proj1 (build_well_formed sample_INVALID sample_RCPOVERFLOW 25 sample_sqrtf
                  sample_parallel_sort sample_std_sort range identity_perm identity_perm
                  (λ _, 1) Parallel.serial
                  sample_parallel_sort_perm sample_copy_order_perm
                  sample_std_sort_perm sample_std_sort_sorted
                  true (single_level (clique 3) 3) single_level_finest)).
Defined.

Lemma build_bookkeeping_witness :
  finest_level_only sample_INVALID (single_level (clique 3) 3) ∧
  match sample_build true (single_level (clique 3) 3) with
  | Returns h' => length (mPhases h') = levels h'
  | Throws _ h' => mQ h' = []
  end.
Proof.
  split; [exact single_level_finest|].
  pose proof (build_bookkeeping sample_INVALID sample_RCPOVERFLOW 25 sample_sqrtf
                sample_parallel_sort sample_std_sort range identity_perm identity_perm
                (λ _, 1) Parallel.serial
                sample_parallel_sort_perm sample_copy_order_perm
                sample_std_sort_perm sample_std_sort_sorted
                true (single_level (clique 3) 3) single_level_finest) as Hbook.
  destruct (sample_build true (single_level (clique 3) 3)) as [h'|e h'].
  - exact (proj1 Hbook).
  - exact (proj1 Hbook).
Defined.

Lemma build_sizes_witness :
  finest_level_only sample_INVALID (single_level (clique 3) 3) ∧
  ∀ l, l < levels (state_of (sample_build true (single_level (clique 3) 3))) →
       size (state_of (sample_build true (single_level (clique 3) 3))) l ≤ 3 ∧
       3 ≤ 2 ^ l * size (state_of (sample_build true (single_level (clique 3) 3))) l.
Proof.
  split; [exact single_level_finest|].
  exact (proj2 (build_sizes sample_INVALID sample_RCPOVERFLOW 25 sample_sqrtf
                  sample_parallel_sort sample_std_sort range identity_perm identity_perm
                  (λ _, 1) Parallel.serial
                  sample_parallel_sort_perm sample_copy_order_perm
                  sample_std_sort_perm sample_std_sort_sorted
                  true (single_level (clique 3) 3) single_level_finest)).
Defined.

Lemma build_phases_valid_witness :
  finest_level_only sample_INVALID (single_level (clique 3) 3) ∧
  symmetric (clique 3) 3 ∧
  ∀ l, l < length (mPhases (state_of (sample_build true (single_level (clique 3) 3)))) →
       valid_phases
         (mAdj (state_of (sample_build true (single_level (clique 3) 3))) !!! l)
         (size (state_of (sample_build true (single_level (clique 3) 3))) l)
         (mPhases (state_of (sample_build true (single_level (clique 3) 3))) !!! l).
Proof.
  split; [exact single_level_finest|]. split; [exact clique_symmetric_3|].
  exact (build_phases_valid sample_INVALID sample_RCPOVERFLOW 25 sample_sqrtf
           sample_parallel_sort sample_std_sort range identity_perm identity_perm
           (λ _, 1) Parallel.serial
           sample_parallel_sort_perm sample_copy_order_perm
           sample_std_sort_perm sample_std_sort_sorted
           true (single_level (clique 3) 3) single_level_finest clique_symmetric_3
           identity_is_permutation).
Defined.

Lemma isolated_pair_no_links :
  link_count (mAdj (single_level isolated_pair 2) !!! 0)
             (size (single_level isolated_pair 2) 0) = 0.
Proof. reflexivity. Qed.

Lemma build_without_links_witness :
  finest_level_only sample_INVALID (single_level isolated_pair 2) ∧
  link_count (mAdj (single_level isolated_pair 2) !!! 0)
             (size (single_level isolated_pair 2) 0) = 0 ∧
  ∀ l, l < levels (state_of (sample_build true (single_level isolated_pair 2))) →
       size (state_of (sample_build true (single_level isolated_pair 2))) l
       = size (single_level isolated_pair 2) 0.
Proof.
  split; [exact isolated_pair_finest|]. split; [exact isolated_pair_no_links|].
  pose proof (build_without_links sample_INVALID sample_RCPOVERFLOW 25
                sample_sqrtf sample_parallel_sort sample_std_sort range
                identity_perm identity_perm (λ _, 1) Parallel.serial
                sample_parallel_sort_perm sample_copy_order_perm
                sample_std_sort_perm sample_std_sort_sorted
                true (single_level isolated_pair 2) isolated_pair_finest
                isolated_pair_no_links) as [Hall _].
  intros l Hl. destruct (Hall l Hl) as [Hsize _]. exact Hsize.
Defined.

(** ** Propagation and the random solution *)

Lemma propagateSolution_frame_witness :
  solution_allocated two_levels ∧
  ∃ h', sample_propagateSolution 4%Z two_levels = Returns h' ∧
        mQ h' !!! 0 = mQ two_levels !!! 0.
Proof.
  split; [exact two_levels_solution|].
  destruct (propagateSolution_frame sample_INVALID sample_RCPOVERFLOW sample_sqrtf
              sample_compat_orientation sample_compat_orientation
              sample_compat_orientation 4%Z two_levels
              (or_intror (or_introl eq_refl)) two_levels_wf two_levels_solution)
    as (h' & Hrun & _ & _ & Hfirst & _).
  exists h'. split; [exact Hrun | exact Hfirst].
Defined.

Lemma propagateSolution_tangent_plane_witness :
  solution_allocated two_levels ∧
  ∃ h', sample_propagateSolution 4%Z two_levels = Returns h' ∧
        (dot ((mN two_levels !!! 1%nat) !!! 0%nat) ((mQ h' !!! 1%nat) !!! 0%nat) == 0)%Q.
Proof.
  split; [exact two_levels_solution|].
  destruct (propagateSolution_tangent_plane sample_INVALID sample_RCPOVERFLOW sample_sqrtf
              sample_compat_orientation sample_compat_orientation
              sample_compat_orientation 4%Z two_levels
              (or_intror (or_introl eq_refl)) two_levels_wf two_levels_solution)
    as (h' & Hrun & Hplane).
  exists h'. split; [exact Hrun|].
  apply (Hplane 0 0); [vm_compute; lia | vm_compute; lia | reflexivity].
Defined.

Lemma clearConstraints_allocates_witness :
  length (mCQ two_levels) = levels two_levels ∧
  ∃ h', clearConstraints two_levels = Returns h' ∧ constraints_allocated h'.
Proof.
  split; [reflexivity|].
  destruct (clearConstraints_allocates two_levels eq_refl eq_refl eq_refl eq_refl)
    as (h' & Hrun & _ & Halloc & _).
  exists h'. split; [exact Hrun | exact Halloc].
Defined.

Lemma propagateConstraints_frame_witness :
  constraints_allocated two_levels ∧
  ∃ h', sample_propagateConstraints 4%Z 4%Z two_levels = Returns h' ∧
        constraints_allocated h'.
Proof.
  split; [exact two_levels_constraints|].
  destruct (propagateConstraints_frame sample_INVALID sample_RCPOVERFLOW sample_sqrtf
              sample_compat_orientation sample_compat_orientation
              sample_compat_orientation sample_compat_position sample_compat_position
              4%Z 4%Z two_levels
              (or_intror (or_introl eq_refl)) (or_intror eq_refl)
              two_levels_wf two_levels_constraints) as (h' & Hrun & _ & Halloc & _).
  exists h'. split; [exact Hrun | exact Halloc].
Defined.

Lemma unconstrained_levels_wf : wf_hierarchy sample_INVALID unconstrained_levels.
Proof.
  split.
  - reflexivity.
  - intros [|[|l]] Hl; [reflexivity | reflexivity | cbn in Hl; lia].
  - reflexivity.
  - intros [|l] Hl; [reflexivity | cbn in Hl; lia].
  - intros [|l] [|c] Hl Hc; try (cbn in Hl, Hc; lia).
    vm_compute. split; [lia | right; lia].
Qed.

Lemma unconstrained_levels_constraints : constraints_allocated unconstrained_levels.
Proof.
  split; try reflexivity;
    intros [|[|l]] Hl; try reflexivity; cbn in Hl; lia.
Qed.

Lemma propagateConstraints_none_witness :
  constraints_allocated unconstrained_levels ∧
  Forall (λ w, (w == 0)%Q) (mCQw unconstrained_levels !!! 0) ∧
  ∃ h', sample_propagateConstraints 4%Z 4%Z unconstrained_levels = Returns h' ∧
        mCQ h' !!! 1 = replicate (size unconstrained_levels 1) Vector3f_Zero.
Proof.
  assert (Hq : Forall (λ w, (w == 0)%Q) (mCQw unconstrained_levels !!! 0)).
  { repeat constructor. }
  assert (Ho : Forall (λ w, (w == 0)%Q) (mCOw unconstrained_levels !!! 0)).
  { repeat constructor. }
  split; [exact unconstrained_levels_constraints|]. split; [exact Hq|].
  destruct (propagateConstraints_none sample_INVALID sample_RCPOVERFLOW sample_sqrtf
              sample_compat_orientation sample_compat_orientation
              sample_compat_orientation sample_compat_position sample_compat_position
              4%Z 4%Z unconstrained_levels
              (or_intror (or_introl eq_refl)) (or_intror eq_refl)
              unconstrained_levels_wf unconstrained_levels_constraints Hq Ho)
    as (h' & Hrun & Hnone).
  exists h'. split; [exact Hrun|].
  exact (proj1 (Hnone 1 ltac:(vm_compute; lia))).
Defined.

Lemma propagateConstraints_tangent_plane_witness :
  constraints_allocated two_levels ∧
  ∃ h', sample_propagateConstraints 4%Z 4%Z two_levels = Returns h' ∧
        (dot ((mN two_levels !!! 1%nat) !!! 0%nat) ((mCQ h' !!! 1%nat) !!! 0%nat) == 0)%Q.
Proof.
  split; [exact two_levels_constraints|].
  destruct (propagateConstraints_tangent_plane sample_INVALID sample_RCPOVERFLOW
              sample_sqrtf sample_compat_orientation sample_compat_orientation
              sample_compat_orientation sample_compat_position sample_compat_position
              4%Z 4%Z two_levels
              (or_intror (or_introl eq_refl)) (or_intror eq_refl)
              two_levels_wf two_levels_constraints) as (h' & Hrun & Hplane).
  exists h'. split; [exact Hrun|].
  apply (Hplane 0 0); [vm_compute; lia | vm_compute; lia | reflexivity].
Defined.

Lemma sample_ranges_blocked : blocked_ranges (sample_ranges 2) 2.
Proof.
  split; [repeat constructor|].
  change ([1; 0] ≡ₚ [0; 1]). apply perm_swap.
Qed.

Lemma init_random_tangent_blocks_witness :
  blocked_ranges (sample_ranges 2) (length (flat_normals 2)) ∧
  init_random_tangent sample_coordinate_system sample_pcg32_float sample_cosf sample_sinf
                      sample_M_PI (sample_ranges 2) (flat_normals 2) []
  = random_tangent sample_coordinate_system sample_pcg32_float sample_cosf sample_sinf
                   sample_M_PI (flat_normals 2) <$> range 2.
Proof.
  split; [exact sample_ranges_blocked|].
  exact (init_random_tangent_blocks sample_coordinate_system sample_pcg32_float
           sample_cosf sample_sinf sample_M_PI (sample_ranges 2) (flat_normals 2) []
           sample_ranges_blocked).
Defined.

Lemma init_random_position_blocks_witness :
  blocked_ranges (sample_ranges 2) (length (flat_normals 2)) ∧
  (N.of_nat (length (flat_normals 2)) <= 2 ^ 31)%N ∧
  init_random_position sample_coordinate_system sample_pcg32_float
                       (sample_ranges 2) (line_positions 2) (flat_normals 2) [] 1%Q
  = random_position sample_coordinate_system sample_pcg32_float
                    (line_positions 2) (flat_normals 2) 1%Q <$> range 2.
Proof.
  assert (Hsmall : (N.of_nat (length (flat_normals 2)) <= 2 ^ 31)%N)
    by (vm_compute; discriminate).
  split; [exact sample_ranges_blocked|]. split; [exact Hsmall|].
  exact (init_random_position_blocks sample_coordinate_system sample_pcg32_float
           (sample_ranges 2) (line_positions 2) (flat_normals 2) [] 1%Q
           sample_ranges_blocked eq_refl Hsmall).
Defined.

Lemma resetSolution_allocates_witness :
  length (mO two_levels) = length (mQ two_levels) ∧
  solution_allocated
    (resetSolution sample_coordinate_system sample_pcg32_float sample_cosf sample_sinf
                   sample_M_PI (λ _, sample_ranges 2) (λ _, sample_ranges 2) two_levels).
Proof.
  split; [reflexivity|].
  refine (proj1 (proj2 (resetSolution_allocates sample_coordinate_system
                          sample_pcg32_float sample_cosf sample_sinf sample_M_PI
                          (λ _, sample_ranges 2) (λ _, sample_ranges 2) two_levels
                          eq_refl _ eq_refl))).
  intros [|[|l]] Hl; [reflexivity | reflexivity | cbn in Hl; lia].
Defined.

